(** * tgimg-core: the ThumbHash codec

    A shallow embedding of the Go encoder
    ([cli/internal/thumbhash/thumbhash.go]) and of the TypeScript decoder
    ([thumbHashToRGBA], [thumbHashToDataURL] and their helpers), with the
    properties of the wire format, of the basis dimensions, of the
    quantizers and of the post-processing pipeline.

    Conventions.
    - Go [int] is a 64-bit two's complement integer: [Z] with [wrap64]
      written where the source multiplies or subtracts source dimensions
      and coordinates ([thumbDims], [srcSpan], [Dx], [Dy]); offsets into
      a slice are exact, as they are wherever the load does not panic.
      [uint32], [uint16] and [byte] are [Z] reduced modulo [2^32],
      [2^16], [2^8].
    - A finite [float32] or [float64] is the rational number it denotes.
      Every floating-point operation is the exact operation on [Q]
      followed by the rounding operator of its format ([rounding] below).
      NaN and the infinities are outside the model.
    - Slices and typed arrays are lists; a store at an index is [upd];
      a load is [ld] (default [0]).  A typed array reads [undefined]
      outside, which the bitwise operators of the decoder's header and
      nibble reads take as 0; a Go slice panics outside, so the
      statements that [Encode] returns a hash carry [samplesInRange].
      Loops over [0 <= i < n] are [forZ]. *)

From Stdlib Require Import ZArith QArith Qround Qabs List Bool Lia Lqa Psatz.
From Stdlib Require String.
Import ListNotations.

Set Implicit Arguments.

(* ================================================================= *)
(** ** Loops, loads and stores *)

Module Store.

(** [for i := 0; i < n; i++ { s = body i s }]. *)
Definition for_loop {S : Type} (n : nat) (body : nat -> S -> S) (s : S) : S :=
  fold_left (fun acc i => body i acc) (seq 0 n) s.

Definition forZ {S : Type} (n : Z) (body : Z -> S -> S) (s : S) : S :=
  for_loop (Z.to_nat n) (fun i => body (Z.of_nat i)) s.

(** [l[i]] with an integer index. *)
Definition ld {A : Type} (d : A) (l : list A) (i : Z) : A :=
  if (i <? 0)%Z then d else nth (Z.to_nat i) l d.

Fixpoint upd_nat {A : Type} (i : nat) (v : A) (l : list A) : list A :=
  match l, i with
  | [], _ => []
  | _ :: t, O => v :: t
  | x :: t, S j => x :: upd_nat j v t
  end.

(** [l[i] = v]; an index outside the slice leaves it as it is (the source
    never stores outside its slices, see the range lemmas). *)
Definition upd {A : Type} (i : Z) (v : A) (l : list A) : list A :=
  if (i <? 0)%Z then l else upd_nat (Z.to_nat i) v l.

(** [l[lo:hi]]. *)
Definition slice {A : Type} (lo hi : Z) (l : list A) : list A :=
  firstn (Z.to_nat (hi - lo)) (skipn (Z.to_nat lo) l).

End Store.
Export Store.

(* ================================================================= *)
(** ** Machine integers *)

Module GoInt.

Definition wrap64 (z : Z) : Z := ((z + 2^63) mod 2^64 - 2^63)%Z.
Definition uint32 (z : Z) : Z := (z mod 2^32)%Z.
Definition uint16 (z : Z) : Z := (z mod 2^16)%Z.
Definition byte (z : Z) : Z := (z mod 2^8)%Z.

Definition boolU32 (b : bool) : Z := if b then 1%Z else 0%Z.

Definition max1 (v : Z) : Z := if (v <? 1)%Z then 1%Z else v.

Definition imax (a b : Z) : Z := if (a >? b)%Z then a else b.

Definition int32 (z : Z) : Z := ((z + 2^31) mod 2^32 - 2^31)%Z.

(** [clampByte] clamps an [int32] to [0, 255]. *)
Definition clampByte (v : Z) : Z :=
  if (v <? 0)%Z then 0%Z else if (v >? 255)%Z then 255%Z else v.

End GoInt.
Export GoInt.

(* ================================================================= *)
(** ** Floating point *)

Module Float.

Definition Qltb (x y : Q) : bool :=
  match x ?= y with Lt => true | _ => false end.

(** A binary floating-point format is seen through its rounding operator
    [rnd : Q -> Q] (round to nearest).  What the proofs use of it:
    it respects equality of rationals, is monotone, is the identity on
    what it returns, and is exact on the integers and half-integers of
    at most 24 bits, which [float32] and [float64] both represent. *)
Record rounding_laws (rnd : Q -> Q) : Prop := RoundingLaws {
  rnd_proper : forall x y, x == y -> rnd x == rnd y;
  rnd_mono : forall x y, x <= y -> rnd x <= rnd y;
  rnd_idem : forall x, rnd (rnd x) == rnd x;
  rnd_half : forall n : Z, (Z.abs n <= 2 ^ 24)%Z -> rnd (n # 2) == n # 2
}.

(** The nearest integer, halves to the even one. *)
Definition round_half_even (x : Q) : Z :=
  let f := Qfloor x in
  match ((x - inject_Z f) ?= (1 # 2))%Q with
  | Lt => f
  | Gt => (f + 1)%Z
  | Eq => if Z.even f then f else (f + 1)%Z
  end.

(** [m * 2^e], in lowest terms. *)
Fixpoint trailing_zeros (p : positive) : Z :=
  match p with
  | xO p' => (1 + trailing_zeros p')%Z
  | _ => 0%Z
  end.

Definition dyadic (m e : Z) : Q :=
  if (0 <=? e)%Z then inject_Z (Z.shiftl m e)
  else
    match m with
    | Z0 => 0
    | Zpos p | Zneg p =>
        let t := Z.min (trailing_zeros p) (- e) in
        Z.shiftr m t # Z.to_pos (Z.shiftl 1 (- e - t))
    end.

(** IEEE 754 round-to-nearest-even to [prec] bits, with gradual underflow
    at the exponent [emin] and no overflow: with [lg] the binary logarithm
    of [|q|] rounded down and [e = max (lg - prec + 1) emin], the result
    is [m * 2^e] for the integer [m] nearest to [|q| / 2^e]. *)
Definition ieee_round (prec emin : Z) (q : Q) : Q :=
  match Qnum q with
  | Z0 => 0
  | Zpos n | Zneg n =>
      let d := Qden q in
      let k := (Z.log2 (Zpos n) - Z.log2 (Zpos d))%Z in
      let below :=
        if (0 <=? k)%Z then (Zpos n <? Z.shiftl (Zpos d) k)%Z
        else (Z.shiftl (Zpos n) (- k) <? Zpos d)%Z in
      let lg := if below then (k - 1)%Z else k in
      let e := Z.max (lg - prec + 1) emin in
      let num := if (0 <=? e)%Z then Zpos n else Z.shiftl (Zpos n) (- e) in
      let den := if (0 <=? e)%Z then Z.shiftl (Zpos d) e else Zpos d in
      let '(f, r) := Z.div_eucl num den in
      let m :=
        match (2 * r ?= den)%Z with
        | Lt => f
        | Gt => (f + 1)%Z
        | Eq => if Z.even f then f else (f + 1)%Z
        end in
      dyadic (if (Qnum q <? 0)%Z then (- m)%Z else m) e
  end.

Definition binary32 : Q -> Q := ieee_round 24 (-149).
Definition binary64 : Q -> Q := ieee_round 53 (-1074).

(** Go's [math.Round]: the nearest integer, halves away from zero.  The
    result is an integer-valued float; it is given as the integer. *)
Definition math_Round (x : Q) : Z :=
  if Qltb x 0 then (- Qfloor (- x + (1 # 2)))%Z else Qfloor (x + (1 # 2)).

(** JavaScript's [Math.round]: the nearest integer, halves towards
    positive infinity. *)
Definition Math_round (x : Q) : Z := Qfloor (x + (1 # 2)).

(** [math.Pi] and [Math.PI]: the double [0x400921FB54442D18]. *)
Definition math_Pi : Q := 884279719003555 # 281474976710656.

Definition clamp01f (v : Q) : Q :=
  if Qltb v 0 then 0 else if Qltb 1 v then 1 else v.

(** [int(math.Round(float64(v)))]: the widening is exact. *)
Definition roundF (v : Q) : Z := math_Round v.

End Float.
Export Float.

(* ================================================================= *)
(** ** The encoder: proxy dimensions *)

Module Enc.

Definition maxThumbDim : Z := 100.

Definition thumbDims (srcW srcH : Z) : Z * Z :=
  if ((srcW <=? maxThumbDim) && (srcH <=? maxThumbDim))%Z%bool then (srcW, srcH)
  else if (srcW >=? srcH)%Z then
    (maxThumbDim, max1 (Z.quot (wrap64 (srcH * maxThumbDim)) srcW))
  else
    (max1 (Z.quot (wrap64 (srcW * maxThumbDim)) srcH), maxThumbDim).

(** [image.Rectangle]. *)
Record Rectangle : Type := Rect {
  MinX : Z; MinY : Z; MaxX : Z; MaxY : Z
}.
(** [Rectangle.Dx] and [Rectangle.Dy]: differences of two [int]s. *)
Definition Dx (r : Rectangle) : Z := wrap64 (MaxX r - MinX r).
Definition Dy (r : Rectangle) : Z := wrap64 (MaxY r - MinY r).

(** [image.YCbCrSubsampleRatio]. *)
Inductive SubsampleRatio : Type :=
  Ratio444 | Ratio422 | Ratio420 | Ratio440 | Ratio411 | Ratio410.

(** The source layouts [Encode] dispatches on: the four concrete image
    types with a fast path (byte planes, strides, [Rect]) and any other
    [image.Image], given by its bounds and by what [At(x, y).RGBA()]
    returns (alpha-premultiplied 16-bit channels). *)
Inductive Image : Type :=
| NRGBA (Pix : list Z) (Stride : Z) (R : Rectangle)
| RGBA (Pix : list Z) (Stride : Z) (R : Rectangle)
| YCbCr (Y Cb Cr : list Z) (YStride CStride : Z)
        (Ratio : SubsampleRatio) (R : Rectangle)
| Gray (Pix : list Z) (Stride : Z) (R : Rectangle)
| Generic (B : Rectangle) (At : Z -> Z -> Z * Z * Z * Z).

Definition Bounds (img : Image) : Rectangle :=
  match img with
  | NRGBA _ _ r | RGBA _ _ r | Gray _ _ r => r
  | YCbCr _ _ _ _ _ _ r => r
  | Generic b _ => b
  end.

(** [srcSpan]: the source interval of destination cell [d], in [int]
    arithmetic. *)
Definition srcSpan (d dstSize srcSize : Z) : Z * Z :=
  let s0 := Z.quot (wrap64 (d * srcSize)) dstSize in
  let s1 := Z.quot (wrap64 (wrap64 (d + 1) * srcSize)) dstSize in
  let s1 := if (s1 <=? s0)%Z then wrap64 (s0 + 1) else s1 in
  let s1 := if (s1 >? srcSize)%Z then srcSize else s1 in
  (s0, s1).

(** [zeroF32]. *)
Definition zeroF32 (s : list Q) : list Q :=
  forZ (Z.of_nat (length s)) (fun i s => upd i 0 s) s.

(** The scratch region leased from [wbPool]. *)
Record workBuf : Type := WorkBuf {
  rgba : list Q;   (* [maxThumbDim * maxThumbDim * 4]float32 *)
  cosX : list Q;   (* [8 * maxThumbDim]float32 *)
  cosY : list Q;   (* [8 * maxThumbDim]float32 *)
  ac : list Q      (* [128]float32 *)
}.

(** A buffer of the sizes the Go type fixes, whatever it holds. *)
Definition workBuf_sized (wb : workBuf) : Prop :=
  Z.of_nat (length (rgba wb)) = 40000%Z /\
  Z.of_nat (length (cosX wb)) = 800%Z /\
  Z.of_nat (length (cosY wb)) = 800%Z /\
  Z.of_nat (length (ac wb)) = 128%Z.

(** The state of [encodeChan]'s coefficient loop. *)
Record chanState : Type := ChanState {
  dc : Q; acMax : Q; idx : Z; dst : list Q
}.

(** The fields [assembleHash] quantizes and packs. *)
Record channels : Type := Channels {
  hasAlpha : bool;
  lx : Z; ly : Z; px : Z; py : Z; ax : Z; ay : Z;
  lScale : Q; lDC : Q; pScale : Q; pDC : Q; qScale : Q; qDC : Q;
  aScale : Q; aDC : Q;
  lAC : list Q; pAC : list Q; qAC : list Q; aAC : list Q
}.

Section Encoder.

(** The rounding operators of [float32] and [float64], and [math.Cos]. *)
Variables F32 F64 cos64 : Q -> Q.

(** [float32(n)] and [float64(n)] of an integer. *)
Definition f32_of_int (n : Z) : Q := F32 (inject_Z n).
Definition f64_of_int (n : Z) : Q := F64 (inject_Z n).

(** The alpha-weighted average colour and the mean alpha. *)
Definition avgColor (count : Z) (rgba : list Q) : Q * Q * Q * Q :=
  let '(avgR, avgG, avgB, avgA) :=
    forZ count (fun i '(avgR, avgG, avgB, avgA) =>
      let a := ld 0 rgba (i * 4 + 3) in
      (F32 (avgR + F32 (a * ld 0 rgba (i * 4))),
       F32 (avgG + F32 (a * ld 0 rgba (i * 4 + 1))),
       F32 (avgB + F32 (a * ld 0 rgba (i * 4 + 2))),
       F32 (avgA + a))) (0, 0, 0, 0) in
  let '(avgR, avgG, avgB) :=
    if Qltb 0 avgA
    then (F32 (avgR / avgA), F32 (avgG / avgA), F32 (avgB / avgA))
    else (avgR, avgG, avgB) in
  (avgR, avgG, avgB, F32 (avgA / f32_of_int count)).

(** [max1(roundF(float32(limit*side) / float32(maxWH)))]. *)
Definition basisDim (limit side maxWH : Z) : Z :=
  max1 (roundF (F32 (f32_of_int (limit * side) / f32_of_int maxWH))).

(** RGBA to LPQA, in place. *)
Definition toLPQA (count : Z) (rgba : list Q) : list Q :=
  forZ count (fun i rgba =>
    let off := (i * 4)%Z in
    let af := ld 0 rgba (off + 3) in
    let r := F32 (ld 0 rgba off * af) in
    let g := F32 (ld 0 rgba (off + 1) * af) in
    let b := F32 (ld 0 rgba (off + 2) * af) in
    let rgba := upd off (F32 (F32 (F32 (r + g) + b) / 3)) rgba in
    let rgba := upd (off + 1) (F32 (F32 (F32 (r + g) / 2) - b)) rgba in
    upd (off + 2) (F32 (r - g)) rgba) rgba.

(** The cosine table of one axis: [tab[c*n + i] = cos(pi*c*(i+0.5)/n)]. *)
Definition cosTable (maxN n : Z) (tab : list Q) : list Q :=
  forZ maxN (fun c tab =>
    let s := F64 (F64 (math_Pi * f64_of_int c) / f64_of_int n) in
    let base := (c * n)%Z in
    forZ n (fun i tab =>
      upd (base + i) (F32 (cos64 (F64 (s * F64 (f64_of_int i + (1 # 2)))))) tab)
      tab) tab.

(** The inner double sum of [encodeChan] for one [(cx, cy)]. *)
Definition dctSum (data : list Q) (chanOff stride w h : Z)
    (cosX cosY : list Q) (cxBase cyBase : Z) : Q :=
  forZ h (fun y f =>
    let fy := ld 0 cosY (cyBase + y) in
    let rowOff := (y * w * stride)%Z in
    forZ w (fun x f =>
      F32 (f + F32 (F32 (ld 0 data (rowOff + x * stride + chanOff)
                         * ld 0 cosX (cxBase + x)) * fy))) f) 0.

(** [encodeChan]: the DCT coefficients of one LPQA channel.  Returns
    [(acMax, dc)] and the slice [dst] as the call leaves it. *)
Definition encodeChan (data : list Q) (chanOff stride w h nx ny : Z)
    (cosX cosY dst0 : list Q) : Q * Q * list Q :=
  let wh := f32_of_int (w * h) in
  let st :=
    forZ ny (fun cy st =>
      let cyBase := (cy * h)%Z in
      forZ nx (fun cx st =>
        let cxBase := (cx * w)%Z in
        let f := F32 (dctSum data chanOff stride w h cosX cosY cxBase cyBase / wh) in
        if ((cx =? 0) && (cy =? 0))%Z%bool then
          {| dc := f; acMax := acMax st; idx := idx st; dst := dst st |}
        else
          let af := if Qltb f 0 then - f else f in
          {| dc := dc st;
             acMax := if Qltb (acMax st) af then af else acMax st;
             idx := (idx st + 1)%Z;
             dst := upd (idx st) f (dst st) |}) st)
      {| dc := 0; acMax := 0; idx := 0%Z; dst := dst0 |} in
  let dst' :=
    if Qltb 0 (acMax st) then
      let inv := F32 (1 / acMax st) in
      forZ (idx st) (fun i d => upd i (F32 (ld 0 d i * inv)) d) (dst st)
    else dst st in
  (acMax st, dc st, dst').

(** The first part of [assembleHash]: average colour, basis selection,
    LPQA conversion, cosine tables, and the four [encodeChan] calls on
    the partition of [wb.ac].  Returns the fields to pack and the work
    buffer as the call leaves it. *)
Definition transform (w h : Z) (wb : workBuf) : channels * workBuf :=
  let count := (w * h)%Z in
  let rgba0 := slice 0 (count * 4) (rgba wb) in
  let '(_, _, _, avgA) := avgColor count rgba0 in
  let hasAlpha := Qltb avgA 1 in
  let lLimit := if hasAlpha then 5%Z else 7%Z in
  let maxWH := imax w h in
  let lx := basisDim lLimit w maxWH in
  let ly := basisDim lLimit h maxWH in
  let px := basisDim 3 w maxWH in
  let py := basisDim 3 h maxWH in
  let ax := if hasAlpha then basisDim 5 w maxWH else 0%Z in
  let ay := if hasAlpha then basisDim 5 h maxWH else 0%Z in
  let rgba1 := toLPQA count rgba0 in
  let maxNx := imax lx px in
  let maxNy := imax ly py in
  let maxNx := if hasAlpha then imax maxNx ax else maxNx in
  let maxNy := if hasAlpha then imax maxNy ay else maxNy in
  let cosX1 := cosTable maxNx w (slice 0 (maxNx * w) (cosX wb)) in
  let cosY1 := cosTable maxNy h (slice 0 (maxNy * h) (cosY wb)) in
  let lN := (lx * ly - 1)%Z in
  let pN := (px * py - 1)%Z in
  let qN := pN in
  let aN := if hasAlpha then (ax * ay - 1)%Z else 0%Z in
  let '(lScale, lDC, lAC) :=
    encodeChan rgba1 0 4 w h lx ly cosX1 cosY1 (slice 0 lN (ac wb)) in
  let '(pScale, pDC, pAC) :=
    encodeChan rgba1 1 4 w h px py cosX1 cosY1 (slice lN (lN + pN) (ac wb)) in
  let '(qScale, qDC, qAC) :=
    encodeChan rgba1 2 4 w h px py cosX1 cosY1
      (slice (lN + pN) (lN + pN + qN) (ac wb)) in
  let '(aScale, aDC, aAC) :=
    if hasAlpha then
      encodeChan rgba1 3 4 w h ax ay cosX1 cosY1
        (slice (lN + pN + qN) (lN + pN + qN + aN) (ac wb))
    else (0, 0, []) in
  ({| hasAlpha := hasAlpha;
      lx := lx; ly := ly; px := px; py := py; ax := ax; ay := ay;
      lScale := lScale; lDC := lDC; pScale := pScale; pDC := pDC;
      qScale := qScale; qDC := qDC; aScale := aScale; aDC := aDC;
      lAC := lAC; pAC := pAC; qAC := qAC; aAC := aAC |},
   {| rgba := rgba1 ++ skipn (Z.to_nat (count * 4)) (rgba wb);
      cosX := cosX1 ++ skipn (Z.to_nat (maxNx * w)) (cosX wb);
      cosY := cosY1 ++ skipn (Z.to_nat (maxNy * h)) (cosY wb);
      ac := lAC ++ pAC ++ qAC ++ aAC
            ++ skipn (Z.to_nat (lN + pN + qN + aN)) (ac wb) |}).

(** The quantizers of the header fields. *)
Definition quantDC63 (v : Q) : Z := uint32 (math_Round (F64 (v * 63))).
Definition quantDC31 (v : Q) : Z := uint32 (math_Round (F64 (F64 (v * 31) + 31))).
Definition quantScale31 (v : Q) : Z := uint32 (math_Round (F64 (v * 31))).
Definition quantScale63 (v : Q) : Z := uint16 (math_Round (F64 (v * 63))).
Definition quant15 (v : Q) : Z := uint16 (math_Round (F64 (v * 15))).

(** The nibble of one AC coefficient. *)
Definition nibbleOf (c : Q) : Z :=
  let v := clamp01f (F32 (F32 (c / 2) + (1 # 2))) in
  byte (math_Round (F64 (v * 15))).

Definition isLandscape (w h : Z) : bool := (w >? h)%Z.

Definition dimFlag (w h : Z) (ch : channels) : Z :=
  if isLandscape w h then ly ch else lx ch.

(** The 32-bit main header. *)
Definition header (w h : Z) (ch : channels) : Z :=
  let hd :=
    Z.lor (Z.lor (Z.lor (Z.lor
      (quantDC63 (lDC ch))
      (uint32 (Z.shiftl (quantDC31 (pDC ch)) 6)))
      (uint32 (Z.shiftl (quantDC31 (qDC ch)) 12)))
      (uint32 (Z.shiftl (quantScale31 (lScale ch)) 18)))
      (uint32 (Z.shiftl (boolU32 (hasAlpha ch)) 23)) in
  let hd := Z.lor hd (uint32 (Z.shiftl (uint32 (dimFlag w h ch)) 24)) in
  Z.lor hd (uint32 (Z.shiftl (boolU32 (isLandscape w h)) 28)).

Definition header2 (ch : channels) : Z :=
  Z.lor (quantScale63 (pScale ch))
        (uint16 (Z.shiftl (quantScale63 (qScale ch)) 6)).

Definition alphaHdr (ch : channels) : Z :=
  if hasAlpha ch then
    Z.lor (quant15 (aDC ch)) (uint16 (Z.shiftl (quant15 (aScale ch)) 4))
  else 0%Z.

(** The closure [packAC], with the captured [hash] and [nib] as state. *)
Definition packAC (acOff : Z) (ac : list Q) (st : list Z * Z) : list Z * Z :=
  fold_left (fun '(hash, nib) c =>
    let b := nibbleOf c in
    let pos := (acOff + Z.quot nib 2)%Z in
    ((if (Z.rem nib 2 =? 0)%Z then upd pos b hash
      else upd pos (Z.lor (ld 0%Z hash pos) (byte (Z.shiftl b 4))) hash),
     (nib + 1)%Z)) ac st.

Definition totalAC (ch : channels) : Z :=
  (lx ch * ly ch - 1) + (px ch * py ch - 1) + (px ch * py ch - 1)
  + (if hasAlpha ch then ax ch * ay ch - 1 else 0).

Definition hashLen (ch : channels) : Z :=
  (if hasAlpha ch then 8 else 6) + Z.quot (totalAC ch + 1) 2.

(** The second part of [assembleHash]: headers and nibbles into a fresh
    byte string. *)
Definition pack (w h : Z) (ch : channels) : list Z :=
  let hd := header w h ch in
  let hd2 := header2 ch in
  let ahd := alphaHdr ch in
  let hash := repeat 0%Z (Z.to_nat (hashLen ch)) in
  let hash := upd 0 (byte hd) hash in
  let hash := upd 1 (byte (Z.shiftr hd 8)) hash in
  let hash := upd 2 (byte (Z.shiftr hd 16)) hash in
  let hash := upd 3 (byte (Z.shiftr hd 24)) hash in
  let hash := upd 4 (byte hd2) hash in
  let hash := upd 5 (byte (Z.shiftr hd2 8)) hash in
  let hash := if hasAlpha ch
              then upd 7 (byte (Z.shiftr ahd 8)) (upd 6 (byte ahd) hash)
              else hash in
  let acOff := if hasAlpha ch then 8%Z else 6%Z in
  let st := packAC acOff (lAC ch) (hash, 0%Z) in
  let st := packAC acOff (pAC ch) st in
  let st := packAC acOff (qAC ch) st in
  let st := if hasAlpha ch then packAC acOff (aAC ch) st else st in
  fst st.

(** [assembleHash]: the hash, and the work buffer as the call leaves it. *)
Definition assembleHash (w h : Z) (wb : workBuf) : list Z * workBuf :=
  let '(ch, wb') := transform w h wb in
  (pack w h ch, wb').

(** *** The proxy builder *)

(** The YCbCr to RGB lookup tables filled by [init]. *)
Definition ycbcrLUT (coef : Q) (i : Z) : Z :=
  int32 (math_Round (F64 (F64 coef * F64 (f64_of_int i - 128)))).
Definition ycbcrCrR := ycbcrLUT (140200 # 100000).
Definition ycbcrCbG := ycbcrLUT (34414 # 100000).
Definition ycbcrCrG := ycbcrLUT (71414 # 100000).
Definition ycbcrCbB := ycbcrLUT (177200 # 100000).

(** The byte sums of a source span, one [uint32] accumulator per channel
    of a packed 4-byte layout. *)
Definition sum4 (pix : list Z) (stride bY bX4 sx0 sx1 sy0 sy1 : Z)
  : Z * Z * Z * Z :=
  forZ (sy1 - sy0) (fun k acc =>
    let sy := (sy0 + k)%Z in
    let off := ((bY + sy) * stride + bX4 + sx0 * 4)%Z in
    fst (forZ (sx1 - sx0) (fun _ '((rS, gS, bS, aS), off) =>
      ((uint32 (rS + uint32 (ld 0%Z pix off)),
        uint32 (gS + uint32 (ld 0%Z pix (off + 1))),
        uint32 (bS + uint32 (ld 0%Z pix (off + 2))),
        uint32 (aS + uint32 (ld 0%Z pix (off + 3)))),
       (off + 4)%Z)) (acc, off))) (0%Z, 0%Z, 0%Z, 0%Z).

(** The byte sum of a source span of a one-byte-per-pixel plane. *)
Definition sum1 (pix : list Z) (stride bY bX sx0 sx1 sy0 sy1 : Z) : Z :=
  forZ (sy1 - sy0) (fun k vS =>
    let sy := (sy0 + k)%Z in
    let off := ((bY + sy) * stride + bX + sx0)%Z in
    fst (forZ (sx1 - sx0) (fun _ '(vS, off) =>
      (uint32 (vS + uint32 (ld 0%Z pix off)), (off + 1)%Z)) (vS, off))) 0%Z.

(** The same sum as the luma passes write it: four bytes at a time, then
    the remaining ones. *)
Definition sum1_unrolled (pix : list Z) (stride bY bX sx0 sx1 sy0 sy1 : Z) : Z :=
  forZ (sy1 - sy0) (fun k yS =>
    let sy := (sy0 + k)%Z in
    let off := ((bY + sy) * stride + bX + sx0)%Z in
    let n := (sx1 - sx0)%Z in
    let '(yS, off) :=
      forZ (Z.quot n 4) (fun _ '(yS, off) =>
        (uint32 (yS + uint32 (uint32 (uint32 (uint32 (ld 0%Z pix off)
                                             + uint32 (ld 0%Z pix (off + 1)))
                                     + uint32 (ld 0%Z pix (off + 2)))
                             + uint32 (ld 0%Z pix (off + 3)))),
         (off + 4)%Z)) (yS, off) in
    fst (forZ (Z.rem n 4) (fun _ '(yS, off) =>
      (uint32 (yS + uint32 (ld 0%Z pix off)), (off + 1)%Z)) (yS, off))) 0%Z.

(** The two sums of a chroma span. *)
Definition sum2 (cbData crData : list Z) (cStride cBY cBX csx0 csx1 csy0 csy1 : Z)
  : Z * Z :=
  forZ (csy1 - csy0) (fun k acc =>
    let csy := (csy0 + k)%Z in
    let off := ((cBY + csy) * cStride + cBX + csx0)%Z in
    fst (forZ (csx1 - csx0) (fun _ '((cbS, crS), off) =>
      ((uint32 (cbS + uint32 (ld 0%Z cbData off)),
        uint32 (crS + uint32 (ld 0%Z crData off))),
       (off + 1)%Z)) (acc, off))) (0%Z, 0%Z).

(** A destination-order loop over the proxy cells. *)
Definition forCells (dstW dstH srcW srcH : Z)
    (cell : Z -> Z -> Z * Z -> Z * Z -> list Q -> list Q)
    (rgba : list Q) : list Q :=
  forZ dstH (fun dy rgba =>
    let sy := srcSpan dy dstH srcH in
    forZ dstW (fun dx rgba =>
      let sx := srcSpan dx dstW srcW in
      cell dx dy sx sy rgba) rgba) rgba.

(** [dsNRGBA]: non-premultiplied RGBA. *)
Definition dsNRGBA (pix : list Z) (stride : Z) (rect bounds : Rectangle)
    (srcW srcH dstW dstH : Z) (rgba : list Q) : list Q :=
  let bY := (MinY bounds - MinY rect)%Z in
  let bX4 := ((MinX bounds - MinX rect) * 4)%Z in
  forCells dstW dstH srcW srcH (fun dx dy '(sx0, sx1) '(sy0, sy1) rgba =>
    let '(rS, gS, bS, aS) := sum4 pix stride bY bX4 sx0 sx1 sy0 sy1 in
    let inv := F32 (1 / F32 (f32_of_int ((sy1 - sy0) * (sx1 - sx0)) * 255)) in
    let di := ((dy * dstW + dx) * 4)%Z in
    let rgba := upd di (F32 (f32_of_int rS * inv)) rgba in
    let rgba := upd (di + 1) (F32 (f32_of_int gS * inv)) rgba in
    let rgba := upd (di + 2) (F32 (f32_of_int bS * inv)) rgba in
    upd (di + 3) (F32 (f32_of_int aS * inv)) rgba) rgba.

(** [dsRGBA]: premultiplied RGBA; a cell of zero alpha keeps the colour
    the buffer holds. *)
Definition dsRGBA (pix : list Z) (stride : Z) (rect bounds : Rectangle)
    (srcW srcH dstW dstH : Z) (rgba : list Q) : list Q :=
  let bY := (MinY bounds - MinY rect)%Z in
  let bX4 := ((MinX bounds - MinX rect) * 4)%Z in
  forCells dstW dstH srcW srcH (fun dx dy '(sx0, sx1) '(sy0, sy1) rgba =>
    let '(rS, gS, bS, aS) := sum4 pix stride bY bX4 sx0 sx1 sy0 sy1 in
    let di := ((dy * dstW + dx) * 4)%Z in
    let rgba :=
      if (aS >? 0)%Z then
        let aF := f32_of_int aS in
        let rgba := upd di (F32 (f32_of_int rS / aF)) rgba in
        let rgba := upd (di + 1) (F32 (f32_of_int gS / aF)) rgba in
        upd (di + 2) (F32 (f32_of_int bS / aF)) rgba
      else rgba in
    upd (di + 3)
        (F32 (f32_of_int aS / F32 (f32_of_int ((sy1 - sy0) * (sx1 - sx0)) * 255)))
        rgba) rgba.

(** The two passes shared by [dsYCbCr420] and [dsYCbCr422]; they differ
    in the chroma plane's size and origin. *)
Definition dsYCbCrPlanes (yData cbData crData : list Z) (yStride cStride : Z)
    (yBY yBX cSrcW cSrcH cBY cBX : Z)
    (srcW srcH dstW dstH : Z) (rgba : list Q) : list Q :=
  let rgba :=
    forCells dstW dstH srcW srcH (fun dx dy '(sx0, sx1) '(sy0, sy1) rgba =>
      let yS := sum1_unrolled yData yStride yBY yBX sx0 sx1 sy0 sy1 in
      upd ((dy * dstW + dx) * 4)
          (F32 (f32_of_int yS / f32_of_int ((sy1 - sy0) * (sx1 - sx0)))) rgba)
      rgba in
  forCells dstW dstH cSrcW cSrcH (fun dx dy '(csx0, csx1) '(csy0, csy1) rgba =>
    let '(cbS, crS) := sum2 cbData crData cStride cBY cBX csx0 csx1 csy0 csy1 in
    let cnt := f32_of_int ((csy1 - csy0) * (csx1 - csx0)) in
    let cb := F32 (F32 (f32_of_int cbS / cnt) - 128) in
    let cr := F32 (F32 (f32_of_int crS / cnt) - 128) in
    let di := ((dy * dstW + dx) * 4)%Z in
    let y := ld 0 rgba di in
    let rgba :=
      upd di (clamp01f (F32 (F32 (y + F32 (F32 (1402 # 1000) * cr)) / 255))) rgba in
    let rgba :=
      upd (di + 1)
          (clamp01f (F32 (F32 (F32 (y - F32 (F32 (34414 # 100000) * cb))
                               - F32 (F32 (71414 # 100000) * cr)) / 255))) rgba in
    let rgba :=
      upd (di + 2) (clamp01f (F32 (F32 (y + F32 (F32 (1772 # 1000) * cb)) / 255)))
          rgba in
    upd (di + 3) 1 rgba) rgba.

Definition dsYCbCr420 (yData cbData crData : list Z) (yStride cStride : Z)
    (rect bounds : Rectangle) (srcW srcH dstW dstH : Z) (rgba : list Q) : list Q :=
  dsYCbCrPlanes yData cbData crData yStride cStride
    (MinY bounds - MinY rect) (MinX bounds - MinX rect)
    (Z.shiftr (srcW + 1) 1) (Z.shiftr (srcH + 1) 1)
    (Z.quot (MinY bounds) 2 - Z.quot (MinY rect) 2)
    (Z.quot (MinX bounds) 2 - Z.quot (MinX rect) 2)
    srcW srcH dstW dstH rgba.

Definition dsYCbCr422 (yData cbData crData : list Z) (yStride cStride : Z)
    (rect bounds : Rectangle) (srcW srcH dstW dstH : Z) (rgba : list Q) : list Q :=
  dsYCbCrPlanes yData cbData crData yStride cStride
    (MinY bounds - MinY rect) (MinX bounds - MinX rect)
    (Z.shiftr (srcW + 1) 1) srcH
    (MinY bounds - MinY rect)
    (Z.quot (MinX bounds) 2 - Z.quot (MinX rect) 2)
    srcW srcH dstW dstH rgba.

(** [image.YCbCr.COffset] of the Go standard library. *)
Definition COffset (ratio : SubsampleRatio) (cStride : Z) (rect : Rectangle)
    (x y : Z) : Z :=
  match ratio with
  | Ratio422 => (y - MinY rect) * cStride + (Z.quot x 2 - Z.quot (MinX rect) 2)
  | Ratio420 =>
      (Z.quot y 2 - Z.quot (MinY rect) 2) * cStride
      + (Z.quot x 2 - Z.quot (MinX rect) 2)
  | Ratio440 => (Z.quot y 2 - Z.quot (MinY rect) 2) * cStride + (x - MinX rect)
  | Ratio411 => (y - MinY rect) * cStride + (Z.quot x 4 - Z.quot (MinX rect) 4)
  | Ratio410 =>
      (Z.quot y 2 - Z.quot (MinY rect) 2) * cStride
      + (Z.quot x 4 - Z.quot (MinX rect) 4)
  | Ratio444 => (y - MinY rect) * cStride + (x - MinX rect)
  end%Z.



(** [dsYCbCrAny]: 4:4:4, 4:4:0, 4:1:1, 4:1:0, through the lookup tables. *)
Definition dsYCbCrAny (yData cbData crData : list Z) (yStride cStride : Z)
    (ratio : SubsampleRatio) (rect bounds : Rectangle)
    (srcW srcH dstW dstH : Z) (rgba : list Q) : list Q :=
  let minX := MinX bounds in
  let minY := MinY bounds in
  let ryBase := (minY - MinY rect)%Z in
  let rxBase := (minX - MinX rect)%Z in
  forCells dstW dstH srcW srcH (fun dx dy '(sx0, sx1) '(sy0, sy1) rgba =>
    let '(rS, gS, bS) :=
      forZ (sy1 - sy0) (fun k acc =>
        let sy := (sy0 + k)%Z in
        let yOff := ((ryBase + sy) * yStride + rxBase)%Z in
        forZ (sx1 - sx0) (fun j '(rS, gS, bS) =>
          let sx := (sx0 + j)%Z in
          let y := ld 0%Z yData (yOff + sx) in
          let ci := COffset ratio cStride rect (minX + sx) (minY + sy) in
          let cr := ld 0%Z crData ci in
          let cb := ld 0%Z cbData ci in
          (int32 (rS + int32 (y + ycbcrCrR cr)),
           int32 (gS + int32 (int32 (y - ycbcrCbG cb) - ycbcrCrG cr)),
           int32 (bS + int32 (y + ycbcrCbB cb)))) acc) (0%Z, 0%Z, 0%Z) in
    let cnt255 := F32 (f32_of_int ((sy1 - sy0) * (sx1 - sx0)) * 255) in
    let inv := F32 (1 / cnt255) in
    let di := ((dy * dstW + dx) * 4)%Z in
    let rgba := upd di (clamp01f (F32 (f32_of_int rS * inv))) rgba in
    let rgba := upd (di + 1) (clamp01f (F32 (f32_of_int gS * inv))) rgba in
    let rgba := upd (di + 2) (clamp01f (F32 (f32_of_int bS * inv))) rgba in
    upd (di + 3) 1 rgba) rgba.

Definition dsYCbCr (yData cbData crData : list Z) (yStride cStride : Z)
    (ratio : SubsampleRatio) (rect bounds : Rectangle)
    (srcW srcH dstW dstH : Z) (rgba : list Q) : list Q :=
  match ratio with
  | Ratio420 =>
      dsYCbCr420 yData cbData crData yStride cStride rect bounds
        srcW srcH dstW dstH rgba
  | Ratio422 =>
      dsYCbCr422 yData cbData crData yStride cStride rect bounds
        srcW srcH dstW dstH rgba
  | _ =>
      dsYCbCrAny yData cbData crData yStride cStride ratio rect bounds
        srcW srcH dstW dstH rgba
  end.

(** [dsGray]. *)
Definition dsGray (pix : list Z) (stride : Z) (rect bounds : Rectangle)
    (srcW srcH dstW dstH : Z) (rgba : list Q) : list Q :=
  let bY := (MinY bounds - MinY rect)%Z in
  let bX := (MinX bounds - MinX rect)%Z in
  forCells dstW dstH srcW srcH (fun dx dy '(sx0, sx1) '(sy0, sy1) rgba =>
    let vS := sum1 pix stride bY bX sx0 sx1 sy0 sy1 in
    let v := F32 (f32_of_int vS
                  / F32 (f32_of_int ((sy1 - sy0) * (sx1 - sx0)) * 255)) in
    let di := ((dy * dstW + dx) * 4)%Z in
    let rgba := upd di v rgba in
    let rgba := upd (di + 1) v rgba in
    let rgba := upd (di + 2) v rgba in
    upd (di + 3) 1 rgba) rgba.

(** [dsGeneric]: through [img.At(x, y).RGBA()]. *)
Definition dsGeneric (at_ : Z -> Z -> Z * Z * Z * Z) (bounds : Rectangle)
    (srcW srcH dstW dstH : Z) (rgba : list Q) : list Q :=
  let minX := MinX bounds in
  let minY := MinY bounds in
  forCells dstW dstH srcW srcH (fun dx dy '(sx0, sx1) '(sy0, sy1) rgba =>
    let '(rS, gS, bS, aS) :=
      forZ (sy1 - sy0) (fun k acc =>
        let sy := (sy0 + k)%Z in
        forZ (sx1 - sx0) (fun j '(rS, gS, bS, aS) =>
          let sx := (sx0 + j)%Z in
          let '(cr, cg, cb, ca) := at_ (minX + sx)%Z (minY + sy)%Z in
          let af := F32 (f32_of_int ca / 65535) in
          let '(rS, gS, bS) :=
            if Qltb 0 af then
              (F32 (rS + F32 (F32 (f32_of_int cr / 65535) / af)),
               F32 (gS + F32 (F32 (f32_of_int cg / 65535) / af)),
               F32 (bS + F32 (F32 (f32_of_int cb / 65535) / af)))
            else (rS, gS, bS) in
          (rS, gS, bS, F32 (aS + af))) acc) (0, 0, 0, 0) in
    let inv := F32 (1 / f32_of_int ((sy1 - sy0) * (sx1 - sx0))) in
    let di := ((dy * dstW + dx) * 4)%Z in
    let rgba := upd di (F32 (rS * inv)) rgba in
    let rgba := upd (di + 1) (F32 (gS * inv)) rgba in
    let rgba := upd (di + 2) (F32 (bS * inv)) rgba in
    upd (di + 3) (F32 (aS * inv)) rgba) rgba.

(** [areaDownscale]. *)
Definition areaDownscale (img : Image) (bounds : Rectangle)
    (srcW srcH dstW dstH : Z) (rgba : list Q) : list Q :=
  match img with
  | NRGBA pix stride rect => dsNRGBA pix stride rect bounds srcW srcH dstW dstH rgba
  | RGBA pix stride rect => dsRGBA pix stride rect bounds srcW srcH dstW dstH rgba
  | YCbCr yData cbData crData yStride cStride ratio rect =>
      dsYCbCr yData cbData crData yStride cStride ratio rect bounds
        srcW srcH dstW dstH rgba
  | Gray pix stride rect => dsGray pix stride rect bounds srcW srcH dstW dstH rgba
  | Generic _ at_ => dsGeneric at_ bounds srcW srcH dstW dstH rgba
  end.

(** A row-major loop of [extractPixels]: [di] advances by four per pixel;
    [row y] is the source offset the row starts at and [step] what a
    pixel adds to it. *)
Definition forPixels (w h : Z) (row : Z -> Z) (step : Z)
    (pixel : Z -> Z -> Z -> Z -> list Q -> list Q) (rgba : list Q) : list Q :=
  fst (forZ h (fun y '(rgba, di) =>
    let off := row y in
    let '(rgba, _, di) :=
      forZ w (fun x '(rgba, off, di) =>
        (pixel x y off di rgba, (off + step)%Z, (di + 4)%Z)) (rgba, off, di) in
    (rgba, di)) (rgba, 0%Z)).

(** [extractPixels]: one proxy pixel per source pixel. *)
Definition extractPixels (img : Image) (bounds : Rectangle) (w h : Z)
    (rgba : list Q) : list Q :=
  match img with
  | NRGBA pix stride rect =>
      let bY := (MinY bounds - MinY rect)%Z in
      let bX4 := ((MinX bounds - MinX rect) * 4)%Z in
      forPixels w h (fun y => (bY + y) * stride + bX4)%Z 4
        (fun _ _ off di rgba =>
          let rgba := upd di (F32 (f32_of_int (ld 0%Z pix off) / 255)) rgba in
          let rgba := upd (di + 1) (F32 (f32_of_int (ld 0%Z pix (off + 1)) / 255)) rgba in
          let rgba := upd (di + 2) (F32 (f32_of_int (ld 0%Z pix (off + 2)) / 255)) rgba in
          upd (di + 3) (F32 (f32_of_int (ld 0%Z pix (off + 3)) / 255)) rgba) rgba
  | RGBA pix stride rect =>
      let bY := (MinY bounds - MinY rect)%Z in
      let bX4 := ((MinX bounds - MinX rect) * 4)%Z in
      forPixels w h (fun y => (bY + y) * stride + bX4)%Z 4
        (fun _ _ off di rgba =>
          let a := f32_of_int (ld 0%Z pix (off + 3)) in
          let rgba :=
            if Qltb 0 a then
              let rgba := upd di (F32 (f32_of_int (ld 0%Z pix off) / a)) rgba in
              let rgba := upd (di + 1) (F32 (f32_of_int (ld 0%Z pix (off + 1)) / a)) rgba in
              upd (di + 2) (F32 (f32_of_int (ld 0%Z pix (off + 2)) / a)) rgba
            else rgba in
          upd (di + 3) (F32 (a / 255)) rgba) rgba
  | YCbCr yData cbData crData yStride cStride ratio rect =>
      let minX := MinX bounds in
      let minY := MinY bounds in
      let ryBase := (minY - MinY rect)%Z in
      let rxBase := (minX - MinX rect)%Z in
      forPixels w h (fun y => (ryBase + y) * yStride + rxBase)%Z 1
        (fun x y yOffx di rgba =>
          let yv := ld 0%Z yData yOffx in
          let ci := COffset ratio cStride rect (minX + x) (minY + y) in
          let cr := ld 0%Z crData ci in
          let cb := ld 0%Z cbData ci in
          let rgba :=
            upd di (F32 (f32_of_int (clampByte (int32 (yv + ycbcrCrR cr))) / 255)) rgba in
          let rgba :=
            upd (di + 1)
              (F32 (f32_of_int
                      (clampByte (int32 (int32 (yv - ycbcrCbG cb) - ycbcrCrG cr)))
                    / 255)) rgba in
          let rgba :=
            upd (di + 2) (F32 (f32_of_int (clampByte (int32 (yv + ycbcrCbB cb))) / 255))
              rgba in
          upd (di + 3) 1 rgba) rgba
  | Gray pix stride rect =>
      let bY := (MinY bounds - MinY rect)%Z in
      let bX := (MinX bounds - MinX rect)%Z in
      forPixels w h (fun y => (bY + y) * stride + bX)%Z 1
        (fun _ _ off di rgba =>
          let v := F32 (f32_of_int (ld 0%Z pix off) / 255) in
          let rgba := upd di v rgba in
          let rgba := upd (di + 1) v rgba in
          let rgba := upd (di + 2) v rgba in
          upd (di + 3) 1 rgba) rgba
  | Generic _ at_ =>
      forPixels (MaxX bounds - MinX bounds) (MaxY bounds - MinY bounds)
        (fun _ => 0%Z) 0
        (fun i j _ di rgba =>
          let '(r, g, b, a) := at_ (MinX bounds + i)%Z (MinY bounds + j)%Z in
          let af := F32 (f32_of_int a / 65535) in
          let rgba :=
            if Qltb 0 af then
              let rgba := upd di (F32 (F32 (f32_of_int r / 65535) / af)) rgba in
              let rgba := upd (di + 1) (F32 (F32 (f32_of_int g / 65535) / af)) rgba in
              upd (di + 2) (F32 (F32 (f32_of_int b / 65535) / af)) rgba
            else rgba in
          upd (di + 3) af rgba) rgba
  end.

(** [Encode], on the work buffer [wbPool.Get] hands out.  [None] is the
    nil hash of an empty image; the buffer goes back to the pool.  The
    Go function panics on an image whose slices are shorter than its
    bounds need, where this function goes on with zeros: the statements
    that [Encode] returns a hash are about the images with
    [samplesInRange]. *)
Definition Encode (img : Image) (wb : workBuf) : option (list Z) * workBuf :=
  let bounds := Bounds img in
  let srcW := Dx bounds in
  let srcH := Dy bounds in
  if ((srcW <=? 0) || (srcH <=? 0))%Z%bool then (None, wb)
  else
    let '(dstW, dstH) := thumbDims srcW srcH in
    let n := (dstW * dstH * 4)%Z in
    let s := zeroF32 (slice 0 n (rgba wb)) in
    let s :=
      if ((srcW <=? dstW) && (srcH <=? dstH))%Z%bool
      then extractPixels img bounds dstW dstH s
      else areaDownscale img bounds srcW srcH dstW dstH s in
    let wb := {| rgba := s ++ skipn (Z.to_nat n) (rgba wb);
                 cosX := cosX wb; cosY := cosY wb; ac := ac wb |} in
    let '(hash, wb) := assembleHash dstW dstH wb in
    (Some hash, wb).

End Encoder.

(** [HasAlpha]: whether a pixel is less than fully opaque.  The two
    packed layouts are scanned over all of [Pix], every fourth byte from
    index 3 on; any other image over its bounds, through
    [At(x, y).RGBA()].  The loops return at the first hit, which the
    disjunction over all iterations equals. *)
Definition HasAlpha (img : Image) : bool :=
  match img with
  | NRGBA pix _ _ | RGBA pix _ _ =>
      forZ (Z.quot (Z.of_nat (length pix)) 4)
           (fun k found => found || (ld 0%Z pix (4 * k + 3) <? 255)%Z) false
  | YCbCr _ _ _ _ _ _ _ | Gray _ _ _ => false
  | Generic bounds at_ =>
      forZ (MaxY bounds - MinY bounds) (fun j found =>
        forZ (MaxX bounds - MinX bounds) (fun i found =>
          let '(_, _, _, a) := at_ (MinX bounds + i)%Z (MinY bounds + j)%Z in
          found || (a <? 65535)%Z) found) false
  end.

Section LoadChecks.
Variable F32 : Q -> Q.

(** *** The index checks of the proxy builders *)

(** Go checks the index of every load.  The functions below run the
    loops of [extractPixels] and of the downscalers once more, for the
    checks alone: each is true when every index at which the loop reads
    an image plane is inside the plane.  The lookup tables are read at a
    byte and the proxy at a cell, always inside. *)

(** [0 <= i < len(s)]. *)
Definition inb (s : list Z) (i : Z) : bool :=
  ((0 <=? i)%Z && (i <? Z.of_nat (length s))%Z)%bool.

(** The four bytes of a packed pixel. *)
Definition loads4 (pix : list Z) (off : Z) : bool :=
  (inb pix off && inb pix (off + 1) && inb pix (off + 2)
   && inb pix (off + 3))%bool.

(** A run of [n] loads, [step] apart from [off] on. *)
Definition rowLoads (n off step : Z) (load : Z -> Z -> bool) (ok : bool)
  : bool * Z :=
  forZ n (fun j '(ok, off) => ((ok && load j off)%bool, (off + step)%Z))
       (ok, off).

Definition sum4_ok (pix : list Z) (stride bY bX4 sx0 sx1 sy0 sy1 : Z) : bool :=
  forZ (sy1 - sy0) (fun k ok =>
    let sy := (sy0 + k)%Z in
    let off := ((bY + sy) * stride + bX4 + sx0 * 4)%Z in
    fst (rowLoads (sx1 - sx0) off 4 (fun _ => loads4 pix) ok)) true.

Definition sum1_ok (pix : list Z) (stride bY bX sx0 sx1 sy0 sy1 : Z) : bool :=
  forZ (sy1 - sy0) (fun k ok =>
    let sy := (sy0 + k)%Z in
    let off := ((bY + sy) * stride + bX + sx0)%Z in
    fst (rowLoads (sx1 - sx0) off 1 (fun _ => inb pix) ok)) true.

Definition sum1_unrolled_ok (pix : list Z) (stride bY bX sx0 sx1 sy0 sy1 : Z)
  : bool :=
  forZ (sy1 - sy0) (fun k ok =>
    let sy := (sy0 + k)%Z in
    let off := ((bY + sy) * stride + bX + sx0)%Z in
    let n := (sx1 - sx0)%Z in
    let '(ok, off) := rowLoads (Z.quot n 4) off 4 (fun _ => loads4 pix) ok in
    fst (rowLoads (Z.rem n 4) off 1 (fun _ => inb pix) ok)) true.

Definition sum2_ok (cbData crData : list Z)
    (cStride cBY cBX csx0 csx1 csy0 csy1 : Z) : bool :=
  forZ (csy1 - csy0) (fun k ok =>
    let csy := (csy0 + k)%Z in
    let off := ((cBY + csy) * cStride + cBX + csx0)%Z in
    fst (rowLoads (csx1 - csx0) off 1
           (fun _ off => (inb cbData off && inb crData off)%bool) ok)) true.

(** The checks of a destination-order loop over the proxy cells. *)
Definition cells_ok (dstW dstH srcW srcH : Z)
    (cell : Z * Z -> Z * Z -> bool) : bool :=
  forZ dstH (fun dy ok =>
    let sy := srcSpan dy dstH srcH in
    forZ dstW (fun dx ok =>
      let sx := srcSpan dx dstW srcW in
      (ok && cell sx sy)%bool) ok) true.

Definition ds4_ok (pix : list Z) (stride : Z) (rect bounds : Rectangle)
    (srcW srcH dstW dstH : Z) : bool :=
  let bY := (MinY bounds - MinY rect)%Z in
  let bX4 := ((MinX bounds - MinX rect) * 4)%Z in
  cells_ok dstW dstH srcW srcH (fun '(sx0, sx1) '(sy0, sy1) =>
    sum4_ok pix stride bY bX4 sx0 sx1 sy0 sy1).

Definition dsYCbCrPlanes_ok (yData cbData crData : list Z)
    (yStride cStride : Z) (yBY yBX cSrcW cSrcH cBY cBX : Z)
    (srcW srcH dstW dstH : Z) : bool :=
  (cells_ok dstW dstH srcW srcH (fun '(sx0, sx1) '(sy0, sy1) =>
     sum1_unrolled_ok yData yStride yBY yBX sx0 sx1 sy0 sy1)
   && cells_ok dstW dstH cSrcW cSrcH (fun '(csx0, csx1) '(csy0, csy1) =>
        sum2_ok cbData crData cStride cBY cBX csx0 csx1 csy0 csy1))%bool.

Definition dsYCbCrAny_ok (yData cbData crData : list Z) (yStride cStride : Z)
    (ratio : SubsampleRatio) (rect bounds : Rectangle)
    (srcW srcH dstW dstH : Z) : bool :=
  let minX := MinX bounds in
  let minY := MinY bounds in
  let ryBase := (minY - MinY rect)%Z in
  let rxBase := (minX - MinX rect)%Z in
  cells_ok dstW dstH srcW srcH (fun '(sx0, sx1) '(sy0, sy1) =>
    forZ (sy1 - sy0) (fun k ok =>
      let sy := (sy0 + k)%Z in
      let yOff := ((ryBase + sy) * yStride + rxBase)%Z in
      forZ (sx1 - sx0) (fun j ok =>
        let sx := (sx0 + j)%Z in
        let ci := COffset ratio cStride rect (minX + sx) (minY + sy) in
        (ok && inb yData (yOff + sx) && inb crData ci && inb cbData ci)%bool)
        ok) true).

Definition dsYCbCr_ok (yData cbData crData : list Z) (yStride cStride : Z)
    (ratio : SubsampleRatio) (rect bounds : Rectangle)
    (srcW srcH dstW dstH : Z) : bool :=
  match ratio with
  | Ratio420 =>
      dsYCbCrPlanes_ok yData cbData crData yStride cStride
        (MinY bounds - MinY rect) (MinX bounds - MinX rect)
        (Z.shiftr (srcW + 1) 1) (Z.shiftr (srcH + 1) 1)
        (Z.quot (MinY bounds) 2 - Z.quot (MinY rect) 2)
        (Z.quot (MinX bounds) 2 - Z.quot (MinX rect) 2)
        srcW srcH dstW dstH
  | Ratio422 =>
      dsYCbCrPlanes_ok yData cbData crData yStride cStride
        (MinY bounds - MinY rect) (MinX bounds - MinX rect)
        (Z.shiftr (srcW + 1) 1) srcH
        (MinY bounds - MinY rect)
        (Z.quot (MinX bounds) 2 - Z.quot (MinX rect) 2)
        srcW srcH dstW dstH
  | _ =>
      dsYCbCrAny_ok yData cbData crData yStride cStride ratio rect bounds
        srcW srcH dstW dstH
  end.

Definition dsGray_ok (pix : list Z) (stride : Z) (rect bounds : Rectangle)
    (srcW srcH dstW dstH : Z) : bool :=
  let bY := (MinY bounds - MinY rect)%Z in
  let bX := (MinX bounds - MinX rect)%Z in
  cells_ok dstW dstH srcW srcH (fun '(sx0, sx1) '(sy0, sy1) =>
    sum1_ok pix stride bY bX sx0 sx1 sy0 sy1).

Definition areaDownscale_ok (img : Image) (bounds : Rectangle)
    (srcW srcH dstW dstH : Z) : bool :=
  match img with
  | NRGBA pix stride rect | RGBA pix stride rect =>
      ds4_ok pix stride rect bounds srcW srcH dstW dstH
  | YCbCr yData cbData crData yStride cStride ratio rect =>
      dsYCbCr_ok yData cbData crData yStride cStride ratio rect bounds
        srcW srcH dstW dstH
  | Gray pix stride rect => dsGray_ok pix stride rect bounds srcW srcH dstW dstH
  | Generic _ _ => true
  end.

(** The checks of a row-major loop of [extractPixels]. *)
Definition forPixels_ok (w h : Z) (row : Z -> Z) (step : Z)
    (pixel : Z -> Z -> Z -> bool) : bool :=
  forZ h (fun y ok =>
    fst (rowLoads w (row y) step (fun x off => pixel x y off) ok)) true.

Definition extractPixels_ok (img : Image) (bounds : Rectangle) (w h : Z)
  : bool :=
  match img with
  | NRGBA pix stride rect =>
      let bY := (MinY bounds - MinY rect)%Z in
      let bX4 := ((MinX bounds - MinX rect) * 4)%Z in
      forPixels_ok w h (fun y => (bY + y) * stride + bX4)%Z 4
        (fun _ _ off => loads4 pix off)
  | RGBA pix stride rect =>
      let bY := (MinY bounds - MinY rect)%Z in
      let bX4 := ((MinX bounds - MinX rect) * 4)%Z in
      forPixels_ok w h (fun y => (bY + y) * stride + bX4)%Z 4
        (fun _ _ off =>
          (inb pix (off + 3)
           && (if Qltb 0 (f32_of_int F32 (ld 0%Z pix (off + 3)))
               then inb pix off && inb pix (off + 1) && inb pix (off + 2)
               else true))%bool)
  | YCbCr yData cbData crData yStride cStride ratio rect =>
      let minX := MinX bounds in
      let minY := MinY bounds in
      let ryBase := (minY - MinY rect)%Z in
      let rxBase := (minX - MinX rect)%Z in
      forPixels_ok w h (fun y => (ryBase + y) * yStride + rxBase)%Z 1
        (fun x y yOffx =>
          let ci := COffset ratio cStride rect (minX + x) (minY + y) in
          (inb yData yOffx && inb crData ci && inb cbData ci)%bool)
  | Gray pix stride rect =>
      let bY := (MinY bounds - MinY rect)%Z in
      let bX := (MinX bounds - MinX rect)%Z in
      forPixels_ok w h (fun y => (bY + y) * stride + bX)%Z 1
        (fun _ _ off => inb pix off)
  | Generic _ _ => true
  end.

(** The checks of one call of [Encode]: those of the builder it runs. *)
Definition planeLoads_ok (img : Image) : bool :=
  let bounds := Bounds img in
  let srcW := Dx bounds in
  let srcH := Dy bounds in
  if ((srcW <=? 0) || (srcH <=? 0))%Z%bool then true
  else
    let '(dstW, dstH) := thumbDims srcW srcH in
    if ((srcW <=? dstW) && (srcH <=? dstH))%Z%bool
    then extractPixels_ok img bounds dstW dstH
    else areaDownscale_ok img bounds srcW srcH dstW dstH.

End LoadChecks.

End Enc.

(* ================================================================= *)
(** ** The decoder *)

Module Dec.

(** ToInt32 and the store conversion of a [Uint8Array]. *)
Definition toInt32 (z : Z) : Z := ((z + 2^31) mod 2^32 - 2^31)%Z.
Definition toUint8 (z : Z) : Z := (z mod 2^8)%Z.

(** [hash[i]!] under a bitwise operator: a byte, or [undefined], which the
    operator reads as [0]. *)
Definition byteAt (hash : list Z) (i : Z) : Z := ld 0%Z hash i.

(** [max(0, min(255, v))]. *)
Definition clamp255 (v : Z) : Z := Z.max 0 (Z.min 255 v).

(** What [thumbHashToRGBA] returns. *)
Record bitmap : Type := Bitmap { bw : Z; bh : Z; pixels : list Z }.

(** The parsed header fields. *)
Record fields : Type := Fields {
  f_lDC : Q; f_pDC : Q; f_qDC : Q; f_lScale : Q;
  f_hasAlpha : bool; f_dimFlag : Z; f_isLandscape : bool;
  f_pScale : Q; f_qScale : Q;
  f_lx : Z; f_ly : Z;
  f_aDC : Q; f_aScale : Q; f_acOffset : Z
}.

(** The raw 32-bit header word. *)
Definition headerWord (hash : list Z) : Z :=
  toInt32 (Z.lor (Z.lor (Z.lor (byteAt hash 0) (Z.shiftl (byteAt hash 1) 8))
                        (Z.shiftl (byteAt hash 2) 16))
                 (Z.shiftl (byteAt hash 3) 24)).

Definition header2Word (hash : list Z) : Z :=
  Z.lor (byteAt hash 4) (Z.shiftl (byteAt hash 5) 8).

Definition alphaWord (hash : list Z) : Z :=
  Z.lor (byteAt hash 6) (Z.shiftl (byteAt hash 7) 8).

Section Decoder.

(** The rounding operator of a JavaScript number, [Math.cos], [Math.sqrt]. *)
Variables F64 cos64 sqrt64 : Q -> Q.

Definition num (z : Z) : Q := F64 (inject_Z z).

(** The header parse of [thumbHashToRGBA]. *)
Definition parse (hash : list Z) : fields :=
  let header := headerWord hash in
  let header2 := header2Word hash in
  let lDC := F64 (inject_Z (Z.land header 63) / 63) in
  let pDC := F64 (F64 (inject_Z (Z.land (Z.shiftr header 6) 63) / 31) - 1) in
  let qDC := F64 (F64 (inject_Z (Z.land (Z.shiftr header 12) 63) / 31) - 1) in
  let lScale := F64 (inject_Z (Z.land (Z.shiftr header 18) 31) / 31) in
  let hasAlpha := (Z.land (Z.shiftr header 23) 1 =? 1)%Z in
  let dimFlag := Z.land (Z.shiftr header 24) 15 in
  let isLandscape := (Z.land (Z.shiftr header 28) 1 =? 1)%Z in
  let pScale := F64 (inject_Z (Z.land header2 63) / 63) in
  let qScale := F64 (inject_Z (Z.land (Z.shiftr header2 6) 63) / 63) in
  let lLimit := if hasAlpha then 5%Z else 7%Z in
  let lx := if isLandscape then lLimit else Z.max 1 dimFlag in
  let ly := if isLandscape then Z.max 1 dimFlag else lLimit in
  let alphaHeader := alphaWord hash in
  {| f_lDC := lDC; f_pDC := pDC; f_qDC := qDC; f_lScale := lScale;
     f_hasAlpha := hasAlpha; f_dimFlag := dimFlag; f_isLandscape := isLandscape;
     f_pScale := pScale; f_qScale := qScale;
     f_lx := lx; f_ly := ly;
     f_aDC := if hasAlpha then F64 (inject_Z (Z.land alphaHeader 15) / 15) else 1;
     f_aScale :=
       if hasAlpha then F64 (inject_Z (Z.land (Z.shiftr alphaHeader 4) 15) / 15)
       else 0;
     f_acOffset := if hasAlpha then 8%Z else 6%Z |}.

(** The nibble the closure [readAC] reads at nibble position [off]. *)
Definition nibbleAt (hash : list Z) (acOffset off : Z) : Z :=
  let byteIdx := (acOffset + Z.shiftr off 1)%Z in
  if (Z.rem off 2 =? 0)%Z then Z.land (byteAt hash byteIdx) 15
  else Z.land (Z.shiftr (byteAt hash byteIdx) 4) 15.

(** [readAC(count, offset)]: the coefficients read, and [offset.value]
    as the call leaves it. *)
Definition readAC (hash : list Z) (acOffset count : Z) (offset : Z)
  : list Q * Z :=
  forZ count (fun _ '(result, offset) =>
    let nibble := nibbleAt hash acOffset offset in
    (result ++ [F64 (F64 (F64 (inject_Z nibble / 15) * 2) - 1)], (offset + 1)%Z))
    ([], offset).

(** The four coefficient arrays, read in the order L, P, Q, A. *)
Definition readAll (hash : list Z) (f : fields)
  : list Q * list Q * list Q * list Q :=
  let '(lAC, offset) := readAC hash (f_acOffset f) (f_lx f * f_ly f - 1) 0 in
  let '(pAC, offset) := readAC hash (f_acOffset f) (3 * 3 - 1) offset in
  let '(qAC, offset) := readAC hash (f_acOffset f) (3 * 3 - 1) offset in
  let aAC :=
    if f_hasAlpha f
    then fst (readAC hash (f_acOffset f) (f_lx f * f_ly f - 1) offset)
    else [] in
  (lAC, pAC, qAC, aAC).

(** The output size. *)
Definition outSize (f : fields) : Z * Z :=
  let lx := f_lx f in
  let ly := f_ly f in
  let ratio :=
    if f_isLandscape f
    then (if (lx >? ly)%Z then F64 (num lx / num ly) else 1)
    else (if (ly >? lx)%Z then F64 (num ly / num lx) else 1) in
  (Math_round (if f_isLandscape f then 32 else F64 (32 / ratio)),
   Math_round (if f_isLandscape f then F64 (32 / ratio) else 32)).

(** [cos((PI * c * (i + 0.5)) / n)]. *)
Definition basis (c i n : Z) : Q :=
  cos64 (F64 (F64 (F64 (math_Pi * num c) * F64 (num i + (1 # 2))) / num n)).

(** One channel of the inverse DCT at pixel [(x, y)]: the four loops of
    the source differ in the basis size, the array and the scale. *)
Definition idct (nx ny : Z) (acs : list Q) (scale : Q) (x y w h : Z) (v0 : Q) : Q :=
  fst (forZ ny (fun cy st =>
    let fy := basis cy y h in
    forZ nx (fun cx '(v, acIdx) =>
      if ((cx =? 0) && (cy =? 0))%Z%bool then (v, acIdx)
      else
        let fx := basis cx x w in
        (F64 (v + F64 (F64 (F64 (ld 0 acs acIdx * scale) * fx) * fy)),
         (acIdx + 1)%Z)) st) (v0, 0%Z)).

(** The pixel loop of [thumbHashToRGBA]. *)
Definition reconstruct (f : fields) (acs : list Q * list Q * list Q * list Q)
    (w h : Z) (rgba : list Z) : list Z :=
  let '(lAC, pAC, qAC, aAC) := acs in
  forZ h (fun y rgba =>
    forZ w (fun x rgba =>
      let l := idct (f_lx f) (f_ly f) lAC (f_lScale f) x y w h (f_lDC f) in
      let p := idct 3 3 pAC (f_pScale f) x y w h (f_pDC f) in
      let q := idct 3 3 qAC (f_qScale f) x y w h (f_qDC f) in
      let a := if f_hasAlpha f
               then idct (f_lx f) (f_ly f) aAC (f_aScale f) x y w h (f_aDC f)
               else f_aDC f in
      let b := F64 (l - F64 (F64 (2 / 3) * p)) in
      let r := F64 (F64 (F64 (F64 (3 * l) - b) + q) / 2) in
      let g := F64 (r - q) in
      let idx := ((y * w + x) * 4)%Z in
      let rgba := upd idx (toUint8 (clamp255 (Math_round (F64 (r * 255))))) rgba in
      let rgba := upd (idx + 1) (toUint8 (clamp255 (Math_round (F64 (g * 255))))) rgba in
      let rgba := upd (idx + 2) (toUint8 (clamp255 (Math_round (F64 (b * 255))))) rgba in
      upd (idx + 3) (toUint8 (clamp255 (Math_round (F64 (a * 255))))) rgba) rgba) rgba.

(** BT.709 luma of a pixel. *)
Definition luma709 (r g b : Z) : Q :=
  F64 (F64 (F64 (F64 (2126 # 10000) * num r) + F64 (F64 (7152 # 10000) * num g))
       + F64 (F64 (722 # 10000) * num b)).

(** [round(y + (v - y) * cc)], as a byte of the buffer. *)
Definition attenuate1 (cc y : Q) (v : Z) : Z :=
  toUint8 (Math_round (F64 (y + F64 (F64 (num v - y) * cc)))).

(** [attenuateChroma], in place. *)
Definition attenuateChroma (rgba : list Z) (c : Q) : list Z :=
  let cc := if Qltb c 0 then 0 else c in
  forZ (Z.quot (Z.of_nat (length rgba) + 3) 4) (fun k rgba =>
    let i := (4 * k)%Z in
    let r := ld 0%Z rgba i in
    let g := ld 0%Z rgba (i + 1) in
    let b := ld 0%Z rgba (i + 2) in
    let y := luma709 r g b in
    let rgba := upd i (attenuate1 cc y r) rgba in
    let rgba := upd (i + 1) (attenuate1 cc y g) rgba in
    upd (i + 2) (attenuate1 cc y b) rgba) rgba.

(** [thumbHashToRGBA(hash, chroma)]; [None] is an omitted [chroma]. *)
Definition thumbHashToRGBA (hash : list Z) (chroma : option Q) : bitmap :=
  let f := parse hash in
  let acs := readAll hash f in
  let '(w, h) := outSize f in
  let rgba := repeat 0%Z (Z.to_nat (w * h * 4)) in
  let rgba := reconstruct f acs w h rgba in
  let rgba :=
    match chroma with
    | Some c => if Qltb c 1 then attenuateChroma rgba c else rgba
    | None => rgba
    end in
  {| bw := w; bh := h; pixels := rgba |}.

(** [computeAvgRGB]. *)
Definition computeAvgRGB (rgba : list Z) (n : Z) : Q * Q * Q :=
  let '(rS, gS, bS) :=
    forZ n (fun k '(rS, gS, bS) =>
      let i := (4 * k)%Z in
      (F64 (rS + num (ld 0%Z rgba i)),
       F64 (gS + num (ld 0%Z rgba (i + 1))),
       F64 (bS + num (ld 0%Z rgba (i + 2))))) (0, 0, 0) in
  (F64 (rS / num n), F64 (gS / num n), F64 (bS / num n)).

(** [max(0, min(255, round(v + d)))], as a byte of the buffer. *)
Definition bias1 (d : Q) (v : Z) : Z :=
  toUint8 (clamp255 (Math_round (F64 (num v + d)))).

(** [applyBiasCorrection], in place. *)
Definition applyBiasCorrection (rgba : list Z) (n : Z) (target : list Q)
    (gain : Q) : list Z :=
  let '(avgR, avgG, avgB) := computeAvgRGB rgba n in
  let dr := F64 (F64 (nth 0 target 0 - avgR) * gain) in
  let dg := F64 (F64 (nth 1 target 0 - avgG) * gain) in
  let db := F64 (F64 (nth 2 target 0 - avgB) * gain) in
  forZ n (fun k rgba =>
    let i := (4 * k)%Z in
    let rgba := upd i (bias1 dr (ld 0%Z rgba i)) rgba in
    let rgba := upd (i + 1) (bias1 dg (ld 0%Z rgba (i + 1))) rgba in
    upd (i + 2) (bias1 db (ld 0%Z rgba (i + 2))) rgba) rgba.

(** The distance between the placeholder's mean and the target. *)
Definition meanDist (phAvg : Q * Q * Q) (avgColor : list Q) : Q :=
  let '(a0, a1, a2) := phAvg in
  let sq (d : Q) := F64 (d * d) in
  sqrt64 (F64 (F64 (sq (F64 (a0 - nth 0 avgColor 0))
                    + sq (F64 (a1 - nth 1 avgColor 0)))
               + sq (F64 (a2 - nth 2 avgColor 0)))).

(** The adaptive chroma factor. *)
Definition adaptiveChroma (dist : Q) : Q :=
  if Qltb dist 20 then F64 (55 # 100)
  else if Qltb dist 45 then F64 (40 # 100)
  else F64 (28 # 100).

(** [thumbHashToDataURL], up to the bitmap it hands to
    [rgbaToBmpDataURL]; [None] is an omitted [avgColor]. *)
Definition thumbHashToDataURL (hash : list Z) (chroma : option Q)
    (avgColor : option (list Q)) : bitmap :=
  match avgColor with
  | Some t =>
      if (3 <=? Z.of_nat (length t))%Z then
        let bm := thumbHashToRGBA hash None in
        let n := (bw bm * bh bm)%Z in
        let phAvg := computeAvgRGB (pixels bm) n in
        let dist := meanDist phAvg t in
        let ac := adaptiveChroma dist in
        let rgba := if Qltb ac 1 then attenuateChroma (pixels bm) ac
                    else pixels bm in
        let rgba := applyBiasCorrection rgba n t (F64 (45 # 100)) in
        {| bw := bw bm; bh := bh bm; pixels := rgba |}
      else thumbHashToRGBA hash chroma
  | None => thumbHashToRGBA hash chroma
  end.

(** What a call of the decoder can do: return a bitmap, or fail with one
    of the error kinds of the spec. *)
Inductive DecodeError : Type := TruncatedHash | MalformedBasis.

Inductive outcome : Type :=
| Returned (b : bitmap)
| Failed (e : DecodeError).

(** A call of [thumbHashToRGBA].  The function has no [throw]; a load
    beyond the end of the [Uint8Array] yields [undefined], which the
    bitwise operators read as [0]; the coefficient arrays are read
    exactly as far as [readAC] filled them. *)
Definition decode (hash : list Z) (chroma : option Q) : outcome :=
  Returned (thumbHashToRGBA hash chroma).

End Decoder.

End Dec.

(* ================================================================= *)
(** ** The bitmap file *)

Module Bmp.

(** A little-endian store of a [DataView]: [n] bytes of [v] from [off]
    on.  [setUint32], [setInt32] and [setUint16] store the value modulo
    [2^32] or [2^16], which the byte extraction does by itself. *)
Definition storeLE (n : nat) (off v : Z) (buf : list Z) : list Z :=
  fold_left (fun b k =>
               upd (off + Z.of_nat k)%Z ((v / 2 ^ (8 * Z.of_nat k)) mod 256)%Z b)
            (seq 0 n) buf.

Definition setUint32 : Z -> Z -> list Z -> list Z := storeLE 4.
Definition setInt32 : Z -> Z -> list Z -> list Z := storeLE 4.
Definition setUint16 : Z -> Z -> list Z -> list Z := storeLE 2.

(** The file [rgbaToBmpDataURL] builds in [bmp]: a 122-byte header
    (file header and BITMAPV4HEADER, top-down, 32 bits, bit fields) and
    the pixels as B, G, R, A. *)
Definition rgbaToBmp (w h : Z) (rgba : list Z) : list Z :=
  let headerSize := 122%Z in
  let stride := (w * 4)%Z in
  let dataSize := (stride * h)%Z in
  let fileSize := (headerSize + dataSize)%Z in
  let bmp := repeat 0%Z (Z.to_nat fileSize) in
  let bmp := upd 0 66%Z bmp in
  let bmp := upd 1 77%Z bmp in
  let bmp := setUint32 2 fileSize bmp in
  let bmp := setUint32 10 headerSize bmp in
  let bmp := setUint32 14 108 bmp in
  let bmp := setInt32 18 w bmp in
  let bmp := setInt32 22 (- h)%Z bmp in
  let bmp := setUint16 26 1 bmp in
  let bmp := setUint16 28 32 bmp in
  let bmp := setUint32 30 3 bmp in
  let bmp := setUint32 34 dataSize bmp in
  let bmp := setUint32 38 2835 bmp in
  let bmp := setUint32 42 2835 bmp in
  let bmp := setUint32 54 16711680 bmp in
  let bmp := setUint32 58 65280 bmp in
  let bmp := setUint32 62 255 bmp in
  let bmp := setUint32 66 4278190080 bmp in
  forZ (w * h) (fun i bmp =>
    let src := (i * 4)%Z in
    let dst := (headerSize + i * 4)%Z in
    let bmp := upd dst (ld 0%Z rgba (src + 2)%Z) bmp in
    let bmp := upd (dst + 1)%Z (ld 0%Z rgba (src + 1)%Z) bmp in
    let bmp := upd (dst + 2)%Z (ld 0%Z rgba src) bmp in
    upd (dst + 3)%Z (ld 0%Z rgba (src + 3)%Z) bmp) bmp.

Section DataURL.
Import Stdlib.Strings.String.

(** [btoa] of the bytes of a binary string: the base-64 text.  It is a
    function of the browser, not of this repository. *)
Variable btoa : list Z -> String.string.

(** [rgbaToBmpDataURL]. *)
Definition rgbaToBmpDataURL (w h : Z) (rgba : list Z) : String.string :=
  String.append "data:image/bmp;base64,"%string (btoa (rgbaToBmp w h rgba)).

End DataURL.

(** The value of the [n] bytes from [off] on, least significant first. *)
Definition loadLE (n : nat) (off : Z) (buf : list Z) : Z :=
  fold_right (fun k acc => (ld 0%Z buf (off + Z.of_nat k) + 256 * acc)%Z) 0%Z
             (seq 0 n).

End Bmp.

(* ================================================================= *)
(** ** Running the model *)

Module Run.

(** Exact arithmetic: the rounding operator that rounds nothing. *)
Definition exact (q : Q) : Q := q.

(** A cosine to run the model with: the Taylor series on [0, pi/2] in
    72-bit arithmetic after reduction modulo [2 pi], rounded to a double.
    It stands for [math.Cos] in the examples; no theorem depends on it. *)
Definition pi_hi : Q :=
  31415926535897932384626433832795028841972
  # 10000000000000000000000000000000000000000.

Definition ext : Q -> Q := ieee_round 72 (-90).

Fixpoint cos_terms (n : nat) (k : Z) (term x2 acc : Q) : Q :=
  match n with
  | O => acc
  | S n' =>
      let term' := ext (- term * x2 / inject_Z ((2 * k + 1) * (2 * k + 2))) in
      cos_terms n' (k + 1)%Z term' x2 (ext (acc + term'))
  end.

Definition cosine (x : Q) : Q :=
  let pi := ext pi_hi in
  let k := Qfloor (x / (2 * pi) + (1 # 2)) in
  let r := Qabs (ext (x - inject_Z k * (2 * pi))) in
  let '(r, neg) := if Qltb (pi / 2) r then (ext (pi - r), true) else (r, false) in
  let c := cos_terms 13 0 1 (ext (r * r)) 1 in
  binary64 (if neg then - c else c).

(** A square root to run the model with: the integer square root of the
    argument scaled by [2^128], rounded to a double. *)
Definition sqrt_run (q : Q) : Q :=
  let r := Qred q in
  binary64 (inject_Z (Z.sqrt (Z.shiftl (Qnum r) 128 / Zpos (Qden r)))
            / inject_Z (Z.shiftl 1 64)).

(** The hashes of [TestGoldenValues] for [gradientImg(200, 10)] and for
    [solidImg(100, 50, green)]. *)
Definition golden_wide : list Z :=
  [223; 247; 9; 17; 70; 3; 128; 135; 135; 128; 128]%Z.

Definition golden_green : list Z :=
  [213; 11; 0; 20; 0; 0; 143; 120; 120; 138; 135; 135; 88; 136; 120; 119;
   134; 119; 119; 135; 8; 134; 119; 159; 7]%Z.

(** [image.NewNRGBA(image.Rect(0, 0, w, h))] filled pixel by pixel. *)
Definition newNRGBA (w h : Z) (pixel : Z -> Z -> list Z) : Enc.Image :=
  Enc.NRGBA
    (concat (map (fun y => concat (map (fun x => pixel x y)
                                       (map Z.of_nat (seq 0 (Z.to_nat w)))))
                 (map Z.of_nat (seq 0 (Z.to_nat h)))))
    (4 * w)%Z (Enc.Rect 0 0 w h).

(** [gradientImg] and [solidImg] of the golden tests. *)
Definition gradientImg (w h : Z) : Enc.Image :=
  newNRGBA w h (fun x y =>
    [byte (Z.quot (x * 255) (imax (w - 1) 1));
     byte (Z.quot (y * 255) (imax (h - 1) 1)); 128; 255]%Z).

Definition solidImg (w h : Z) (r g b a : Z) : Enc.Image :=
  newNRGBA w h (fun _ _ => [r; g; b; a]).

(** A work buffer as [new(workBuf)] allocates it. *)
Definition newWorkBuf : Enc.workBuf :=
  {| Enc.rgba := repeat 0 (Z.to_nat 40000);
     Enc.cosX := repeat 0 (Z.to_nat 800);
     Enc.cosY := repeat 0 (Z.to_nat 800);
     Enc.ac := repeat 0 (Z.to_nat 128) |}.

(** [cosine] with the two facts about [math.Cos] that the range of the
    coefficients rests on made evident: it is [1] at [0], and no value
    leaves [[-1, 1]]. *)
Definition cosine_unit (x : Q) : Q :=
  if Qeq_bool x 0 then 1
  else let c := cosine x in
       if Qltb c (- (1)) then - (1) else if Qltb 1 c then 1 else c.

(** A fresh work buffer whose proxy region holds [proxy]. *)
Definition proxyBuf (proxy : list Q) : Enc.workBuf :=
  {| Enc.rgba := proxy ++ repeat 0 (Z.to_nat 40000 - length proxy);
     Enc.cosX := repeat 0 (Z.to_nat 800);
     Enc.cosY := repeat 0 (Z.to_nat 800);
     Enc.ac := repeat 0 (Z.to_nat 128) |}.

(** Two-pixel proxies: a red and a green pixel, opaque and half
    transparent. *)
Definition opaquePair : list Q := [1; 0; 0; 1; 0; 1; 0; 1].
Definition translucentPair : list Q := [1; 0; 0; 1 # 2; 0; 1; 0; 1 # 2].

(** The [Pix] of [gradientImg(2, 1)], and its bounds. *)
Definition gradientPix : list Z := [0; 0; 128; 255; 255; 0; 128; 255]%Z.
Definition gradientRect : Enc.Rectangle := Enc.Rect 0 0 2 1.

(** A work buffer a previous call left dirty. *)
Definition usedWorkBuf : Enc.workBuf :=
  {| Enc.rgba := repeat (1 # 3) (Z.to_nat 40000);
     Enc.cosX := repeat (2 # 3) (Z.to_nat 800);
     Enc.cosY := repeat (- (1)) (Z.to_nat 800);
     Enc.ac := repeat 7 (Z.to_nat 128) |}.

End Run.

(* ================================================================= *)
(** * Properties *)

Local Open Scope Z_scope.
Import Enc Dec Run.
Unset Implicit Arguments.

(** ** Loops and stores *)

Section LoopRules.
Context {S : Type}.

Lemma for_loop_S (n : nat) (body : nat -> S -> S) (s : S) :
  for_loop (Datatypes.S n) body s = body n (for_loop n body s).
Proof.
  unfold for_loop. rewrite seq_S, fold_left_app. reflexivity.
Qed.

(** The invariant rule of a counted loop. *)
Lemma for_loop_inv (P : nat -> S -> Prop) (n : nat) (body : nat -> S -> S) (s : S) :
  P O s ->
  (forall i t, (i < n)%nat -> P i t -> P (Datatypes.S i) (body i t)) ->
  P n (for_loop n body s).
Proof.
  intros H0 Hstep. induction n as [|n IH].
  - exact H0.
  - rewrite for_loop_S. apply Hstep; [lia|]. apply IH.
    intros i t Hi. apply Hstep. lia.
Qed.

Lemma forZ_inv (P : Z -> S -> Prop) (n : Z) (body : Z -> S -> S) (s : S) :
  0 <= n ->
  P 0 s ->
  (forall i t, 0 <= i < n -> P i t -> P (i + 1) (body i t)) ->
  P n (forZ n body s).
Proof.
  intros Hn H0 Hstep. unfold forZ.
  replace n with (Z.of_nat (Z.to_nat n)) at 1 by lia.
  apply (for_loop_inv (fun i t => P (Z.of_nat i) t)).
  - exact H0.
  - intros i t Hi Hp. replace (Z.of_nat (Datatypes.S i)) with (Z.of_nat i + 1) by lia.
    apply Hstep; [lia|exact Hp].
Qed.

Lemma forZ_nonpos (n : Z) (body : Z -> S -> S) (s : S) :
  n <= 0 -> forZ n body s = s.
Proof.
  intros Hn. unfold forZ. replace (Z.to_nat n) with O by lia. reflexivity.
Qed.

(** A property every iteration keeps. *)
Lemma forZ_keeps (P : S -> Prop) (n : Z) (body : Z -> S -> S) (s : S) :
  P s -> (forall i t, 0 <= i < n -> P t -> P (body i t)) -> P (forZ n body s).
Proof.
  intros H0 Hstep. destruct (Z_le_gt_dec 0 n) as [Hn|Hn].
  - apply (forZ_inv (fun _ t => P t)); auto.
  - rewrite forZ_nonpos by lia. exact H0.
Qed.

End LoopRules.

(** Two runs of a loop in lockstep. *)
Lemma forZ_rel {S T : Type} (R : Z -> S -> T -> Prop) (n : Z)
    (f : Z -> S -> S) (g : Z -> T -> T) (s : S) (t : T) :
  0 <= n ->
  R 0 s t ->
  (forall i a b, 0 <= i < n -> R i a b -> R (i + 1) (f i a) (g i b)) ->
  R n (forZ n f s) (forZ n g t).
Proof.
  intros Hn H0 Hstep.
  assert (H : forall k : nat, (k <= Z.to_nat n)%nat ->
             R (Z.of_nat k) (for_loop k (fun i => f (Z.of_nat i)) s)
                            (for_loop k (fun i => g (Z.of_nat i)) t)).
  { induction k as [|k IH]; intros Hk.
    - exact H0.
    - rewrite !for_loop_S.
      replace (Z.of_nat (Datatypes.S k)) with (Z.of_nat k + 1) by lia.
      apply Hstep; [lia|]. apply IH. lia. }
  unfold forZ. replace n with (Z.of_nat (Z.to_nat n)) at 1 by lia.
  apply H. lia.
Qed.

(** Loops with equal bodies. *)
Lemma forZ_ext {S : Type} (n : Z) (f g : Z -> S -> S) (s : S) :
  (forall i t, 0 <= i < n -> f i t = g i t) -> forZ n f s = forZ n g s.
Proof.
  intros H. destruct (Z_le_gt_dec 0 n) as [Hn|Hn].
  - apply (forZ_rel (fun _ a b => a = b)); auto.
    intros i a b Hi ->. apply H. exact Hi.
  - rewrite !forZ_nonpos by lia. reflexivity.
Qed.

Section StoreFacts.
Context {A : Type}.

Lemma upd_nat_length (i : nat) (v : A) (l : list A) :
  length (upd_nat i v l) = length l.
Proof.
  revert i. induction l as [|x l IH]; intros [|i]; simpl; auto.
Qed.

Lemma upd_length (i : Z) (v : A) (l : list A) : length (upd i v l) = length l.
Proof.
  unfold upd. destruct (i <? 0); [reflexivity|apply upd_nat_length].
Qed.

Lemma nth_upd_nat_same (d : A) (i : nat) (v : A) (l : list A) :
  (i < length l)%nat -> nth i (upd_nat i v l) d = v.
Proof.
  revert i. induction l as [|x l IH]; intros [|i] Hi; simpl in *; try lia; auto.
  apply IH. lia.
Qed.

Lemma nth_upd_nat_other (d : A) (i j : nat) (v : A) (l : list A) :
  i <> j -> nth j (upd_nat i v l) d = nth j l d.
Proof.
  revert i j. induction l as [|x l IH]; intros [|i] [|j] Hij; simpl; auto; try lia.
Qed.

Lemma ld_upd_same (d : A) (i : Z) (v : A) (l : list A) :
  0 <= i < Z.of_nat (length l) -> ld d (upd i v l) i = v.
Proof.
  intros Hi. unfold ld, upd.
  destruct (Z.ltb_spec i 0); [lia|]. apply nth_upd_nat_same. lia.
Qed.

Lemma ld_upd_other (d : A) (i j : Z) (v : A) (l : list A) :
  i <> j -> ld d (upd i v l) j = ld d l j.
Proof.
  intros Hij. unfold ld, upd.
  destruct (Z.ltb_spec j 0); [reflexivity|].
  destruct (Z.ltb_spec i 0); [reflexivity|].
  apply nth_upd_nat_other. lia.
Qed.

(** Lists with the same loads are equal. *)
Lemma ld_ext (d : A) (l1 l2 : list A) :
  length l1 = length l2 ->
  (forall i, 0 <= i < Z.of_nat (length l1) -> ld d l1 i = ld d l2 i) ->
  l1 = l2.
Proof.
  intros Hlen H. apply (nth_ext _ _ d d Hlen).
  intros n Hn. specialize (H (Z.of_nat n)).
  unfold ld in H. destruct (Z.ltb_spec (Z.of_nat n) 0); [lia|].
  rewrite Nat2Z.id in H. apply H. lia.
Qed.

Lemma slice_length (lo hi : Z) (l : list A) :
  0 <= lo <= hi -> hi <= Z.of_nat (length l) ->
  Z.of_nat (length (slice lo hi l)) = hi - lo.
Proof.
  intros H1 H2. unfold slice. rewrite length_firstn, length_skipn. lia.
Qed.

End StoreFacts.

(** ** Proxy dimensions *)

Lemma wrap64_small (z : Z) : - 2^63 <= z < 2^63 -> wrap64 z = z.
Proof.
  intros H. unfold wrap64. rewrite Z.mod_small; lia.
Qed.

Lemma Qfloor_div_pos (a b : Z) :
  0 < b -> Qfloor (inject_Z a / inject_Z b) = a / b.
Proof.
  intros Hb. destruct b as [|p|p]; try lia.
  unfold Qdiv, Qinv, inject_Z, Qmult, Qfloor; simpl.
  rewrite Z.mul_1_r. reflexivity.
Qed.

Lemma max1_max (v : Z) : max1 v = Z.max 1 v.
Proof.
  unfold max1. destruct (Z.ltb_spec v 1); lia.
Qed.

(** C5, as the code has it: the longer side becomes 100 and the shorter
    one is the quotient [other * 100 / longer] rounded DOWN (Go's integer
    division), at least 1; a source with both sides at most 100 keeps its
    dimensions. *)
Theorem thumbDims_floor (W H : Z) :
  0 < W < 2^56 -> 0 < H < 2^56 ->
  (W <= 100 /\ H <= 100 -> thumbDims W H = (W, H)) /\
  (100 < W \/ 100 < H ->
     (H <= W ->
        thumbDims W H
        = (100, Z.max 1 (Qfloor (inject_Z (H * 100) / inject_Z W)))) /\
     (W < H ->
        thumbDims W H
        = (Z.max 1 (Qfloor (inject_Z (W * 100) / inject_Z H)), 100))).
Proof.
  intros HW HH. unfold thumbDims, maxThumbDim. split.
  - intros [H1 H2].
    destruct (Z.leb_spec W 100); [|lia]. destruct (Z.leb_spec H 100); [|lia].
    reflexivity.
  - intros Hbig.
    assert (Hc : (W <=? 100) && (H <=? 100) = false).
    { destruct (Z.leb_spec W 100); destruct (Z.leb_spec H 100); simpl; auto; lia. }
    rewrite Hc. rewrite !wrap64_small by lia.
    rewrite !Qfloor_div_pos by lia. rewrite !max1_max.
    rewrite !Z.quot_div_nonneg by lia.
    split; intros Hord.
    + destruct (Z.geb_spec W H); [reflexivity|lia].
    + destruct (Z.geb_spec W H); [lia|reflexivity].
Qed.

Lemma thumbDims_floor_witness :
  thumbDims 300 200 = (100, Z.max 1 (Qfloor (inject_Z (200 * 100) / inject_Z 300))).
Proof.
  apply (thumbDims_floor 300 200); lia.
Defined.

(** C5 as stated fails: a 300 x 200 source gets the proxy 100 x 66, and
    the nearest integer to 200 * 100 / 300 = 66.67 is 67. *)
Lemma thumbDims_not_nearest :
  thumbDims 300 200 = (100, 66) /\
  Z.max 1 (round_half_even (inject_Z (200 * 100) / inject_Z 300)) = 67 /\
  Z.max 1 (math_Round (inject_Z (200 * 100) / inject_Z 300)) = 67.
Proof. repeat split. Qed.

Lemma thumbDims_range (W H : Z) :
  0 < W < 2^56 -> 0 < H < 2^56 ->
  1 <= fst (thumbDims W H) <= 100 /\ 1 <= snd (thumbDims W H) <= 100.
Proof.
  intros HW HH. unfold thumbDims, maxThumbDim.
  destruct (Z.leb_spec W 100); destruct (Z.leb_spec H 100); simpl;
    try lia; rewrite !wrap64_small by lia; rewrite !Z.quot_div_nonneg by lia;
    destruct (Z.geb_spec W H); simpl; rewrite ?max1_max;
    try (assert (H * 100 / W <= 100) by (apply Z.div_le_upper_bound; lia));
    try (assert (W * 100 / H <= 100) by (apply Z.div_le_upper_bound; lia));
    lia.
Qed.

(** ** Rounding to an integer *)

Lemma Qltb_lt (x y : Q) : Qltb x y = true <-> (x < y)%Q.
Proof.
  unfold Qltb. rewrite Qlt_alt. destruct (x ?= y)%Q; split; congruence.
Qed.

Lemma Qltb_ge (x y : Q) : Qltb x y = false <-> (y <= x)%Q.
Proof.
  unfold Qltb. rewrite Qle_alt.
  assert (E : (y ?= x)%Q = CompOpp (x ?= y)%Q) by (symmetry; apply Qcompare_antisym).
  rewrite E. destruct (x ?= y)%Q; simpl; split; congruence.
Qed.

Lemma Qfloor_add_Z (x : Q) (k : Z) :
  Qfloor (inject_Z k + x) = k + Qfloor x.
Proof.
  assert (H1 := Qfloor_le x). assert (H2 := Qlt_floor x).
  assert (L : (inject_Z (k + Qfloor x) <= inject_Z k + x)%Q).
  { rewrite inject_Z_plus. lra. }
  assert (U : (inject_Z k + x < inject_Z (k + Qfloor x + 1))%Q).
  { rewrite !inject_Z_plus. rewrite inject_Z_plus in H2. lra. }
  apply Qfloor_resp_le in L. rewrite Qfloor_Z in L.
  assert (U' : Qfloor (inject_Z k + x) < k + Qfloor x + 1).
  { apply Z.lt_nge. intros C. rewrite Zle_Qle in C.
    assert (H3 := Qfloor_le (inject_Z k + x)). lra. }
  lia.
Qed.

(** [math.Round] rounds a half AWAY from zero: a value [k + 1/2] goes to
    [k + 1] when it is positive and to [k] when it is negative. *)
Lemma math_Round_half_away (x : Q) (k : Z) :
  (x == inject_Z k + (1 # 2))%Q ->
  math_Round x = (if k <? 0 then k else k + 1).
Proof.
  intros Hx. unfold math_Round.
  destruct (Qltb x 0) eqn:Hs.
  - apply Qltb_lt in Hs.
    assert (Hk : k < 0).
    { apply Z.lt_nge. intros C. rewrite Zle_Qle in C.
      change (inject_Z 0) with 0%Q in C. lra. }
    destruct (Z.ltb_spec k 0); [|lia].
    assert (E1 : (- x + (1 # 2) == inject_Z (- k) + 0)%Q).
    { rewrite Hx, inject_Z_opp. ring. }
    rewrite E1, Qfloor_add_Z. change (Qfloor 0) with 0%Z. lia.
  - apply Qltb_ge in Hs.
    assert (Hk : 0 <= k).
    { apply Z.le_ngt. intros C.
      assert (Hm : k <= -1) by lia. rewrite Zle_Qle in Hm.
      change (inject_Z (-1)) with (-1)%Q in Hm. lra. }
    destruct (Z.ltb_spec k 0); [lia|].
    assert (E1 : (x + (1 # 2) == inject_Z (k + 1) + 0)%Q).
    { rewrite Hx, inject_Z_plus. simpl. ring. }
    rewrite E1, Qfloor_add_Z. change (Qfloor 0) with 0%Z. lia.
Qed.

Lemma math_Round_comp (a b : Q) : (a == b)%Q -> math_Round a = math_Round b.
Proof.
  intros E. unfold math_Round, Qltb. rewrite E.
  destruct (b ?= 0)%Q;
    first [apply Qfloor_comp | apply f_equal, Qfloor_comp];
    rewrite E; reflexivity.
Qed.

(** C6, as the code has it: every rounding of the encoder to an integer
    field goes through [math.Round], which rounds a half AWAY from zero.
    Whenever the value it is given is [k + 1/2], the header field (the
    DC values [lDC], [pDC], [qDC], the scales [lScale], [pScale],
    [qScale], and [aDC], [aScale]), the AC nibble or the basis dimension
    is [k + 1] for a positive value and [k] for a negative one, whether
    that is even or odd: converted to the field's unsigned type, and at
    least 1 for a basis dimension. *)
Theorem encoder_rounds_half_away (F32 F64 : Q -> Q) (x : Q) (k : Z) :
  (x == inject_Z k + (1 # 2))%Q ->
  let r := if k <? 0 then k else k + 1 in
  (forall v, (F64 (v * 63) == x)%Q ->
     quantDC63 F64 v = uint32 r /\ quantScale63 F64 v = uint16 r) /\
  (forall v, (F64 (F64 (v * 31) + 31) == x)%Q -> quantDC31 F64 v = uint32 r) /\
  (forall v, (F64 (v * 31) == x)%Q -> quantScale31 F64 v = uint32 r) /\
  (forall v, (F64 (v * 15) == x)%Q -> quant15 F64 v = uint16 r) /\
  (forall c, (F64 (clamp01f (F32 (F32 (c / 2) + (1 # 2))) * 15) == x)%Q ->
     nibbleOf F32 F64 c = byte r) /\
  (forall limit side maxWH,
     (F32 (f32_of_int F32 (limit * side) / f32_of_int F32 maxWH) == x)%Q ->
     basisDim F32 limit side maxWH = max1 r) /\
  roundF x = r.
Proof.
  intros Hx r.
  assert (R : forall y, (y == x)%Q -> math_Round y = r).
  { intros y Hy. rewrite (math_Round_comp y x Hy).
    apply math_Round_half_away. exact Hx. }
  split; [intros v Hv; unfold quantDC63, quantScale63; rewrite (R _ Hv);
          split; reflexivity|].
  split; [intros v Hv; unfold quantDC31; rewrite (R _ Hv); reflexivity|].
  split; [intros v Hv; unfold quantScale31; rewrite (R _ Hv); reflexivity|].
  split; [intros v Hv; unfold quant15; rewrite (R _ Hv); reflexivity|].
  split; [intros c Hc; unfold nibbleOf; cbv zeta; rewrite (R _ Hc);
          reflexivity|].
  split; [intros limit side maxWH Hb; unfold basisDim, roundF;
          rewrite (R _ Hb); reflexivity|].
  unfold roundF. apply R. reflexivity.
Qed.

(** The chroma DC 1/2 is scaled to 46.5 and stored as 47. *)
Lemma encoder_rounds_half_away_witness :
  quantDC31 binary64 (1 # 2) = 47.
Proof.
  assert (W := encoder_rounds_half_away binary32 binary64 (93 # 2) 46
                 ltac:(reflexivity)).
  cbv zeta in W. destruct W as (_ & W & _).
  exact (W (1 # 2) ltac:(reflexivity)).
Defined.

(** C6 as stated fails: 2.5 is rounded to 3, which is odd; rounding half
    to even gives 2.  The basis dimension [ly] of a 100 x 50 proxy with
    alpha is such a value, 5 * 50 / 100 = 2.5; and the chroma DC 1/2 is
    scaled to 46.5 and stored as 47, where half to even gives 46. *)
Lemma roundF_not_half_even :
  roundF (5 # 2) = 3 /\ round_half_even (5 # 2) = 2 /\
  binary32 (binary32 (inject_Z (5 * 50)) / binary32 (inject_Z 100)) = 5 # 2 /\
  basisDim binary32 5 50 100 = 3 /\
  binary64 (binary64 ((1 # 2) * 31) + 31) = 93 # 2 /\
  quantDC31 binary64 (1 # 2) = 47 /\
  round_half_even (93 # 2) = 46.
Proof. repeat split. Qed.
(** ** Basis dimensions *)

Lemma math_Round_Z (k : Z) : math_Round (inject_Z k) = k.
Proof.
  unfold math_Round. destruct (Qltb (inject_Z k) 0) eqn:Hs.
  - assert (E : (- inject_Z k + (1 # 2) == inject_Z (- k) + (1 # 2))%Q).
    { rewrite inject_Z_opp. reflexivity. }
    rewrite E, Qfloor_add_Z. change (Qfloor (1 # 2)) with 0. lia.
  - rewrite Qfloor_add_Z. change (Qfloor (1 # 2)) with 0. lia.
Qed.

Lemma math_Round_proper (a b : Q) : (a == b)%Q -> math_Round a = math_Round b.
Proof.
  intros Hab. unfold math_Round.
  assert (Qltb a 0 = Qltb b 0) as ->.
  { unfold Qltb. rewrite Hab. reflexivity. }
  destruct (Qltb b 0).
  - f_equal. apply Qfloor_comp. rewrite Hab. reflexivity.
  - apply Qfloor_comp. rewrite Hab. reflexivity.
Qed.

Lemma math_Round_le (x : Q) (k : Z) :
  (x <= inject_Z k)%Q -> math_Round x <= k.
Proof.
  intros Hx. unfold math_Round. destruct (Qltb x 0) eqn:Hs.
  - assert (L : (inject_Z (- k) + (1 # 2) <= - x + (1 # 2))%Q).
    { rewrite inject_Z_opp. lra. }
    apply Qfloor_resp_le in L. rewrite Qfloor_add_Z in L.
    change (Qfloor (1 # 2)) with 0 in L. lia.
  - assert (L : (x + (1 # 2) <= inject_Z k + (1 # 2))%Q) by lra.
    apply Qfloor_resp_le in L. rewrite Qfloor_add_Z in L.
    change (Qfloor (1 # 2)) with 0 in L. lia.
Qed.

Lemma math_Round_ge (x : Q) (k : Z) :
  (inject_Z k <= x)%Q -> k <= math_Round x.
Proof.
  intros Hx. unfold math_Round. destruct (Qltb x 0) eqn:Hs.
  - apply Qltb_lt in Hs.
    assert (L : (- x + (1 # 2) <= inject_Z (- k) + (1 # 2))%Q).
    { rewrite inject_Z_opp. lra. }
    assert (Hk : k <= -1).
    { apply Z.le_ngt. intros C. assert (C' : 0 <= k) by lia.
      rewrite Zle_Qle in C'. change (inject_Z 0) with 0%Q in C'. lra. }
    (* the floor of [-x + 1/2] is below [-k + 1/2], but a half is not
       enough: use that [-x + 1/2 < -k + 1] *)
    assert (U : Qfloor (- x + (1 # 2)) < - k + 1).
    { apply Z.lt_nge. intros C. rewrite Zle_Qle in C.
      assert (F := Qfloor_le (- x + (1 # 2))).
      rewrite inject_Z_plus, inject_Z_opp in C.
      change (inject_Z 1) with 1%Q in C. lra. }
    lia.
  - assert (L : (inject_Z k + (1 # 2) <= x + (1 # 2))%Q) by lra.
    apply Qfloor_resp_le in L. rewrite Qfloor_add_Z in L.
    change (Qfloor (1 # 2)) with 0 in L. lia.
Qed.

Section RoundingFacts.
Variable F : Q -> Q.
Hypothesis HF : rounding_laws F.

Lemma rnd_int (n : Z) : Z.abs n <= 2 ^ 23 -> (F (inject_Z n) == inject_Z n)%Q.
Proof.
  intros Hn.
  assert (E : (inject_Z n == (2 * n) # 2)%Q).
  { unfold Qeq, inject_Z. cbn [Qnum Qden]. lia. }
  rewrite (rnd_proper HF E). rewrite (rnd_half HF) by lia.
  symmetry. exact E.
Qed.

Lemma rnd_le_int (x : Q) (n : Z) :
  Z.abs n <= 2 ^ 23 -> (x <= inject_Z n)%Q -> (F x <= inject_Z n)%Q.
Proof.
  intros Hn Hx. rewrite <- (rnd_int n Hn). apply (rnd_mono HF). exact Hx.
Qed.

Lemma rnd_ge_int (x : Q) (n : Z) :
  Z.abs n <= 2 ^ 23 -> (inject_Z n <= x)%Q -> (inject_Z n <= F x)%Q.
Proof.
  intros Hn Hx. rewrite <- (rnd_int n Hn). apply (rnd_mono HF). exact Hx.
Qed.

Lemma rnd_0 : (F 0 == 0)%Q.
Proof. apply (rnd_int 0). simpl. lia. Qed.

Lemma rnd_1 : (F 1 == 1)%Q.
Proof. apply (rnd_int 1). simpl. lia. Qed.

(** The quotient the basis selection rounds. *)
Lemma basis_quotient (limit side maxWH : Z) :
  0 <= limit <= 7 -> 0 <= side <= 100 -> 1 <= maxWH <= 100 ->
  (F (f32_of_int F (limit * side) / f32_of_int F maxWH)
   == F (inject_Z (limit * side) / inject_Z maxWH))%Q.
Proof.
  intros Hl Hs Hm. apply (rnd_proper HF). unfold f32_of_int.
  rewrite !rnd_int; [reflexivity| |]; simpl Z.pow; try lia.
  assert (limit * side <= 7 * 100) by nia. nia.
Qed.

Lemma basisDim_range (limit side maxWH : Z) :
  1 <= limit <= 7 -> 1 <= side <= maxWH -> maxWH <= 100 ->
  1 <= basisDim F limit side maxWH <= limit.
Proof.
  intros Hl Hs Hm. unfold basisDim, roundF. rewrite max1_max.
  split; [lia|]. apply Z.max_lub; [lia|].
  apply math_Round_le. rewrite basis_quotient by lia.
  apply rnd_le_int; [simpl; lia|].
  apply Qle_shift_div_r.
  - rewrite <- (Zlt_Qlt 0). lia.
  - rewrite <- inject_Z_mult, <- Zle_Qle. nia.
Qed.

(** Along the longer side the basis takes its limit. *)
Lemma basisDim_full (limit maxWH : Z) :
  1 <= limit <= 7 -> 1 <= maxWH <= 100 ->
  basisDim F limit maxWH maxWH = limit.
Proof.
  intros Hl Hm. unfold basisDim, roundF.
  assert (E : (F (f32_of_int F (limit * maxWH) / f32_of_int F maxWH)
               == inject_Z limit)%Q).
  { rewrite basis_quotient by lia.
    assert (E1 : (inject_Z (limit * maxWH) / inject_Z maxWH == inject_Z limit)%Q).
    { rewrite inject_Z_mult. field.
      intros C. assert (C' : (0 < inject_Z maxWH)%Q).
      { rewrite <- (Zlt_Qlt 0). lia. } lra. }
    rewrite (rnd_proper HF E1). apply rnd_int. simpl; lia. }
  rewrite (math_Round_proper _ _ E), math_Round_Z, max1_max. lia.
Qed.

End RoundingFacts.
(** ** The length of the hash *)

Section HashLength.
Variables F32 F64 cos64 : Q -> Q.

Lemma packAC_length (acOff : Z) (acs : list Q) (st : list Z * Z) :
  length (fst (packAC F32 F64 acOff acs st)) = length (fst st).
Proof.
  unfold packAC. revert st. induction acs as [|c acs IH]; intros [hash nib].
  - reflexivity.
  - simpl fold_left. rewrite IH. simpl fst.
    destruct (Z.rem nib 2 =? 0); apply upd_length.
Qed.

Lemma pack_length (w h : Z) (ch : channels) :
  length (pack F32 F64 w h ch) = Z.to_nat (hashLen ch).
Proof.
  unfold pack.
  destruct (hasAlpha ch); rewrite !packAC_length; simpl fst;
    rewrite !upd_length; apply repeat_length.
Qed.

(** The basis [transform] selects. *)
Definition basis_of (w h : Z) (ch : channels) : Prop :=
  let lLimit := if hasAlpha ch then 5 else 7 in
  lx ch = basisDim F32 lLimit w (imax w h) /\
  ly ch = basisDim F32 lLimit h (imax w h) /\
  px ch = basisDim F32 3 w (imax w h) /\
  py ch = basisDim F32 3 h (imax w h) /\
  ax ch = (if hasAlpha ch then basisDim F32 5 w (imax w h) else 0) /\
  ay ch = (if hasAlpha ch then basisDim F32 5 h (imax w h) else 0).

Lemma transform_basis (w h : Z) (wb : workBuf) :
  basis_of w h (fst (transform F32 F64 cos64 w h wb)).
Proof.
  unfold transform, basis_of.
  destruct (avgColor F32 (w * h) (slice 0 (w * h * 4) (rgba wb)))
    as [[[avgR avgG] avgB] avgA].
  repeat match goal with
  | |- context [encodeChan ?a ?b ?c ?d ?e ?f ?g ?h ?i ?j ?k ?l ?m] =>
      destruct (encodeChan a b c d e f g h i j k l m) as [[? ?] ?]
  end.
  destruct (Qltb avgA 1); simpl; repeat split; reflexivity.
Qed.

Lemma assembleHash_length (w h : Z) (wb : workBuf) :
  length (fst (assembleHash F32 F64 cos64 w h wb))
  = Z.to_nat (hashLen (fst (transform F32 F64 cos64 w h wb))).
Proof.
  unfold assembleHash.
  destruct (transform F32 F64 cos64 w h wb) as [ch wb'].
  simpl. apply pack_length.
Qed.

Hypothesis HF : rounding_laws F32.

Lemma hashLen_bounds (w h : Z) (ch : channels) :
  1 <= w <= 100 -> 1 <= h <= 100 -> basis_of w h ch ->
  (hasAlpha ch = false -> 11 <= hashLen ch <= 38) /\
  (hasAlpha ch = true -> 14 <= hashLen ch <= 40).
Proof.
  intros Hw Hh (Elx & Ely & Epx & Epy & Eax & Eay).
  unfold hashLen, totalAC.
  assert (Hm : imax w h = w /\ h <= w \/ imax w h = h /\ w <= h).
  { unfold imax. destruct (Z.gtb_spec w h); lia. }
  destruct (hasAlpha ch); (split; [intros E|intros E]; try discriminate);
    rewrite Elx, Ely, Epx, Epy, ?Eax, ?Eay; clear Elx Ely Epx Epy Eax Eay;
    destruct Hm as [[-> Hle]|[-> Hle]];
    rewrite !(basisDim_full F32 HF) by lia;
    match goal with
    | |- context [basisDim F32 ?l ?s ?m] =>
        let H5 := fresh in let H3 := fresh in
        assert (H5 := basisDim_range F32 HF l s m ltac:(lia) ltac:(lia) ltac:(lia));
        assert (H3 := basisDim_range F32 HF 3 s m ltac:(lia) ltac:(lia) ltac:(lia));
        generalize dependent (basisDim F32 l s m);
        generalize dependent (basisDim F32 3 s m)
    end;
    intros p Hp l Hl;
    rewrite Z.quot_div_nonneg by nia;
    match goal with
    | |- _ <= ?c + ?t / 2 <= _ =>
        let B := fresh in
        assert (B : (c = 8 -> 13 <= t <= 65) /\ (c = 6 -> 11 <= t <= 65))
          by (split; intros C; first [lia | nia]);
        generalize dependent t
    end;
    intros t [Ht1 Ht2];
    first [specialize (Ht1 eq_refl)|specialize (Ht2 eq_refl)];
    Z.div_mod_to_equations; lia.
Qed.


End HashLength.
(** ** In-place pixel loops *)

(** The shape of the decoder's post-processing loops: pixel [k] of the
    buffer is replaced by [f] of its colour; alpha stays. *)
Definition pixel_step (f : Z -> Z -> Z -> Z * Z * Z) (k : Z) (rgba : list Z)
  : list Z :=
  let i := 4 * k in
  let '(r', g', b') := f (ld 0 rgba i) (ld 0 rgba (i + 1)) (ld 0 rgba (i + 2)) in
  upd (i + 2) b' (upd (i + 1) g' (upd i r' rgba)).

(** What the loop leaves at index [j]. *)
Definition pixel_mapped (f : Z -> Z -> Z -> Z * Z * Z) (rgba : list Z) (j : Z) : Z :=
  let i := 4 * (j / 4) in
  let '(r', g', b') := f (ld 0 rgba i) (ld 0 rgba (i + 1)) (ld 0 rgba (i + 2)) in
  match j mod 4 with
  | 0 => r'
  | 1 => g'
  | 2 => b'
  | _ => ld 0 rgba j
  end.

Lemma pixel_loop_spec (f : Z -> Z -> Z -> Z * Z * Z) (n : Z) (rgba : list Z) :
  0 <= n -> 4 * n <= Z.of_nat (length rgba) ->
  let out := forZ n (pixel_step f) rgba in
  length out = length rgba /\
  forall j, 0 <= j ->
    ld 0 out j = if j <? 4 * n then pixel_mapped f rgba j else ld 0 rgba j.
Proof.
  intros Hn Hlen.
  apply (forZ_inv (fun k s =>
    length s = length rgba /\
    forall j, 0 <= j ->
      ld 0 s j = if j <? 4 * k then pixel_mapped f rgba j else ld 0 rgba j)).
  - exact Hn.
  - split; [reflexivity|]. intros j Hj.
    destruct (Z.ltb_spec j (4 * 0)); [lia|reflexivity].
  - intros k s Hk [Hl Hs]. unfold pixel_step.
    assert (E0 : ld 0 s (4 * k) = ld 0 rgba (4 * k)).
    { rewrite Hs by lia. destruct (Z.ltb_spec (4 * k) (4 * k)); [lia|reflexivity]. }
    assert (E1 : ld 0 s (4 * k + 1) = ld 0 rgba (4 * k + 1)).
    { rewrite Hs by lia. destruct (Z.ltb_spec (4 * k + 1) (4 * k)); [lia|reflexivity]. }
    assert (E2 : ld 0 s (4 * k + 2) = ld 0 rgba (4 * k + 2)).
    { rewrite Hs by lia. destruct (Z.ltb_spec (4 * k + 2) (4 * k)); [lia|reflexivity]. }
    rewrite E0, E1, E2.
    destruct (f (ld 0 rgba (4 * k)) (ld 0 rgba (4 * k + 1)) (ld 0 rgba (4 * k + 2)))
      as [[r' g'] b'] eqn:Ef.
    split; [rewrite !upd_length; exact Hl|].
    intros j Hj.
    destruct (Z.ltb_spec j (4 * (k + 1))) as [Hlt|Hge].
    + destruct (Z.ltb_spec j (4 * k)) as [Hold|Hnew].
      * rewrite !ld_upd_other by lia. rewrite Hs by lia.
        destruct (Z.ltb_spec j (4 * k)); [reflexivity|lia].
      * assert (Hq : j / 4 = k) by (Z.div_mod_to_equations; lia).
        unfold pixel_mapped. rewrite Hq, Ef.
        assert (Hm : j mod 4 = j - 4 * k) by (Z.div_mod_to_equations; lia).
        rewrite Hm.
        assert (Hc : j = 4 * k \/ j = 4 * k + 1 \/ j = 4 * k + 2 \/ j = 4 * k + 3)
          by lia.
        destruct Hc as [-> | [-> | [-> | ->]]].
        -- rewrite !ld_upd_other by lia. rewrite ld_upd_same by lia.
           replace (4 * k - 4 * k) with 0 by lia. reflexivity.
        -- rewrite ld_upd_other by lia.
           rewrite ld_upd_same by (rewrite upd_length; lia).
           replace (4 * k + 1 - 4 * k) with 1 by lia. reflexivity.
        -- rewrite ld_upd_same by (rewrite !upd_length; lia).
           replace (4 * k + 2 - 4 * k) with 2 by lia. reflexivity.
        -- rewrite !ld_upd_other by lia. rewrite Hs by lia.
           destruct (Z.ltb_spec (4 * k + 3) (4 * k)); [lia|].
           replace (4 * k + 3 - 4 * k) with 3 by lia. reflexivity.
    + rewrite !ld_upd_other by lia. rewrite Hs by lia.
      destruct (Z.ltb_spec j (4 * k)); [lia|reflexivity].
Qed.

Section DecoderLoops.
Variables F64 cos64 sqrt64 : Q -> Q.

(** [attenuateChroma] as a pixel map. *)
Definition attenuate_px (cc : Q) (r g b : Z) : Z * Z * Z :=
  let y := luma709 F64 r g b in
  (attenuate1 F64 cc y r, attenuate1 F64 cc y g, attenuate1 F64 cc y b).

Lemma attenuateChroma_loop (rgba : list Z) (c : Q) :
  attenuateChroma F64 rgba c
  = forZ (Z.quot (Z.of_nat (length rgba) + 3) 4)
         (pixel_step (attenuate_px (if Qltb c 0 then 0%Q else c))) rgba.
Proof. reflexivity. Qed.

(** [applyBiasCorrection]'s loop as a pixel map. *)
Definition bias_px (dr dg db : Q) (r g b : Z) : Z * Z * Z :=
  (bias1 F64 dr r, bias1 F64 dg g, bias1 F64 db b).

Lemma bias_loop (dr dg db : Q) (n : Z) (rgba : list Z) :
  forZ n (fun k rgba =>
    let i := 4 * k in
    let rgba := upd i (bias1 F64 dr (ld 0 rgba i)) rgba in
    let rgba := upd (i + 1) (bias1 F64 dg (ld 0 rgba (i + 1))) rgba in
    upd (i + 2) (bias1 F64 db (ld 0 rgba (i + 2))) rgba) rgba
  = forZ n (pixel_step (bias_px dr dg db)) rgba.
Proof.
  apply forZ_ext. intros k s Hk. unfold pixel_step, bias_px. cbv zeta.
  rewrite !ld_upd_other by lia. reflexivity.
Qed.

Lemma reconstruct_length (f : fields) (acs : list Q * list Q * list Q * list Q)
    (w h : Z) (rgba : list Z) :
  length (reconstruct F64 cos64 f acs w h rgba) = length rgba.
Proof.
  unfold reconstruct. destruct acs as [[[lAC pAC] qAC] aAC].
  apply (forZ_keeps (fun s => length s = length rgba)); [reflexivity|].
  intros y s Hy Hs.
  apply (forZ_keeps (fun s => length s = length rgba)); [exact Hs|].
  intros x s' Hx Hs'. rewrite !upd_length. exact Hs'.
Qed.

(** The buffer [thumbHashToRGBA] returns without chroma has
    [4 * w * h] bytes. *)
Lemma raw_length (hash : list Z) :
  let bm := thumbHashToRGBA F64 cos64 hash None in
  Z.of_nat (length (pixels bm)) = Z.max 0 (bw bm * bh bm * 4).
Proof.
  unfold thumbHashToRGBA.
  destruct (outSize F64 (parse F64 hash)) as [w h]. cbn [bw bh pixels].
  rewrite reconstruct_length, repeat_length. lia.
Qed.

End DecoderLoops.
(** ** Simple chroma attenuation *)

Lemma Math_round_proper (a b : Q) : (a == b)%Q -> Math_round a = Math_round b.
Proof.
  intros Hab. unfold Math_round. apply Qfloor_comp. rewrite Hab. reflexivity.
Qed.

Lemma attenuate1_zero (F64 : Q -> Q) (y : Q) (v1 v2 : Z) :
  rounding_laws F64 ->
  attenuate1 F64 0 y v1 = attenuate1 F64 0 y v2.
Proof.
  intros HF. unfold attenuate1. f_equal. apply Math_round_proper.
  apply (rnd_proper HF). apply Qplus_comp; [reflexivity|].
  apply (rnd_proper HF). ring.
Qed.

(** C9: with [chroma = 0] every pixel of the decoded buffer has
    R = G = B, and a [chroma] of at least 1 decodes as no [chroma] at
    all. *)
Theorem chroma_zero_gray_one_noop (F64 cos64 : Q -> Q) (hash : list Z) :
  rounding_laws F64 ->
  (forall k, 0 <= k < bw (thumbHashToRGBA F64 cos64 hash (Some 0%Q))
                     * bh (thumbHashToRGBA F64 cos64 hash (Some 0%Q)) ->
     ld 0 (pixels (thumbHashToRGBA F64 cos64 hash (Some 0%Q))) (4 * k)
     = ld 0 (pixels (thumbHashToRGBA F64 cos64 hash (Some 0%Q))) (4 * k + 1) /\
     ld 0 (pixels (thumbHashToRGBA F64 cos64 hash (Some 0%Q))) (4 * k + 1)
     = ld 0 (pixels (thumbHashToRGBA F64 cos64 hash (Some 0%Q))) (4 * k + 2)) /\
  (forall c : Q, (1 <= c)%Q ->
     thumbHashToRGBA F64 cos64 hash (Some c) = thumbHashToRGBA F64 cos64 hash None).
Proof.
  intros HF. split.
  - assert (L := raw_length F64 cos64 hash). cbv zeta in L.
    revert L. unfold thumbHashToRGBA.
    destruct (outSize F64 (parse F64 hash)) as [w h].
    change (Qltb 0 1) with true. cbv iota. cbn [bw bh pixels].
    set (raw := reconstruct F64 cos64 (parse F64 hash)
                  (readAll F64 hash (parse F64 hash)) w h
                  (repeat 0 (Z.to_nat (w * h * 4)))).
    intros L k Hk.
    assert (Hlen : Z.of_nat (length raw) = 4 * (w * h)) by lia.
    rewrite attenuateChroma_loop. change (Qltb 0 0) with false. cbv iota.
    assert (Hn : Z.quot (Z.of_nat (length raw) + 3) 4 = w * h).
    { rewrite Z.quot_div_nonneg by lia. Z.div_mod_to_equations. lia. }
    rewrite Hn.
    destruct (pixel_loop_spec (attenuate_px F64 0) (w * h) raw) as [_ Hld];
      [lia|lia|].
    cbv zeta in Hld.
    rewrite !Hld by lia.
    destruct (Z.ltb_spec (4 * k) (4 * (w * h))); [|lia].
    destruct (Z.ltb_spec (4 * k + 1) (4 * (w * h))); [|lia].
    destruct (Z.ltb_spec (4 * k + 2) (4 * (w * h))); [|lia].
    unfold pixel_mapped.
    assert (Q0 : 4 * k / 4 = k) by (Z.div_mod_to_equations; lia).
    assert (Q1 : (4 * k + 1) / 4 = k) by (Z.div_mod_to_equations; lia).
    assert (Q2 : (4 * k + 2) / 4 = k) by (Z.div_mod_to_equations; lia).
    assert (M0 : (4 * k) mod 4 = 0) by (Z.div_mod_to_equations; lia).
    assert (M1 : (4 * k + 1) mod 4 = 1) by (Z.div_mod_to_equations; lia).
    assert (M2 : (4 * k + 2) mod 4 = 2) by (Z.div_mod_to_equations; lia).
    rewrite Q0, Q1, Q2, M0, M1, M2. unfold attenuate_px.
    split; apply attenuate1_zero; exact HF.
  - intros c Hc. unfold thumbHashToRGBA.
    destruct (outSize F64 (parse F64 hash)) as [w h].
    assert (E : Qltb c 1 = false) by (apply Qltb_ge; exact Hc).
    rewrite E. reflexivity.
Qed.
(** ** The decoded size *)

Lemma land_15_range (z : Z) : 0 <= Z.land z 15 <= 15.
Proof.
  change 15 with (Z.ones 4). rewrite Z.land_ones by lia.
  change (2 ^ 4) with 16. change (Z.ones 4) with 15.
  assert (H := Z.mod_pos_bound z 16 ltac:(lia)). lia.
Qed.

Lemma parse_basis (F64 : Q -> Q) (hash : list Z) :
  let f := parse F64 hash in
  0 <= f_dimFlag f <= 15 /\
  f_lx f = (if f_isLandscape f then (if f_hasAlpha f then 5 else 7)
            else Z.max 1 (f_dimFlag f)) /\
  f_ly f = (if f_isLandscape f then Z.max 1 (f_dimFlag f)
            else (if f_hasAlpha f then 5 else 7)).
Proof.
  cbv zeta. unfold parse. cbn [f_dimFlag f_lx f_ly f_isLandscape f_hasAlpha].
  split; [apply land_15_range|]. split; reflexivity.
Qed.

Lemma Math_round_le (x y : Q) : (x <= y)%Q -> Math_round x <= Math_round y.
Proof.
  intros H. unfold Math_round. apply Qfloor_resp_le. lra.
Qed.

Lemma Math_round_Z (k : Z) : Math_round (inject_Z k) = k.
Proof.
  unfold Math_round. rewrite Qfloor_add_Z. change (Qfloor (1 # 2)) with 0. lia.
Qed.

Section OutSize.
Variable F64 : Q -> Q.
Hypothesis HF : rounding_laws F64.

(** [round(32 / (a / b))] for basis sizes [a > b]. *)
Lemma scaled_side (a b : Z) :
  1 <= b < a -> a <= 7 ->
  5 <= Math_round (F64 (32 / F64 (num F64 a / num F64 b))) <= 32.
Proof.
  intros Hb Ha. unfold num.
  assert (Ea := rnd_int F64 HF a ltac:(simpl; lia)).
  assert (Eb := rnd_int F64 HF b ltac:(simpl; lia)).
  assert (Hbq : (1 <= inject_Z b)%Q).
  { change 1%Q with (inject_Z 1). rewrite <- Zle_Qle. lia. }
  assert (Hab : (inject_Z b <= inject_Z a)%Q) by (rewrite <- Zle_Qle; lia).
  assert (Ha7 : (inject_Z a <= 7)%Q).
  { change 7%Q with (inject_Z 7). rewrite <- Zle_Qle. lia. }
  set (r := F64 (F64 (inject_Z a) / F64 (inject_Z b))).
  assert (Hr : (1 <= r <= 7)%Q).
  { subst r. split.
    - rewrite <- (rnd_1 F64 HF). apply (rnd_mono HF).
      rewrite Ea, Eb. apply Qle_shift_div_l; lra.
    - apply (rnd_le_int F64 HF _ 7); [simpl; lia|].
      rewrite Ea, Eb. apply Qle_shift_div_r; [lra|].
      change (inject_Z 7) with 7%Q. nra. }
  split.
  - change 5 with (Math_round (9 # 2)). apply Math_round_le.
    rewrite <- (rnd_half HF 9) by (simpl; lia). apply (rnd_mono HF).
    apply Qle_shift_div_l; lra.
  - change 32 with (Math_round (inject_Z 32)) at 2. apply Math_round_le.
    apply (rnd_le_int F64 HF _ 32); [simpl; lia|].
    apply Qle_shift_div_r; [lra|]. change (inject_Z 32) with 32%Q. lra.
Qed.

(** The decoded bitmap is between 5 and 32 pixels on each side, and 32
    pixels on its longer side. *)
Lemma outSize_range (hash : list Z) :
  let '(w, h) := outSize F64 (parse F64 hash) in
  5 <= w <= 32 /\ 5 <= h <= 32 /\ (w = 32 \/ h = 32).
Proof.
  destruct (parse_basis F64 hash) as (Hd & Hx & Hy). cbv zeta in *.
  unfold outSize. rewrite Hx, Hy.
  set (f := parse F64 hash) in *.
  assert (M0 : Math_round 32 = 32) by reflexivity.
  assert (M1 : Math_round (F64 (32 / 1)) = 32).
  { assert (E : (F64 (32 / 1) == inject_Z 32)%Q).
    { rewrite <- (rnd_int F64 HF 32) by (simpl; lia). apply (rnd_proper HF).
      reflexivity. }
    rewrite (Math_round_proper _ _ E). apply Math_round_Z. }
  destruct (f_isLandscape f); destruct (f_hasAlpha f);
    match goal with
    | |- context [(?a >? ?b)] => destruct (Z.gtb_spec a b) as [Hgt|Hle]
    end;
    rewrite ?M1, ?M0;
    try (assert (S := scaled_side _ _ ltac:(split; [|eassumption]; lia) ltac:(lia)));
    lia.
Qed.

End OutSize.
(** ** Means of a buffer *)

Lemma forZ_S {S : Type} (n : Z) (body : Z -> S -> S) (s : S) :
  0 <= n -> forZ (n + 1) body s = body n (forZ n body s).
Proof.
  intros Hn. unfold forZ.
  replace (Z.to_nat (n + 1)) with (Datatypes.S (Z.to_nat n)) by lia.
  rewrite for_loop_S. rewrite Z2Nat.id by lia. reflexivity.
Qed.

(** The sum of [g 0 .. g (n - 1)]. *)
Definition sumZ (n : Z) (g : Z -> Z) : Z := forZ n (fun k s => s + g k) 0.

Lemma sumZ_S (n : Z) (g : Z -> Z) : 0 <= n -> sumZ (n + 1) g = sumZ n g + g n.
Proof. intros Hn. unfold sumZ. rewrite forZ_S by lia. reflexivity. Qed.

Lemma sumZ_ext (n : Z) (g1 g2 : Z -> Z) :
  (forall k, 0 <= k < n -> g1 k = g2 k) -> sumZ n g1 = sumZ n g2.
Proof.
  intros H. unfold sumZ. apply forZ_ext. intros k s Hk. rewrite H by lia.
  reflexivity.
Qed.

Lemma sumZ_bound (n : Z) (g : Z -> Z) (m : Z) :
  0 <= n -> (forall k, 0 <= k < n -> 0 <= g k <= m) -> 0 <= sumZ n g <= m * n.
Proof.
  intros Hn Hg. unfold sumZ.
  apply (forZ_inv (fun k s => 0 <= s <= m * k)); [lia|lia|].
  intros k s Hk Hs. specialize (Hg k Hk). nia.
Qed.

(** Channel [c] of pixel [k] of an RGBA buffer. *)
Definition chan (rgba : list Z) (c k : Z) : Z := ld 0 rgba (4 * k + c).

(** The mean of [g 0 .. g (n - 1)], as a rounded quotient. *)
Definition mean_of (F64 : Q -> Q) (n : Z) (g : Z -> Z) : Q :=
  F64 (inject_Z (sumZ n g) / num F64 n)%Q.

Section Means.
Variable F64 : Q -> Q.
Hypothesis HF : rounding_laws F64.

#[local] Instance F64_Proper : Proper (Qeq ==> Qeq) F64.
Proof. intros x y E. apply (rnd_proper HF). exact E. Qed.

Lemma acc_step (s : Q) (z v k : Z) :
  (s == inject_Z z)%Q -> 0 <= z <= 255 * k -> 0 <= v <= 255 -> 0 <= k < 2 ^ 15 ->
  (F64 (s + num F64 v) == inject_Z (z + v))%Q.
Proof.
  intros Es Hz Hv Hk. change (2 ^ 15) with 32768 in Hk. unfold num.
  rewrite Es, (rnd_int F64 HF v) by (change (2 ^ 23) with 8388608; lia).
  rewrite <- inject_Z_plus. apply (rnd_int F64 HF).
  change (2 ^ 23) with 8388608. lia.
Qed.

(** [computeAvgRGB] returns the three channel means: its running sums
    are exact. *)
Lemma computeAvgRGB_mean (rgba : list Z) (n : Z) :
  0 <= n <= 2 ^ 15 ->
  (forall k c, 0 <= k < n -> 0 <= c <= 2 -> 0 <= chan rgba c k <= 255) ->
  let '(a0, a1, a2) := computeAvgRGB F64 rgba n in
  (a0 == mean_of F64 n (chan rgba 0))%Q /\
  (a1 == mean_of F64 n (chan rgba 1))%Q /\
  (a2 == mean_of F64 n (chan rgba 2))%Q.
Proof.
  intros Hn Hb. unfold computeAvgRGB, mean_of.
  match goal with
  | |- context [forZ n ?b ?s] => set (body := b); set (s0 := s)
  end.
  assert (Inv :
    let '(rS, gS, bS) := forZ n body s0 in
    (rS == inject_Z (sumZ n (chan rgba 0)))%Q /\
    (gS == inject_Z (sumZ n (chan rgba 1)))%Q /\
    (bS == inject_Z (sumZ n (chan rgba 2)))%Q).
  { apply (forZ_inv (fun m '(rS, gS, bS) =>
      (rS == inject_Z (sumZ m (chan rgba 0)))%Q /\
      (gS == inject_Z (sumZ m (chan rgba 1)))%Q /\
      (bS == inject_Z (sumZ m (chan rgba 2)))%Q)); [lia| |].
    - repeat split; reflexivity.
    - intros k [[rS gS] bS] Hk (Er & Eg & Eb). unfold body. cbv zeta.
      rewrite !sumZ_S by lia.
      replace (ld 0 rgba (4 * k)) with (chan rgba 0 k)
        by (unfold chan; f_equal; lia).
      change (ld 0 rgba (4 * k + 1)) with (chan rgba 1 k).
      change (ld 0 rgba (4 * k + 2)) with (chan rgba 2 k).
      repeat split; apply (acc_step _ _ _ k); auto; try lia;
        try (apply Hb; lia);
        apply sumZ_bound; try lia; intros j Hj; apply Hb; lia. }
  destruct (forZ n body s0) as [[rS gS] bS]. destruct Inv as (Er & Eg & Eb).
  rewrite Er, Eg, Eb. repeat split; reflexivity.
Qed.

End Means.
(** The pixel loop, channel by channel. *)
Lemma pixel_loop_chan (f : Z -> Z -> Z -> Z * Z * Z) (n : Z) (rgba : list Z) :
  0 <= n -> 4 * n <= Z.of_nat (length rgba) ->
  forall k, 0 <= k < n ->
    chan (forZ n (pixel_step f) rgba) 0 k
    = fst (fst (f (chan rgba 0 k) (chan rgba 1 k) (chan rgba 2 k))) /\
    chan (forZ n (pixel_step f) rgba) 1 k
    = snd (fst (f (chan rgba 0 k) (chan rgba 1 k) (chan rgba 2 k))) /\
    chan (forZ n (pixel_step f) rgba) 2 k
    = snd (f (chan rgba 0 k) (chan rgba 1 k) (chan rgba 2 k)) /\
    chan (forZ n (pixel_step f) rgba) 3 k = chan rgba 3 k.
Proof.
  intros Hn Hlen k Hk.
  destruct (pixel_loop_spec f n rgba Hn Hlen) as [_ H]. cbv zeta in H.
  generalize dependent (forZ n (pixel_step f) rgba). intros out H.
  assert (G : forall c, 0 <= c <= 3 ->
            chan out c k = pixel_mapped f rgba (4 * k + c)).
  { intros c Hc. unfold chan. rewrite H by lia.
    destruct (Z.ltb_spec (4 * k + c) (4 * n)); [reflexivity|lia]. }
  assert (P : forall c, 0 <= c <= 3 ->
            pixel_mapped f rgba (4 * k + c)
            = let '(r', g', b') :=
                f (chan rgba 0 k) (chan rgba 1 k) (chan rgba 2 k) in
              match c with 0 => r' | 1 => g' | 2 => b' | _ => chan rgba c k end).
  { intros c Hc. unfold pixel_mapped, chan.
    assert (Q0 : (4 * k + c) / 4 = k) by (Z.div_mod_to_equations; lia).
    assert (M0 : (4 * k + c) mod 4 = c) by (Z.div_mod_to_equations; lia).
    rewrite Q0, M0. replace (4 * k + 0) with (4 * k) by lia. reflexivity. }
  rewrite !G by lia. rewrite !P by lia.
  destruct (f (chan rgba 0 k) (chan rgba 1 k) (chan rgba 2 k)) as [[r' g'] b'].
  repeat split; reflexivity.
Qed.

(** ** The adaptive path *)

(** The attenuation factor the spec prescribes for a distance. *)
Definition chroma_choice (F64 : Q -> Q) (dist ac : Q) : Prop :=
  ((dist < 20)%Q -> ac = F64 (55 # 100)) /\
  ((20 <= dist)%Q -> (dist < 45)%Q -> ac = F64 (40 # 100)) /\
  ((45 <= dist)%Q -> ac = F64 (28 # 100)).

(** The adaptive path unrolled pixel by pixel through the decoder's own
    helpers: the mean [M], [meanDist], the factor, [attenuate1] of
    [luma709], the mean [M'], and [bias1]. *)
Definition adaptive_steps (F64 sqrt64 : Q -> Q) (raw out : bitmap) (T : list Q)
  : Prop :=
  let n := bw raw * bh raw in
  let px := chan (pixels raw) in
  let M c := mean_of F64 n (px c) in
  let dist := meanDist F64 sqrt64 (M 0, M 1, M 2) T in
  exists ac : Q,
    chroma_choice F64 dist ac /\
    let att c k := attenuate1 F64 ac (luma709 F64 (px 0 k) (px 1 k) (px 2 k)) (px c k) in
    let M' c := mean_of F64 n (att c) in
    let shift (i : nat) (c : Z) := F64 (F64 (nth i T 0 - M' c) * F64 (45 # 100))%Q in
    bw out = bw raw /\ bh out = bh raw /\
    length (pixels out) = length (pixels raw) /\
    forall k, 0 <= k < n ->
      chan (pixels out) 0 k = bias1 F64 (shift 0%nat 0) (att 0 k) /\
      chan (pixels out) 1 k = bias1 F64 (shift 1%nat 1) (att 1 k) /\
      chan (pixels out) 2 k = bias1 F64 (shift 2%nat 2) (att 2 k) /\
      chan (pixels out) 3 k = px 3 k.

(** *** The pipeline as the specification words it *)

(** The seven steps of the adaptive path, written from the
    specification and not from the decoder: each formula as it stands
    there, every arithmetic operation rounded to [float64], and a value
    stored in a colour byte rounded to the nearest integer (a half goes
    up). *)

Section SpecPipeline.
Variables F64 sqrt64 : Q -> Q.

(** BT.709 luma: [Y = 0.2126 R + 0.7152 G + 0.0722 B]. *)
Definition spec_luma (r g b : Z) : Q :=
  F64 (F64 (F64 (F64 (2126 # 10000) * inject_Z r)
            + F64 (F64 (7152 # 10000) * inject_Z g))
       + F64 (F64 (722 # 10000) * inject_Z b)).

(** A channel [C] replaced with [round(Y + (C - Y) * chroma)], in its
    byte (modulo 256). *)
Definition spec_attenuate (chroma y : Q) (c : Z) : Z :=
  Qfloor (F64 (y + F64 (F64 (inject_Z c - y) * chroma)) + (1 # 2)) mod 256.

(** The mean of [g 0 .. g (n - 1)]. *)
Definition spec_mean (n : Z) (g : Z -> Z) : Q :=
  F64 (inject_Z (sumZ n g) / inject_Z n).

(** [dist = ||M - T||_2]. *)
Definition spec_dist (M T : Z -> Q) : Q :=
  let sq c := let d := F64 (M c - T c) in F64 (d * d) in
  sqrt64 (F64 (F64 (sq 0%Z + sq 1%Z) + sq 2%Z)).

(** [ac = 0.55 if dist < 20 else 0.40 if dist < 45 else 0.28]. *)
Definition spec_factor (dist : Q) : Q :=
  if Qlt_le_dec dist 20 then F64 (55 # 100)
  else if Qlt_le_dec dist 45 then F64 (40 # 100)
  else F64 (28 # 100).

(** A channel with [d] added, rounded, and clamped to [0, 255]. *)
Definition spec_shift (d : Q) (c : Z) : Z :=
  Z.max 0 (Z.min 255 (Qfloor (F64 (inject_Z c + d) + (1 # 2)))).

(** The seven steps, from the raw bitmap to the result. *)
Definition spec_adaptive (raw out : bitmap) (T : list Q) : Prop :=
  let n := bw raw * bh raw in
  let px (c k : Z) := ld 0 (pixels raw) (4 * k + c) in
  let Tc (c : Z) := nth (Z.to_nat c) T 0%Q in
  let M c := spec_mean n (px c) in
  let dist := spec_dist M Tc in
  let ac := spec_factor dist in
  let att c k :=
    spec_attenuate ac (spec_luma (px 0 k) (px 1 k) (px 2 k)) (px c k) in
  let M' c := spec_mean n (att c) in
  let d c := F64 (F64 (Tc c - M' c) * F64 (45 # 100)) in
  bw out = bw raw /\ bh out = bh raw /\
  length (pixels out) = length (pixels raw) /\
  forall k, 0 <= k < n ->
    (forall c, 0 <= c <= 2 ->
       ld 0 (pixels out) (4 * k + c) = spec_shift (d c) (att c k)) /\
    ld 0 (pixels out) (4 * k + 3) = px 3 k.

End SpecPipeline.

Section Adaptive.
Variables F64 cos64 sqrt64 : Q -> Q.
Hypothesis HF : rounding_laws F64.
Hypothesis Hsqrt : forall x y, (x == y)%Q -> (sqrt64 x == sqrt64 y)%Q.
Hypothesis Hc55 : (F64 (55 # 100) < 1)%Q.

#[local] Instance F64_Proper' : Proper (Qeq ==> Qeq) F64.
Proof. intros x y E. apply (rnd_proper HF). exact E. Qed.

#[local] Instance sqrt64_Proper : Proper (Qeq ==> Qeq) sqrt64.
Proof. intros x y E. apply Hsqrt. exact E. Qed.

Lemma Qltb_proper (a b c d : Q) :
  (a == b)%Q -> (c == d)%Q -> Qltb a c = Qltb b d.
Proof. intros E1 E2. unfold Qltb. rewrite E1, E2. reflexivity. Qed.

Lemma meanDist_proper (a0 a1 a2 b0 b1 b2 : Q) (T : list Q) :
  (a0 == b0)%Q -> (a1 == b1)%Q -> (a2 == b2)%Q ->
  (meanDist F64 sqrt64 (a0, a1, a2) T == meanDist F64 sqrt64 (b0, b1, b2) T)%Q.
Proof.
  intros E0 E1 E2. unfold meanDist. rewrite E0, E1, E2. reflexivity.
Qed.

Lemma adaptiveChroma_proper (d1 d2 : Q) :
  (d1 == d2)%Q -> adaptiveChroma F64 d1 = adaptiveChroma F64 d2.
Proof.
  intros E. unfold adaptiveChroma.
  rewrite (Qltb_proper d1 d2 20 20 E (Qeq_refl _)).
  rewrite (Qltb_proper d1 d2 45 45 E (Qeq_refl _)). reflexivity.
Qed.

Lemma adaptiveChroma_choice (d : Q) : chroma_choice F64 d (adaptiveChroma F64 d).
Proof.
  unfold chroma_choice, adaptiveChroma.
  destruct (Qltb d 20) eqn:E20; destruct (Qltb d 45) eqn:E45;
    try apply Qltb_lt in E20; try apply Qltb_lt in E45;
    try apply Qltb_ge in E20; try apply Qltb_ge in E45;
    repeat split; intros; try reflexivity; lra.
Qed.

Lemma adaptiveChroma_range (d : Q) :
  (0 <= adaptiveChroma F64 d)%Q /\ (adaptiveChroma F64 d < 1)%Q.
Proof.
  assert (L : forall q, (0 <= q)%Q -> (q <= 55 # 100)%Q ->
                (0 <= F64 q)%Q /\ (F64 q < 1)%Q).
  { intros q H0 H1. split.
    - rewrite <- (rnd_0 F64 HF). apply (rnd_mono HF). exact H0.
    - apply Qle_lt_trans with (F64 (55 # 100)); [|exact Hc55].
      apply (rnd_mono HF). exact H1. }
  unfold adaptiveChroma.
  destruct (Qltb d 20); [|destruct (Qltb d 45)]; apply L; lra.
Qed.

Lemma bias1_proper (d1 d2 : Q) (v : Z) :
  (d1 == d2)%Q -> bias1 F64 d1 v = bias1 F64 d2 v.
Proof.
  intros E. unfold bias1. do 2 f_equal. apply Math_round_proper.
  rewrite E. reflexivity.
Qed.

Lemma toUint8_range (z : Z) : 0 <= toUint8 z <= 255.
Proof.
  unfold toUint8. change (2 ^ 8) with 256.
  assert (H := Z.mod_pos_bound z 256 ltac:(lia)). lia.
Qed.

Lemma mean_of_ext (n : Z) (g1 g2 : Z -> Z) :
  (forall k, 0 <= k < n -> g1 k = g2 k) -> mean_of F64 n g1 = mean_of F64 n g2.
Proof. intros H. unfold mean_of. rewrite (sumZ_ext n g1 g2 H). reflexivity. Qed.

End Adaptive.
Lemma ld_upd_either {A : Type} (d : A) (i j : Z) (v : A) (l : list A) :
  ld d (upd i v l) j = v \/ ld d (upd i v l) j = ld d l j.
Proof.
  destruct (Z.eq_dec i j) as [->|Hne].
  - destruct (Z_lt_ge_dec j 0) as [Hneg|Hpos].
    + right. unfold ld, upd. destruct (Z.ltb_spec j 0); [reflexivity|lia].
    + destruct (Z_lt_ge_dec j (Z.of_nat (length l))) as [Hin|Hout].
      * left. apply ld_upd_same. lia.
      * right. unfold ld, upd. destruct (Z.ltb_spec j 0); [lia|].
        rewrite !nth_overflow; [reflexivity| |]; rewrite ?upd_nat_length; lia.
  - right. apply ld_upd_other. exact Hne.
Qed.

Lemma ld_repeat {A : Type} (d : A) (n : nat) (j : Z) : ld d (repeat d n) j = d.
Proof.
  unfold ld. destruct (j <? 0); [reflexivity|].
  apply nth_repeat.
Qed.

Lemma upd_bytes (i v : Z) (l : list Z) :
  (forall j, 0 <= ld 0 l j <= 255) -> 0 <= v <= 255 ->
  forall j, 0 <= ld 0 (upd i v l) j <= 255.
Proof.
  intros Hl Hv j. destruct (ld_upd_either 0 i j v l) as [E|E]; rewrite E;
    [exact Hv|apply Hl].
Qed.

Section AdaptiveProof.
Variables F64 cos64 sqrt64 : Q -> Q.
Hypothesis HF : rounding_laws F64.
Hypothesis Hsqrt : forall x y, (x == y)%Q -> (sqrt64 x == sqrt64 y)%Q.
Hypothesis Hc55 : (F64 (55 # 100) < 1)%Q.

Lemma reconstruct_bytes (f : fields) (acs : list Q * list Q * list Q * list Q)
    (w h : Z) (rgba : list Z) :
  (forall j, 0 <= ld 0 rgba j <= 255) ->
  forall j, 0 <= ld 0 (reconstruct F64 cos64 f acs w h rgba) j <= 255.
Proof.
  intros H0. unfold reconstruct. destruct acs as [[[lAC pAC] qAC] aAC].
  apply (forZ_keeps (fun s => forall j, 0 <= ld 0 s j <= 255)); [exact H0|].
  intros y s Hy Hs.
  apply (forZ_keeps (fun s => forall j, 0 <= ld 0 s j <= 255)); [exact Hs|].
  intros x s' Hx Hs'. cbv zeta.
  repeat (apply upd_bytes; [|apply toUint8_range]). exact Hs'.
Qed.

Lemma raw_bitmap (hash : list Z) :
  let bm := thumbHashToRGBA F64 cos64 hash None in
  5 <= bw bm <= 32 /\ 5 <= bh bm <= 32 /\
  Z.of_nat (length (pixels bm)) = 4 * (bw bm * bh bm) /\
  forall j, 0 <= ld 0 (pixels bm) j <= 255.
Proof.
  cbv zeta. assert (R := outSize_range F64 HF hash).
  unfold thumbHashToRGBA. destruct (outSize F64 (parse F64 hash)) as [w h].
  cbn [bw bh pixels]. destruct R as (Hw & Hh & _).
  split; [lia|]. split; [lia|]. split.
  - rewrite reconstruct_length, repeat_length. nia.
  - apply reconstruct_bytes. intros j. rewrite ld_repeat. lia.
Qed.

(** The adaptive path of [thumbHashToDataURL], loop by loop. *)
Lemma adaptive_path_steps (hash : list Z) (chroma : option Q) (T : list Q) :
  3 <= Z.of_nat (length T) ->
  adaptive_steps F64 sqrt64
    (thumbHashToRGBA F64 cos64 hash None)
    (thumbHashToDataURL F64 cos64 sqrt64 hash chroma (Some T)) T.
Proof.
  intros HT. unfold thumbHashToDataURL.
  destruct (Z.leb_spec 3 (Z.of_nat (length T))); [|lia].
  destruct (raw_bitmap hash) as (Hw & Hh & Hlen & Hbytes). cbv zeta in *.
  set (raw := thumbHashToRGBA F64 cos64 hash None) in *. clearbody raw.
  unfold adaptive_steps. cbv zeta.
  set (n := bw raw * bh raw) in *.
  assert (Hn : 0 <= n <= 2 ^ 15) by (change (2 ^ 15) with 32768; nia).
  (* the raw mean *)
  assert (Mraw := computeAvgRGB_mean F64 HF (pixels raw) n Hn
                    ltac:(intros; apply Hbytes)).
  destruct (computeAvgRGB F64 (pixels raw) n) as [[a0 a1] a2].
  destruct Mraw as (E0 & E1 & E2).
  set (M := fun c => mean_of F64 n (chan (pixels raw) c)).
  set (dist := meanDist F64 sqrt64 (M 0, M 1, M 2) T).
  assert (Ed : (meanDist F64 sqrt64 (a0, a1, a2) T == dist)%Q).
  { apply (meanDist_proper F64 sqrt64 HF Hsqrt); [exact E0|exact E1|exact E2]. }
  rewrite (adaptiveChroma_proper F64 _ _ Ed).
  set (ac := adaptiveChroma F64 dist).
  exists ac. split; [apply adaptiveChroma_choice|].
  destruct (adaptiveChroma_range F64 HF Hc55 dist) as [Hac0 Hac1].
  fold ac in Hac0, Hac1.
  assert (Hlt : Qltb ac 1 = true) by (apply Qltb_lt; exact Hac1).
  rewrite Hlt.
  (* the attenuated buffer *)
  rewrite attenuateChroma_loop.
  assert (Hnn : Qltb ac 0 = false) by (apply Qltb_ge; exact Hac0).
  rewrite Hnn.
  assert (Hcount : Z.quot (Z.of_nat (length (pixels raw)) + 3) 4 = n).
  { rewrite Z.quot_div_nonneg by lia. Z.div_mod_to_equations. lia. }
  rewrite Hcount.
  assert (LA := proj1 (pixel_loop_spec (attenuate_px F64 ac) n (pixels raw)
                        ltac:(lia) ltac:(lia))).
  assert (HAk := pixel_loop_chan (attenuate_px F64 ac) n (pixels raw)
                   ltac:(lia) ltac:(lia)).
  cbv zeta in LA.
  set (A := forZ n (pixel_step (attenuate_px F64 ac)) (pixels raw)) in *.
  clearbody A.
  set (att := fun c k =>
        attenuate1 F64 ac
          (luma709 F64 (chan (pixels raw) 0 k) (chan (pixels raw) 1 k)
             (chan (pixels raw) 2 k)) (chan (pixels raw) c k)).
  unfold attenuate_px in HAk. cbn [fst snd] in HAk.
  (* the attenuated mean *)
  unfold applyBiasCorrection.
  assert (MA := computeAvgRGB_mean F64 HF A n Hn).
  assert (HAb : forall k c, 0 <= k < n -> 0 <= c <= 2 -> 0 <= chan A c k <= 255).
  { intros k c Hk Hc. destruct (HAk k Hk) as (A0 & A1 & A2 & _).
    assert (Hcc : c = 0 \/ c = 1 \/ c = 2) by lia.
    destruct Hcc as [-> | [-> | ->]]; rewrite ?A0, ?A1, ?A2;
      unfold attenuate1; apply toUint8_range. }
  specialize (MA HAb).
  destruct (computeAvgRGB F64 A n) as [[b0 b1] b2].
  destruct MA as (B0 & B1 & B2).
  assert (X0 : mean_of F64 n (chan A 0) = mean_of F64 n (att 0)).
  { apply mean_of_ext. intros k Hk. exact (proj1 (HAk k Hk)). }
  assert (X1 : mean_of F64 n (chan A 1) = mean_of F64 n (att 1)).
  { apply mean_of_ext. intros k Hk. exact (proj1 (proj2 (HAk k Hk))). }
  assert (X2 : mean_of F64 n (chan A 2) = mean_of F64 n (att 2)).
  { apply mean_of_ext. intros k Hk. exact (proj1 (proj2 (proj2 (HAk k Hk)))). }
  rewrite X0 in B0. rewrite X1 in B1. rewrite X2 in B2.
  (* the shifted buffer *)
  rewrite bias_loop.
  match goal with
  | |- context [bias_px F64 ?a ?b ?c] => set (dr := a); set (dg := b); set (db := c)
  end.
  assert (LO := proj1 (pixel_loop_spec (bias_px F64 dr dg db) n A
                        ltac:(lia) ltac:(lia))).
  assert (HOk := pixel_loop_chan (bias_px F64 dr dg db) n A
                   ltac:(lia) ltac:(lia)).
  cbv zeta in LO.
  set (out := forZ n (pixel_step (bias_px F64 dr dg db)) A) in *.
  clearbody out. unfold bias_px in HOk. cbn [fst snd] in HOk.
  cbn [bw bh pixels].
  split; [reflexivity|]. split; [reflexivity|].
  split; [rewrite LO, LA; reflexivity|].
  intros k Hk. destruct (HAk k Hk) as (A0 & A1 & A2 & A3).
  destruct (HOk k Hk) as (O0 & O1 & O2 & O3).
  rewrite O0, O1, O2, O3, A0, A1, A2, A3.
  assert (SP : forall t a b g, (a == b)%Q ->
            (F64 (F64 (t - a) * g) == F64 (F64 (t - b) * g))%Q).
  { intros t a b g E. apply (rnd_proper HF). apply Qmult_comp; [|reflexivity].
    apply (rnd_proper HF). apply Qplus_comp; [reflexivity|].
    apply Qopp_comp. exact E. }
  split; [|split; [|split; [|reflexivity]]]; apply (bias1_proper F64 HF);
    subst dr dg db; apply SP; [exact B0|exact B1|exact B2].
Qed.

End AdaptiveProof.

(** *** The adaptive path against the specification *)

Section SpecPipelineProof.
Variables F64 cos64 sqrt64 : Q -> Q.
Hypothesis HF : rounding_laws F64.
Hypothesis Hsqrt : forall x y, (x == y)%Q -> (sqrt64 x == sqrt64 y)%Q.
Hypothesis Hc55 : (F64 (55 # 100) < 1)%Q.

#[local] Instance F64_Proper_spec : Proper (Qeq ==> Qeq) F64.
Proof. intros x y E. apply (rnd_proper HF). exact E. Qed.

#[local] Instance sqrt64_Proper_spec : Proper (Qeq ==> Qeq) sqrt64.
Proof. intros x y E. apply Hsqrt. exact E. Qed.

Lemma num_small (v : Z) : 0 <= v <= 2 ^ 15 -> (num F64 v == inject_Z v)%Q.
Proof.
  intros Hv. unfold num. apply (rnd_int F64 HF).
  change (2 ^ 15) with 32768 in Hv. change (2 ^ 23) with 8388608. lia.
Qed.

Lemma luma709_spec (r g b : Z) :
  0 <= r <= 255 -> 0 <= g <= 255 -> 0 <= b <= 255 ->
  (luma709 F64 r g b == spec_luma F64 r g b)%Q.
Proof.
  intros Hr Hg Hb. unfold luma709, spec_luma.
  rewrite !num_small by (change (2 ^ 15) with 32768; lia). reflexivity.
Qed.

Lemma attenuate1_spec (cc y y' : Q) (v : Z) :
  0 <= v <= 255 -> (y == y')%Q ->
  attenuate1 F64 cc y v = spec_attenuate F64 cc y' v.
Proof.
  intros Hv Hy. unfold attenuate1, spec_attenuate, toUint8, Math_round.
  change (2 ^ 8) with 256. f_equal. apply Qfloor_comp.
  rewrite num_small by (change (2 ^ 15) with 32768; lia).
  rewrite Hy. reflexivity.
Qed.

Lemma bias1_spec (d d' : Q) (v : Z) :
  0 <= v <= 255 -> (d == d')%Q -> bias1 F64 d v = spec_shift F64 d' v.
Proof.
  intros Hv Hd. unfold bias1, spec_shift, toUint8, clamp255, Math_round.
  change (2 ^ 8) with 256.
  rewrite num_small by (change (2 ^ 15) with 32768; lia).
  assert (E : Qfloor (F64 (inject_Z v + d) + (1 # 2))
              = Qfloor (F64 (inject_Z v + d') + (1 # 2))).
  { apply Qfloor_comp. rewrite Hd. reflexivity. }
  rewrite E. apply Z.mod_small. lia.
Qed.

Lemma mean_of_spec (n : Z) (g1 g2 : Z -> Z) :
  0 <= n <= 2 ^ 15 -> (forall k, 0 <= k < n -> g1 k = g2 k) ->
  (mean_of F64 n g1 == spec_mean F64 n g2)%Q.
Proof.
  intros Hn Hg. unfold mean_of, spec_mean.
  rewrite (sumZ_ext n g1 g2 Hg). rewrite num_small by exact Hn. reflexivity.
Qed.

Lemma meanDist_spec (a0 a1 a2 : Q) (T : list Q) (M : Z -> Q) :
  (a0 == M 0%Z)%Q -> (a1 == M 1%Z)%Q -> (a2 == M 2%Z)%Q ->
  (meanDist F64 sqrt64 (a0, a1, a2) T
   == spec_dist F64 sqrt64 M (fun c => nth (Z.to_nat c) T 0%Q))%Q.
Proof.
  intros E0 E1 E2. unfold meanDist, spec_dist. cbv zeta.
  change (Z.to_nat 0) with 0%nat. change (Z.to_nat 1) with 1%nat.
  change (Z.to_nat 2) with 2%nat.
  rewrite E0, E1, E2. reflexivity.
Qed.

Lemma chroma_choice_spec (dist dist' ac : Q) :
  chroma_choice F64 dist ac -> (dist == dist')%Q -> ac = spec_factor F64 dist'.
Proof.
  intros (C1 & C2 & C3) E. unfold spec_factor.
  destruct (Qlt_le_dec dist' 20) as [L|L].
  - apply C1. rewrite E. exact L.
  - destruct (Qlt_le_dec dist' 45) as [L'|L'].
    + apply C2; rewrite E; assumption.
    + apply C3. rewrite E. exact L'.
Qed.

Lemma spec_attenuate_byte (cc y : Q) (v : Z) :
  0 <= spec_attenuate F64 cc y v <= 255.
Proof.
  unfold spec_attenuate.
  match goal with |- _ <= ?z mod 256 <= _ =>
    assert (H := Z.mod_pos_bound z 256 ltac:(lia)) end.
  lia.
Qed.

(** C7: the adaptive path of [thumbHashToDataURL] is the pipeline of the
    specification, step by step, in [float64] arithmetic: the mean [M]
    of the raw bitmap, its Euclidean distance to the target, the factor
    0.55, 0.40 or 0.28 by the thresholds 20 and 45, the BT.709
    attenuation [round(Y + (C - Y) * ac)] of every colour byte, the mean
    [M'] of the attenuated bitmap, and every colour byte plus
    [(T - M') * 0.45], rounded and clamped to [0, 255]; alpha stays. *)
Theorem adaptive_path_spec (hash : list Z) (chroma : option Q) (T : list Q) :
  3 <= Z.of_nat (length T) ->
  spec_adaptive F64 sqrt64
    (thumbHashToRGBA F64 cos64 hash None)
    (thumbHashToDataURL F64 cos64 sqrt64 hash chroma (Some T)) T.
Proof.
  intros HT.
  assert (S := adaptive_path_steps F64 cos64 sqrt64 HF Hsqrt Hc55 hash chroma T HT).
  destruct (raw_bitmap F64 cos64 HF hash) as (Hw & Hh & _ & Hbytes).
  cbv zeta in Hw, Hh, Hbytes.
  set (raw := thumbHashToRGBA F64 cos64 hash None) in *. clearbody raw.
  set (out := thumbHashToDataURL F64 cos64 sqrt64 hash chroma (Some T)) in *.
  clearbody out.
  unfold adaptive_steps in S. cbv zeta in S.
  destruct S as (ac & Hc & Ew & Eh & El & Hk).
  set (n := bw raw * bh raw) in *.
  assert (Hn : 0 <= n <= 2 ^ 15) by (change (2 ^ 15) with 32768; nia).
  unfold spec_adaptive. cbv zeta. fold n.
  split; [exact Ew|]. split; [exact Eh|]. split; [exact El|].
  set (px := fun c k => ld 0 (pixels raw) (4 * k + c)).
  set (Tc := fun c => nth (Z.to_nat c) T 0%Q).
  set (M := fun c => spec_mean F64 n (px c)).
  assert (EM : forall c, (mean_of F64 n (chan (pixels raw) c) == M c)%Q).
  { intros c. apply mean_of_spec; [exact Hn|]. intros k _. reflexivity. }
  assert (Ed : (meanDist F64 sqrt64
                  (mean_of F64 n (chan (pixels raw) 0),
                   mean_of F64 n (chan (pixels raw) 1),
                   mean_of F64 n (chan (pixels raw) 2)) T
                == spec_dist F64 sqrt64 M Tc)%Q).
  { apply meanDist_spec; apply EM. }
  assert (Ea : ac = spec_factor F64 (spec_dist F64 sqrt64 M Tc)).
  { eapply chroma_choice_spec; [exact Hc|exact Ed]. }
  subst ac.
  set (ac := spec_factor F64 (spec_dist F64 sqrt64 M Tc)) in *.
  set (att := fun c k =>
        spec_attenuate F64 ac (spec_luma F64 (px 0 k) (px 1 k) (px 2 k))
          (px c k)).
  assert (EA : forall c k,
            attenuate1 F64 ac
              (luma709 F64 (chan (pixels raw) 0 k) (chan (pixels raw) 1 k)
                 (chan (pixels raw) 2 k)) (chan (pixels raw) c k)
            = att c k).
  { intros c k. apply attenuate1_spec; [apply Hbytes|].
    apply luma709_spec; apply Hbytes. }
  assert (EM' : forall c,
            (mean_of F64 n (fun k =>
               attenuate1 F64 ac
                 (luma709 F64 (chan (pixels raw) 0 k) (chan (pixels raw) 1 k)
                    (chan (pixels raw) 2 k)) (chan (pixels raw) c k))
             == spec_mean F64 n (att c))%Q).
  { intros c. apply mean_of_spec; [exact Hn|]. intros k _. apply EA. }
  intros k Hk'. destruct (Hk k Hk') as (O0 & O1 & O2 & O3).
  split; [|exact O3].
  intros c Hc'.
  assert (Hcc : c = 0 \/ c = 1 \/ c = 2) by lia.
  destruct Hcc as [-> | [-> | ->]].
  - change (ld 0 (pixels out) (4 * k + 0)) with (chan (pixels out) 0 k).
    rewrite O0, EA. apply bias1_spec; [apply spec_attenuate_byte|].
    rewrite (EM' 0). reflexivity.
  - change (ld 0 (pixels out) (4 * k + 1)) with (chan (pixels out) 1 k).
    rewrite O1, EA. apply bias1_spec; [apply spec_attenuate_byte|].
    rewrite (EM' 1). reflexivity.
  - change (ld 0 (pixels out) (4 * k + 2)) with (chan (pixels out) 2 k).
    rewrite O2, EA. apply bias1_spec; [apply spec_attenuate_byte|].
    rewrite (EM' 2). reflexivity.
Qed.

End SpecPipelineProof.

(** ** Exact arithmetic is a rounding *)

Lemma exact_laws : rounding_laws exact.
Proof.
  split; unfold exact; intros; try assumption; reflexivity.
Qed.

Lemma sqrt_run_proper (x y : Q) : (x == y)%Q -> (sqrt_run x == sqrt_run y)%Q.
Proof.
  intros E. unfold sqrt_run. rewrite (Qred_complete x y E). reflexivity.
Qed.

Lemma chroma_zero_gray_one_noop_witness :
  (forall k, 0 <= k < bw (thumbHashToRGBA exact cosine golden_wide (Some 0%Q))
                     * bh (thumbHashToRGBA exact cosine golden_wide (Some 0%Q)) ->
     ld 0 (pixels (thumbHashToRGBA exact cosine golden_wide (Some 0%Q))) (4 * k)
     = ld 0 (pixels (thumbHashToRGBA exact cosine golden_wide (Some 0%Q))) (4 * k + 1) /\
     ld 0 (pixels (thumbHashToRGBA exact cosine golden_wide (Some 0%Q))) (4 * k + 1)
     = ld 0 (pixels (thumbHashToRGBA exact cosine golden_wide (Some 0%Q))) (4 * k + 2)) /\
  (forall c : Q, (1 <= c)%Q ->
     thumbHashToRGBA exact cosine golden_wide (Some c)
     = thumbHashToRGBA exact cosine golden_wide None).
Proof.
  apply (chroma_zero_gray_one_noop exact cosine golden_wide). exact exact_laws.
Defined.

Lemma adaptive_path_spec_witness :
  spec_adaptive exact sqrt_run
    (thumbHashToRGBA exact cosine golden_wide None)
    (thumbHashToDataURL exact cosine sqrt_run golden_wide None
       (Some [120; 130; 110]%Q))
    [120; 130; 110]%Q.
Proof.
  apply (adaptive_path_spec exact cosine sqrt_run exact_laws sqrt_run_proper).
  - reflexivity.
  - cbn [length]. lia.
Defined.

(** ** The decoder validates nothing *)

Lemma byteAt_padded (hash : list Z) (k : nat) (i : Z) :
  byteAt (hash ++ repeat 0 k) i = byteAt hash i.
Proof.
  unfold byteAt, ld. destruct (Z.ltb_spec i 0); [reflexivity|].
  destruct (Nat.lt_ge_cases (Z.to_nat i) (length hash)) as [Hin|Hout].
  - apply app_nth1. exact Hin.
  - rewrite app_nth2 by exact Hout. rewrite nth_repeat.
    rewrite nth_overflow by exact Hout. reflexivity.
Qed.

Section NoValidation.
Variables F64 cos64 : Q -> Q.

Lemma parse_padded (hash : list Z) (k : nat) :
  parse F64 (hash ++ repeat 0 k) = parse F64 hash.
Proof.
  unfold parse, headerWord, header2Word, alphaWord.
  rewrite !byteAt_padded. reflexivity.
Qed.

Lemma readAC_padded (hash : list Z) (k : nat) (acOffset count offset : Z) :
  readAC F64 (hash ++ repeat 0 k) acOffset count offset
  = readAC F64 hash acOffset count offset.
Proof.
  unfold readAC. apply forZ_ext. intros i [result off] Hi.
  unfold nibbleAt. rewrite byteAt_padded. reflexivity.
Qed.

Lemma readAll_padded (hash : list Z) (k : nat) (f : fields) :
  readAll F64 (hash ++ repeat 0 k) f = readAll F64 hash f.
Proof.
  unfold readAll.
  rewrite readAC_padded. destruct (readAC F64 hash _ _ 0) as [lAC o1].
  rewrite readAC_padded. destruct (readAC F64 hash _ _ o1) as [pAC o2].
  rewrite readAC_padded. destruct (readAC F64 hash _ _ o2) as [qAC o3].
  rewrite readAC_padded. reflexivity.
Qed.

Lemma thumbHashToRGBA_padded (hash : list Z) (k : nat) (chroma : option Q) :
  thumbHashToRGBA F64 cos64 (hash ++ repeat 0 k) chroma
  = thumbHashToRGBA F64 cos64 hash chroma.
Proof.
  unfold thumbHashToRGBA. rewrite parse_padded, readAll_padded. reflexivity.
Qed.

Lemma attenuateChroma_length (rgba : list Z) (c : Q) :
  length (attenuateChroma F64 rgba c) = length rgba.
Proof.
  unfold attenuateChroma.
  apply (forZ_keeps (fun s => length s = length rgba)); [reflexivity|].
  intros i s Hi Hs. cbv zeta. rewrite !upd_length. exact Hs.
Qed.

Hypothesis HF : rounding_laws F64.

(** C3, as the code has it: the decoder has no failure path.  Every
    input, of any length, decodes to a bitmap of 5 to 32 pixels a side
    with [4 * w * h] bytes; the bytes an input lacks, header bytes and
    coefficient nibbles alike, are read as zero, so an input decodes as
    its extension by zero bytes does. *)
Theorem decode_never_fails (hash : list Z) (chroma : option Q) :
  exists b : bitmap,
    decode F64 cos64 hash chroma = Returned b /\
    5 <= bw b <= 32 /\ 5 <= bh b <= 32 /\
    Z.of_nat (length (pixels b)) = 4 * (bw b * bh b) /\
    forall k : nat, decode F64 cos64 (hash ++ repeat 0 k) chroma = Returned b.
Proof.
  exists (thumbHashToRGBA F64 cos64 hash chroma). split; [reflexivity|].
  assert (R := outSize_range F64 HF hash).
  assert (D : bw (thumbHashToRGBA F64 cos64 hash chroma)
              = fst (outSize F64 (parse F64 hash)) /\
              bh (thumbHashToRGBA F64 cos64 hash chroma)
              = snd (outSize F64 (parse F64 hash)) /\
              length (pixels (thumbHashToRGBA F64 cos64 hash chroma))
              = Z.to_nat (fst (outSize F64 (parse F64 hash))
                          * snd (outSize F64 (parse F64 hash)) * 4)).
  { unfold thumbHashToRGBA. destruct (outSize F64 (parse F64 hash)) as [w h].
    cbn [bw bh pixels fst snd]. split; [reflexivity|]. split; [reflexivity|].
    destruct chroma as [c|]; [destruct (Qltb c 1)|];
      rewrite ?attenuateChroma_length, reconstruct_length, repeat_length;
      reflexivity. }
  destruct D as (Dw & Dh & Dl). rewrite Dw, Dh, Dl.
  destruct (outSize F64 (parse F64 hash)) as [w h]. cbn [fst snd].
  destruct R as (Hw & Hh & _).
  split; [exact Hw|]. split; [exact Hh|]. split; [nia|].
  intros k. unfold decode. rewrite thumbHashToRGBA_padded. reflexivity.
Qed.

End NoValidation.

Lemma decode_never_fails_witness :
  exists b : bitmap,
    decode exact cosine [] None = Returned b /\
    5 <= bw b <= 32 /\ 5 <= bh b <= 32 /\
    Z.of_nat (length (pixels b)) = 4 * (bw b * bh b) /\
    forall k : nat, decode exact cosine ([] ++ repeat 0 k) None = Returned b.
Proof.
  apply (decode_never_fails exact cosine exact_laws [] None).
Defined.

(** C3 as stated fails: the empty input has fewer than 6 bytes, and the
    wide golden hash has 11 bytes where its header declares 22 nibbles
    after byte 6; the decoder returns a bitmap for both. *)
Lemma decode_short_input_returns :
  decode binary64 cosine [] None
  = Returned (thumbHashToRGBA binary64 cosine [] None) /\
  outSize binary64 (parse binary64 []) = (5, 32) /\
  decode binary64 cosine golden_wide None
  = Returned (thumbHashToRGBA binary64 cosine golden_wide None) /\
  f_lx (parse binary64 golden_wide) * f_ly (parse binary64 golden_wide) - 1
    + (3 * 3 - 1) + (3 * 3 - 1) = 22 /\
  2 * (Z.of_nat (length golden_wide) - f_acOffset (parse binary64 golden_wide)) = 10.
Proof.
  split; [reflexivity|]. split; [vm_compute; reflexivity|].
  split; [reflexivity|]. split; vm_compute; reflexivity.
Qed.

(** ** The work buffer: what a call writes before it reads *)

Lemma ld_firstn {A : Type} (d : A) (n : nat) (l : list A) (i : Z) :
  0 <= i < Z.of_nat n -> ld d (firstn n l) i = ld d l i.
Proof.
  intros Hi. unfold ld. destruct (Z.ltb_spec i 0); [lia|].
  revert l. generalize (Z.to_nat i) (proj2 (Nat2Z.inj_lt (Z.to_nat i) n) ltac:(lia)).
  clear. intros m. revert n. induction m as [|m IH]; intros [|n] Hm [|x l];
    simpl; try lia; try reflexivity.
  apply IH. lia.
Qed.

Lemma zeroF32_spec (s : list Q) : zeroF32 s = repeat 0%Q (length s).
Proof.
  unfold zeroF32.
  assert (G : forall k, 0 <= k <= Z.of_nat (length s) ->
    let t := forZ k (fun i s => upd i 0%Q s) s in
    length t = length s /\
    forall j, 0 <= j < Z.of_nat (length s) ->
      ld 0%Q t j = if j <? k then 0%Q else ld 0%Q s j).
  { intros k Hk.
    apply (forZ_inv (fun k t =>
      length t = length s /\
      forall j, 0 <= j < Z.of_nat (length s) ->
        ld 0%Q t j = if j <? k then 0%Q else ld 0%Q s j)); [lia| |].
    - split; [reflexivity|]. intros j Hj.
      destruct (Z.ltb_spec j 0); [lia|reflexivity].
    - intros i t Hi [Hl Ht]. split; [rewrite upd_length; exact Hl|].
      intros j Hj. destruct (Z.eq_dec i j) as [->|Hne].
      + rewrite ld_upd_same by lia.
        destruct (Z.ltb_spec j (j + 1)); [reflexivity|lia].
      + rewrite ld_upd_other by exact Hne. rewrite Ht by exact Hj.
        destruct (Z.ltb_spec j i); destruct (Z.ltb_spec j (i + 1));
          try reflexivity; lia. }
  destruct (G (Z.of_nat (length s)) ltac:(lia)) as [Hl Ht].
  apply (ld_ext 0%Q).
  - rewrite repeat_length. exact Hl.
  - intros i Hi. rewrite Hl in Hi. rewrite Ht by exact Hi.
    destruct (Z.ltb_spec i (Z.of_nat (length s))); [|lia].
    symmetry. apply ld_repeat.
Qed.

(** Every proxy builder stores into the slice it is given and keeps its
    length. *)
Ltac keep_length :=
  repeat first
    [ rewrite upd_length
    | match goal with
      | |- context [let '(_, _) := ?p in _] => destruct p
      | |- context [if ?b then _ else _] => destruct b
      end ].

Section BuilderLength.
Variables F32 F64 : Q -> Q.

Lemma forCells_length (dstW dstH srcW srcH : Z)
    (cell : Z -> Z -> Z * Z -> Z * Z -> list Q -> list Q) (rgba : list Q) :
  (forall dx dy sx sy s, length (cell dx dy sx sy s) = length s) ->
  length (forCells dstW dstH srcW srcH cell rgba) = length rgba.
Proof.
  intros Hc. unfold forCells.
  apply (forZ_keeps (fun s => length s = length rgba)); [reflexivity|].
  intros dy s Hdy Hs.
  apply (forZ_keeps (fun s => length s = length rgba)); [exact Hs|].
  intros dx s' Hdx Hs'. rewrite Hc. exact Hs'.
Qed.

Lemma forPixels_length (w h : Z) (row : Z -> Z) (step : Z)
    (pixel : Z -> Z -> Z -> Z -> list Q -> list Q) (rgba : list Q) :
  (forall x y off di s, length (pixel x y off di s) = length s) ->
  length (forPixels w h row step pixel rgba) = length rgba.
Proof.
  intros Hp. unfold forPixels.
  apply (forZ_keeps (fun st : list Q * Z => length (fst st) = length rgba));
    [reflexivity|].
  intros y [s di] Hy Hs. cbn [fst] in Hs.
  assert (G : length (fst (fst (forZ w
              (fun x '(rgba0, off, di0) =>
                 (pixel x y off di0 rgba0, off + step, di0 + 4))
              (s, row y, di)))) = length rgba).
  { apply (forZ_keeps (fun st : list Q * Z * Z =>
                         length (fst (fst st)) = length rgba)); [exact Hs|].
    intros x [[s' off] di'] Hx Hs'. cbn [fst] in *. rewrite Hp. exact Hs'. }
  destruct (forZ w _ (s, row y, di)) as [[s' off] di']. exact G.
Qed.

Lemma extractPixels_length (img : Image) (bounds : Rectangle) (w h : Z)
    (rgba : list Q) :
  length (extractPixels F32 F64 img bounds w h rgba) = length rgba.
Proof.
  unfold extractPixels. destruct img; apply forPixels_length; intros;
    cbv zeta; keep_length; reflexivity.
Qed.

Lemma areaDownscale_length (img : Image) (bounds : Rectangle)
    (srcW srcH dstW dstH : Z) (rgba : list Q) :
  length (areaDownscale F32 F64 img bounds srcW srcH dstW dstH rgba)
  = length rgba.
Proof.
  unfold areaDownscale, dsNRGBA, dsRGBA, dsYCbCr, dsYCbCr420, dsYCbCr422,
    dsYCbCrAny, dsYCbCrPlanes, dsGray, dsGeneric.
  destruct img as [pix st r|pix st r|y cb cr ys cs ratio r|pix st r|b at_];
    try destruct ratio; cbv zeta;
    repeat (rewrite forCells_length;
            [|intros dx dy [sx0 sx1] [sy0 sy1] s; cbv zeta; keep_length;
              reflexivity]);
    reflexivity.
Qed.

End BuilderLength.

(** Two buffers that agree below an index. *)
Definition agree_below {A : Type} (d : A) (k : Z) (t1 t2 : list A) : Prop :=
  length t1 = length t2 /\ forall j, 0 <= j < k -> ld d t1 j = ld d t2 j.

Lemma agree_below_upd {A : Type} (d : A) (k : Z) (v : A) (t1 t2 : list A) :
  0 <= k < Z.of_nat (length t1) ->
  agree_below d k t1 t2 -> agree_below d (k + 1) (upd k v t1) (upd k v t2).
Proof.
  intros Hk [Hl Ha]. split; [rewrite !upd_length; exact Hl|].
  intros j Hj. destruct (Z.eq_dec k j) as [->|Hne].
  - rewrite !ld_upd_same by lia. reflexivity.
  - rewrite !ld_upd_other by exact Hne. apply Ha. lia.
Qed.

Lemma agree_below_all {A : Type} (d : A) (t1 t2 : list A) :
  agree_below d (Z.of_nat (length t1)) t1 t2 -> t1 = t2.
Proof.
  intros [Hl Ha]. apply (ld_ext d); [exact Hl|exact Ha].
Qed.

Section Determinism.
Variables F32 F64 cos64 : Q -> Q.

(** The cosine table is written in full before it is read: what the
    slice held does not matter. *)
Lemma cosTable_indep (maxN n : Z) (t1 t2 : list Q) :
  0 <= maxN -> 0 <= n ->
  Z.of_nat (length t1) = maxN * n -> Z.of_nat (length t2) = maxN * n ->
  cosTable F32 F64 cos64 maxN n t1 = cosTable F32 F64 cos64 maxN n t2.
Proof.
  intros HN Hn L1 L2. apply (agree_below_all 0%Q).
  assert (G : agree_below 0%Q (maxN * n)
                (cosTable F32 F64 cos64 maxN n t1)
                (cosTable F32 F64 cos64 maxN n t2) /\
              Z.of_nat (length (cosTable F32 F64 cos64 maxN n t1)) = maxN * n).
  { unfold cosTable.
    apply (forZ_rel (fun c a b =>
             agree_below 0%Q (c * n) a b /\ Z.of_nat (length a) = maxN * n));
      [exact HN| |].
    - split; [|exact L1]. split; [lia|]. intros j Hj. lia.
    - intros c a b Hc [Hab La]. cbv zeta.
      replace ((c + 1) * n) with (c * n + n) by lia.
      apply (forZ_rel (fun i a b =>
               agree_below 0%Q (c * n + i) a b /\ Z.of_nat (length a) = maxN * n));
        [exact Hn| |].
      + rewrite Z.add_0_r. split; [exact Hab|exact La].
      + intros i a' b' Hi [Hab' La'].
        replace (c * n + (i + 1)) with (c * n + i + 1) by lia.
        split; [|rewrite upd_length; exact La'].
        apply agree_below_upd; [|exact Hab']. nia. }
  destruct G as [G GL]. rewrite GL. exact G.
Qed.

(** [encodeChan] writes [dst[0 .. nx*ny - 2]] before it scales them:
    what [dst] held does not matter. *)
Lemma encodeChan_indep (data : list Q) (chanOff stride w h nx ny : Z)
    (cX cY d1 d2 : list Q) :
  1 <= nx -> 1 <= ny ->
  Z.of_nat (length d1) = nx * ny - 1 -> Z.of_nat (length d2) = nx * ny - 1 ->
  encodeChan F32 data chanOff stride w h nx ny cX cY d1
  = encodeChan F32 data chanOff stride w h nx ny cX cY d2.
Proof.
  intros Hx Hy L1 L2. unfold encodeChan. cbv zeta.
  match goal with
  | |- context [forZ ny ?body {| dc := 0; acMax := 0; idx := 0; dst := d1 |}] =>
      set (outer := body)
  end.
  set (R := fun (p : Z) (a b : chanState) =>
              dc a = dc b /\ acMax a = acMax b /\ idx a = idx b /\
              idx a = Z.max 0 (p - 1) /\
              Z.of_nat (length (dst a)) = nx * ny - 1 /\
              agree_below 0%Q (idx a) (dst a) (dst b)).
  assert (G : R (ny * nx)
                (forZ ny outer {| dc := 0; acMax := 0; idx := 0; dst := d1 |})
                (forZ ny outer {| dc := 0; acMax := 0; idx := 0; dst := d2 |})).
  { apply (forZ_rel (fun cy a b => R (cy * nx) a b)); [lia| |].
    - unfold R. cbn [dc acMax idx dst].
      split; [reflexivity|]. split; [reflexivity|]. split; [reflexivity|].
      split; [lia|]. split; [exact L1|]. split; [lia|]. intros j Hj. lia.
    - intros cy a b Hcy Hab. unfold outer.
      replace ((cy + 1) * nx) with (cy * nx + nx) by lia.
      apply (forZ_rel (fun cx a b => R (cy * nx + cx) a b)); [lia| |].
      + rewrite Z.add_0_r. exact Hab.
      + intros cx a' b' Hcx (Edc & Emax & Eidx & Hidx & Hlen & Hag).
        cbv zeta.
        destruct ((cx =? 0) && (cy =? 0))%bool eqn:Edcase.
        * apply andb_prop in Edcase. destruct Edcase as [C1 C2].
          apply Z.eqb_eq in C1, C2. subst cx cy.
          unfold R. cbn [dc acMax idx dst].
          split; [reflexivity|]. split; [exact Emax|]. split; [exact Eidx|].
          split; [lia|]. split; [exact Hlen|exact Hag].
        * assert (Hp : 1 <= cy * nx + cx).
          { apply andb_false_iff in Edcase.
            destruct Edcase as [C|C]; apply Z.eqb_neq in C; nia. }
          unfold R. cbn [dc acMax idx dst]. rewrite <- Eidx, <- Emax, <- Edc.
          split; [reflexivity|]. split; [reflexivity|]. split; [reflexivity|].
          split; [lia|]. split; [rewrite upd_length; exact Hlen|].
          apply agree_below_upd; [|exact Hag]. nia. }
  destruct G as (Edc & Emax & Eidx & Hidx & Hlen & Hag).
  assert (Ed : dst (forZ ny outer {| dc := 0; acMax := 0; idx := 0; dst := d1 |})
               = dst (forZ ny outer {| dc := 0; acMax := 0; idx := 0; dst := d2 |})).
  { apply (agree_below_all 0%Q). rewrite Hlen.
    replace (nx * ny - 1) with
      (idx (forZ ny outer {| dc := 0; acMax := 0; idx := 0; dst := d1 |})) by nia.
    exact Hag. }
  rewrite Ed, Edc, Emax, Eidx. reflexivity.
Qed.

End Determinism.

Section EncodeDeterminism.
Variables F32 F64 cos64 : Q -> Q.
Hypothesis HF : rounding_laws F32.

Lemma imax_range (a b lo hi : Z) :
  lo <= a <= hi -> lo <= b <= hi -> lo <= imax a b <= hi.
Proof. intros Ha Hb. unfold imax. destruct (a >? b); assumption. Qed.

(** The channels [transform] computes depend on the work buffer through
    the proxy alone. *)
Lemma transform_indep (w h : Z) (wb1 wb2 : workBuf) :
  1 <= w <= 100 -> 1 <= h <= 100 ->
  slice 0 (w * h * 4) (rgba wb1) = slice 0 (w * h * 4) (rgba wb2) ->
  Z.of_nat (length (cosX wb1)) = 800 -> Z.of_nat (length (cosX wb2)) = 800 ->
  Z.of_nat (length (cosY wb1)) = 800 -> Z.of_nat (length (cosY wb2)) = 800 ->
  Z.of_nat (length (ac wb1)) = 128 -> Z.of_nat (length (ac wb2)) = 128 ->
  fst (transform F32 F64 cos64 w h wb1) = fst (transform F32 F64 cos64 w h wb2).
Proof.
  intros Hw Hh Hs X1 X2 Y1 Y2 A1 A2.
  assert (Hm : 1 <= imax w h <= 100 /\ w <= imax w h /\ h <= imax w h).
  { unfold imax. destruct (Z.gtb_spec w h); lia. }
  assert (D : forall l s, 1 <= l <= 7 -> (s = w \/ s = h) ->
                1 <= basisDim F32 l s (imax w h) <= 7).
  { intros l s Hl Hcase.
    assert (R := basisDim_range F32 HF l s (imax w h) Hl
                   ltac:(destruct Hcase; subst; lia) ltac:(lia)). lia. }
  unfold transform. cbv zeta. rewrite <- Hs.
  destruct (avgColor F32 (w * h) (slice 0 (w * h * 4) (rgba wb1)))
    as [[[avgR avgG] avgB] avgA].
  set (rgba1 := toLPQA F32 (w * h) (slice 0 (w * h * 4) (rgba wb1))).
  clearbody rgba1.
  destruct (Qltb avgA 1).
  - (* with alpha *)
    assert (Lx := D 5 w ltac:(lia) ltac:(auto)).
    assert (Ly := D 5 h ltac:(lia) ltac:(auto)).
    assert (Px := D 3 w ltac:(lia) ltac:(auto)).
    assert (Py := D 3 h ltac:(lia) ltac:(auto)).
    assert (Lx' : 1 <= basisDim F32 5 w (imax w h) <= 5)
      by (apply (basisDim_range F32 HF); lia).
    assert (Ly' : 1 <= basisDim F32 5 h (imax w h) <= 5)
      by (apply (basisDim_range F32 HF); lia).
    assert (Px' : 1 <= basisDim F32 3 w (imax w h) <= 3)
      by (apply (basisDim_range F32 HF); lia).
    assert (Py' : 1 <= basisDim F32 3 h (imax w h) <= 3)
      by (apply (basisDim_range F32 HF); lia).
    set (lx := basisDim F32 5 w (imax w h)) in *.
    set (ly := basisDim F32 5 h (imax w h)) in *.
    set (px := basisDim F32 3 w (imax w h)) in *.
    set (py := basisDim F32 3 h (imax w h)) in *.
    clearbody lx ly px py.
    assert (Mx := imax_range _ _ 1 7 (imax_range lx px 1 7 Lx Px) Lx).
    assert (My := imax_range _ _ 1 7 (imax_range ly py 1 7 Ly Py) Ly).
    set (maxNx := imax (imax lx px) lx) in *.
    set (maxNy := imax (imax ly py) ly) in *.
    clearbody maxNx maxNy.
    rewrite (cosTable_indep F32 F64 cos64 maxNx w
               (slice 0 (maxNx * w) (cosX wb1)) (slice 0 (maxNx * w) (cosX wb2)))
      by (try (rewrite slice_length); nia).
    rewrite (cosTable_indep F32 F64 cos64 maxNy h
               (slice 0 (maxNy * h) (cosY wb1)) (slice 0 (maxNy * h) (cosY wb2)))
      by (try (rewrite slice_length); nia).
    set (cX := cosTable F32 F64 cos64 maxNx w _).
    set (cY := cosTable F32 F64 cos64 maxNy h _).
    clearbody cX cY.
    repeat match goal with
    | |- context [encodeChan F32 rgba1 ?c 4 w h ?nx ?ny cX cY (slice ?lo ?hi (ac wb1))] =>
        rewrite (encodeChan_indep F32 rgba1 c 4 w h nx ny cX cY
                   (slice lo hi (ac wb1)) (slice lo hi (ac wb2)))
          by (try (rewrite slice_length); nia)
    end.
    reflexivity.
  - (* opaque *)
    assert (Lx := D 7 w ltac:(lia) ltac:(auto)).
    assert (Ly := D 7 h ltac:(lia) ltac:(auto)).
    assert (Px' : 1 <= basisDim F32 3 w (imax w h) <= 3)
      by (apply (basisDim_range F32 HF); lia).
    assert (Py' : 1 <= basisDim F32 3 h (imax w h) <= 3)
      by (apply (basisDim_range F32 HF); lia).
    set (lx := basisDim F32 7 w (imax w h)) in *.
    set (ly := basisDim F32 7 h (imax w h)) in *.
    set (px := basisDim F32 3 w (imax w h)) in *.
    set (py := basisDim F32 3 h (imax w h)) in *.
    clearbody lx ly px py.
    assert (Mx := imax_range lx px 1 7 Lx ltac:(lia)).
    assert (My := imax_range ly py 1 7 Ly ltac:(lia)).
    set (maxNx := imax lx px) in *.
    set (maxNy := imax ly py) in *.
    clearbody maxNx maxNy.
    rewrite (cosTable_indep F32 F64 cos64 maxNx w
               (slice 0 (maxNx * w) (cosX wb1)) (slice 0 (maxNx * w) (cosX wb2)))
      by (try (rewrite slice_length); nia).
    rewrite (cosTable_indep F32 F64 cos64 maxNy h
               (slice 0 (maxNy * h) (cosY wb1)) (slice 0 (maxNy * h) (cosY wb2)))
      by (try (rewrite slice_length); nia).
    set (cX := cosTable F32 F64 cos64 maxNx w _).
    set (cY := cosTable F32 F64 cos64 maxNy h _).
    clearbody cX cY.
    repeat match goal with
    | |- context [encodeChan F32 rgba1 ?c 4 w h ?nx ?ny cX cY (slice ?lo ?hi (ac wb1))] =>
        rewrite (encodeChan_indep F32 rgba1 c 4 w h nx ny cX cY
                   (slice lo hi (ac wb1)) (slice lo hi (ac wb2)))
          by (try (rewrite slice_length); nia)
    end.
    reflexivity.
Qed.

End EncodeDeterminism.

Lemma slice_app_exact {A : Type} (k : Z) (p r : list A) :
  Z.of_nat (length p) = k -> slice 0 k (p ++ r) = p.
Proof.
  intros Hk. unfold slice. cbn [Z.to_nat skipn]. rewrite Z.sub_0_r.
  replace (Z.to_nat k) with (length p + 0)%nat by lia.
  rewrite firstn_app_2. cbn [firstn]. apply app_nil_r.
Qed.

Section EncodeIsAFunction.
Variables F32 F64 cos64 : Q -> Q.
Hypothesis HF : rounding_laws F32.

Lemma assembleHash_fst (w h : Z) (wb : workBuf) :
  fst (assembleHash F32 F64 cos64 w h wb)
  = pack F32 F64 w h (fst (transform F32 F64 cos64 w h wb)).
Proof.
  unfold assembleHash. destruct (transform F32 F64 cos64 w h wb). reflexivity.
Qed.

(** The proxy [Encode] hands to [assembleHash]: the builder's output on
    the zeroed slice. *)
Definition proxyOf (img : Image) (dstW dstH : Z) : list Q :=
  let bounds := Bounds img in
  let z := repeat 0%Q (Z.to_nat (dstW * dstH * 4)) in
  if ((Dx bounds <=? dstW) && (Dy bounds <=? dstH))%bool
  then extractPixels F32 F64 img bounds dstW dstH z
  else areaDownscale F32 F64 img bounds (Dx bounds) (Dy bounds) dstW dstH z.

Lemma proxyOf_length (img : Image) (dstW dstH : Z) :
  length (proxyOf img dstW dstH) = Z.to_nat (dstW * dstH * 4).
Proof.
  unfold proxyOf. cbv zeta.
  destruct ((Dx (Bounds img) <=? dstW) && (Dy (Bounds img) <=? dstH))%bool;
    rewrite ?extractPixels_length, ?areaDownscale_length; apply repeat_length.
Qed.

(** [Encode] on a sized work buffer, whatever it holds. *)
Lemma Encode_unfold (img : Image) (wb : workBuf) :
  0 < Dx (Bounds img) < 2^56 -> 0 < Dy (Bounds img) < 2^56 ->
  workBuf_sized wb ->
  let '(dstW, dstH) := thumbDims (Dx (Bounds img)) (Dy (Bounds img)) in
  exists wb',
    slice 0 (dstW * dstH * 4) (rgba wb') = proxyOf img dstW dstH /\
    cosX wb' = cosX wb /\ cosY wb' = cosY wb /\ ac wb' = ac wb /\
    fst (Encode F32 F64 cos64 img wb)
    = Some (pack F32 F64 dstW dstH (fst (transform F32 F64 cos64 dstW dstH wb'))).
Proof.
  intros HW HH (Lr & Lx & Ly & La). unfold Encode.
  destruct (Z.leb_spec (Dx (Bounds img)) 0); [lia|].
  destruct (Z.leb_spec (Dy (Bounds img)) 0); [lia|]. cbn [orb]. cbv zeta.
  destruct (thumbDims_range _ _ HW HH) as [Hw Hh].
  destruct (thumbDims (Dx (Bounds img)) (Dy (Bounds img))) as [dstW dstH].
  cbn [fst snd] in Hw, Hh.
  assert (Hn : 0 <= dstW * dstH * 4 <= 40000) by nia.
  rewrite zeroF32_spec.
  assert (Ls : length (slice 0 (dstW * dstH * 4) (rgba wb))
               = Z.to_nat (dstW * dstH * 4)).
  { assert (S := slice_length 0 (dstW * dstH * 4) (rgba wb) ltac:(lia) ltac:(lia)).
    lia. }
  rewrite Ls. fold (proxyOf img dstW dstH).
  match goal with
  | |- context [assembleHash F32 F64 cos64 dstW dstH ?b] => set (wb1 := b)
  end.
  exists wb1. split.
  { subst wb1. cbn [rgba]. apply slice_app_exact.
    rewrite proxyOf_length. lia. }
  split; [reflexivity|]. split; [reflexivity|]. split; [reflexivity|].
  rewrite <- assembleHash_fst.
  destruct (assembleHash F32 F64 cos64 dstW dstH wb1) as [hash wb2]. reflexivity.
Qed.

(** C10: [Encode] is a function of the image alone.  Two calls on the
    same image return the same hash whatever the two leased work buffers
    hold: the proxy region is zeroed before the builder stores into it,
    and the cosine tables and the coefficient array are stored in full
    before they are loaded. *)
Theorem Encode_deterministic (img : Image) (wb1 wb2 : workBuf) :
  Dx (Bounds img) < 2^56 -> Dy (Bounds img) < 2^56 ->
  workBuf_sized wb1 -> workBuf_sized wb2 ->
  fst (Encode F32 F64 cos64 img wb1) = fst (Encode F32 F64 cos64 img wb2).
Proof.
  intros HW HH S1 S2.
  destruct (Z_le_gt_dec (Dx (Bounds img)) 0) as [E|HW0];
    [|destruct (Z_le_gt_dec (Dy (Bounds img)) 0) as [E|HH0]].
  - unfold Encode. destruct (Z.leb_spec (Dx (Bounds img)) 0); [|lia].
    reflexivity.
  - unfold Encode. destruct (Z.leb_spec (Dy (Bounds img)) 0); [|lia].
    rewrite orb_true_r. reflexivity.
  - assert (U1 := Encode_unfold img wb1 ltac:(lia) ltac:(lia) S1).
    assert (U2 := Encode_unfold img wb2 ltac:(lia) ltac:(lia) S2).
    destruct (thumbDims_range (Dx (Bounds img)) (Dy (Bounds img))
                ltac:(lia) ltac:(lia)) as [Hw Hh].
    destruct (thumbDims (Dx (Bounds img)) (Dy (Bounds img))) as [dstW dstH].
    cbn [fst snd] in Hw, Hh.
    destruct U1 as (wb1' & P1 & X1 & Y1 & A1 & E1).
    destruct U2 as (wb2' & P2 & X2 & Y2 & A2 & E2).
    rewrite E1, E2. f_equal. f_equal.
    destruct S1 as (_ & Lx1 & Ly1 & La1). destruct S2 as (_ & Lx2 & Ly2 & La2).
    apply (transform_indep F32 F64 cos64 HF); try assumption;
      rewrite ?P1, ?P2, ?X1, ?X2, ?Y1, ?Y2, ?A1, ?A2; try assumption.
    reflexivity.
Qed.

End EncodeIsAFunction.

Lemma newWorkBuf_sized : workBuf_sized newWorkBuf.
Proof.
  unfold workBuf_sized, newWorkBuf. cbn [rgba cosX cosY ac].
  rewrite !repeat_length. repeat split; reflexivity.
Qed.

Lemma usedWorkBuf_sized : workBuf_sized usedWorkBuf.
Proof.
  unfold workBuf_sized, usedWorkBuf. cbn [rgba cosX cosY ac].
  rewrite !repeat_length. repeat split; reflexivity.
Qed.

Lemma Encode_deterministic_witness :
  fst (Encode exact exact cosine (gradientImg 200 10) newWorkBuf)
  = fst (Encode exact exact cosine (gradientImg 200 10) usedWorkBuf).
Proof.
  apply (Encode_deterministic exact exact cosine exact_laws).
  - reflexivity.
  - reflexivity.
  - exact newWorkBuf_sized.
  - exact usedWorkBuf_sized.
Defined.

(** ** The quantized fields fit their bit widths *)

Section Quantizers.
Variables F32 F64 : Q -> Q.
Hypothesis HF32 : rounding_laws F32.
Hypothesis HF64 : rounding_laws F64.

Lemma inject_Z_le_const (a b : Z) : a <= b -> (inject_Z a <= inject_Z b)%Q.
Proof. intros H. rewrite <- Zle_Qle. exact H. Qed.

(** A value of [lo, hi] times [k], rounded to an integer. *)
Lemma quant_range (v : Q) (k lo hi : Z) :
  0 <= k <= 63 -> -1 <= lo <= hi -> hi <= 1 ->
  (inject_Z lo <= v <= inject_Z hi)%Q ->
  lo * k <= math_Round (F64 (v * inject_Z k)) <= hi * k.
Proof.
  intros Hk Hlo Hhi [Hv1 Hv2].
  assert (Kq : (0 <= inject_Z k)%Q) by (apply (inject_Z_le_const 0); lia).
  split.
  - apply math_Round_ge. apply (rnd_ge_int F64 HF64).
    + change (2 ^ 23) with 8388608. nia.
    + rewrite inject_Z_mult. nra.
  - apply math_Round_le. apply (rnd_le_int F64 HF64).
    + change (2 ^ 23) with 8388608. nia.
    + rewrite inject_Z_mult. nra.
Qed.

Lemma uint32_small (z : Z) : 0 <= z < 2 ^ 32 -> uint32 z = z.
Proof. intros H. unfold uint32. apply Z.mod_small. exact H. Qed.

Lemma uint16_small (z : Z) : 0 <= z < 2 ^ 16 -> uint16 z = z.
Proof. intros H. unfold uint16. apply Z.mod_small. exact H. Qed.

Lemma byte_small (z : Z) : 0 <= z < 2 ^ 8 -> byte z = z.
Proof. intros H. unfold byte. apply Z.mod_small. exact H. Qed.

Lemma quantDC63_range (v : Q) :
  (0 <= v <= 1)%Q -> 0 <= quantDC63 F64 v <= 63.
Proof.
  intros Hv. unfold quantDC63.
  assert (R := quant_range v 63 0 1 ltac:(lia) ltac:(lia) ltac:(lia) Hv).
  change (inject_Z 63) with 63%Q in R.
  rewrite uint32_small by (change (2 ^ 32) with 4294967296; lia). lia.
Qed.

Lemma quantDC31_range (v : Q) :
  (-1 <= v <= 1)%Q -> 0 <= quantDC31 F64 v <= 62.
Proof.
  intros [Hv1 Hv2]. unfold quantDC31.
  assert (B : (inject_Z 0 <= F64 (F64 (v * 31) + 31) <= inject_Z 62)%Q).
  { assert (L : (inject_Z (-31) <= F64 (v * 31))%Q).
    { apply (rnd_ge_int F64 HF64); [change (2 ^ 23) with 8388608; lia|].
      change (inject_Z (-31)) with (-31)%Q. lra. }
    assert (U : (F64 (v * 31) <= inject_Z 31)%Q).
    { apply (rnd_le_int F64 HF64); [change (2 ^ 23) with 8388608; lia|].
      change (inject_Z 31) with 31%Q. lra. }
    change (inject_Z (-31)) with (-31)%Q in L.
    change (inject_Z 31) with 31%Q in U.
    split.
    - apply (rnd_ge_int F64 HF64); [change (2 ^ 23) with 8388608; lia|].
      change (inject_Z 0) with 0%Q. lra.
    - apply (rnd_le_int F64 HF64); [change (2 ^ 23) with 8388608; lia|].
      change (inject_Z 62) with 62%Q. lra. }
  destruct B as [B1 B2].
  apply math_Round_ge in B1. apply math_Round_le in B2.
  rewrite uint32_small by (change (2 ^ 32) with 4294967296; lia). lia.
Qed.

Lemma quantScale31_range (v : Q) :
  (0 <= v <= 1)%Q -> 0 <= quantScale31 F64 v <= 31.
Proof.
  intros Hv. unfold quantScale31.
  assert (R := quant_range v 31 0 1 ltac:(lia) ltac:(lia) ltac:(lia) Hv).
  change (inject_Z 31) with 31%Q in R.
  rewrite uint32_small by (change (2 ^ 32) with 4294967296; lia). lia.
Qed.

Lemma quantScale63_range (v : Q) :
  (0 <= v <= 1)%Q -> 0 <= quantScale63 F64 v <= 63.
Proof.
  intros Hv. unfold quantScale63.
  assert (R := quant_range v 63 0 1 ltac:(lia) ltac:(lia) ltac:(lia) Hv).
  change (inject_Z 63) with 63%Q in R.
  rewrite uint16_small by (change (2 ^ 16) with 65536; lia). lia.
Qed.

Lemma quant15_range (v : Q) :
  (0 <= v <= 1)%Q -> 0 <= quant15 F64 v <= 15.
Proof.
  intros Hv. unfold quant15.
  assert (R := quant_range v 15 0 1 ltac:(lia) ltac:(lia) ltac:(lia) Hv).
  change (inject_Z 15) with 15%Q in R.
  rewrite uint16_small by (change (2 ^ 16) with 65536; lia). lia.
Qed.

Lemma clamp01f_range (v : Q) : (0 <= clamp01f v <= 1)%Q.
Proof.
  unfold clamp01f. destruct (Qltb v 0) eqn:E0; [lra|].
  destruct (Qltb 1 v) eqn:E1; [lra|].
  apply Qltb_ge in E0, E1. lra.
Qed.

(** Every coefficient, whatever its value, packs into a nibble. *)
Lemma nibbleOf_range (c : Q) : 0 <= nibbleOf F32 F64 c <= 15.
Proof.
  unfold nibbleOf. cbv zeta.
  assert (R := quant_range _ 15 0 1 ltac:(lia) ltac:(lia) ltac:(lia)
                 (clamp01f_range (F32 (F32 (c / 2) + (1 # 2))))).
  change (inject_Z 15) with 15%Q in R.
  rewrite byte_small by (change (2 ^ 8) with 256; lia). lia.
Qed.

End Quantizers.

(** Channel [c] of the first [count] pixels of a float buffer lies in
    [lo, hi]. *)
Definition chan_in (data : list Q) (c count : Z) (lo hi : Q) : Prop :=
  forall i, 0 <= i < count -> (lo <= ld 0%Q data (i * 4 + c) <= hi)%Q.

(** A cosine table of [maxN] rows of [n] entries: every entry in
    [-1, 1], the row of frequency zero equal to one. *)
Definition table_ok (tab : list Q) (maxN n : Z) : Prop :=
  forall c i, 0 <= c < maxN -> 0 <= i < n ->
    (-1 <= ld 0%Q tab (c * n + i) <= 1)%Q /\
    (c = 0 -> (ld 0%Q tab (c * n + i) == 1)%Q).

Lemma rnd_eq_0 (F : Q -> Q) (x : Q) :
  rounding_laws F -> (x == 0)%Q -> (F x == 0)%Q.
Proof.
  intros HF E. apply Qeq_trans with (F 0%Q);
    [apply (rnd_proper HF); exact E|apply (rnd_0 F HF)].
Qed.

Lemma rnd_eq_1 (F : Q -> Q) (x : Q) :
  rounding_laws F -> (x == 1)%Q -> (F x == 1)%Q.
Proof.
  intros HF E. apply Qeq_trans with (F 1%Q);
    [apply (rnd_proper HF); exact E|apply (rnd_1 F HF)].
Qed.

Section TransformBounds.
Variables F32 F64 cos64 : Q -> Q.
Hypothesis HF32 : rounding_laws F32.
Hypothesis HF64 : rounding_laws F64.
Hypothesis Hcos : forall x, (-1 <= cos64 x <= 1)%Q.
Hypothesis Hcos0 : forall x, (x == 0)%Q -> (cos64 x == 1)%Q.

Lemma F32_unit (x : Q) : (-1 <= x <= 1)%Q -> (-1 <= F32 x <= 1)%Q.
Proof.
  intros [H1 H2]. split.
  - apply (rnd_ge_int F32 HF32 x (-1)); [change (2 ^ 23) with 8388608; lia|exact H1].
  - apply (rnd_le_int F32 HF32 x 1); [change (2 ^ 23) with 8388608; lia|exact H2].
Qed.

Lemma F32_between (x : Q) (lo hi : Z) :
  Z.abs lo <= 2 ^ 23 -> Z.abs hi <= 2 ^ 23 ->
  (inject_Z lo <= x <= inject_Z hi)%Q ->
  (inject_Z lo <= F32 x <= inject_Z hi)%Q.
Proof.
  intros Hlo Hhi [H1 H2]. split.
  - apply (rnd_ge_int F32 HF32); assumption.
  - apply (rnd_le_int F32 HF32); assumption.
Qed.

(** The cosine tables. *)
Lemma cosTable_ok (maxN n : Z) (t : list Q) :
  0 <= maxN -> 0 <= n -> Z.of_nat (length t) = maxN * n ->
  table_ok (cosTable F32 F64 cos64 maxN n t) maxN n.
Proof.
  intros HN Hn L.
  set (P := fun (j : Z) (v : Q) =>
              (-1 <= v <= 1)%Q /\ (j < n -> (v == 1)%Q)).
  assert (G : Z.of_nat (length (cosTable F32 F64 cos64 maxN n t)) = maxN * n /\
              forall j, 0 <= j < maxN * n ->
                P j (ld 0%Q (cosTable F32 F64 cos64 maxN n t) j)).
  { unfold cosTable.
    apply (forZ_inv (fun c a =>
             Z.of_nat (length a) = maxN * n /\
             forall j, 0 <= j < c * n -> P j (ld 0%Q a j))); [exact HN| |].
    - split; [exact L|]. intros j Hj. lia.
    - intros c a Hc [La Ha]. cbv zeta.
      replace ((c + 1) * n) with (c * n + n) by lia.
      apply (forZ_inv (fun i a =>
               Z.of_nat (length a) = maxN * n /\
               forall j, 0 <= j < c * n + i -> P j (ld 0%Q a j))); [exact Hn| |].
      + rewrite Z.add_0_r. split; [exact La|exact Ha].
      + intros i a' Hi [La' Ha']. split; [rewrite upd_length; exact La'|].
        intros j Hj. destruct (Z.eq_dec (c * n + i) j) as [<-|Hne].
        * rewrite ld_upd_same by nia. unfold P. split.
          -- apply F32_unit. apply Hcos.
          -- intros Hlt. assert (Hc0 : c = 0) by nia. subst c.
             apply (rnd_eq_1 F32 _ HF32). apply Hcos0. unfold f64_of_int.
             apply (rnd_eq_0 F64 _ HF64).
             assert (S0 : (F64 (F64 (math_Pi * F64 (inject_Z 0))
                                / F64 (inject_Z n)) == 0)%Q).
             { apply (rnd_eq_0 F64 _ HF64).
               assert (E : (F64 (math_Pi * F64 (inject_Z 0)) == 0)%Q).
               { apply (rnd_eq_0 F64 _ HF64).
                 rewrite (rnd_0 F64 HF64). ring. }
               rewrite E. unfold Qdiv. ring. }
             rewrite S0. ring.
        * rewrite ld_upd_other by exact Hne. apply Ha'. lia. }
  destruct G as [_ G]. intros c i Hc Hi.
  assert (Hj : 0 <= c * n + i < maxN * n) by nia.
  destruct (G _ Hj) as [G1 G2]. split; [exact G1|].
  intros ->. apply G2. lia.
Qed.

End TransformBounds.

Section ChannelBounds.
Variables F32 F64 cos64 : Q -> Q.
Hypothesis HF32 : rounding_laws F32.

Lemma unit_product (a b : Q) :
  (-1 <= a <= 1)%Q -> (-1 <= b <= 1)%Q -> (-1 <= a * b <= 1)%Q.
Proof. intros Ha Hb. nra. Qed.

(** One term of the DCT sum. *)
Lemma dct_term (d c fy : Q) :
  (-1 <= d <= 1)%Q -> (-1 <= c <= 1)%Q -> (-1 <= fy <= 1)%Q ->
  (-1 <= F32 (F32 (d * c) * fy) <= 1)%Q /\
  ((0 <= d)%Q -> (c == 1)%Q -> (fy == 1)%Q -> (0 <= F32 (F32 (d * c) * fy))%Q).
Proof.
  intros Hd Hc Hy.
  assert (H1 := F32_unit F32 HF32 _ (unit_product d c Hd Hc)).
  split.
  - apply (F32_unit F32 HF32). apply unit_product; assumption.
  - intros Hd0 Ec Ey.
    assert (P : (0 <= F32 (d * c))%Q).
    { apply (rnd_ge_int F32 HF32 _ 0); [change (2 ^ 23) with 8388608; lia|].
      rewrite Ec. change (inject_Z 0) with 0%Q. lra. }
    apply (rnd_ge_int F32 HF32 _ 0); [change (2 ^ 23) with 8388608; lia|].
    rewrite Ey. change (inject_Z 0) with 0%Q. lra.
Qed.

Lemma dctSum_bound (data : list Q) (chanOff w h : Z) (cX cY : list Q)
    (cx cy maxNx maxNy : Z) :
  1 <= w <= 100 -> 1 <= h <= 100 ->
  chan_in data chanOff (w * h) (-1) 1 ->
  table_ok cX maxNx w -> table_ok cY maxNy h ->
  0 <= cx < maxNx -> 0 <= cy < maxNy ->
  (- inject_Z (w * h) <= dctSum F32 data chanOff 4 w h cX cY (cx * w) (cy * h)
   <= inject_Z (w * h))%Q /\
  (chan_in data chanOff (w * h) 0 1 -> cx = 0 -> cy = 0 ->
   (0 <= dctSum F32 data chanOff 4 w h cX cY (cx * w) (cy * h))%Q).
Proof.
  intros Hw Hh Hd HX HY Hcx Hcy. unfold dctSum.
  set (nonneg := chan_in data chanOff (w * h) 0 1 /\ cx = 0 /\ cy = 0).
  assert (G : forall yy, 0 <= yy <= h ->
    let f := forZ yy (fun y f =>
      let fy := ld 0%Q cY (cy * h + y) in
      let rowOff := y * w * 4 in
      forZ w (fun x f0 =>
        F32 (f0 + F32 (F32 (ld 0%Q data (rowOff + x * 4 + chanOff)
                            * ld 0%Q cX (cx * w + x)) * fy))) f) 0%Q in
    (- inject_Z (yy * w) <= f <= inject_Z (yy * w))%Q /\ (nonneg -> (0 <= f)%Q)).
  { intros yy Hyy.
    apply (forZ_inv (fun y f =>
      (- inject_Z (y * w) <= f <= inject_Z (y * w))%Q /\ (nonneg -> (0 <= f)%Q)));
      [lia| |].
    - change (inject_Z (0 * w)) with 0%Q. split; [lra|]. intros _. lra.
    - intros y f Hy [Hf Hf0]. cbv zeta.
      destruct (HY cy y ltac:(lia) ltac:(lia)) as [Yr Y1].
      replace ((y + 1) * w) with (y * w + w) by lia.
      apply (forZ_inv (fun x f0 =>
        (- inject_Z (y * w + x) <= f0 <= inject_Z (y * w + x))%Q /\
        (nonneg -> (0 <= f0)%Q))); [lia| |].
      + rewrite Z.add_0_r. split; [exact Hf|exact Hf0].
      + intros x f0 Hx [Hf1 Hf2].
        destruct (HX cx x ltac:(lia) ltac:(lia)) as [Xr X1].
        replace (y * w * 4 + x * 4 + chanOff) with ((y * w + x) * 4 + chanOff)
          by lia.
        assert (Dr := Hd (y * w + x) ltac:(nia)).
        destruct (dct_term _ _ _ Dr Xr Yr) as [T1 T2].
        set (t := F32 (F32 (ld 0%Q data ((y * w + x) * 4 + chanOff)
                            * ld 0%Q cX (cx * w + x))
                       * ld 0%Q cY (cy * h + y))) in *.
        split.
        * replace (y * w + (x + 1)) with (y * w + x + 1) by lia.
          rewrite <- inject_Z_opp.
          apply (F32_between F32 HF32);
            [change (2 ^ 23) with 8388608; nia
            |change (2 ^ 23) with 8388608; nia|].
          rewrite inject_Z_opp, inject_Z_plus. change (inject_Z 1) with 1%Q.
          lra.
        * intros N. specialize (Hf2 N). destruct N as (Nd & Nx & Ny).
          assert (T0 : (0 <= t)%Q).
          { apply T2.
            - exact (proj1 (Nd (y * w + x) ltac:(nia))).
            - apply X1. exact Nx.
            - apply Y1. exact Ny. }
          apply (rnd_ge_int F32 HF32 _ 0); [change (2 ^ 23) with 8388608; lia|].
          change (inject_Z 0) with 0%Q. lra. }
  destruct (G h ltac:(lia)) as [G1 G2]. cbv zeta in G1, G2.
  replace (h * w) with (w * h) in G1 by lia.
  split; [exact G1|]. intros N1 N2 N3. apply G2. unfold nonneg. auto.
Qed.

(** A DCT coefficient, once divided by the pixel count, is in [-1, 1];
    the DC of a non-negative channel is in [0, 1]. *)
Lemma coefficient_bound (data : list Q) (chanOff w h : Z) (cX cY : list Q)
    (cx cy maxNx maxNy : Z) :
  1 <= w <= 100 -> 1 <= h <= 100 ->
  chan_in data chanOff (w * h) (-1) 1 ->
  table_ok cX maxNx w -> table_ok cY maxNy h ->
  0 <= cx < maxNx -> 0 <= cy < maxNy ->
  let f := F32 (dctSum F32 data chanOff 4 w h cX cY (cx * w) (cy * h)
                / f32_of_int F32 (w * h)) in
  (-1 <= f <= 1)%Q /\
  (chan_in data chanOff (w * h) 0 1 -> cx = 0 -> cy = 0 -> (0 <= f)%Q).
Proof.
  intros Hw Hh Hd HX HY Hcx Hcy. cbv zeta.
  destruct (dctSum_bound data chanOff w h cX cY cx cy maxNx maxNy
              Hw Hh Hd HX HY Hcx Hcy) as [[S1 S2] S3].
  set (s := dctSum F32 data chanOff 4 w h cX cY (cx * w) (cy * h)) in *.
  assert (Ewh : (f32_of_int F32 (w * h) == inject_Z (w * h))%Q).
  { unfold f32_of_int. apply (rnd_int F32 HF32).
    change (2 ^ 23) with 8388608. nia. }
  assert (Pwh : (0 < inject_Z (w * h))%Q).
  { change 0%Q with (inject_Z 0). rewrite <- Zlt_Qlt. nia. }
  split.
  - apply (F32_unit F32 HF32). rewrite Ewh. split.
    + apply Qle_shift_div_l; [exact Pwh|]. lra.
    + apply Qle_shift_div_r; [exact Pwh|]. lra.
  - intros N1 N2 N3. specialize (S3 N1 N2 N3).
    apply (rnd_ge_int F32 HF32 _ 0); [change (2 ^ 23) with 8388608; lia|].
    rewrite Ewh. change (inject_Z 0) with 0%Q.
    apply Qle_shift_div_l; [exact Pwh|]. lra.
Qed.

End ChannelBounds.

Section EncodeChanBounds.
Variables F32 F64 cos64 : Q -> Q.
Hypothesis HF32 : rounding_laws F32.

(** What [encodeChan] returns: a scale in [0, 1] and a DC in [-1, 1], in
    [0, 1] for a channel that is not negative. *)
Lemma encodeChan_bound (data : list Q) (chanOff w h nx ny : Z)
    (cX cY d0 : list Q) (maxNx maxNy : Z) :
  1 <= w <= 100 -> 1 <= h <= 100 ->
  chan_in data chanOff (w * h) (-1) 1 ->
  table_ok cX maxNx w -> table_ok cY maxNy h ->
  nx <= maxNx -> ny <= maxNy ->
  let r := encodeChan F32 data chanOff 4 w h nx ny cX cY d0 in
  (0 <= fst (fst r) <= 1)%Q /\ (-1 <= snd (fst r) <= 1)%Q /\
  (chan_in data chanOff (w * h) 0 1 -> (0 <= snd (fst r))%Q).
Proof.
  intros Hw Hh Hd HX HY Hnx Hny. unfold encodeChan. cbv zeta. cbn [fst snd].
  set (Inv := fun (st : chanState) =>
         (0 <= acMax st <= 1)%Q /\ (-1 <= dc st <= 1)%Q /\
         (chan_in data chanOff (w * h) 0 1 -> (0 <= dc st)%Q)).
  match goal with
  | |- context [forZ ny ?body ?init] =>
      assert (G : Inv (forZ ny body init)); [|exact G]
  end.
  apply forZ_keeps.
  - unfold Inv. cbn [acMax dc]. split; [lra|]. split; [lra|]. intros _. lra.
  - intros cy st Hcy Hst. apply forZ_keeps; [exact Hst|].
    intros cx st' Hcx (Ha & Hdc & Hdc0).
    destruct (coefficient_bound F32 HF32 data chanOff w h cX cY cx cy
                maxNx maxNy Hw Hh Hd HX HY ltac:(lia) ltac:(lia)) as [Fr F0].
    cbv zeta in Fr, F0.
    set (f := F32 (dctSum F32 data chanOff 4 w h cX cY (cx * w) (cy * h)
                   / f32_of_int F32 (w * h))) in *.
    destruct ((cx =? 0) && (cy =? 0))%bool eqn:E.
    + apply andb_prop in E. destruct E as [E1 E2]. apply Z.eqb_eq in E1, E2.
      unfold Inv. cbn [acMax dc]. split; [exact Ha|]. split; [exact Fr|].
      intros N. apply F0; assumption.
    + unfold Inv. cbn [acMax dc]. split; [|split; [exact Hdc|exact Hdc0]].
      assert (Haf : (0 <= (if Qltb f 0 then - f else f) <= 1)%Q).
      { destruct (Qltb f 0) eqn:Ef.
        - apply Qltb_lt in Ef. lra.
        - apply Qltb_ge in Ef. lra. }
      destruct (Qltb (acMax st') (if Qltb f 0 then - f else f));
        [exact Haf|exact Ha].
Qed.

(** The LPQA conversion of a proxy of [0, 1]. *)
Lemma toLPQA_bound (count : Z) (rgba : list Q) :
  0 <= count -> Z.of_nat (length rgba) = count * 4 ->
  (forall j, 0 <= j < count * 4 -> (0 <= ld 0%Q rgba j <= 1)%Q) ->
  chan_in (toLPQA F32 count rgba) 0 count 0 1 /\
  chan_in (toLPQA F32 count rgba) 1 count (-1) 1 /\
  chan_in (toLPQA F32 count rgba) 2 count (-1) 1 /\
  chan_in (toLPQA F32 count rgba) 3 count 0 1.
Proof.
  intros Hc L Hr.
  set (Inv := fun (k : Z) (s : list Q) =>
    Z.of_nat (length s) = count * 4 /\
    forall i, 0 <= i < count ->
      (i < k ->
         (0 <= ld 0%Q s (i * 4 + 0) <= 1)%Q /\ (-1 <= ld 0%Q s (i * 4 + 1) <= 1)%Q /\
         (-1 <= ld 0%Q s (i * 4 + 2) <= 1)%Q /\ (0 <= ld 0%Q s (i * 4 + 3) <= 1)%Q) /\
      (k <= i -> forall c, 0 <= c <= 3 -> (0 <= ld 0%Q s (i * 4 + c) <= 1)%Q)).
  assert (G : Inv count (toLPQA F32 count rgba)).
  { unfold toLPQA. apply (forZ_inv Inv); [exact Hc| |].
    - split; [exact L|]. intros i Hi. split; [lia|].
      intros _ c Hcc. apply Hr. lia.
    - intros k s Hk [Ls Hs]. cbv zeta.
      destruct (Hs k Hk) as [_ Hcur]. specialize (Hcur ltac:(lia)).
      assert (A0 := Hcur 0 ltac:(lia)). assert (A1 := Hcur 1 ltac:(lia)).
      assert (A2 := Hcur 2 ltac:(lia)). assert (A3 := Hcur 3 ltac:(lia)).
      replace (k * 4 + 0) with (k * 4) in A0 by lia.
      set (af := ld 0%Q s (k * 4 + 3)) in *.
      set (r := F32 (ld 0%Q s (k * 4) * af)).
      set (g := F32 (ld 0%Q s (k * 4 + 1) * af)).
      set (b := F32 (ld 0%Q s (k * 4 + 2) * af)).
      assert (U : forall x, (0 <= x <= 1)%Q -> (0 <= F32 (x * af) <= 1)%Q).
      { intros x Hx. apply (F32_between F32 HF32 _ 0 1);
          [change (2 ^ 23) with 8388608; lia
          |change (2 ^ 23) with 8388608; lia|].
        change (inject_Z 0) with 0%Q. change (inject_Z 1) with 1%Q. nra. }
      assert (Rr : (0 <= r <= 1)%Q) by (apply U; exact A0).
      assert (Rg : (0 <= g <= 1)%Q) by (apply U; exact A1).
      assert (Rb : (0 <= b <= 1)%Q) by (apply U; exact A2).
      assert (Rrg : (0 <= F32 (r + g) <= 2)%Q).
      { apply (F32_between F32 HF32 _ 0 2);
          [change (2 ^ 23) with 8388608; lia
          |change (2 ^ 23) with 8388608; lia|].
        change (inject_Z 0) with 0%Q. change (inject_Z 2) with 2%Q. lra. }
      assert (RL : (0 <= F32 (F32 (F32 (r + g) + b) / 3) <= 1)%Q).
      { assert (S3 : (0 <= F32 (F32 (r + g) + b) <= 3)%Q).
        { apply (F32_between F32 HF32 _ 0 3);
            [change (2 ^ 23) with 8388608; lia
            |change (2 ^ 23) with 8388608; lia|].
          change (inject_Z 0) with 0%Q. change (inject_Z 3) with 3%Q. lra. }
        apply (F32_between F32 HF32 _ 0 1);
          [change (2 ^ 23) with 8388608; lia
          |change (2 ^ 23) with 8388608; lia|].
        change (inject_Z 0) with 0%Q. change (inject_Z 1) with 1%Q.
        unfold Qdiv. change (/ 3)%Q with (1 # 3)%Q. lra. }
      assert (RP : (-1 <= F32 (F32 (F32 (r + g) / 2) - b) <= 1)%Q).
      { assert (S2 : (0 <= F32 (F32 (r + g) / 2) <= 1)%Q).
        { apply (F32_between F32 HF32 _ 0 1);
            [change (2 ^ 23) with 8388608; lia
            |change (2 ^ 23) with 8388608; lia|].
          change (inject_Z 0) with 0%Q. change (inject_Z 1) with 1%Q.
          unfold Qdiv. change (/ 2)%Q with (1 # 2)%Q. lra. }
        apply (F32_unit F32 HF32). lra. }
      assert (RQ : (-1 <= F32 (r - g) <= 1)%Q).
      { apply (F32_unit F32 HF32). lra. }
      split; [rewrite !upd_length; exact Ls|].
      intros i Hi. destruct (Z.eq_dec i k) as [->|Hne].
      + split; [|lia]. intros _.
        replace (k * 4 + 0) with (k * 4) by lia.
        rewrite !(ld_upd_other 0%Q _ (k * 4 + 3)) by lia. fold af.
        rewrite (ld_upd_same 0%Q (k * 4 + 2)) by (rewrite !upd_length; lia).
        rewrite (ld_upd_other 0%Q (k * 4 + 2) (k * 4 + 1)) by lia.
        rewrite (ld_upd_same 0%Q (k * 4 + 1)) by (rewrite !upd_length; lia).
        rewrite !(ld_upd_other 0%Q _ (k * 4)) by lia.
        rewrite (ld_upd_same 0%Q (k * 4)) by lia.
        split; [exact RL|]. split; [exact RP|]. split; [exact RQ|exact A3].
      + destruct (Hs i Hi) as [Hlt Hge].
        assert (O : forall c, 0 <= c <= 3 ->
          ld 0%Q (upd (k * 4 + 2) (F32 (r - g))
                    (upd (k * 4 + 1) (F32 (F32 (F32 (r + g) / 2) - b))
                       (upd (k * 4) (F32 (F32 (F32 (r + g) + b) / 3)) s)))
             (i * 4 + c)
          = ld 0%Q s (i * 4 + c)).
        { intros c Hcc. rewrite !ld_upd_other by lia. reflexivity. }
        split.
        * intros Hik. rewrite !O by lia. apply Hlt. lia.
        * intros Hik c Hcc. rewrite O by lia. apply Hge; lia. }
  destruct G as [_ G].
  split; [|split; [|split]]; intros i Hi; destruct (G i Hi) as [Hlt _];
    specialize (Hlt ltac:(lia)); destruct Hlt as (B0 & B1 & B2 & B3);
    assumption.
Qed.

End EncodeChanBounds.

(** Every quantized field of the hash in its bit width. *)
Definition fields_fit (F32 F64 : Q -> Q) (w h : Z) (ch : channels) : Prop :=
  0 <= quantDC63 F64 (lDC ch) <= 63 /\
  0 <= quantDC31 F64 (pDC ch) <= 62 /\
  0 <= quantDC31 F64 (qDC ch) <= 62 /\
  0 <= quantScale31 F64 (lScale ch) <= 31 /\
  0 <= quantScale63 F64 (pScale ch) <= 63 /\
  0 <= quantScale63 F64 (qScale ch) <= 63 /\
  0 <= quant15 F64 (aDC ch) <= 15 /\
  0 <= quant15 F64 (aScale ch) <= 15 /\
  1 <= dimFlag w h ch <= 7 /\
  Forall (fun c => 0 <= nibbleOf F32 F64 c <= 15)
         (lAC ch ++ pAC ch ++ qAC ch ++ aAC ch).


Lemma chan_in_weaken (data : list Q) (c n : Z) :
  chan_in data c n 0 1 -> chan_in data c n (-1) 1.
Proof. intros H i Hi. specialize (H i Hi). lra. Qed.

(** The bounds of the four [encodeChan] calls of [transform]. *)
Ltac bound_channels F32 HF32 rgba1 w h cX cY maxNx maxNy Hw Hh CL CP CQ CA TX TY :=
  repeat match goal with
  | |- context [encodeChan F32 rgba1 ?c 4 w h ?nx ?ny cX cY ?d] =>
      let B := fresh "B" in
      lazymatch c with
      | 0 => assert (B := encodeChan_bound F32 HF32 rgba1 0 w h nx ny cX cY d
                            maxNx maxNy Hw Hh (chan_in_weaken _ _ _ CL) TX TY
                            ltac:(lia) ltac:(lia))
      | 1 => assert (B := encodeChan_bound F32 HF32 rgba1 1 w h nx ny cX cY d
                            maxNx maxNy Hw Hh CP TX TY ltac:(lia) ltac:(lia))
      | 2 => assert (B := encodeChan_bound F32 HF32 rgba1 2 w h nx ny cX cY d
                            maxNx maxNy Hw Hh CQ TX TY ltac:(lia) ltac:(lia))
      | 3 => assert (B := encodeChan_bound F32 HF32 rgba1 3 w h nx ny cX cY d
                            maxNx maxNy Hw Hh (chan_in_weaken _ _ _ CA) TX TY
                            ltac:(lia) ltac:(lia))
      end;
      cbv zeta in B;
      destruct (encodeChan F32 rgba1 c 4 w h nx ny cX cY d) as [[? ?] ?];
      cbn [fst snd] in B
  end;
  cbn [fst];
  repeat match goal with
  | B : _ /\ _ /\ (chan_in rgba1 0 _ 0 1 -> _) |- _ =>
      destruct B as (? & ? & B); specialize (B CL)
  | B : _ /\ _ /\ (chan_in rgba1 3 _ 0 1 -> _) |- _ =>
      destruct B as (? & ? & B); specialize (B CA)
  | B : _ /\ _ /\ (chan_in rgba1 _ _ 0 1 -> _) |- _ =>
      destruct B as (? & ? & _)
  end.

Section FieldsFit.
Variables F32 F64 cos64 : Q -> Q.
Hypothesis HF32 : rounding_laws F32.
Hypothesis HF64 : rounding_laws F64.
Hypothesis Hcos : forall x, (-1 <= cos64 x <= 1)%Q.
Hypothesis Hcos0 : forall x, (x == 0)%Q -> (cos64 x == 1)%Q.


Lemma fields_fit_intro (w h : Z) (hA : bool) (lx ly px py ax ay : Z)
    (lS lD pS pD qS qD aS aD : Q) (lA pA qA aA : list Q) :
  (0 <= lS <= 1)%Q -> (0 <= lD <= 1)%Q ->
  (0 <= pS <= 1)%Q -> (-1 <= pD <= 1)%Q ->
  (0 <= qS <= 1)%Q -> (-1 <= qD <= 1)%Q ->
  (0 <= aS <= 1)%Q -> (0 <= aD <= 1)%Q ->
  1 <= lx <= 7 -> 1 <= ly <= 7 ->
  fields_fit F32 F64 w h
    {| hasAlpha := hA; lx := lx; ly := ly; px := px; py := py; ax := ax; ay := ay;
       lScale := lS; lDC := lD; pScale := pS; pDC := pD; qScale := qS; qDC := qD;
       aScale := aS; aDC := aD; lAC := lA; pAC := pA; qAC := qA; aAC := aA |}.
Proof.
  intros. unfold fields_fit, dimFlag.
  cbn [lDC pDC qDC lScale pScale qScale aDC aScale Enc.lx Enc.ly lAC pAC qAC aAC].
  split; [apply (quantDC63_range F64 HF64); assumption|].
  split; [apply (quantDC31_range F64 HF64); assumption|].
  split; [apply (quantDC31_range F64 HF64); assumption|].
  split; [apply (quantScale31_range F64 HF64); assumption|].
  split; [apply (quantScale63_range F64 HF64); assumption|].
  split; [apply (quantScale63_range F64 HF64); assumption|].
  split; [apply (quant15_range F64 HF64); assumption|].
  split; [apply (quant15_range F64 HF64); assumption|].
  split; [destruct (isLandscape w h); assumption|].
  apply Forall_forall. intros c _. apply (nibbleOf_range F32 F64 HF64).
Qed.

(** On a proxy of [[0, 1]] the channels [transform] returns keep every
    quantizer within its bit field. *)
Lemma transform_fields_fit (w h : Z) (wb : workBuf) :
  1 <= w <= 100 -> 1 <= h <= 100 -> workBuf_sized wb ->
  (forall j, 0 <= j < w * h * 4 -> (0 <= ld 0%Q (rgba wb) j <= 1)%Q) ->
  fields_fit F32 F64 w h (fst (transform F32 F64 cos64 w h wb)).
Proof.
  intros Hw Hh (Lr & LX & LY & LA) Hproxy.
  assert (Hm : 1 <= imax w h <= 100 /\ w <= imax w h /\ h <= imax w h).
  { unfold imax. destruct (Z.gtb_spec w h); lia. }
  assert (D : forall l s, 1 <= l <= 7 -> (s = w \/ s = h) ->
                1 <= basisDim F32 l s (imax w h) <= 7).
  { intros l s Hl Hcase.
    assert (R := basisDim_range F32 HF32 l s (imax w h) Hl
                   ltac:(destruct Hcase; subst; lia) ltac:(lia)). lia. }
  unfold transform. cbv zeta.
  set (rgba0 := slice 0 (w * h * 4) (rgba wb)).
  assert (L0 : Z.of_nat (length rgba0) = w * h * 4).
  { subst rgba0. rewrite slice_length; nia. }
  assert (H0 : forall j, 0 <= j < w * h * 4 -> (0 <= ld 0%Q rgba0 j <= 1)%Q).
  { intros j Hj. subst rgba0. unfold slice. cbn [Z.to_nat skipn].
    rewrite ld_firstn by lia. apply Hproxy. exact Hj. }
  destruct (toLPQA_bound F32 HF32 (w * h) rgba0 ltac:(nia) L0 H0)
    as (CL & CP & CQ & CA).
  clearbody rgba0.
  destruct (avgColor F32 (w * h) rgba0) as [[[avgR avgG] avgB] avgA].
  set (rgba1 := toLPQA F32 (w * h) rgba0) in *. clearbody rgba1.
  assert (Lx7 := D 7 w ltac:(lia) ltac:(auto)).
  assert (Ly7 := D 7 h ltac:(lia) ltac:(auto)).
  assert (Lx5 := D 5 w ltac:(lia) ltac:(auto)).
  assert (Ly5 := D 5 h ltac:(lia) ltac:(auto)).
  assert (Px := D 3 w ltac:(lia) ltac:(auto)).
  assert (Py := D 3 h ltac:(lia) ltac:(auto)).
  destruct (Qltb avgA 1).
  - set (lx := basisDim F32 5 w (imax w h)) in *.
    set (ly := basisDim F32 5 h (imax w h)) in *.
    set (px := basisDim F32 3 w (imax w h)) in *.
    set (py := basisDim F32 3 h (imax w h)) in *.
    clearbody lx ly px py.
    assert (Mx := imax_range _ _ 1 7 (imax_range lx px 1 7 Lx5 Px) Lx5).
    assert (My := imax_range _ _ 1 7 (imax_range ly py 1 7 Ly5 Py) Ly5).
    assert (Ux : lx <= imax (imax lx px) lx /\ px <= imax (imax lx px) lx).
    { unfold imax. destruct (Z.gtb_spec lx px);
        match goal with |- context [?a >? ?b] => destruct (Z.gtb_spec a b) end; lia. }
    assert (Uy : ly <= imax (imax ly py) ly /\ py <= imax (imax ly py) ly).
    { unfold imax. destruct (Z.gtb_spec ly py);
        match goal with |- context [?a >? ?b] => destruct (Z.gtb_spec a b) end; lia. }
    set (maxNx := imax (imax lx px) lx) in *.
    set (maxNy := imax (imax ly py) ly) in *.
    clearbody maxNx maxNy.
    assert (TX := cosTable_ok F32 F64 cos64 HF32 HF64 Hcos Hcos0 maxNx w
                    (slice 0 (maxNx * w) (cosX wb)) ltac:(lia) ltac:(lia)
                    ltac:(rewrite slice_length; nia)).
    assert (TY := cosTable_ok F32 F64 cos64 HF32 HF64 Hcos Hcos0 maxNy h
                    (slice 0 (maxNy * h) (cosY wb)) ltac:(lia) ltac:(lia)
                    ltac:(rewrite slice_length; nia)).
    set (cX := cosTable F32 F64 cos64 maxNx w _) in *.
    set (cY := cosTable F32 F64 cos64 maxNy h _) in *.
    clearbody cX cY.
    bound_channels F32 HF32 rgba1 w h cX cY maxNx maxNy Hw Hh CL CP CQ CA TX TY.
    apply fields_fit_intro; try assumption; try lra; lia.
  - set (lx := basisDim F32 7 w (imax w h)) in *.
    set (ly := basisDim F32 7 h (imax w h)) in *.
    set (px := basisDim F32 3 w (imax w h)) in *.
    set (py := basisDim F32 3 h (imax w h)) in *.
    clearbody lx ly px py.
    assert (Mx := imax_range lx px 1 7 Lx7 ltac:(lia)).
    assert (My := imax_range ly py 1 7 Ly7 ltac:(lia)).
    assert (Ux : lx <= imax lx px /\ px <= imax lx px).
    { unfold imax. destruct (Z.gtb_spec lx px); lia. }
    assert (Uy : ly <= imax ly py /\ py <= imax ly py).
    { unfold imax. destruct (Z.gtb_spec ly py); lia. }
    set (maxNx := imax lx px) in *.
    set (maxNy := imax ly py) in *.
    clearbody maxNx maxNy.
    assert (TX := cosTable_ok F32 F64 cos64 HF32 HF64 Hcos Hcos0 maxNx w
                    (slice 0 (maxNx * w) (cosX wb)) ltac:(lia) ltac:(lia)
                    ltac:(rewrite slice_length; nia)).
    assert (TY := cosTable_ok F32 F64 cos64 HF32 HF64 Hcos Hcos0 maxNy h
                    (slice 0 (maxNy * h) (cosY wb)) ltac:(lia) ltac:(lia)
                    ltac:(rewrite slice_length; nia)).
    set (cX := cosTable F32 F64 cos64 maxNx w _) in *.
    set (cY := cosTable F32 F64 cos64 maxNy h _) in *.
    clearbody cX cY.
    bound_channels F32 HF32 rgba1 w h cX cY maxNx maxNy Hw Hh CL CP CQ CA TX TY.
    apply fields_fit_intro; try assumption; try lra; lia.
Qed.

(** C8: for every proxy whose RGBA floats lie in [[0, 1]], every
    quantized field [assembleHash] packs is within its bit width: the
    luma DC in [[0, 63]], the two chroma DCs in [[0, 62]], the luma scale
    in [[0, 31]], the chroma scales in [[0, 63]], the alpha DC and scale in
    [[0, 15]], the dimension flag in [[1, 7]] and every AC nibble in
    [[0, 15]]. *)
Theorem quantized_fields_fit (w h : Z) (wb : workBuf) :
  1 <= w <= 100 -> 1 <= h <= 100 -> workBuf_sized wb ->
  (forall j, 0 <= j < w * h * 4 -> (0 <= ld 0%Q (rgba wb) j <= 1)%Q) ->
  0 <= quantDC63 F64 (lDC (fst (transform F32 F64 cos64 w h wb))) <= 63 /\
  0 <= quantDC31 F64 (pDC (fst (transform F32 F64 cos64 w h wb))) <= 62 /\
  0 <= quantDC31 F64 (qDC (fst (transform F32 F64 cos64 w h wb))) <= 62 /\
  0 <= quantScale31 F64 (lScale (fst (transform F32 F64 cos64 w h wb))) <= 31 /\
  0 <= quantScale63 F64 (pScale (fst (transform F32 F64 cos64 w h wb))) <= 63 /\
  0 <= quantScale63 F64 (qScale (fst (transform F32 F64 cos64 w h wb))) <= 63 /\
  0 <= quant15 F64 (aDC (fst (transform F32 F64 cos64 w h wb))) <= 15 /\
  0 <= quant15 F64 (aScale (fst (transform F32 F64 cos64 w h wb))) <= 15 /\
  1 <= dimFlag w h (fst (transform F32 F64 cos64 w h wb)) <= 7 /\
  Forall (fun c => 0 <= nibbleOf F32 F64 c <= 15)
         (lAC (fst (transform F32 F64 cos64 w h wb))
          ++ pAC (fst (transform F32 F64 cos64 w h wb))
          ++ qAC (fst (transform F32 F64 cos64 w h wb))
          ++ aAC (fst (transform F32 F64 cos64 w h wb))).
Proof.
  intros Hw Hh Hs Hproxy.
  exact (transform_fields_fit w h wb Hw Hh Hs Hproxy).
Qed.

End FieldsFit.

(** ** The header round trip *)

Lemma lor_shiftl_add (a b k : Z) :
  0 <= k -> 0 <= a < 2 ^ k -> 0 <= b ->
  Z.lor a (Z.shiftl b k) = a + b * 2 ^ k.
Proof.
  intros Hk Ha Hb.
  assert (L : Z.land a (Z.shiftl b k) = 0).
  { apply Z.bits_inj'. intros n Hn. rewrite Z.land_spec, Z.bits_0.
    destruct (Z_lt_ge_dec n k) as [Hlt|Hge].
    - rewrite Z.shiftl_spec_low by lia. apply andb_false_r.
    - assert (T : Z.testbit a n = false).
      { destruct (Z.eq_dec a 0) as [->|Hne]; [apply Z.bits_0|].
        apply Z.bits_above_log2; [lia|].
        assert (Z.log2 a < k) by (apply Z.log2_lt_pow2; lia). lia. }
      rewrite T. reflexivity. }
  rewrite <- Z.lxor_lor by exact L.
  rewrite <- Z.add_nocarry_lxor by exact L.
  rewrite Z.shiftl_mul_pow2 by lia. reflexivity.
Qed.

(** The four bytes of a 32-bit word, reassembled as the decoder does. *)
Lemma word_of_bytes (hd : Z) :
  0 <= hd < 2 ^ 31 ->
  toInt32 (Z.lor (Z.lor (Z.lor (byte hd) (Z.shiftl (byte (Z.shiftr hd 8)) 8))
                        (Z.shiftl (byte (Z.shiftr hd 16)) 16))
                 (Z.shiftl (byte (Z.shiftr hd 24)) 24)) = hd.
Proof.
  intros H. unfold byte. rewrite !Z.shiftr_div_pow2 by lia.
  change (2 ^ 8) with 256. change (2 ^ 16) with 65536.
  change (2 ^ 24) with 16777216. change (2 ^ 31) with 2147483648 in H.
  assert (B0 := Z.mod_pos_bound hd 256 ltac:(lia)).
  assert (B1 := Z.mod_pos_bound (hd / 256) 256 ltac:(lia)).
  assert (B2 := Z.mod_pos_bound (hd / 65536) 256 ltac:(lia)).
  assert (B3 := Z.mod_pos_bound (hd / 16777216) 256 ltac:(lia)).
  rewrite (lor_shiftl_add _ _ 8) by (change (2 ^ 8) with 256; lia).
  rewrite (lor_shiftl_add _ _ 16) by (change (2 ^ 8) with 256;
                                       change (2 ^ 16) with 65536; lia).
  rewrite (lor_shiftl_add _ _ 24) by (change (2 ^ 8) with 256;
                                       change (2 ^ 16) with 65536;
                                       change (2 ^ 24) with 16777216; lia).
  change (2 ^ 8) with 256. change (2 ^ 16) with 65536.
  change (2 ^ 24) with 16777216.
  unfold toInt32. change (2 ^ 31) with 2147483648.
  change (2 ^ 32) with 4294967296.
  assert (E : hd mod 256 + hd / 256 mod 256 * 256 + hd / 65536 mod 256 * 65536
              + hd / 16777216 mod 256 * 16777216 = hd).
  { Z.div_mod_to_equations. lia. }
  rewrite E. rewrite Z.mod_small by lia. lia.
Qed.

Section HeaderRoundTrip.
Variables F32 F64 : Q -> Q.

(** The main header as a sum of its fields. *)
Lemma header_sum (w h : Z) (ch : channels) :
  fields_fit F32 F64 w h ch ->
  header F64 w h ch
  = quantDC63 F64 (lDC ch) + quantDC31 F64 (pDC ch) * 2 ^ 6
    + quantDC31 F64 (qDC ch) * 2 ^ 12 + quantScale31 F64 (lScale ch) * 2 ^ 18
    + boolU32 (hasAlpha ch) * 2 ^ 23 + dimFlag w h ch * 2 ^ 24
    + boolU32 (isLandscape w h) * 2 ^ 28.
Proof.
  intros (H1 & H2 & H3 & H4 & _ & _ & _ & _ & H9 & _). unfold header. cbv zeta.
  assert (Ha : 0 <= boolU32 (hasAlpha ch) <= 1)
    by (destruct (hasAlpha ch); cbn; lia).
  assert (Hl : 0 <= boolU32 (isLandscape w h) <= 1)
    by (destruct (isLandscape w h); cbn; lia).
  set (a := quantDC63 F64 (lDC ch)) in *.
  set (b := quantDC31 F64 (pDC ch)) in *.
  set (c := quantDC31 F64 (qDC ch)) in *.
  set (d := quantScale31 F64 (lScale ch)) in *.
  set (e := boolU32 (hasAlpha ch)) in *.
  set (f := dimFlag w h ch) in *.
  set (g := boolU32 (isLandscape w h)) in *.
  clearbody a b c d e f g.
  rewrite (uint32_small f) by (change (2 ^ 32) with 4294967296; lia).
  rewrite !Z.shiftl_mul_pow2 by lia.
  change (2 ^ 6) with 64. change (2 ^ 12) with 4096.
  change (2 ^ 18) with 262144. change (2 ^ 23) with 8388608.
  change (2 ^ 24) with 16777216. change (2 ^ 28) with 268435456.
  rewrite !uint32_small by (change (2 ^ 32) with 4294967296; lia).
  replace (b * 64) with (Z.shiftl b 6) by (rewrite Z.shiftl_mul_pow2; lia).
  replace (c * 4096) with (Z.shiftl c 12) by (rewrite Z.shiftl_mul_pow2; lia).
  replace (d * 262144) with (Z.shiftl d 18) by (rewrite Z.shiftl_mul_pow2; lia).
  replace (e * 8388608) with (Z.shiftl e 23) by (rewrite Z.shiftl_mul_pow2; lia).
  replace (f * 16777216) with (Z.shiftl f 24) by (rewrite Z.shiftl_mul_pow2; lia).
  replace (g * 268435456) with (Z.shiftl g 28) by (rewrite Z.shiftl_mul_pow2; lia).
  rewrite (lor_shiftl_add a b 6) by (change (2 ^ 6) with 64; lia).
  rewrite (lor_shiftl_add _ c 12) by (change (2 ^ 6) with 64;
                                       change (2 ^ 12) with 4096; lia).
  rewrite (lor_shiftl_add _ d 18) by (change (2 ^ 6) with 64;
                                       change (2 ^ 12) with 4096;
                                       change (2 ^ 18) with 262144; lia).
  rewrite (lor_shiftl_add _ e 23) by (change (2 ^ 6) with 64;
                                       change (2 ^ 12) with 4096;
                                       change (2 ^ 18) with 262144;
                                       change (2 ^ 23) with 8388608; lia).
  rewrite (lor_shiftl_add _ f 24) by (change (2 ^ 6) with 64;
                                       change (2 ^ 12) with 4096;
                                       change (2 ^ 18) with 262144;
                                       change (2 ^ 23) with 8388608;
                                       change (2 ^ 24) with 16777216; lia).
  rewrite (lor_shiftl_add _ g 28) by (change (2 ^ 6) with 64;
                                       change (2 ^ 12) with 4096;
                                       change (2 ^ 18) with 262144;
                                       change (2 ^ 23) with 8388608;
                                       change (2 ^ 24) with 16777216;
                                       change (2 ^ 28) with 268435456; lia).
  rewrite !Z.shiftl_mul_pow2 by lia. reflexivity.
Qed.

End HeaderRoundTrip.

Section RoundTrip.
Variables F32 F64 cos64 : Q -> Q.

Lemma packAC_nib (acOff : Z) (acs : list Q) (st : list Z * Z) :
  0 <= snd st -> 0 <= snd (packAC F32 F64 acOff acs st).
Proof.
  unfold packAC. revert st. induction acs as [|c acs IH]; intros [hs nb] Hnb.
  - exact Hnb.
  - cbn [fold_left]. apply IH. cbn [snd] in *. lia.
Qed.

Lemma packAC_below (acOff : Z) (acs : list Q) (st : list Z * Z) (i : Z) :
  0 <= snd st -> i < acOff ->
  ld 0 (fst (packAC F32 F64 acOff acs st)) i = ld 0 (fst st) i.
Proof.
  unfold packAC. revert st. induction acs as [|c acs IH]; intros [hash nib] Hn Hi.
  - reflexivity.
  - cbn [fold_left]. cbn [snd] in Hn.
    assert (Hq : 0 <= Z.quot nib 2) by (apply Z.quot_pos; lia).
    destruct (Z.rem nib 2 =? 0); rewrite IH by (cbn [snd]; lia); cbn [fst];
      apply ld_upd_other; lia.
Qed.

Ltac peel_packAC :=
  repeat (rewrite packAC_below;
          [|repeat apply packAC_nib; cbn [snd]; lia|lia]).

(** The first four bytes of the hash are the bytes of the header. *)
Lemma pack_header_bytes (w h : Z) (ch : channels) :
  6 <= hashLen ch ->
  byteAt (pack F32 F64 w h ch) 0 = byte (header F64 w h ch) /\
  byteAt (pack F32 F64 w h ch) 1 = byte (Z.shiftr (header F64 w h ch) 8) /\
  byteAt (pack F32 F64 w h ch) 2 = byte (Z.shiftr (header F64 w h ch) 16) /\
  byteAt (pack F32 F64 w h ch) 3 = byte (Z.shiftr (header F64 w h ch) 24).
Proof.
  intros Hlen. unfold pack, byteAt. cbv zeta.
  set (hd := header F64 w h ch).
  set (h0 := repeat 0 (Z.to_nat (hashLen ch))).
  assert (L0 : Z.of_nat (length h0) = hashLen ch).
  { subst h0. rewrite repeat_length. lia. }
  clearbody h0 hd.
  destruct (hasAlpha ch); peel_packAC; cbn [fst];
    rewrite ?(ld_upd_other 0 7), ?(ld_upd_other 0 6),
      ?(ld_upd_other 0 5), ?(ld_upd_other 0 4) by lia;
    rewrite !(ld_upd_other 0 3 0), !(ld_upd_other 0 2 0), !(ld_upd_other 0 1 0),
      !(ld_upd_other 0 3 1), !(ld_upd_other 0 2 1), !(ld_upd_other 0 3 2) by lia;
    rewrite !ld_upd_same by (rewrite ?upd_length; lia);
    repeat split; reflexivity.
Qed.

End RoundTrip.

Section ParsePack.
Variables F32 F64 D64 : Q -> Q.

(** The decoder reads back the flags and the dimension field the encoder
    stored. *)
Lemma parse_pack (w h : Z) (ch : channels) :
  fields_fit F32 F64 w h ch -> 6 <= hashLen ch ->
  f_hasAlpha (parse D64 (pack F32 F64 w h ch)) = hasAlpha ch /\
  f_isLandscape (parse D64 (pack F32 F64 w h ch)) = isLandscape w h /\
  f_dimFlag (parse D64 (pack F32 F64 w h ch)) = dimFlag w h ch.
Proof.
  intros Hfit Hlen.
  destruct (pack_header_bytes F32 F64 w h ch Hlen) as (B0 & B1 & B2 & B3).
  assert (S := header_sum F32 F64 w h ch Hfit).
  destruct Hfit as (H1 & H2 & H3 & H4 & _ & _ & _ & _ & H9 & _).
  unfold parse. cbn [f_hasAlpha f_isLandscape f_dimFlag].
  unfold headerWord. rewrite B0, B1, B2, B3.
  set (a := quantDC63 F64 (lDC ch)) in *.
  set (b := quantDC31 F64 (pDC ch)) in *.
  set (c := quantDC31 F64 (qDC ch)) in *.
  set (d := quantScale31 F64 (lScale ch)) in *.
  set (f := dimFlag w h ch) in *.
  assert (He : boolU32 (hasAlpha ch) = 0 /\ hasAlpha ch = false \/
               boolU32 (hasAlpha ch) = 1 /\ hasAlpha ch = true)
    by (destruct (hasAlpha ch); cbn; auto).
  assert (Hg : boolU32 (isLandscape w h) = 0 /\ isLandscape w h = false \/
               boolU32 (isLandscape w h) = 1 /\ isLandscape w h = true)
    by (destruct (isLandscape w h); cbn; auto).
  set (e := boolU32 (hasAlpha ch)) in *.
  set (g := boolU32 (isLandscape w h)) in *.
  set (hd := header F64 w h ch) in *.
  change (2 ^ 6) with 64 in S. change (2 ^ 12) with 4096 in S.
  change (2 ^ 18) with 262144 in S. change (2 ^ 23) with 8388608 in S.
  change (2 ^ 24) with 16777216 in S. change (2 ^ 28) with 268435456 in S.
  clearbody a b c d e f g hd.
  rewrite word_of_bytes by (change (2 ^ 31) with 2147483648; lia).
  rewrite !Z.shiftr_div_pow2 by lia.
  change 1 with (Z.ones 1) at 1 3. change 15 with (Z.ones 4).
  rewrite !Z.land_ones by lia.
  change (2 ^ 23) with 8388608. change (2 ^ 24) with 16777216.
  change (2 ^ 28) with 268435456. change (2 ^ 1) with 2. change (2 ^ 4) with 16.
  change (Z.ones 1) with 1.
  assert (E1 : hd / 8388608 mod 2 = e) by (Z.div_mod_to_equations; lia).
  assert (E2 : hd / 268435456 mod 2 = g) by (Z.div_mod_to_equations; lia).
  assert (E3 : hd / 16777216 mod 16 = f) by (Z.div_mod_to_equations; lia).
  rewrite E1, E2, E3.
  split; [|split; [|reflexivity]].
  - destruct He as [[-> ->]|[-> ->]]; reflexivity.
  - destruct Hg as [[-> ->]|[-> ->]]; reflexivity.
Qed.

End ParsePack.

Section Counts.
Variables F32 F64 cos64 D64 : Q -> Q.

Lemma encodeChan_length (data : list Q) (chanOff stride w h nx ny : Z)
    (cX cY d0 : list Q) :
  length (snd (encodeChan F32 data chanOff stride w h nx ny cX cY d0)) = length d0.
Proof.
  unfold encodeChan. cbv zeta. cbn [snd].
  match goal with
  | |- context [forZ ny ?body ?init] =>
      assert (G : length (dst (forZ ny body init)) = length d0)
  end.
  { apply (forZ_keeps (fun st => length (dst st) = length d0)); [reflexivity|].
    intros cy st Hcy Hst.
    apply (forZ_keeps (fun st => length (dst st) = length d0)); [exact Hst|].
    intros cx st' Hcx Hst'. cbv zeta.
    destruct ((cx =? 0) && (cy =? 0))%bool; cbn [dst];
      rewrite ?upd_length; exact Hst'. }
  match goal with
  | |- context [if ?b then _ else _] => destruct b
  end; [|exact G].
  cbv zeta.
  apply (forZ_keeps (fun d => length d = length d0)); [exact G|].
  intros i d Hi Hd. rewrite upd_length. exact Hd.
Qed.

Lemma readAC_length (hash : list Z) (acOffset count offset : Z) :
  0 <= count ->
  Z.of_nat (length (fst (readAC D64 hash acOffset count offset))) = count.
Proof.
  intros Hc. unfold readAC.
  apply (forZ_inv (fun k (st : list Q * Z) => Z.of_nat (length (fst st)) = k));
    [exact Hc|reflexivity|].
  intros k [res off] Hk Hres. cbn [fst] in *. rewrite length_app. cbn [length].
  lia.
Qed.

(** The four coefficient arrays the decoder reads have
    [lx * ly - 1], 8, 8 and (with alpha) [lx * ly - 1] entries. *)
Lemma readAll_lengths (hash : list Z) (f : fields) :
  1 <= f_lx f -> 1 <= f_ly f ->
  let '(lAC, pAC, qAC, aAC) := readAll D64 hash f in
  Z.of_nat (length lAC) = f_lx f * f_ly f - 1 /\
  Z.of_nat (length pAC) = 8 /\ Z.of_nat (length qAC) = 8 /\
  Z.of_nat (length aAC) = if f_hasAlpha f then f_lx f * f_ly f - 1 else 0.
Proof.
  intros Hx Hy. unfold readAll.
  assert (L1 := readAC_length hash (f_acOffset f) (f_lx f * f_ly f - 1) 0
                  ltac:(nia)).
  destruct (readAC D64 hash (f_acOffset f) (f_lx f * f_ly f - 1) 0) as [lAC o1].
  assert (L2 := readAC_length hash (f_acOffset f) (3 * 3 - 1) o1 ltac:(lia)).
  destruct (readAC D64 hash (f_acOffset f) (3 * 3 - 1) o1) as [pAC o2].
  assert (L3 := readAC_length hash (f_acOffset f) (3 * 3 - 1) o2 ltac:(lia)).
  destruct (readAC D64 hash (f_acOffset f) (3 * 3 - 1) o2) as [qAC o3].
  cbn [fst] in *.
  split; [exact L1|]. split; [exact L2|]. split; [exact L3|].
  destruct (f_hasAlpha f); [|reflexivity].
  apply readAC_length. nia.
Qed.

Hypothesis HF32 : rounding_laws F32.

(** The coefficient arrays the encoder packs have [lx * ly - 1],
    [px * py - 1], [px * py - 1] and (with alpha) [ax * ay - 1] entries. *)
Lemma transform_lengths (w h : Z) (wb : workBuf) :
  1 <= w <= 100 -> 1 <= h <= 100 -> workBuf_sized wb ->
  let ch := fst (transform F32 F64 cos64 w h wb) in
  Z.of_nat (length (lAC ch)) = lx ch * ly ch - 1 /\
  Z.of_nat (length (pAC ch)) = px ch * py ch - 1 /\
  Z.of_nat (length (qAC ch)) = px ch * py ch - 1 /\
  Z.of_nat (length (aAC ch)) = if hasAlpha ch then ax ch * ay ch - 1 else 0.
Proof.
  intros Hw Hh (_ & _ & _ & LA).
  assert (Hm : 1 <= imax w h <= 100 /\ w <= imax w h /\ h <= imax w h).
  { unfold imax. destruct (Z.gtb_spec w h); lia. }
  assert (D : forall l s, 1 <= l <= 7 -> (s = w \/ s = h) ->
                1 <= basisDim F32 l s (imax w h) <= l).
  { intros l s Hl Hcase.
    apply (basisDim_range F32 HF32 l s (imax w h) Hl);
      destruct Hcase; subst; lia. }
  cbv zeta. unfold transform. cbv zeta.
  destruct (avgColor F32 (w * h) (slice 0 (w * h * 4) (rgba wb)))
    as [[[avgR avgG] avgB] avgA].
  assert (Lx7 := D 7 w ltac:(lia) ltac:(auto)).
  assert (Ly7 := D 7 h ltac:(lia) ltac:(auto)).
  assert (Lx5 := D 5 w ltac:(lia) ltac:(auto)).
  assert (Ly5 := D 5 h ltac:(lia) ltac:(auto)).
  assert (Px := D 3 w ltac:(lia) ltac:(auto)).
  assert (Py := D 3 h ltac:(lia) ltac:(auto)).
  destruct (Qltb avgA 1);
    repeat match goal with
    | |- context [encodeChan F32 ?a ?b ?c ?d ?e ?f ?g ?x ?y ?z] =>
        let L := fresh "L" in
        assert (L := encodeChan_length a b c d e f g x y z);
        destruct (encodeChan F32 a b c d e f g x y z) as [[? ?] ?];
        cbn [snd] in L;
        apply (f_equal Z.of_nat) in L;
        rewrite slice_length in L by nia
    end;
    cbn [fst lAC pAC qAC aAC lx ly px py ax ay hasAlpha length];
    repeat split; lia.
Qed.

End Counts.

(** ** The fixtures satisfy the assumptions *)

Lemma cosine_unit_range (x : Q) : (-1 <= cosine_unit x <= 1)%Q.
Proof.
  unfold cosine_unit. destruct (Qeq_bool x 0); [lra|]. cbv zeta.
  destruct (Qltb (cosine x) (- (1))) eqn:E1; [lra|].
  apply Qltb_ge in E1.
  destruct (Qltb 1 (cosine x)) eqn:E2; [lra|].
  apply Qltb_ge in E2. lra.
Qed.

Lemma cosine_unit_zero (x : Q) : (x == 0)%Q -> (cosine_unit x == 1)%Q.
Proof.
  intros E. unfold cosine_unit. apply Qeq_bool_iff in E. rewrite E. reflexivity.
Qed.

Lemma proxyBuf_sized (proxy : list Q) :
  Z.of_nat (length proxy) <= 40000 -> workBuf_sized (proxyBuf proxy).
Proof.
  intros L. unfold workBuf_sized, proxyBuf. cbn [rgba cosX cosY ac].
  rewrite length_app, !repeat_length. repeat split; lia.
Qed.

Lemma pair_in_unit (proxy : list Q) (j : Z) :
  proxy = opaquePair \/ proxy = translucentPair ->
  0 <= j < 2 * 1 * 4 ->
  (0 <= ld 0%Q (rgba (proxyBuf proxy)) j <= 1)%Q.
Proof.
  intros Hp Hj.
  assert (C : j = 0 \/ j = 1 \/ j = 2 \/ j = 3 \/ j = 4 \/ j = 5 \/ j = 6 \/ j = 7)
    by lia.
  destruct Hp as [-> | ->];
    repeat (destruct C as [-> | C]); subst;
    vm_compute; split; discriminate.
Qed.

Lemma quantized_fields_fit_witness :
  0 <= quantDC63 exact (lDC (fst (transform exact exact cosine_unit 2 1
                                     (proxyBuf opaquePair)))) <= 63 /\
  0 <= quantDC31 exact (pDC (fst (transform exact exact cosine_unit 2 1
                                     (proxyBuf opaquePair)))) <= 62.
Proof.
  assert (W := quantized_fields_fit exact exact cosine_unit exact_laws exact_laws
                 cosine_unit_range cosine_unit_zero 2 1 (proxyBuf opaquePair)
                 ltac:(lia) ltac:(lia)
                 (proxyBuf_sized opaquePair ltac:(cbn; lia))
                 (fun j => pair_in_unit opaquePair j (or_introl eq_refl))).
  split; [exact (proj1 W)|exact (proj1 (proj2 W))].
Defined.

(** ** The basis on the two sides *)

Section BasisAgreement.
Variables F32 F64 cos64 D64 : Q -> Q.
Hypothesis HF32 : rounding_laws F32.
Hypothesis HF64 : rounding_laws F64.
Hypothesis Hcos : forall x, (-1 <= cos64 x <= 1)%Q.
Hypothesis Hcos0 : forall x, (x == 0)%Q -> (cos64 x == 1)%Q.

(** The decoder rebuilds the luma basis of the encoder from the header. *)
Lemma parse_pack_basis (w h : Z) (ch : channels) :
  1 <= w <= 100 -> 1 <= h <= 100 ->
  basis_of F32 w h ch -> fields_fit F32 F64 w h ch -> 6 <= hashLen ch ->
  f_lx (parse D64 (pack F32 F64 w h ch)) = lx ch /\
  f_ly (parse D64 (pack F32 F64 w h ch)) = ly ch.
Proof.
  intros Hw Hh (Elx & Ely & _) Hfit Hlen.
  destruct (parse_pack F32 F64 D64 w h ch Hfit Hlen) as (EA & EL & ED).
  destruct Hfit as (_ & _ & _ & _ & _ & _ & _ & _ & HD & _).
  set (f := parse D64 (pack F32 F64 w h ch)) in *.
  assert (Ux : f_lx f = if f_isLandscape f
                        then (if f_hasAlpha f then 5 else 7)
                        else Z.max 1 (f_dimFlag f)) by reflexivity.
  assert (Uy : f_ly f = if f_isLandscape f
                        then Z.max 1 (f_dimFlag f)
                        else (if f_hasAlpha f then 5 else 7)) by reflexivity.
  clearbody f. rewrite Ux, Uy, EA, EL, ED. clear Ux Uy EA EL ED.
  cbv zeta in Elx, Ely. unfold dimFlag in *. unfold isLandscape in *.
  unfold imax in Elx, Ely. revert Elx Ely HD.
  destruct (Z.gtb_spec w h) as [Hgt|Hle]; intros Elx Ely HD.
  - split; [|lia]. rewrite Elx. symmetry.
    apply (basisDim_full F32 HF32); destruct (hasAlpha ch); lia.
  - split; [lia|]. rewrite Ely. symmetry.
    apply (basisDim_full F32 HF32); destruct (hasAlpha ch); lia.
Qed.

(** With alpha, the alpha basis is the luma basis: 5 along the longer
    side, between 1 and 5 along the other. *)
Lemma alpha_basis (w h : Z) (ch : channels) :
  1 <= w <= 100 -> 1 <= h <= 100 -> basis_of F32 w h ch ->
  hasAlpha ch = true ->
  ax ch = lx ch /\ ay ch = ly ch /\
  (h <= w -> ax ch = 5 /\ 1 <= ay ch <= 5) /\
  (w <= h -> ay ch = 5 /\ 1 <= ax ch <= 5).
Proof.
  intros Hw Hh (Elx & Ely & _ & _ & Eax & Eay) HA.
  cbv zeta in Elx, Ely. rewrite HA in *.
  split; [congruence|]. split; [congruence|].
  rewrite Eax, Eay. unfold imax.
  destruct (Z.gtb_spec w h) as [Hgt|Hle].
  - split; intros Hc; [|lia].
    split; [apply (basisDim_full F32 HF32); lia|].
    apply (basisDim_range F32 HF32); lia.
  - split; intros Hc.
    + assert (w = h) by lia. subst w.
      rewrite (basisDim_full F32 HF32) by lia. lia.
    + split; [apply (basisDim_full F32 HF32); lia|].
      apply (basisDim_range F32 HF32); lia.
Qed.

End BasisAgreement.

Section AlphaBasis.
Variables F32 F64 cos64 D64 : Q -> Q.
Hypothesis HF32 : rounding_laws F32.
Hypothesis HF64 : rounding_laws F64.
Hypothesis Hcos : forall x, (-1 <= cos64 x <= 1)%Q.
Hypothesis Hcos0 : forall x, (x == 0)%Q -> (cos64 x == 1)%Q.

(** C4 (amended): when the hasAlpha bit is set, the alpha basis is the
    luma basis: [ax = max(1, round(5 * w / maxWH))] and
    [ay = max(1, round(5 * h / maxWH))], 5 along the longer side of the
    proxy and between 1 and 5 along the other.  The encoder emits
    [ax * ay - 1] alpha coefficients and the decoder, which finds the
    hasAlpha bit set, reads the same number of alpha nibbles; the number
    lies between 4 and 24 and is 24 for a square proxy. *)
Theorem alpha_basis_follows_aspect (w h : Z) (wb : workBuf) :
  1 <= w <= 100 -> 1 <= h <= 100 -> workBuf_sized wb ->
  (forall j, 0 <= j < w * h * 4 -> (0 <= ld 0%Q (rgba wb) j <= 1)%Q) ->
  hasAlpha (fst (transform F32 F64 cos64 w h wb)) = true ->
  let ch := fst (transform F32 F64 cos64 w h wb) in
  let hash := fst (assembleHash F32 F64 cos64 w h wb) in
  let n := basisDim F32 5 w (imax w h) * basisDim F32 5 h (imax w h) - 1 in
  ax ch = basisDim F32 5 w (imax w h) /\
  ay ch = basisDim F32 5 h (imax w h) /\
  Z.of_nat (length (aAC ch)) = n /\
  f_hasAlpha (parse D64 hash) = true /\
  Z.of_nat (length (snd (readAll D64 hash (parse D64 hash)))) = n /\
  4 <= n <= 24 /\
  (w = h -> n = 24).
Proof.
  intros Hw Hh Hs Hproxy HA. cbv zeta. rewrite assembleHash_fst.
  assert (B := transform_basis F32 F64 cos64 w h wb).
  assert (Fit := transform_fields_fit F32 F64 cos64 HF32 HF64 Hcos Hcos0
                   w h wb Hw Hh Hs Hproxy).
  assert (Len := transform_lengths F32 F64 cos64 HF32 w h wb Hw Hh Hs).
  cbv zeta in Len.
  set (ch := fst (transform F32 F64 cos64 w h wb)) in *. clearbody ch.
  destruct (alpha_basis F32 HF32 w h ch Hw Hh B HA) as (Ax & Ay & Wide & Tall).
  assert (Hlen : 6 <= hashLen ch).
  { destruct (hashLen_bounds F32 HF32 w h ch Hw Hh B) as [_ Hb].
    specialize (Hb HA). lia. }
  destruct (parse_pack F32 F64 D64 w h ch Fit Hlen) as (EA & _ & _).
  destruct (parse_pack_basis F32 F64 D64 HF32 w h ch Hw Hh B Fit Hlen)
    as (Ex & Ey).
  assert (RL := readAll_lengths D64 (pack F32 F64 w h ch)
                  (parse D64 (pack F32 F64 w h ch))).
  rewrite Ex, Ey, EA, HA in RL.
  destruct Len as (_ & _ & _ & La). rewrite HA in La.
  destruct B as (_ & _ & _ & _ & Eax & Eay). rewrite HA in Eax, Eay.
  rewrite <- Eax, <- Eay.
  assert (R : 1 <= ax ch <= 5 /\ 1 <= ay ch <= 5 /\ (ax ch = 5 \/ ay ch = 5) /\
              (w = h -> ax ch = 5 /\ ay ch = 5)).
  { destruct (Z_le_gt_dec h w) as [C|C].
    - destruct (Wide C) as [E1 E2].
      split; [lia|]. split; [lia|]. split; [lia|].
      intros E. destruct (Tall ltac:(lia)) as [E3 _]. lia.
    - destruct (Tall ltac:(lia)) as [E1 E2].
      split; [lia|]. split; [lia|]. split; [lia|]. intros E. lia. }
  destruct R as (Rx & Ry & Rm & Rs).
  split; [reflexivity|]. split; [reflexivity|]. split; [exact La|].
  split; [rewrite EA; exact HA|].
  split.
  { destruct (readAll D64 (pack F32 F64 w h ch)
                (parse D64 (pack F32 F64 w h ch))) as [[[l p] q] a].
    cbn [snd]. destruct (RL ltac:(lia) ltac:(lia)) as (_ & _ & _ & Ra).
    rewrite Ra, Ax, Ay. reflexivity. }
  split; [nia|].
  intros E. destruct (Rs E) as [-> ->]. reflexivity.
Qed.

End AlphaBasis.

(** ** The claims on the fixtures *)





Lemma alpha_basis_follows_aspect_witness :
  Z.of_nat (length (aAC (fst (transform exact exact cosine_unit 2 1
                                 (proxyBuf translucentPair)))))
  = basisDim exact 5 2 (imax 2 1) * basisDim exact 5 1 (imax 2 1) - 1.
Proof.
  assert (W := alpha_basis_follows_aspect exact exact cosine_unit exact
                 exact_laws exact_laws cosine_unit_range cosine_unit_zero
                 2 1 (proxyBuf translucentPair)
                 ltac:(lia) ltac:(lia)
                 (proxyBuf_sized translucentPair ltac:(cbn; lia))
                 (fun j => pair_in_unit translucentPair j (or_intror eq_refl))
                 ltac:(vm_compute; reflexivity)).
  exact (proj1 (proj2 (proj2 W))).
Defined.

(** C4 as stated fails on a 2 x 1 image of half-transparent pixels: the
    hasAlpha bit is set, the alpha basis is 5 x 3, the encoder emits 14
    alpha coefficients and the decoder reads 14 alpha nibbles. *)
Lemma alpha_basis_not_5x5 :
  let img := solidImg 2 1 200 100 50 128 in
  let wb := proxyBuf (proxyOf binary32 binary64 img 2 1) in
  let ch := fst (transform binary32 binary64 cosine 2 1 wb) in
  let hash := fst (assembleHash binary32 binary64 cosine 2 1 wb) in
  fst (Encode binary32 binary64 cosine img newWorkBuf) = Some hash /\
  hasAlpha ch = true /\ ax ch = 5 /\ ay ch = 3 /\
  length (aAC ch) = 14%nat /\
  f_hasAlpha (parse binary64 hash) = true /\
  length (snd (readAll binary64 hash (parse binary64 hash))) = 14%nat.
Proof. vm_compute. repeat split; reflexivity. Qed.

Section CoefficientCounts.
Variables F32 F64 cos64 D64 : Q -> Q.
Hypothesis HF32 : rounding_laws F32.
Hypothesis HF64 : rounding_laws F64.
Hypothesis Hcos : forall x, (-1 <= cos64 x <= 1)%Q.
Hypothesis Hcos0 : forall x, (x == 0)%Q -> (cos64 x == 1)%Q.

(** The coefficient counts of the two sides, channel by channel: luma
    and alpha agree on every proxy; for P and Q the decoder reads 8 each
    where the encoder packed [px * py - 1] each, which is 8 on a square
    proxy and never more. *)
Theorem coefficient_counts (w h : Z) (wb : workBuf) :
  1 <= w <= 100 -> 1 <= h <= 100 -> workBuf_sized wb ->
  (forall j, 0 <= j < w * h * 4 -> (0 <= ld 0%Q (rgba wb) j <= 1)%Q) ->
  let ch := fst (transform F32 F64 cos64 w h wb) in
  let hash := fst (assembleHash F32 F64 cos64 w h wb) in
  let acs := readAll D64 hash (parse D64 hash) in
  length (fst (fst (fst acs))) = length (lAC ch) /\
  length (snd acs) = length (aAC ch) /\
  Z.of_nat (length (snd (fst (fst acs)))) = 8 /\
  Z.of_nat (length (snd (fst acs))) = 8 /\
  Z.of_nat (length (pAC ch)) = px ch * py ch - 1 /\
  Z.of_nat (length (qAC ch)) = px ch * py ch - 1 /\
  2 <= px ch * py ch - 1 <= 8 /\
  (w = h -> px ch * py ch - 1 = 8).
Proof.
  intros Hw Hh Hs Hproxy. cbv zeta. rewrite assembleHash_fst.
  assert (B := transform_basis F32 F64 cos64 w h wb).
  assert (Fit := transform_fields_fit F32 F64 cos64 HF32 HF64 Hcos Hcos0
                   w h wb Hw Hh Hs Hproxy).
  assert (Len := transform_lengths F32 F64 cos64 HF32 w h wb Hw Hh Hs).
  cbv zeta in Len.
  set (ch := fst (transform F32 F64 cos64 w h wb)) in *. clearbody ch.
  assert (Hlen : 6 <= hashLen ch).
  { destruct (hashLen_bounds F32 HF32 w h ch Hw Hh B) as [Hb1 Hb2].
    destruct (hasAlpha ch); [specialize (Hb2 eq_refl)|specialize (Hb1 eq_refl)];
      lia. }
  destruct (parse_pack F32 F64 D64 w h ch Fit Hlen) as (EA & _ & _).
  destruct (parse_pack_basis F32 F64 D64 HF32 w h ch Hw Hh B Fit Hlen)
    as (Ex & Ey).
  assert (RL := readAll_lengths D64 (pack F32 F64 w h ch)
                  (parse D64 (pack F32 F64 w h ch))).
  rewrite Ex, Ey, EA in RL.
  destruct Len as (Ll & Lp & Lq & La).
  destruct B as (Elx & Ely & Epx & Epy & Eax & Eay). cbv zeta in Elx, Ely.
  assert (Hm : imax w h = w /\ h <= w \/ imax w h = h /\ w <= h).
  { unfold imax. destruct (Z.gtb_spec w h); lia. }
  assert (Rl : 1 <= lx ch /\ 1 <= ly ch).
  { rewrite Elx, Ely.
    destruct Hm as [[-> Hle]|[-> Hle]]; destruct (hasAlpha ch);
      split; apply (basisDim_range F32 HF32); lia. }
  assert (Rp : 1 <= px ch <= 3 /\ 1 <= py ch <= 3 /\ (px ch = 3 \/ py ch = 3) /\
               (w = h -> px ch = 3 /\ py ch = 3)).
  { rewrite Epx, Epy.
    destruct Hm as [[-> Hle]|[-> Hle]];
      rewrite (basisDim_full F32 HF32) by lia;
      (split; [first [lia|apply (basisDim_range F32 HF32); lia]|]);
      (split; [first [lia|apply (basisDim_range F32 HF32); lia]|]);
      (split; [lia|]); intros ->; rewrite (basisDim_full F32 HF32) by lia; lia. }
  assert (Ra : hasAlpha ch = true -> ax ch = lx ch /\ ay ch = ly ch).
  { intros HA. rewrite HA in Elx, Ely, Eax, Eay.
    split; [rewrite Eax, Elx|rewrite Eay, Ely]; reflexivity. }
  destruct (readAll D64 (pack F32 F64 w h ch)
              (parse D64 (pack F32 F64 w h ch))) as [[[l p] q] a].
  cbn [fst snd].
  destruct (RL ltac:(lia) ltac:(lia)) as (R1 & R2 & R3 & R4).
  split; [lia|].
  split.
  { destruct (hasAlpha ch); [|lia].
    destruct (Ra eq_refl) as [Eq1 Eq2]. rewrite Eq1, Eq2 in La. lia. }
  split; [exact R2|]. split; [exact R3|]. split; [exact Lp|]. split; [exact Lq|].
  destruct Rp as (Rx & Ry & Rm & Rs).
  split; [nia|].
  intros E. destruct (Rs E) as [-> ->]. reflexivity.
Qed.

End CoefficientCounts.

Lemma coefficient_counts_witness :
  Z.of_nat (length (pAC (fst (transform exact exact cosine_unit 2 1
                                 (proxyBuf opaquePair)))))
  = px (fst (transform exact exact cosine_unit 2 1 (proxyBuf opaquePair)))
    * py (fst (transform exact exact cosine_unit 2 1 (proxyBuf opaquePair))) - 1.
Proof.
  assert (W := coefficient_counts exact exact cosine_unit exact
                 exact_laws exact_laws cosine_unit_range cosine_unit_zero
                 2 1 (proxyBuf opaquePair)
                 ltac:(lia) ltac:(lia)
                 (proxyBuf_sized opaquePair ltac:(cbn; lia))
                 (fun j => pair_in_unit opaquePair j (or_introl eq_refl))).
  exact (proj1 (proj2 (proj2 (proj2 (proj2 W))))).
Defined.

(** C1 on the 2 x 1 gradient, whose proxy is the image itself: the basis
    is 7 x 4 for luma and 3 x 2 for P and Q, so the encoder packs
    27 + 5 + 5 nibbles after the 6 header bytes, 25 bytes in all.  The
    decoder reads 27 + 8 + 8: its P block ends with the first three
    nibbles of Q, and its Q block is the last two nibbles of Q, the
    padding nibble and five nibbles of bytes 25 to 27, which the hash does
    not have. *)
Theorem chroma_counts_differ :
  let img := gradientImg 2 1 in
  let wb := proxyBuf (proxyOf binary32 binary64 img 2 1) in
  let ch := fst (transform binary32 binary64 cosine 2 1 wb) in
  let hash := fst (assembleHash binary32 binary64 cosine 2 1 wb) in
  let f := parse binary64 hash in
  let acs := readAll binary64 hash f in
  let read from count :=
    map (nibbleAt hash (f_acOffset f)) (map Z.of_nat (seq from count)) in
  fst (Encode binary32 binary64 cosine img newWorkBuf) = Some hash /\
  length hash = 25%nat /\
  (lx ch, ly ch, px ch, py ch) = (7, 4, 3, 2) /\
  (f_lx f, f_ly f, f_acOffset f) = (7, 4, 6) /\
  (length (lAC ch), length (pAC ch), length (qAC ch)) = (27, 5, 5)%nat /\
  (length (fst (fst (fst acs))), length (snd (fst (fst acs))),
   length (snd (fst acs))) = (27, 8, 8)%nat /\
  map (nibbleOf binary32 binary64) (pAC ch) = [0; 8; 8; 8; 8] /\
  map (nibbleOf binary32 binary64) (qAC ch) = [0; 8; 8; 8; 8] /\
  read 27%nat 8%nat = [0; 8; 8; 8; 8; 0; 8; 8] /\
  read 35%nat 8%nat = [8; 8; 0; 0; 0; 0; 0; 0] /\
  f_acOffset f + Z.shiftr (27 + 8 + 8 - 1) 1 = 27.
Proof. vm_compute. repeat split; reflexivity. Qed.

(** The same on the hash [TestGoldenValues] pins for the 100 x 50 green
    image: 25 bytes, a 7 x 4 luma basis, and a decoder that reads nibbles
    up to byte 27. *)
Lemma golden_green_read_past_end :
  let f := parse binary64 golden_green in
  length golden_green = 25%nat /\
  (f_lx f, f_ly f, f_hasAlpha f, f_acOffset f) = (7, 4, false, 6) /\
  map (nibbleAt golden_green 6) (map Z.of_nat (seq 35 8))
  = [9; 7; 0; 0; 0; 0; 0; 0] /\
  (6 + Z.shiftr (f_lx f * f_ly f - 1 + 8 + 8 - 1) 1 = 27).
Proof. vm_compute. repeat split; reflexivity. Qed.

(** * Further properties of the encoder and the decoder *)

(** ** The proxy size and the source spans *)

(** [thumbDims] never enlarges: each side of the proxy is between 1 and
    the smaller of 100 and the source side, one side is 100 when the
    source is cut down, and the longer side stays the longer one. *)
Theorem thumbDims_shrinks (W H : Z) :
  0 < W < 2^56 -> 0 < H < 2^56 ->
  1 <= fst (thumbDims W H) <= Z.min 100 W /\
  1 <= snd (thumbDims W H) <= Z.min 100 H /\
  (100 < W \/ 100 < H ->
     fst (thumbDims W H) = 100 \/ snd (thumbDims W H) = 100) /\
  (H <= W -> snd (thumbDims W H) <= fst (thumbDims W H)) /\
  (W <= H -> fst (thumbDims W H) <= snd (thumbDims W H)).
Proof.
  intros HW HH. unfold thumbDims, maxThumbDim.
  destruct (Z.leb_spec W 100) as [Hw|Hw]; destruct (Z.leb_spec H 100) as [Hh|Hh];
    cbn [andb fst snd]; try lia;
    rewrite !wrap64_small by lia; rewrite !Z.quot_div_nonneg by lia;
    destruct (Z.geb_spec W H) as [Hc|Hc]; cbn [fst snd]; rewrite ?max1_max;
    try (assert (H * 100 / W <= 100) by (apply Z.div_le_upper_bound; lia));
    try (assert (W * 100 / H <= 100) by (apply Z.div_le_upper_bound; lia));
    try (assert (H * 100 / W <= H) by (apply Z.div_le_upper_bound; nia));
    try (assert (W * 100 / H <= W) by (apply Z.div_le_upper_bound; nia));
    try (assert (W = H -> H * 100 / W = 100)
           by (intros ->; rewrite Z.mul_comm; apply Z.div_mul; lia));
    lia.
Qed.

Lemma thumbDims_shrinks_witness :
  1 <= snd (thumbDims 4000 3) <= Z.min 100 3.
Proof.
  apply (thumbDims_shrinks 4000 3); lia.
Defined.

(** On sizes whose product fits an [int], [srcSpan] is the pair of
    quotients. *)
Lemma srcSpan_small (d dstSize srcSize : Z) :
  0 <= d < dstSize -> dstSize <= srcSize -> dstSize * srcSize < 2^63 ->
  srcSpan d dstSize srcSize
  = (d * srcSize / dstSize, (d + 1) * srcSize / dstSize) /\
  0 <= d * srcSize / dstSize < (d + 1) * srcSize / dstSize /\
  (d + 1) * srcSize / dstSize <= srcSize.
Proof.
  intros Hd Hs Hp. unfold srcSpan. cbv zeta.
  assert (P63 : 0 < 2^63) by lia.
  assert (Hs63 : srcSize < 2^63) by nia.
  rewrite (wrap64_small (d + 1)) by nia.
  rewrite (wrap64_small (d * srcSize)) by nia.
  rewrite (wrap64_small ((d + 1) * srcSize)) by nia.
  rewrite !Z.quot_div_nonneg by nia.
  assert (B0 : 0 <= d * srcSize / dstSize) by (apply Z.div_pos; nia).
  assert (B1 : d * srcSize / dstSize + 1 <= (d + 1) * srcSize / dstSize).
  { replace (d * srcSize / dstSize + 1)
      with ((d * srcSize + 1 * dstSize) / dstSize)
      by (rewrite Z.div_add by lia; reflexivity).
    apply Z.div_le_mono; nia. }
  assert (B2 : (d + 1) * srcSize / dstSize <= srcSize).
  { apply Z.div_le_upper_bound; nia. }
  destruct (Z.leb_spec ((d + 1) * srcSize / dstSize) (d * srcSize / dstSize));
    [lia|].
  destruct (Z.gtb_spec ((d + 1) * srcSize / dstSize) srcSize); [lia|].
  split; [reflexivity|lia].
Qed.

(** When a side is cut down or kept ([dstSize <= srcSize]) and the
    product of the two sizes fits an [int], the spans of the destination
    cells are not empty, stay inside the source and tile it: the first
    starts at 0, each starts where the one before it ends, and the last
    ends at [srcSize]. *)
Theorem srcSpan_tiles (d dstSize srcSize : Z) :
  0 <= d < dstSize -> dstSize <= srcSize -> dstSize * srcSize < 2^63 ->
  0 <= fst (srcSpan d dstSize srcSize) < snd (srcSpan d dstSize srcSize) /\
  snd (srcSpan d dstSize srcSize) <= srcSize /\
  fst (srcSpan 0 dstSize srcSize) = 0 /\
  snd (srcSpan d dstSize srcSize) = fst (srcSpan (d + 1) dstSize srcSize) /\
  snd (srcSpan (dstSize - 1) dstSize srcSize) = srcSize.
Proof.
  intros Hd Hs Hp.
  destruct (srcSpan_small d dstSize srcSize Hd Hs Hp) as (E & B & B').
  rewrite E. cbn [fst snd].
  split; [exact B|]. split; [exact B'|].
  split.
  { destruct (srcSpan_small 0 dstSize srcSize ltac:(lia) Hs Hp) as [E0 _].
    rewrite E0. cbn [fst]. apply Z.div_0_l. lia. }
  split.
  { unfold srcSpan. cbv zeta. cbn [fst].
    assert (P63 : 0 < 2^63) by lia.
    rewrite (wrap64_small ((d + 1) * srcSize)) by nia.
    rewrite Z.quot_div_nonneg by nia. reflexivity. }
  destruct (srcSpan_small (dstSize - 1) dstSize srcSize ltac:(lia) Hs Hp)
    as [E1 _].
  rewrite E1. cbn [snd].
  replace (dstSize - 1 + 1) with dstSize by lia.
  rewrite Z.mul_comm. apply Z.div_mul. lia.
Qed.

Lemma srcSpan_tiles_witness :
  0 <= fst (srcSpan 99 100 250) < snd (srcSpan 99 100 250).
Proof.
  apply (srcSpan_tiles 99 100 250); lia.
Defined.

(** ** The nibble stream, written and read *)

(** Every nibble from position [n] on is still clear. *)
Definition nibs_clear (hash : list Z) (acOff n : Z) : Prop :=
  forall i, n <= i -> nibbleAt hash acOff i = 0.

Lemma nibbleAt_low (hash : list Z) (acOff m : Z) :
  0 <= m -> nibbleAt hash acOff (2 * m) = Z.land (byteAt hash (acOff + m)) 15.
Proof.
  intros Hm. unfold nibbleAt. cbv zeta.
  rewrite Z.shiftr_div_pow2 by lia. change (2 ^ 1) with 2.
  rewrite Z.rem_mod_nonneg by lia.
  replace (2 * m mod 2) with 0 by (Z.div_mod_to_equations; lia).
  replace (2 * m / 2) with m by (Z.div_mod_to_equations; lia).
  reflexivity.
Qed.

Lemma nibbleAt_high (hash : list Z) (acOff m : Z) :
  0 <= m ->
  nibbleAt hash acOff (2 * m + 1)
  = Z.land (Z.shiftr (byteAt hash (acOff + m)) 4) 15.
Proof.
  intros Hm. unfold nibbleAt. cbv zeta.
  rewrite Z.shiftr_div_pow2 by lia. change (2 ^ 1) with 2.
  rewrite Z.rem_mod_nonneg by lia.
  replace ((2 * m + 1) mod 2) with 1 by (Z.div_mod_to_equations; lia).
  replace ((2 * m + 1) / 2) with m by (Z.div_mod_to_equations; lia).
  reflexivity.
Qed.

Lemma nibbleAt_other (hash : list Z) (acOff pos v i : Z) :
  0 <= i -> acOff + i / 2 <> pos ->
  nibbleAt (upd pos v hash) acOff i = nibbleAt hash acOff i.
Proof.
  intros Hi Hne. unfold nibbleAt, byteAt. cbv zeta.
  rewrite Z.shiftr_div_pow2 by lia. change (2 ^ 1) with 2.
  rewrite ld_upd_other by lia. reflexivity.
Qed.

Lemma nibble_parity (i : Z) :
  0 <= i -> exists m, 0 <= m /\ i / 2 = m /\ (i = 2 * m \/ i = 2 * m + 1).
Proof.
  intros Hi. exists (i / 2). Z.div_mod_to_equations. lia.
Qed.

Lemma land_small (b : Z) : 0 <= b <= 15 -> Z.land b 15 = b.
Proof.
  intros Hb. change 15 with (Z.ones 4). rewrite Z.land_ones by lia.
  apply Z.mod_small. change (2 ^ 4) with 16. lia.
Qed.

Lemma shiftr_small (b : Z) : 0 <= b <= 15 -> Z.shiftr b 4 = 0.
Proof.
  intros Hb. rewrite Z.shiftr_div_pow2 by lia. apply Z.div_small.
  change (2 ^ 4) with 16. lia.
Qed.

(** One store of [packAC] sets the nibble at [nib] and leaves every other
    nibble as it is. *)
Lemma packAC_store (acOff nib b : Z) (hash : list Z) :
  0 <= acOff -> 0 <= nib -> 0 <= b <= 15 ->
  acOff + nib / 2 < Z.of_nat (length hash) ->
  nibs_clear hash acOff nib ->
  let pos := acOff + Z.quot nib 2 in
  let hash' :=
    if Z.rem nib 2 =? 0 then upd pos b hash
    else upd pos (Z.lor (ld 0 hash pos) (byte (Z.shiftl b 4))) hash in
  nibbleAt hash' acOff nib = b /\
  forall i, 0 <= i -> i <> nib -> nibbleAt hash' acOff i = nibbleAt hash acOff i.
Proof.
  intros Ha Hn Hb Hin Hclear. cbv zeta.
  rewrite Z.quot_div_nonneg by lia. rewrite Z.rem_mod_nonneg by lia.
  destruct (nibble_parity nib Hn) as (m & Hm & Em & [E|E]); rewrite Em in *.
  - replace (nib mod 2) with 0 by (Z.div_mod_to_equations; lia).
    cbn [Z.eqb]. split.
    + rewrite E, nibbleAt_low by lia. unfold byteAt.
      rewrite ld_upd_same by lia. apply land_small. exact Hb.
    + intros i Hi Hne.
      destruct (nibble_parity i Hi) as (k & Hk & Ek & Ei).
      destruct (Z.eq_dec k m) as [->|Hkm].
      * assert (Ei' : i = 2 * m + 1) by lia. subst i.
        rewrite (Hclear (2 * m + 1)) by lia.
        rewrite nibbleAt_high by lia. unfold byteAt.
        rewrite ld_upd_same by lia. rewrite shiftr_small by exact Hb.
        reflexivity.
      * apply nibbleAt_other; lia.
  - replace (nib mod 2) with 1 by (Z.div_mod_to_equations; lia).
    cbn [Z.eqb].
    assert (Es : byte (Z.shiftl b 4) = Z.shiftl b 4).
    { apply byte_small. rewrite Z.shiftl_mul_pow2 by lia.
      change (2 ^ 4) with 16. change (2 ^ 8) with 256. lia. }
    rewrite Es.
    assert (E0 : Z.land (Z.shiftl b 4) 15 = 0).
    { change 15 with (Z.ones 4). rewrite Z.land_ones by lia.
      rewrite Z.shiftl_mul_pow2 by lia. apply Z.mod_mul. lia. }
    assert (E1 : Z.shiftr (Z.shiftl b 4) 4 = b).
    { rewrite Z.shiftr_shiftl_l by lia. apply Z.shiftl_0_r. }
    split.
    + rewrite E, nibbleAt_high by lia. unfold byteAt.
      rewrite ld_upd_same by lia.
      rewrite Z.shiftr_lor, Z.land_lor_distr_l, E1.
      assert (C := Hclear (2 * m + 1) ltac:(lia)).
      rewrite nibbleAt_high in C by lia. unfold byteAt in C. rewrite C.
      rewrite land_small by exact Hb. reflexivity.
    + intros i Hi Hne.
      destruct (nibble_parity i Hi) as (k & Hk & Ek & Ei).
      destruct (Z.eq_dec k m) as [->|Hkm].
      * assert (Ei' : i = 2 * m) by lia. subst i.
        rewrite !nibbleAt_low by lia. unfold byteAt.
        rewrite ld_upd_same by lia.
        rewrite Z.land_lor_distr_l, E0. apply Z.lor_0_r.
      * apply nibbleAt_other; lia.
Qed.

Lemma ld_cons {A : Type} (d x : A) (l : list A) (k : Z) :
  0 < k -> ld d (x :: l) k = ld d l (k - 1).
Proof.
  intros Hk. unfold ld.
  destruct (Z.ltb_spec k 0); [lia|]. destruct (Z.ltb_spec (k - 1) 0); [lia|].
  replace (Z.to_nat k) with (S (Z.to_nat (k - 1))) by lia. reflexivity.
Qed.

(** The coefficients in the order [assembleHash] packs them. *)
Definition coefficients (ch : channels) : list Q :=
  lAC ch ++ pAC ch ++ qAC ch ++ (if hasAlpha ch then aAC ch else []).

Section NibbleStream.
Variables F32 F64 : Q -> Q.
Hypothesis HF64 : rounding_laws F64.

Lemma packAC_app (acOff : Z) (a b : list Q) (st : list Z * Z) :
  packAC F32 F64 acOff (a ++ b) st
  = packAC F32 F64 acOff b (packAC F32 F64 acOff a st).
Proof. unfold packAC. apply fold_left_app. Qed.

(** [packAC] appends the nibbles of its coefficients to the stream: it
    advances the position by their number, stores nibble [k] of the list
    at position [nib + k], and leaves the nibbles before and after as they
    were. *)
Lemma packAC_nibbles (acOff : Z) (acs : list Q) (st : list Z * Z) :
  0 <= acOff -> 0 <= snd st -> nibs_clear (fst st) acOff (snd st) ->
  acOff + (snd st + Z.of_nat (length acs) + 1) / 2
    <= Z.of_nat (length (fst st)) ->
  snd (packAC F32 F64 acOff acs st) = snd st + Z.of_nat (length acs) /\
  nibs_clear (fst (packAC F32 F64 acOff acs st)) acOff
             (snd st + Z.of_nat (length acs)) /\
  (forall i, 0 <= i < snd st ->
     nibbleAt (fst (packAC F32 F64 acOff acs st)) acOff i
     = nibbleAt (fst st) acOff i) /\
  (forall k, 0 <= k < Z.of_nat (length acs) ->
     nibbleAt (fst (packAC F32 F64 acOff acs st)) acOff (snd st + k)
     = nibbleOf F32 F64 (ld 0%Q acs k)).
Proof.
  intros Ha. revert st.
  induction acs as [|c acs IH]; intros [hash nib] Hn Hclear Hfit;
    cbn [fst snd length] in *.
  - unfold packAC. cbn [fold_left fst snd].
    rewrite Z.add_0_r. split; [reflexivity|]. split; [exact Hclear|].
    split; [reflexivity|]. intros k Hk. lia.
  - assert (Hb := nibbleOf_range F32 F64 HF64 c).
    assert (Hin : acOff + nib / 2 < Z.of_nat (length hash))
      by (Z.div_mod_to_equations; lia).
    destruct (packAC_store acOff nib (nibbleOf F32 F64 c) hash
                Ha Hn Hb Hin Hclear) as [Hset Hkeep].
    cbv zeta in Hset, Hkeep.
    change (packAC F32 F64 acOff (c :: acs) (hash, nib))
      with (packAC F32 F64 acOff acs
              ((if Z.rem nib 2 =? 0
                then upd (acOff + Z.quot nib 2) (nibbleOf F32 F64 c) hash
                else upd (acOff + Z.quot nib 2)
                       (Z.lor (ld 0 hash (acOff + Z.quot nib 2))
                              (byte (Z.shiftl (nibbleOf F32 F64 c) 4))) hash),
               nib + 1)).
    set (hash' := if Z.rem nib 2 =? 0 then _ else _) in *.
    assert (L' : length hash' = length hash).
    { subst hash'. destruct (Z.rem nib 2 =? 0); apply upd_length. }
    clearbody hash'.
    destruct (IH (hash', nib + 1)) as (I1 & I2 & I3 & I4); cbn [fst snd].
    + lia.
    + intros i Hi. rewrite Hkeep by lia. apply Hclear. lia.
    + rewrite L'. replace (nib + 1 + Z.of_nat (length acs) + 1)
        with (nib + Z.of_nat (S (length acs)) + 1) by lia. exact Hfit.
    + cbn [fst snd] in *.
      replace (nib + Z.of_nat (S (length acs)))
        with (nib + 1 + Z.of_nat (length acs)) by lia.
      split; [exact I1|]. split; [exact I2|]. split.
      * intros i Hi. rewrite I3 by lia. apply Hkeep; lia.
      * intros k Hk. destruct (Z.eq_dec k 0) as [->|Hk0].
        -- rewrite Z.add_0_r, I3 by lia. exact Hset.
        -- rewrite ld_cons by lia.
           replace (nib + k) with (nib + 1 + (k - 1)) by lia.
           apply I4. lia.
Qed.

End NibbleStream.

Lemma ld_app_l {A : Type} (d : A) (l r : list A) (k : Z) :
  0 <= k < Z.of_nat (length l) -> ld d (l ++ r) k = ld d l k.
Proof.
  intros Hk. unfold ld. destruct (Z.ltb_spec k 0); [lia|].
  apply app_nth1. lia.
Qed.

Lemma ld_app_r {A : Type} (d : A) (l r : list A) (k : Z) :
  0 <= k -> ld d (l ++ r) (Z.of_nat (length l) + k) = ld d r k.
Proof.
  intros Hk. unfold ld.
  destruct (Z.ltb_spec (Z.of_nat (length l) + k) 0); [lia|].
  destruct (Z.ltb_spec k 0); [lia|].
  rewrite app_nth2 by lia. f_equal. lia.
Qed.

Lemma map_ld_seq {A B : Type} (g : A -> B) (d : A) (l : list A) :
  map (fun k => g (ld d l k)) (map Z.of_nat (seq 0 (length l))) = map g l.
Proof.
  induction l as [|x l IH]; [reflexivity|].
  cbn [length seq map]. f_equal.
  rewrite <- seq_shift, !map_map. rewrite <- IH, map_map.
  apply map_ext. intros k. rewrite ld_cons by lia. f_equal. f_equal. lia.
Qed.

Section NibblesOfPack.
Variables F32 F64 D64 : Q -> Q.
Hypothesis HF64 : rounding_laws F64.

(** The nibble stream of a hash: the decoder's [readAC] finds at position
    [k] the nibble of the [k]-th coefficient the encoder packed, and a
    clear nibble after the last one. *)
Lemma pack_nibbles (w h : Z) (ch : channels) :
  Z.of_nat (length (coefficients ch)) = totalAC ch ->
  (forall k, 0 <= k < totalAC ch ->
     nibbleAt (pack F32 F64 w h ch) (if hasAlpha ch then 8 else 6) k
     = nibbleOf F32 F64 (ld 0%Q (coefficients ch) k)) /\
  (forall k, totalAC ch <= k ->
     nibbleAt (pack F32 F64 w h ch) (if hasAlpha ch then 8 else 6) k = 0).
Proof.
  intros Hlen.
  assert (Ht : 0 <= totalAC ch) by lia.
  assert (E : exists hash0,
             pack F32 F64 w h ch
             = fst (packAC F32 F64 (if hasAlpha ch then 8 else 6)
                      (coefficients ch) (hash0, 0)) /\
             Z.of_nat (length hash0) = hashLen ch /\
             forall i, (if hasAlpha ch then 8 else 6) <= i -> ld 0 hash0 i = 0).
  { unfold pack, coefficients. cbv zeta.
    assert (L0 : Z.of_nat (length (repeat 0 (Z.to_nat (hashLen ch))))
                 = hashLen ch).
    { rewrite repeat_length. unfold hashLen.
      assert (0 <= Z.quot (totalAC ch + 1) 2) by (apply Z.quot_pos; lia).
      destruct (hasAlpha ch); lia. }
    destruct (hasAlpha ch);
      match goal with
      | |- context [packAC F32 F64 _ (lAC ch) (?h0, 0)] => exists h0
      end;
      (split; [rewrite ?app_nil_r, !packAC_app; reflexivity|]);
      (split; [rewrite !upd_length; exact L0|]);
      intros i Hi; rewrite !ld_upd_other by lia; apply ld_repeat. }
  destruct E as (hash0 & -> & L0 & Z0).
  set (acOff := if hasAlpha ch then 8 else 6) in *.
  assert (Ha : 0 <= acOff) by (subst acOff; destruct (hasAlpha ch); lia).
  assert (C0 : nibs_clear hash0 acOff 0).
  { intros i Hi. unfold nibbleAt, byteAt. cbv zeta.
    rewrite Z0 by (rewrite Z.shiftr_div_pow2 by lia; change (2 ^ 1) with 2;
                   Z.div_mod_to_equations; lia).
    destruct (Z.rem i 2 =? 0); reflexivity. }
  destruct (packAC_nibbles F32 F64 HF64 acOff (coefficients ch) (hash0, 0)
              Ha ltac:(cbn [snd]; lia) C0) as (_ & I2 & _ & I4).
  { cbn [fst snd]. rewrite L0, Hlen, Z.add_0_l. unfold hashLen. fold acOff.
    rewrite Z.quot_div_nonneg by lia. lia. }
  cbn [fst snd] in I2, I4. rewrite Hlen in I2, I4.
  split.
  - intros k Hk. rewrite <- (I4 k Hk). reflexivity.
  - intros k Hk. apply I2. lia.
Qed.

(** What [readAC] returns: the dequantised nibbles from [offset] on. *)
Lemma readAC_nibbles (hash : list Z) (acOffset count offset : Z) :
  0 <= count ->
  fst (readAC D64 hash acOffset count offset)
  = map (fun k => D64 (D64 (D64 (inject_Z (nibbleAt hash acOffset (offset + k))
                                  / 15) * 2) - 1))
        (map Z.of_nat (seq 0 (Z.to_nat count))) /\
  snd (readAC D64 hash acOffset count offset) = offset + count.
Proof.
  intros Hc. unfold readAC.
  apply (forZ_inv (fun k (st : list Q * Z) =>
           fst st = map (fun k => D64 (D64 (D64
                           (inject_Z (nibbleAt hash acOffset (offset + k)) / 15)
                           * 2) - 1))
                        (map Z.of_nat (seq 0 (Z.to_nat k))) /\
           snd st = offset + k)); [exact Hc| |].
  - split; [reflexivity|cbn [snd]; lia].
  - intros k [res off] Hk [E1 E2]. cbn [fst snd] in *. subst off.
    split; [|lia].
    replace (Z.to_nat (k + 1)) with (S (Z.to_nat k)) by lia.
    rewrite seq_S, !map_app, <- E1. cbn [map Nat.add].
    rewrite Z2Nat.id by lia. reflexivity.
Qed.

End NibblesOfPack.

Section CoefficientRoundTrip.
Variables F32 F64 cos64 D64 : Q -> Q.
Hypothesis HF32 : rounding_laws F32.
Hypothesis HF64 : rounding_laws F64.
Hypothesis Hcos : forall x, (-1 <= cos64 x <= 1)%Q.
Hypothesis Hcos0 : forall x, (x == 0)%Q -> (cos64 x == 1)%Q.

(** What the decoder makes of the nibble of a coefficient. *)
Definition dequantized (c : Q) : Q :=
  D64 (D64 (D64 (inject_Z (nibbleOf F32 F64 c) / 15) * 2) - 1).

(** Reading a block of a nibble stream that holds the nibbles of
    [pre ++ blk ++ post], from the position after [pre]. *)
Lemma block_read (hash : list Z) (acOff : Z) (pre blk post : list Q) :
  (forall k, 0 <= k < Z.of_nat (length (pre ++ blk ++ post)) ->
     nibbleAt hash acOff k = nibbleOf F32 F64 (ld 0%Q (pre ++ blk ++ post) k)) ->
  fst (readAC D64 hash acOff (Z.of_nat (length blk)) (Z.of_nat (length pre)))
  = map dequantized blk.
Proof.
  intros Hn.
  destruct (readAC_nibbles D64 hash acOff (Z.of_nat (length blk))
              (Z.of_nat (length pre)) ltac:(lia)) as [E _].
  rewrite E, Nat2Z.id. clear E.
  rewrite <- (map_ld_seq dequantized 0%Q blk), !map_map.
  apply map_ext_in. intros n Hin. apply in_seq in Hin. unfold dequantized.
  rewrite Hn by (rewrite !length_app; lia).
  rewrite ld_app_r by lia. rewrite ld_app_l by lia. reflexivity.
Qed.

(** The facts about a packed proxy that tie the two sides together. *)
Lemma transform_pack_facts (w h : Z) (wb : workBuf) :
  1 <= w <= 100 -> 1 <= h <= 100 -> workBuf_sized wb ->
  (forall j, 0 <= j < w * h * 4 -> (0 <= ld 0%Q (rgba wb) j <= 1)%Q) ->
  let ch := fst (transform F32 F64 cos64 w h wb) in
  let f := parse D64 (pack F32 F64 w h ch) in
  (Z.of_nat (length (lAC ch)) = lx ch * ly ch - 1 /\
   Z.of_nat (length (pAC ch)) = px ch * py ch - 1 /\
   Z.of_nat (length (qAC ch)) = px ch * py ch - 1 /\
   Z.of_nat (length (aAC ch)) = if hasAlpha ch then ax ch * ay ch - 1 else 0) /\
  f_hasAlpha f = hasAlpha ch /\ f_lx f = lx ch /\ f_ly f = ly ch /\
  (hasAlpha ch = true -> ax ch = lx ch /\ ay ch = ly ch) /\
  (w = h -> px ch = 3 /\ py ch = 3).
Proof.
  intros Hw Hh Hs Hproxy. cbv zeta.
  assert (B := transform_basis F32 F64 cos64 w h wb).
  assert (Fit := transform_fields_fit F32 F64 cos64 HF32 HF64 Hcos Hcos0
                   w h wb Hw Hh Hs Hproxy).
  assert (Len := transform_lengths F32 F64 cos64 HF32 w h wb Hw Hh Hs).
  cbv zeta in Len.
  set (ch := fst (transform F32 F64 cos64 w h wb)) in *. clearbody ch.
  assert (Hlen : 6 <= hashLen ch).
  { destruct (hashLen_bounds F32 HF32 w h ch Hw Hh B) as [Hb1 Hb2].
    destruct (hasAlpha ch); [specialize (Hb2 eq_refl)|specialize (Hb1 eq_refl)];
      lia. }
  destruct (parse_pack F32 F64 D64 w h ch Fit Hlen) as (EA & _ & _).
  destruct (parse_pack_basis F32 F64 D64 HF32 w h ch Hw Hh B Fit Hlen)
    as (Ex & Ey).
  split; [exact Len|]. split; [exact EA|]. split; [exact Ex|]. split; [exact Ey|].
  split.
  - intros HA. destruct (alpha_basis F32 HF32 w h ch Hw Hh B HA) as (A1 & A2 & _).
    split; assumption.
  - intros E. subst h. destruct B as (_ & _ & Epx & Epy & _).
    rewrite Epx, Epy. unfold imax. destruct (w >? w);
      rewrite (basisDim_full F32 HF32) by lia; split; reflexivity.
Qed.

(** The luma coefficients come back as packed, nibble by nibble, on
    every proxy; on a square proxy so do the P, Q and alpha
    coefficients. *)
Theorem coefficients_round_trip (w h : Z) (wb : workBuf) :
  1 <= w <= 100 -> 1 <= h <= 100 -> workBuf_sized wb ->
  (forall j, 0 <= j < w * h * 4 -> (0 <= ld 0%Q (rgba wb) j <= 1)%Q) ->
  let ch := fst (transform F32 F64 cos64 w h wb) in
  let hash := fst (assembleHash F32 F64 cos64 w h wb) in
  let acs := readAll D64 hash (parse D64 hash) in
  fst (fst (fst acs)) = map dequantized (lAC ch) /\
  (w = h ->
     snd (fst (fst acs)) = map dequantized (pAC ch) /\
     snd (fst acs) = map dequantized (qAC ch) /\
     snd acs = map dequantized (if hasAlpha ch then aAC ch else [])).
Proof.
  intros Hw Hh Hs Hproxy. cbv zeta.
  destruct (transform_pack_facts w h wb Hw Hh Hs Hproxy)
    as (Len & EA & Ex & Ey & Al & Sq).
  cbv zeta in Len, EA, Ex, Ey, Al, Sq.
  rewrite assembleHash_fst.
  set (ch := fst (transform F32 F64 cos64 w h wb)) in *. clearbody ch.
  destruct Len as (Ll & Lp & Lq & La).
  assert (Lc : Z.of_nat (length (coefficients ch)) = totalAC ch).
  { unfold coefficients, totalAC. rewrite !length_app.
    revert La. destruct (hasAlpha ch); intros La; cbn [length]; lia. }
  destruct (pack_nibbles F32 F64 HF64 w h ch Lc) as [PN _].
  rewrite <- Lc in PN. unfold coefficients in PN.
  set (hash := pack F32 F64 w h ch) in *. clearbody hash.
  unfold readAll.
  assert (Eo : f_acOffset (parse D64 hash)
               = if f_hasAlpha (parse D64 hash) then 8 else 6) by reflexivity.
  rewrite Eo, Ex, Ey, EA. clear Eo.
  set (acOff := if hasAlpha ch then 8 else 6) in *. clearbody acOff.
  rewrite <- Ll.
  assert (R1 := block_read hash acOff [] (lAC ch)
                  (pAC ch ++ qAC ch ++ (if hasAlpha ch then aAC ch else []))
                  PN).
  assert (O1 := proj2 (readAC_nibbles D64 hash acOff (Z.of_nat (length (lAC ch)))
                         0 ltac:(lia))).
  change (Z.of_nat (length (@nil Q))) with 0 in R1.
  destruct (readAC D64 hash acOff (Z.of_nat (length (lAC ch))) 0) as [l o1].
  cbn [fst snd] in R1, O1. subst o1.
  assert (O2 := proj2 (readAC_nibbles D64 hash acOff (3 * 3 - 1)
                         (0 + Z.of_nat (length (lAC ch))) ltac:(lia))).
  assert (R2 : w = h ->
               fst (readAC D64 hash acOff (3 * 3 - 1)
                      (0 + Z.of_nat (length (lAC ch))))
               = map dequantized (pAC ch)).
  { intros E. destruct (Sq E) as [S1 S2]. rewrite S1, S2 in Lp.
    replace (3 * 3 - 1) with (Z.of_nat (length (pAC ch))) by lia.
    rewrite Z.add_0_l. apply (block_read hash acOff (lAC ch) (pAC ch)
             (qAC ch ++ (if hasAlpha ch then aAC ch else []))).
    exact PN. }
  destruct (readAC D64 hash acOff (3 * 3 - 1) (0 + Z.of_nat (length (lAC ch))))
    as [p o2].
  cbn [fst snd] in R2, O2. subst o2.
  assert (O3 := proj2 (readAC_nibbles D64 hash acOff (3 * 3 - 1)
                         (0 + Z.of_nat (length (lAC ch)) + (3 * 3 - 1))
                         ltac:(lia))).
  assert (R3 : w = h ->
               fst (readAC D64 hash acOff (3 * 3 - 1)
                      (0 + Z.of_nat (length (lAC ch)) + (3 * 3 - 1)))
               = map dequantized (qAC ch)).
  { intros E. destruct (Sq E) as [S1 S2]. rewrite S1, S2 in Lp, Lq.
    replace (3 * 3 - 1) with (Z.of_nat (length (qAC ch))) at 1 by lia.
    replace (0 + Z.of_nat (length (lAC ch)) + (3 * 3 - 1))
      with (Z.of_nat (length (lAC ch ++ pAC ch)))
      by (rewrite length_app; lia).
    apply (block_read hash acOff (lAC ch ++ pAC ch) (qAC ch)
             (if hasAlpha ch then aAC ch else [])).
    rewrite <- !app_assoc. exact PN. }
  destruct (readAC D64 hash acOff (3 * 3 - 1)
              (0 + Z.of_nat (length (lAC ch)) + (3 * 3 - 1))) as [q o3].
  cbn [fst snd] in R3, O3. subst o3.
  cbn [fst snd]. split; [exact R1|].
  intros E. split; [exact (R2 E)|]. split; [exact (R3 E)|].
  destruct (Sq E) as [S1 S2]. rewrite S1, S2 in Lp, Lq.
  destruct (hasAlpha ch) eqn:HA; [|reflexivity].
  destruct (Al eq_refl) as [A1 A2]. rewrite A1, A2 in La.
  replace (Z.of_nat (length (lAC ch))) with (Z.of_nat (length (aAC ch))) at 1
    by lia.
  replace (0 + Z.of_nat (length (lAC ch)) + (3 * 3 - 1) + (3 * 3 - 1))
    with (Z.of_nat (length (lAC ch ++ pAC ch ++ qAC ch)))
    by (rewrite !length_app; lia).
  apply (block_read hash acOff (lAC ch ++ pAC ch ++ qAC ch) (aAC ch) []).
  rewrite app_nil_r, <- !app_assoc. exact PN.
Qed.

End CoefficientRoundTrip.

(** ** The header fields, written and read *)

Lemma halfword_of_bytes (v : Z) :
  0 <= v < 2 ^ 16 -> Z.lor (byte v) (Z.shiftl (byte (Z.shiftr v 8)) 8) = v.
Proof.
  intros H. unfold byte. rewrite Z.shiftr_div_pow2 by lia.
  change (2 ^ 8) with 256. change (2 ^ 16) with 65536 in H.
  assert (B0 := Z.mod_pos_bound v 256 ltac:(lia)).
  assert (B1 := Z.mod_pos_bound (v / 256) 256 ltac:(lia)).
  rewrite lor_shiftl_add by (change (2 ^ 8) with 256; lia).
  change (2 ^ 8) with 256. Z.div_mod_to_equations. lia.
Qed.

Section HeaderFields.
Variables F32 F64 D64 : Q -> Q.

Ltac peel_stream :=
  repeat (rewrite packAC_below;
          [|repeat apply packAC_nib; cbn [snd]; lia|lia]).

(** Bytes 4 to 7 of the hash are the bytes of the second header and of
    the alpha header. *)
Lemma pack_header2_bytes (w h : Z) (ch : channels) :
  0 <= totalAC ch ->
  header2Word (pack F32 F64 w h ch)
  = Z.lor (byte (header2 F64 ch)) (Z.shiftl (byte (Z.shiftr (header2 F64 ch) 8)) 8) /\
  (hasAlpha ch = true ->
   alphaWord (pack F32 F64 w h ch)
   = Z.lor (byte (alphaHdr F64 ch))
           (Z.shiftl (byte (Z.shiftr (alphaHdr F64 ch) 8)) 8)).
Proof.
  intros Ht. unfold header2Word, alphaWord, pack, byteAt. cbv zeta.
  set (hd := header F64 w h ch). set (hd2 := header2 F64 ch).
  set (ahd := alphaHdr F64 ch).
  set (h0 := repeat 0 (Z.to_nat (hashLen ch))).
  assert (L0 : Z.of_nat (length h0) = hashLen ch).
  { subst h0. rewrite repeat_length. unfold hashLen.
    assert (0 <= Z.quot (totalAC ch + 1) 2) by (apply Z.quot_pos; lia).
    destruct (hasAlpha ch); lia. }
  assert (Hq : 0 <= Z.quot (totalAC ch + 1) 2) by (apply Z.quot_pos; lia).
  unfold hashLen in L0.
  clearbody h0 hd hd2 ahd.
  destruct (hasAlpha ch); peel_stream; cbn [fst].
  - split; [|intros _].
    + rewrite !(ld_upd_other 0 7), !(ld_upd_other 0 6) by lia.
      rewrite (ld_upd_other 0 5 4) by lia.
      rewrite !ld_upd_same by (rewrite ?upd_length; lia). reflexivity.
    + rewrite (ld_upd_other 0 7 6) by lia.
      rewrite !ld_upd_same by (rewrite ?upd_length; lia). reflexivity.
  - split; [|intros C; discriminate].
    rewrite (ld_upd_other 0 5 4) by lia.
    rewrite !ld_upd_same by (rewrite ?upd_length; lia). reflexivity.
Qed.

(** The decoder finds in the header the quantized values the encoder
    stored: the integer fields of the three header words. *)
Lemma parse_pack_fields (w h : Z) (ch : channels) :
  fields_fit F32 F64 w h ch -> 0 <= totalAC ch ->
  let hash := pack F32 F64 w h ch in
  Z.land (headerWord hash) 63 = quantDC63 F64 (lDC ch) /\
  Z.land (Z.shiftr (headerWord hash) 6) 63 = quantDC31 F64 (pDC ch) /\
  Z.land (Z.shiftr (headerWord hash) 12) 63 = quantDC31 F64 (qDC ch) /\
  Z.land (Z.shiftr (headerWord hash) 18) 31 = quantScale31 F64 (lScale ch) /\
  Z.land (header2Word hash) 63 = quantScale63 F64 (pScale ch) /\
  Z.land (Z.shiftr (header2Word hash) 6) 63 = quantScale63 F64 (qScale ch) /\
  (hasAlpha ch = true ->
   Z.land (alphaWord hash) 15 = quant15 F64 (aDC ch) /\
   Z.land (Z.shiftr (alphaWord hash) 4) 15 = quant15 F64 (aScale ch)).
Proof.
  intros Hfit Ht. cbv zeta.
  assert (Hlen : 6 <= hashLen ch).
  { unfold hashLen.
    assert (0 <= Z.quot (totalAC ch + 1) 2) by (apply Z.quot_pos; lia).
    destruct (hasAlpha ch); lia. }
  destruct (pack_header_bytes F32 F64 w h ch Hlen) as (B0 & B1 & B2 & B3).
  destruct (pack_header2_bytes w h ch Ht) as (W2 & WA).
  assert (S := header_sum F32 F64 w h ch Hfit).
  destruct Hfit as (H1 & H2 & H3 & H4 & H5 & H6 & H7 & H8 & H9 & _).
  unfold headerWord. rewrite B0, B1, B2, B3, W2. clear B0 B1 B2 B3 W2.
  assert (S2 : header2 F64 ch
               = quantScale63 F64 (pScale ch) + quantScale63 F64 (qScale ch) * 2 ^ 6).
  { unfold header2. rewrite uint16_small.
    - apply lor_shiftl_add; [lia|change (2 ^ 6) with 64; lia|lia].
    - rewrite Z.shiftl_mul_pow2 by lia. change (2 ^ 6) with 64.
      change (2 ^ 16) with 65536. lia. }
  assert (SA : hasAlpha ch = true ->
               alphaHdr F64 ch
               = quant15 F64 (aDC ch) + quant15 F64 (aScale ch) * 2 ^ 4).
  { intros HA. unfold alphaHdr. rewrite HA. rewrite uint16_small.
    - apply lor_shiftl_add; [lia|change (2 ^ 4) with 16; lia|lia].
    - rewrite Z.shiftl_mul_pow2 by lia. change (2 ^ 4) with 16.
      change (2 ^ 16) with 65536. lia. }
  set (a := quantDC63 F64 (lDC ch)) in *.
  set (b := quantDC31 F64 (pDC ch)) in *.
  set (c := quantDC31 F64 (qDC ch)) in *.
  set (d := quantScale31 F64 (lScale ch)) in *.
  set (f := dimFlag w h ch) in *.
  set (p := quantScale63 F64 (pScale ch)) in *.
  set (q := quantScale63 F64 (qScale ch)) in *.
  set (u := quant15 F64 (aDC ch)) in *.
  set (v := quant15 F64 (aScale ch)) in *.
  assert (He : 0 <= boolU32 (hasAlpha ch) <= 1)
    by (destruct (hasAlpha ch); cbn; lia).
  assert (Hg : 0 <= boolU32 (isLandscape w h) <= 1)
    by (destruct (isLandscape w h); cbn; lia).
  set (e := boolU32 (hasAlpha ch)) in *.
  set (g := boolU32 (isLandscape w h)) in *.
  set (hd := header F64 w h ch) in *.
  set (hd2 := header2 F64 ch) in *.
  set (ahd := alphaHdr F64 ch) in *.
  change (2 ^ 6) with 64 in S, S2. change (2 ^ 12) with 4096 in S.
  change (2 ^ 18) with 262144 in S. change (2 ^ 23) with 8388608 in S.
  change (2 ^ 24) with 16777216 in S. change (2 ^ 28) with 268435456 in S.
  change (2 ^ 4) with 16 in SA.
  clearbody a b c d e f g p q u v hd hd2 ahd.
  rewrite word_of_bytes by (change (2 ^ 31) with 2147483648; lia).
  rewrite halfword_of_bytes by (change (2 ^ 16) with 65536; lia).
  rewrite !Z.shiftr_div_pow2 by lia.
  change 63 with (Z.ones 6). change 31 with (Z.ones 5).
  rewrite !Z.land_ones by lia.
  change (2 ^ 6) with 64. change (2 ^ 5) with 32. change (2 ^ 12) with 4096.
  change (2 ^ 18) with 262144.
  split; [Z.div_mod_to_equations; lia|].
  split; [Z.div_mod_to_equations; lia|].
  split; [Z.div_mod_to_equations; lia|].
  split; [Z.div_mod_to_equations; lia|].
  split; [Z.div_mod_to_equations; lia|].
  split; [Z.div_mod_to_equations; lia|].
  intros HA. rewrite (WA HA). specialize (SA HA).
  rewrite halfword_of_bytes by (change (2 ^ 16) with 65536; lia).
  change 15 with (Z.ones 4). rewrite !Z.land_ones by lia.
  change (2 ^ 4) with 16.
  split; Z.div_mod_to_equations; lia.
Qed.

End HeaderFields.

Section HeaderRoundTripOfProxy.
Variables F32 F64 cos64 D64 : Q -> Q.
Hypothesis HF32 : rounding_laws F32.
Hypothesis HF64 : rounding_laws F64.
Hypothesis Hcos : forall x, (-1 <= cos64 x <= 1)%Q.
Hypothesis Hcos0 : forall x, (x == 0)%Q -> (cos64 x == 1)%Q.

(** Every field of the header comes back as the encoder quantized it:
    the decoder's DCs and scales are the stored integers over their
    ranges, its flags and its luma basis are the encoder's, and without
    alpha it takes the alpha DC as 1 and the alpha scale as 0. *)
Theorem header_round_trip (w h : Z) (wb : workBuf) :
  1 <= w <= 100 -> 1 <= h <= 100 -> workBuf_sized wb ->
  (forall j, 0 <= j < w * h * 4 -> (0 <= ld 0%Q (rgba wb) j <= 1)%Q) ->
  let ch := fst (transform F32 F64 cos64 w h wb) in
  let f := parse D64 (fst (assembleHash F32 F64 cos64 w h wb)) in
  f_lDC f = D64 (inject_Z (quantDC63 F64 (lDC ch)) / 63) /\
  f_pDC f = D64 (D64 (inject_Z (quantDC31 F64 (pDC ch)) / 31) - 1) /\
  f_qDC f = D64 (D64 (inject_Z (quantDC31 F64 (qDC ch)) / 31) - 1) /\
  f_lScale f = D64 (inject_Z (quantScale31 F64 (lScale ch)) / 31) /\
  f_pScale f = D64 (inject_Z (quantScale63 F64 (pScale ch)) / 63) /\
  f_qScale f = D64 (inject_Z (quantScale63 F64 (qScale ch)) / 63) /\
  f_aDC f = (if hasAlpha ch
             then D64 (inject_Z (quant15 F64 (aDC ch)) / 15) else 1%Q) /\
  f_aScale f = (if hasAlpha ch
                then D64 (inject_Z (quant15 F64 (aScale ch)) / 15) else 0%Q) /\
  f_hasAlpha f = hasAlpha ch /\
  f_isLandscape f = isLandscape w h /\
  f_lx f = lx ch /\ f_ly f = ly ch /\
  f_acOffset f = (if hasAlpha ch then 8 else 6).
Proof.
  intros Hw Hh Hs Hproxy. cbv zeta. rewrite assembleHash_fst.
  assert (B := transform_basis F32 F64 cos64 w h wb).
  assert (Fit := transform_fields_fit F32 F64 cos64 HF32 HF64 Hcos Hcos0
                   w h wb Hw Hh Hs Hproxy).
  assert (Len := transform_lengths F32 F64 cos64 HF32 w h wb Hw Hh Hs).
  cbv zeta in Len.
  set (ch := fst (transform F32 F64 cos64 w h wb)) in *. clearbody ch.
  assert (Ht : 0 <= totalAC ch).
  { unfold totalAC. destruct Len as (Ll & Lp & Lq & La).
    revert La. destruct (hasAlpha ch); intros La; lia. }
  assert (Hlen : 6 <= hashLen ch).
  { unfold hashLen.
    assert (0 <= Z.quot (totalAC ch + 1) 2) by (apply Z.quot_pos; lia).
    destruct (hasAlpha ch); lia. }
  destruct (parse_pack F32 F64 D64 w h ch Fit Hlen) as (EA & EL & _).
  destruct (parse_pack_basis F32 F64 D64 HF32 w h ch Hw Hh B Fit Hlen)
    as (Ex & Ey).
  destruct (parse_pack_fields F32 F64 w h ch Fit Ht)
    as (P1 & P2 & P3 & P4 & P5 & P6 & PA).
  cbv zeta in P1, P2, P3, P4, P5, P6, PA.
  set (hash := pack F32 F64 w h ch) in *.
  assert (U : f_lDC (parse D64 hash)
              = D64 (inject_Z (Z.land (headerWord hash) 63) / 63) /\
              f_pDC (parse D64 hash)
              = D64 (D64 (inject_Z (Z.land (Z.shiftr (headerWord hash) 6) 63) / 31)
                     - 1) /\
              f_qDC (parse D64 hash)
              = D64 (D64 (inject_Z (Z.land (Z.shiftr (headerWord hash) 12) 63) / 31)
                     - 1) /\
              f_lScale (parse D64 hash)
              = D64 (inject_Z (Z.land (Z.shiftr (headerWord hash) 18) 31) / 31) /\
              f_pScale (parse D64 hash)
              = D64 (inject_Z (Z.land (header2Word hash) 63) / 63) /\
              f_qScale (parse D64 hash)
              = D64 (inject_Z (Z.land (Z.shiftr (header2Word hash) 6) 63) / 63) /\
              f_aDC (parse D64 hash)
              = (if f_hasAlpha (parse D64 hash)
                 then D64 (inject_Z (Z.land (alphaWord hash) 15) / 15) else 1%Q) /\
              f_aScale (parse D64 hash)
              = (if f_hasAlpha (parse D64 hash)
                 then D64 (inject_Z (Z.land (Z.shiftr (alphaWord hash) 4) 15) / 15)
                 else 0%Q) /\
              f_acOffset (parse D64 hash)
              = (if f_hasAlpha (parse D64 hash) then 8 else 6))
    by (repeat split; reflexivity).
  clearbody hash.
  destruct U as (U1 & U2 & U3 & U4 & U5 & U6 & U7 & U8 & U9).
  rewrite U1, U2, U3, U4, U5, U6, U7, U8, U9, EA, P1, P2, P3, P4, P5, P6.
  split; [reflexivity|]. split; [reflexivity|]. split; [reflexivity|].
  split; [reflexivity|]. split; [reflexivity|]. split; [reflexivity|].
  split; [destruct (hasAlpha ch); [rewrite (proj1 (PA eq_refl))|]; reflexivity|].
  split; [destruct (hasAlpha ch); [rewrite (proj2 (PA eq_refl))|]; reflexivity|].
  split; [reflexivity|]. split; [exact EL|]. split; [exact Ex|].
  split; [exact Ey|reflexivity].
Qed.

End HeaderRoundTripOfProxy.

Lemma coefficients_round_trip_witness :
  fst (fst (fst (readAll exact
                   (fst (assembleHash exact exact cosine_unit 2 1
                           (proxyBuf opaquePair)))
                   (parse exact
                      (fst (assembleHash exact exact cosine_unit 2 1
                              (proxyBuf opaquePair)))))))
  = map (dequantized exact exact exact)
        (lAC (fst (transform exact exact cosine_unit 2 1 (proxyBuf opaquePair)))).
Proof.
  assert (W := coefficients_round_trip exact exact cosine_unit exact
                 exact_laws exact_laws cosine_unit_range cosine_unit_zero
                 2 1 (proxyBuf opaquePair)
                 ltac:(lia) ltac:(lia)
                 (proxyBuf_sized opaquePair ltac:(cbn; lia))
                 (fun j => pair_in_unit opaquePair j (or_introl eq_refl))).
  exact (proj1 W).
Defined.

Lemma header_round_trip_witness :
  f_lDC (parse exact (fst (assembleHash exact exact cosine_unit 2 1
                             (proxyBuf translucentPair))))
  = exact (inject_Z (quantDC63 exact
                       (lDC (fst (transform exact exact cosine_unit 2 1
                                    (proxyBuf translucentPair))))) / 63).
Proof.
  assert (W := header_round_trip exact exact cosine_unit exact
                 exact_laws exact_laws cosine_unit_range cosine_unit_zero
                 2 1 (proxyBuf translucentPair)
                 ltac:(lia) ltac:(lia)
                 (proxyBuf_sized translucentPair ltac:(cbn; lia))
                 (fun j => pair_in_unit translucentPair j (or_intror eq_refl))).
  exact (proj1 W).
Defined.

(** ** The bitmap file *)

Import Bmp.

Lemma storeLE_S (n : nat) (off v : Z) (buf : list Z) :
  storeLE (S n) off v buf
  = upd (off + Z.of_nat n) ((v / 2 ^ (8 * Z.of_nat n)) mod 256)
        (storeLE n off v buf).
Proof.
  unfold storeLE. rewrite seq_S, fold_left_app. reflexivity.
Qed.

Lemma storeLE_length (n : nat) (off v : Z) (buf : list Z) :
  length (storeLE n off v buf) = length buf.
Proof.
  induction n as [|n IH]; [reflexivity|].
  rewrite storeLE_S, upd_length. exact IH.
Qed.

(** A byte of a buffer after a little-endian store. *)
Lemma ld_storeLE (n : nat) (off v : Z) (buf : list Z) (j : Z) :
  0 <= off -> off + Z.of_nat n <= Z.of_nat (length buf) ->
  ld 0 (storeLE n off v buf) j
  = if (off <=? j) && (j <? off + Z.of_nat n)
    then (v / 2 ^ (8 * (j - off))) mod 256
    else ld 0 buf j.
Proof.
  intros Ho. induction n as [|n IH]; intros Hn.
  - cbn [storeLE seq fold_left Z.of_nat].
    destruct (Z.leb_spec off j); destruct (Z.ltb_spec j (off + 0));
      cbn [andb]; try reflexivity; lia.
  - rewrite storeLE_S.
    destruct (Z.eq_dec j (off + Z.of_nat n)) as [->|Hne].
    + rewrite ld_upd_same by (rewrite storeLE_length; lia).
      destruct (Z.leb_spec off (off + Z.of_nat n)); [|lia].
      destruct (Z.ltb_spec (off + Z.of_nat n) (off + Z.of_nat (S n))); [|lia].
      cbn [andb]. do 3 f_equal. lia.
    + rewrite ld_upd_other by lia. rewrite IH by lia.
      destruct (Z.leb_spec off j); destruct (Z.ltb_spec j (off + Z.of_nat n));
        destruct (Z.ltb_spec j (off + Z.of_nat (S n)));
        cbn [andb]; try reflexivity; lia.
Qed.

(** What [getUint32(off, true)] reads after [setUint32(off, v, true)]. *)
Lemma loadLE4_storeLE (off v : Z) (buf : list Z) :
  0 <= off -> off + 4 <= Z.of_nat (length buf) ->
  loadLE 4 off (storeLE 4 off v buf) = v mod 2 ^ 32.
Proof.
  intros Ho Hn. unfold loadLE. cbn [seq fold_right Z.of_nat Pos.of_succ_nat Pos.succ].
  rewrite !ld_storeLE by (cbn [Z.of_nat Pos.of_succ_nat Pos.succ]; lia).
  cbn [Z.of_nat Pos.of_succ_nat Pos.succ].
  repeat match goal with
  | |- context [(off <=? ?j) && (?j <? ?k)] =>
      replace ((off <=? j) && (j <? k)) with true
        by (symmetry; apply andb_true_intro; split;
            [apply Z.leb_le|apply Z.ltb_lt]; lia)
  end.
  replace (off + 0 - off) with 0 by lia. replace (off + 1 - off) with 1 by lia.
  replace (off + 2 - off) with 2 by lia. replace (off + 3 - off) with 3 by lia.
  change (2 ^ (8 * 0)) with 1. change (2 ^ (8 * 1)) with 256.
  change (2 ^ (8 * 2)) with 65536. change (2 ^ (8 * 3)) with 16777216.
  change (2 ^ 32) with 4294967296.
  Z.div_mod_to_equations. lia.
Qed.

Lemma loadLE2_storeLE (off v : Z) (buf : list Z) :
  0 <= off -> off + 2 <= Z.of_nat (length buf) ->
  loadLE 2 off (storeLE 2 off v buf) = v mod 2 ^ 16.
Proof.
  intros Ho Hn. unfold loadLE. cbn [seq fold_right Z.of_nat Pos.of_succ_nat Pos.succ].
  rewrite !ld_storeLE by (cbn [Z.of_nat Pos.of_succ_nat Pos.succ]; lia).
  cbn [Z.of_nat Pos.of_succ_nat Pos.succ].
  repeat match goal with
  | |- context [(off <=? ?j) && (?j <? ?k)] =>
      replace ((off <=? j) && (j <? k)) with true
        by (symmetry; apply andb_true_intro; split;
            [apply Z.leb_le|apply Z.ltb_lt]; lia)
  end.
  replace (off + 0 - off) with 0 by lia. replace (off + 1 - off) with 1 by lia.
  change (2 ^ (8 * 0)) with 1. change (2 ^ (8 * 1)) with 256.
  change (2 ^ 16) with 65536.
  Z.div_mod_to_equations. lia.
Qed.

(** A field keeps its value under stores elsewhere. *)
Lemma loadLE_storeLE_other (n m : nat) (off off' v : Z) (buf : list Z) :
  0 <= off' -> off' + Z.of_nat m <= Z.of_nat (length buf) ->
  off + Z.of_nat n <= off' \/ off' + Z.of_nat m <= off ->
  loadLE n off (storeLE m off' v buf) = loadLE n off buf.
Proof.
  intros Ho Hm Hd. unfold loadLE.
  assert (G : forall l, (forall k, In k l -> (k < n)%nat) ->
            fold_right (fun k acc =>
                          ld 0 (storeLE m off' v buf) (off + Z.of_nat k) + 256 * acc)
                       0 l
            = fold_right (fun k acc => ld 0 buf (off + Z.of_nat k) + 256 * acc)
                         0 l).
  { induction l as [|k l IH]; intros Hl; [reflexivity|].
    cbn [fold_right]. rewrite IH by (intros k' Hk'; apply Hl; right; exact Hk').
    rewrite ld_storeLE by lia.
    assert (Hk : (k < n)%nat) by (apply Hl; left; reflexivity).
    destruct (Z.leb_spec off' (off + Z.of_nat k));
      destruct (Z.ltb_spec (off + Z.of_nat k) (off' + Z.of_nat m));
      cbn [andb]; try reflexivity; lia. }
  apply G. intros k Hk. apply in_seq in Hk. lia.
Qed.

Lemma loadLE_upd_other (n : nat) (off i v : Z) (buf : list Z) :
  i < off \/ off + Z.of_nat n <= i ->
  loadLE n off (upd i v buf) = loadLE n off buf.
Proof.
  intros Hd. unfold loadLE.
  assert (G : forall l, (forall k, In k l -> (k < n)%nat) ->
            fold_right (fun k acc => ld 0 (upd i v buf) (off + Z.of_nat k) + 256 * acc)
                       0 l
            = fold_right (fun k acc => ld 0 buf (off + Z.of_nat k) + 256 * acc)
                         0 l).
  { induction l as [|k l IH]; intros Hl; [reflexivity|].
    cbn [fold_right]. rewrite IH by (intros k' Hk'; apply Hl; right; exact Hk').
    assert (Hk : (k < n)%nat) by (apply Hl; left; reflexivity).
    rewrite ld_upd_other by lia. reflexivity. }
  apply G. intros k Hk. apply in_seq in Hk. lia.
Qed.

Lemma ld_storeLE_other (n : nat) (off v : Z) (buf : list Z) (j : Z) :
  j < off \/ off + Z.of_nat n <= j ->
  ld 0 (storeLE n off v buf) j = ld 0 buf j.
Proof.
  induction n as [|n IH]; intros Hj; [reflexivity|].
  rewrite storeLE_S, ld_upd_other by lia. apply IH. lia.
Qed.

Lemma loadLE_ext (n : nat) (off : Z) (b1 b2 : list Z) :
  (forall j, off <= j < off + Z.of_nat n -> ld 0 b1 j = ld 0 b2 j) ->
  loadLE n off b1 = loadLE n off b2.
Proof.
  intros H. unfold loadLE.
  assert (G : forall l, (forall k, In k l -> (k < n)%nat) ->
            fold_right (fun k acc => ld 0 b1 (off + Z.of_nat k) + 256 * acc) 0 l
            = fold_right (fun k acc => ld 0 b2 (off + Z.of_nat k) + 256 * acc) 0 l).
  { induction l as [|k l IH]; intros Hl; [reflexivity|].
    cbn [fold_right]. rewrite IH by (intros k' Hk'; apply Hl; right; exact Hk').
    assert (Hk : (k < n)%nat) by (apply Hl; left; reflexivity).
    rewrite H by lia. reflexivity. }
  apply G. intros k Hk. apply in_seq in Hk. lia.
Qed.

(** The pixel loop of [rgbaToBmpDataURL]: it keeps the length and the
    122 header bytes, and stores pixel [i] as B, G, R, A. *)
Lemma bmp_pixel_loop (n : Z) (rgba bmp0 : list Z) :
  0 <= n -> Z.of_nat (length bmp0) = 122 + n * 4 ->
  let bmp :=
    forZ n (fun i bmp =>
      upd (122 + i * 4 + 3) (ld 0 rgba (i * 4 + 3))
        (upd (122 + i * 4 + 2) (ld 0 rgba (i * 4))
           (upd (122 + i * 4 + 1) (ld 0 rgba (i * 4 + 1))
              (upd (122 + i * 4) (ld 0 rgba (i * 4 + 2)) bmp)))) bmp0 in
  length bmp = length bmp0 /\
  (forall j, j < 122 -> ld 0 bmp j = ld 0 bmp0 j) /\
  (forall i, 0 <= i < n ->
     ld 0 bmp (122 + i * 4) = ld 0 rgba (i * 4 + 2) /\
     ld 0 bmp (122 + i * 4 + 1) = ld 0 rgba (i * 4 + 1) /\
     ld 0 bmp (122 + i * 4 + 2) = ld 0 rgba (i * 4) /\
     ld 0 bmp (122 + i * 4 + 3) = ld 0 rgba (i * 4 + 3)).
Proof.
  intros Hn L0. cbv zeta.
  apply (forZ_inv (fun k b =>
           length b = length bmp0 /\
           (forall j, j < 122 -> ld 0 b j = ld 0 bmp0 j) /\
           (forall i, 0 <= i < k ->
              ld 0 b (122 + i * 4) = ld 0 rgba (i * 4 + 2) /\
              ld 0 b (122 + i * 4 + 1) = ld 0 rgba (i * 4 + 1) /\
              ld 0 b (122 + i * 4 + 2) = ld 0 rgba (i * 4) /\
              ld 0 b (122 + i * 4 + 3) = ld 0 rgba (i * 4 + 3))));
    [exact Hn| |].
  - split; [reflexivity|]. split; [reflexivity|]. intros i Hi. lia.
  - intros k b Hk (Lb & Hh & Hp).
    split; [rewrite !upd_length; exact Lb|].
    split.
    + intros j Hj. rewrite !ld_upd_other by lia. apply Hh. exact Hj.
    + intros i Hi. destruct (Z.eq_dec i k) as [->|Hne].
      * rewrite (ld_upd_other 0 (122 + k * 4 + 3) (122 + k * 4)) by lia.
        rewrite (ld_upd_other 0 (122 + k * 4 + 2) (122 + k * 4)) by lia.
        rewrite (ld_upd_other 0 (122 + k * 4 + 1) (122 + k * 4)) by lia.
        rewrite (ld_upd_other 0 (122 + k * 4 + 3) (122 + k * 4 + 1)) by lia.
        rewrite (ld_upd_other 0 (122 + k * 4 + 2) (122 + k * 4 + 1)) by lia.
        rewrite (ld_upd_other 0 (122 + k * 4 + 3) (122 + k * 4 + 2)) by lia.
        rewrite !ld_upd_same by (rewrite ?upd_length; lia).
        repeat split; reflexivity.
      * rewrite !ld_upd_other by lia. apply Hp. lia.
Qed.

Ltac bmp_len :=
  rewrite ?storeLE_length, ?upd_length, ?repeat_length; lia.

Ltac bmp_field Lh :=
  match goal with
  | |- loadLE ?n ?off ?bmp = _ =>
      rewrite (loadLE_ext n off bmp _ (fun j Hj => Lh j ltac:(lia)))
  end;
  repeat (rewrite loadLE_storeLE_other by first [lia | bmp_len]);
  first [rewrite loadLE4_storeLE by first [lia | bmp_len]
        |rewrite loadLE2_storeLE by first [lia | bmp_len]].

(** The header of the file: the magic bytes, a size field that is the
    length of the file, the offset 122 of the pixels, and a
    BITMAPV4HEADER of [w] by [-h] (rows top-down) in 32 bits with the bit
    fields R, G, B, A of a little-endian B, G, R, A quadruple. *)
Theorem bmp_header (w h : Z) (rgba : list Z) :
  0 <= w -> 0 <= h -> 122 + w * h * 4 < 2 ^ 32 ->
  let bmp := rgbaToBmp w h rgba in
  Z.of_nat (length bmp) = 122 + w * h * 4 /\
  ld 0 bmp 0 = 66 /\ ld 0 bmp 1 = 77 /\
  loadLE 4 2 bmp = Z.of_nat (length bmp) /\
  loadLE 4 10 bmp = 122 /\
  loadLE 4 14 bmp = 108 /\
  loadLE 4 18 bmp = w mod 2 ^ 32 /\
  loadLE 4 22 bmp = (- h) mod 2 ^ 32 /\
  loadLE 2 26 bmp = 1 /\
  loadLE 2 28 bmp = 32 /\
  loadLE 4 30 bmp = 3 /\
  loadLE 4 34 bmp = w * h * 4 /\
  loadLE 4 54 bmp = 16711680 /\
  loadLE 4 58 bmp = 65280 /\
  loadLE 4 62 bmp = 255 /\
  loadLE 4 66 bmp = 4278190080.
Proof.
  intros Hw Hh Hsz. unfold rgbaToBmp. cbv zeta.
  unfold setUint32, setInt32, setUint16.
  match goal with
  | |- context [forZ (w * h) _ ?b0] => set (bmp0 := b0)
  end.
  assert (Hn : 0 <= w * h) by nia.
  assert (L0 : Z.of_nat (length bmp0) = 122 + w * h * 4).
  { subst bmp0. rewrite !storeLE_length, !upd_length, repeat_length. lia. }
  destruct (bmp_pixel_loop (w * h) rgba bmp0 Hn L0) as (Ll & Lh & _).
  cbv zeta in Ll, Lh.
  match goal with
  | |- context [forZ (w * h) ?body bmp0] => set (bmp := forZ (w * h) body bmp0) in *
  end.
  clearbody bmp.
  assert (Lr : Z.of_nat (length (repeat 0 (Z.to_nat (122 + w * 4 * h))))
               = 122 + w * h * 4) by (rewrite repeat_length; lia).
  change (2 ^ 32) with 4294967296 in *.
  split; [rewrite Ll; exact L0|].
  split.
  { rewrite Lh by lia. subst bmp0. rewrite !ld_storeLE_other by lia.
    rewrite ld_upd_other by lia. apply ld_upd_same. lia. }
  split.
  { rewrite Lh by lia. subst bmp0. rewrite !ld_storeLE_other by lia.
    apply ld_upd_same. rewrite upd_length. lia. }
  rewrite Ll, L0. subst bmp0.
  split; [bmp_field Lh; change (2 ^ 32) with 4294967296; rewrite Z.mod_small by lia; lia|].
  split; [bmp_field Lh; reflexivity|].
  split; [bmp_field Lh; reflexivity|].
  split; [bmp_field Lh; reflexivity|].
  split; [bmp_field Lh; reflexivity|].
  split; [bmp_field Lh; reflexivity|].
  split; [bmp_field Lh; reflexivity|].
  split; [bmp_field Lh; reflexivity|].
  split; [bmp_field Lh; change (2 ^ 32) with 4294967296; rewrite Z.mod_small by lia; lia|].
  split; [bmp_field Lh; reflexivity|].
  split; [bmp_field Lh; reflexivity|].
  split; [bmp_field Lh; reflexivity|].
  bmp_field Lh; reflexivity.
Qed.

Lemma bmp_header_witness :
  loadLE 4 2 (rgbaToBmp 32 5 []) = Z.of_nat (length (rgbaToBmp 32 5 [])).
Proof.
  assert (W := bmp_header 32 5 [] ltac:(lia) ltac:(lia) ltac:(reflexivity)).
  exact (proj1 (proj2 (proj2 (proj2 W)))).
Defined.

(** The pixels of the file: pixel [i] of the bitmap is stored at
    [122 + 4 i] as B, G, R, A. *)
Theorem bmp_pixels (w h : Z) (rgba : list Z) (i : Z) :
  0 <= i < w * h ->
  let bmp := rgbaToBmp w h rgba in
  ld 0 bmp (122 + i * 4) = ld 0 rgba (i * 4 + 2) /\
  ld 0 bmp (122 + i * 4 + 1) = ld 0 rgba (i * 4 + 1) /\
  ld 0 bmp (122 + i * 4 + 2) = ld 0 rgba (i * 4) /\
  ld 0 bmp (122 + i * 4 + 3) = ld 0 rgba (i * 4 + 3).
Proof.
  intros Hi. unfold rgbaToBmp. cbv zeta.
  unfold setUint32, setInt32, setUint16.
  match goal with
  | |- context [forZ (w * h) _ ?b0] => set (bmp0 := b0)
  end.
  assert (L0 : Z.of_nat (length bmp0) = 122 + w * h * 4).
  { subst bmp0. rewrite !storeLE_length, !upd_length, repeat_length. lia. }
  destruct (bmp_pixel_loop (w * h) rgba bmp0 ltac:(lia) L0) as (_ & _ & Lp).
  exact (Lp i Hi).
Qed.

Lemma bmp_pixels_witness :
  ld 0 (rgbaToBmp 1 1 [10; 20; 30; 255]) (122 + 0 * 4) = ld 0 [10; 20; 30; 255] (0 * 4 + 2).
Proof.
  assert (W := bmp_pixels 1 1 [10; 20; 30; 255] 0 ltac:(lia)).
  exact (proj1 W).
Defined.

(** ** The bitmap handed to the file writer *)

Lemma bmp_length (w h : Z) (rgba : list Z) :
  0 <= w * h -> Z.of_nat (length (rgbaToBmp w h rgba)) = 122 + w * h * 4.
Proof.
  intros Hn. unfold rgbaToBmp. cbv zeta.
  unfold setUint32, setInt32, setUint16.
  match goal with
  | |- context [forZ (w * h) _ ?b0] => set (bmp0 := b0)
  end.
  assert (L0 : Z.of_nat (length bmp0) = 122 + w * h * 4).
  { subst bmp0. rewrite !storeLE_length, !upd_length, repeat_length. lia. }
  destruct (bmp_pixel_loop (w * h) rgba bmp0 Hn L0) as (Ll & _ & _).
  cbv zeta in Ll. rewrite Ll. exact L0.
Qed.

Section PlaceholderBitmap.
Variables F64 cos64 sqrt64 : Q -> Q.
Hypothesis HF : rounding_laws F64.

Lemma attenuateChroma_bytes (rgba : list Z) (c : Q) :
  (forall j, 0 <= ld 0 rgba j <= 255) ->
  forall j, 0 <= ld 0 (attenuateChroma F64 rgba c) j <= 255.
Proof.
  intros H0. unfold attenuateChroma. cbv zeta.
  apply (forZ_keeps (fun s => forall j, 0 <= ld 0 s j <= 255)); [exact H0|].
  intros k s Hk Hs.
  repeat (apply upd_bytes; [|apply toUint8_range]). exact Hs.
Qed.

Lemma applyBiasCorrection_bytes (rgba : list Z) (n : Z) (t : list Q) (gain : Q) :
  (forall j, 0 <= ld 0 rgba j <= 255) ->
  length (applyBiasCorrection F64 rgba n t gain) = length rgba /\
  forall j, 0 <= ld 0 (applyBiasCorrection F64 rgba n t gain) j <= 255.
Proof.
  intros H0. unfold applyBiasCorrection.
  destruct (computeAvgRGB F64 rgba n) as [[avgR avgG] avgB]. cbv zeta.
  apply (forZ_keeps (fun s => length s = length rgba /\
                              forall j, 0 <= ld 0 s j <= 255));
    [split; [reflexivity|exact H0]|].
  intros k s Hk [Ls Hs]. split; [rewrite !upd_length; exact Ls|].
  repeat (apply upd_bytes; [|apply toUint8_range]). exact Hs.
Qed.

(** The bitmap of [thumbHashToRGBA], with or without chroma. *)
Lemma decoded_bitmap (hash : list Z) (c : option Q) :
  5 <= bw (thumbHashToRGBA F64 cos64 hash c) <= 32 /\
  5 <= bh (thumbHashToRGBA F64 cos64 hash c) <= 32 /\
  (bw (thumbHashToRGBA F64 cos64 hash c) = 32 \/
   bh (thumbHashToRGBA F64 cos64 hash c) = 32) /\
  Z.of_nat (length (pixels (thumbHashToRGBA F64 cos64 hash c)))
  = 4 * (bw (thumbHashToRGBA F64 cos64 hash c)
         * bh (thumbHashToRGBA F64 cos64 hash c)) /\
  (forall j, 0 <= ld 0 (pixels (thumbHashToRGBA F64 cos64 hash c)) j <= 255).
Proof.
  assert (R := outSize_range F64 HF hash).
  unfold thumbHashToRGBA. destruct (outSize F64 (parse F64 hash)) as [w h].
  cbn [bw bh pixels]. destruct R as (Hw & Hh & Hm).
  split; [lia|]. split; [lia|]. split; [exact Hm|].
  assert (B : forall j,
            0 <= ld 0 (reconstruct F64 cos64 (parse F64 hash)
                         (readAll F64 hash (parse F64 hash)) w h
                         (repeat 0 (Z.to_nat (w * h * 4)))) j <= 255).
  { apply reconstruct_bytes. intros j. rewrite ld_repeat. lia. }
  destruct c as [c|]; [destruct (Qltb c 1)|].
  - rewrite attenuateChroma_length, reconstruct_length, repeat_length.
    split; [nia|]. apply attenuateChroma_bytes. exact B.
  - rewrite reconstruct_length, repeat_length. split; [nia|exact B].
  - rewrite reconstruct_length, repeat_length. split; [nia|exact B].
Qed.

(** The adaptive path keeps the size of the bitmap and its bytes within
    [0, 255]. *)
Lemma adaptive_bitmap (bm : bitmap) (t : list Q) (ac gain : Q) :
  (forall j, 0 <= ld 0 (pixels bm) j <= 255) ->
  let rgba := if Qltb ac 1 then attenuateChroma F64 (pixels bm) ac
              else pixels bm in
  length (applyBiasCorrection F64 rgba (bw bm * bh bm) t gain)
  = length (pixels bm) /\
  forall j, 0 <= ld 0 (applyBiasCorrection F64 rgba (bw bm * bh bm) t gain) j
            <= 255.
Proof.
  intros Gb. cbv zeta.
  assert (A : length (if Qltb ac 1 then attenuateChroma F64 (pixels bm) ac
                      else pixels bm) = length (pixels bm) /\
              forall j, 0 <= ld 0 (if Qltb ac 1
                                   then attenuateChroma F64 (pixels bm) ac
                                   else pixels bm) j <= 255).
  { destruct (Qltb ac 1).
    - split; [apply attenuateChroma_length|apply attenuateChroma_bytes; exact Gb].
    - split; [reflexivity|exact Gb]. }
  destruct A as [Al Ab].
  destruct (applyBiasCorrection_bytes _ (bw bm * bh bm) t gain Ab) as [Bl Bb].
  split; [rewrite Bl; exact Al|exact Bb].
Qed.

(** Whatever the hash, the chroma and the target colour, the bitmap
    [thumbHashToDataURL] hands to [rgbaToBmpDataURL] is between 5 and 32
    pixels a side, 32 on its longer side, with four bytes in [0, 255] per
    pixel; the file built from it has between 762 and 4218 bytes. *)
Theorem placeholder_bitmap (hash : list Z) (chroma : option Q)
    (avgColor : option (list Q)) :
  let b := thumbHashToDataURL F64 cos64 sqrt64 hash chroma avgColor in
  5 <= bw b <= 32 /\ 5 <= bh b <= 32 /\ (bw b = 32 \/ bh b = 32) /\
  Z.of_nat (length (pixels b)) = 4 * (bw b * bh b) /\
  (forall j, 0 <= ld 0 (pixels b) j <= 255) /\
  762 <= Z.of_nat (length (rgbaToBmp (bw b) (bh b) (pixels b))) <= 4218.
Proof.
  cbv zeta.
  assert (K : 5 <= bw (thumbHashToDataURL F64 cos64 sqrt64 hash chroma avgColor)
                <= 32 /\
              5 <= bh (thumbHashToDataURL F64 cos64 sqrt64 hash chroma avgColor)
                <= 32 /\
              (bw (thumbHashToDataURL F64 cos64 sqrt64 hash chroma avgColor) = 32
               \/ bh (thumbHashToDataURL F64 cos64 sqrt64 hash chroma avgColor)
                  = 32) /\
              Z.of_nat (length (pixels (thumbHashToDataURL F64 cos64 sqrt64 hash
                                          chroma avgColor)))
              = 4 * (bw (thumbHashToDataURL F64 cos64 sqrt64 hash chroma avgColor)
                     * bh (thumbHashToDataURL F64 cos64 sqrt64 hash chroma
                             avgColor)) /\
              (forall j, 0 <= ld 0 (pixels (thumbHashToDataURL F64 cos64 sqrt64
                                              hash chroma avgColor)) j <= 255)).
  { unfold thumbHashToDataURL.
    destruct avgColor as [t|]; [|apply decoded_bitmap].
    destruct (3 <=? Z.of_nat (length t)); [|apply decoded_bitmap].
    destruct (decoded_bitmap hash None) as (Gw & Gh & Gm & Gl & Gb).
    set (bm := thumbHashToRGBA F64 cos64 hash None) in *. clearbody bm.
    cbv zeta. cbn [bw bh pixels].
    split; [exact Gw|]. split; [exact Gh|]. split; [exact Gm|].
    destruct (adaptive_bitmap bm t
                (adaptiveChroma F64
                   (meanDist F64 sqrt64
                      (computeAvgRGB F64 (pixels bm) (bw bm * bh bm)) t))
                (F64 (45 # 100)) Gb) as [Bl Bb].
    split; [rewrite Bl; exact Gl|exact Bb]. }
  set (b := thumbHashToDataURL F64 cos64 sqrt64 hash chroma avgColor) in *.
  clearbody b. destruct K as (Kw & Kh & Km & Kl & Kb).
  split; [exact Kw|]. split; [exact Kh|]. split; [exact Km|].
  split; [exact Kl|]. split; [exact Kb|].
  rewrite (bmp_length (bw b) (bh b) (pixels b)) by nia. nia.
Qed.

End PlaceholderBitmap.

(** ** The proxy of a small image *)

(** The row-major loop of [extractPixels], when every pixel stores four
    values that depend on the position and the source offset only: cell
    [(x, y)] of the proxy holds the values of source offset
    [row y + x * step]. *)
Lemma forPixels_spec (w h : Z) (row : Z -> Z) (step : Z)
    (pixel : Z -> Z -> Z -> Z -> list Q -> list Q)
    (val : Z -> Z -> Z -> Z -> Q) (rgba : list Q) :
  (forall x y off di s,
     pixel x y off di s
     = upd (di + 3) (val x y off 3)
         (upd (di + 2) (val x y off 2)
            (upd (di + 1) (val x y off 1) (upd di (val x y off 0) s)))) ->
  0 <= w -> 0 <= h -> w * h * 4 <= Z.of_nat (length rgba) ->
  forall x y c, 0 <= x < w -> 0 <= y < h -> 0 <= c < 4 ->
    ld 0%Q (forPixels w h row step pixel rgba) ((y * w + x) * 4 + c)
    = val x y (row y + x * step) c.
Proof.
  intros Hpix Hw Hh Hlen. unfold forPixels.
  assert (Cell : forall s di x y off c,
            0 <= di -> di + 4 <= Z.of_nat (length s) -> 0 <= c < 4 ->
            ld 0%Q (pixel x y off di s) (di + c) = val x y off c).
  { intros s di x y off c Hd Hin Hc. rewrite Hpix.
    assert (C : c = 0 \/ c = 1 \/ c = 2 \/ c = 3) by lia.
    destruct C as [-> | [-> | [-> | ->]]].
    - rewrite Z.add_0_r, !ld_upd_other by lia. apply ld_upd_same. lia.
    - rewrite !(ld_upd_other 0%Q _ (di + 1)) by lia.
      apply ld_upd_same. rewrite upd_length. lia.
    - rewrite (ld_upd_other 0%Q (di + 3) (di + 2)) by lia.
      apply ld_upd_same. rewrite !upd_length. lia.
    - apply ld_upd_same. rewrite !upd_length. lia. }
  assert (Keep : forall s di x y off j,
            j < di \/ di + 4 <= j ->
            ld 0%Q (pixel x y off di s) j = ld 0%Q s j).
  { intros s di x y off j Hj. rewrite Hpix, !ld_upd_other by lia. reflexivity. }
  assert (Len : forall s di x y off, length (pixel x y off di s) = length s).
  { intros. rewrite Hpix, !upd_length. reflexivity. }
  assert (G : let st :=
                forZ h (fun y '(rgba0, di) =>
                  let off := row y in
                  let '(rgba1, _, di0) :=
                    forZ w (fun x '(rgba1, off0, di0) =>
                      (pixel x y off0 di0 rgba1, off0 + step, di0 + 4))
                      (rgba0, off, di) in
                  (rgba1, di0)) (rgba, 0) in
              snd st = 4 * w * h /\ length (fst st) = length rgba /\
              forall x y c, 0 <= x < w -> 0 <= y < h -> 0 <= c < 4 ->
                ld 0%Q (fst st) ((y * w + x) * 4 + c)
                = val x y (row y + x * step) c).
  { cbv zeta.
    apply (forZ_inv (fun k (st : list Q * Z) =>
             snd st = 4 * w * k /\ length (fst st) = length rgba /\
             forall x y c, 0 <= x < w -> 0 <= y < k -> 0 <= c < 4 ->
               ld 0%Q (fst st) ((y * w + x) * 4 + c)
               = val x y (row y + x * step) c)); [exact Hh| |].
    - cbn [fst snd]. split; [lia|]. split; [reflexivity|]. intros; lia.
    - intros k [s di] Hk (Ed & Ls & Hs). cbn [fst snd] in Ed, Ls, Hs.
      assert (I : let st' :=
                    forZ w (fun x '(rgba1, off0, di0) =>
                      (pixel x k off0 di0 rgba1, off0 + step, di0 + 4))
                      (s, row k, di) in
                  snd (fst st') = row k + w * step /\
                  snd st' = 4 * w * k + 4 * w /\
                  length (fst (fst st')) = length rgba /\
                  (forall x y c, 0 <= x < w -> 0 <= y < k -> 0 <= c < 4 ->
                     ld 0%Q (fst (fst st')) ((y * w + x) * 4 + c)
                     = val x y (row y + x * step) c) /\
                  (forall x c, 0 <= x < w -> 0 <= c < 4 ->
                     ld 0%Q (fst (fst st')) ((k * w + x) * 4 + c)
                     = val x k (row k + x * step) c)).
      { cbv zeta.
        apply (forZ_inv (fun i (st' : list Q * Z * Z) =>
                 snd (fst st') = row k + i * step /\
                 snd st' = 4 * w * k + 4 * i /\
                 length (fst (fst st')) = length rgba /\
                 (forall x y c, 0 <= x < w -> 0 <= y < k -> 0 <= c < 4 ->
                    ld 0%Q (fst (fst st')) ((y * w + x) * 4 + c)
                    = val x y (row y + x * step) c) /\
                 (forall x c, 0 <= x < i -> 0 <= c < 4 ->
                    ld 0%Q (fst (fst st')) ((k * w + x) * 4 + c)
                    = val x k (row k + x * step) c))); [exact Hw| |].
        - cbn [fst snd]. split; [lia|]. split; [lia|]. split; [exact Ls|].
          split; [exact Hs|]. intros; lia.
        - intros i [[s' off'] di'] Hi (Eo & Ed' & Ls' & Hs' & Hr).
          cbn [fst snd] in *. subst off' di'.
          split; [lia|]. split; [lia|]. split; [rewrite Len; exact Ls'|].
          split.
          + intros x y c Hx Hy Hc. rewrite Keep by nia. apply Hs'; assumption.
          + intros x c Hx Hc. destruct (Z.eq_dec x i) as [->|Hne].
            * replace ((k * w + i) * 4 + c) with (4 * w * k + 4 * i + c) by lia.
              apply Cell; [nia|nia|exact Hc].
            * rewrite Keep by nia. apply Hr; lia. }
      cbv zeta in I.
      destruct (forZ w _ (s, row k, di)) as [[s' off'] di'].
      cbn [fst snd] in *. destruct I as (_ & Ed' & Ls' & Hs' & Hr).
      split; [lia|]. split; [exact Ls'|].
      intros x y c Hx Hy Hc. destruct (Z.eq_dec y k) as [->|Hne].
      + apply Hr; assumption.
      + apply Hs'; [assumption|lia|assumption]. }
  cbv zeta in G. destruct G as (_ & _ & G). exact G.
Qed.

(** ** Transparency *)

Lemma forZ_orb (n : Z) (p : Z -> bool) (b0 : bool) :
  forZ n (fun k found => found || p k) b0 = true
  <-> b0 = true \/ exists k, 0 <= k < n /\ p k = true.
Proof.
  destruct (Z_le_gt_dec 0 n) as [Hn|Hn].
  - apply (forZ_inv (fun i b => b = true
                       <-> b0 = true \/ exists k, 0 <= k < i /\ p k = true));
      [exact Hn| |].
    + split; [auto|]. intros [H|(k & Hk & _)]; [exact H|lia].
    + intros i b Hi IH. rewrite orb_true_iff, IH. split.
      * intros [[H|(k & Hk & Hp)]|Hp]; [left; exact H| |].
        -- right. exists k. split; [lia|exact Hp].
        -- right. exists i. split; [lia|exact Hp].
      * intros [H|(k & Hk & Hp)]; [left; left; exact H|].
        destruct (Z.eq_dec k i) as [->|Hne]; [right; exact Hp|].
        left. right. exists k. split; [lia|exact Hp].
  - rewrite forZ_nonpos by lia. split; [auto|].
    intros [H|(k & Hk & _)]; [exact H|lia].
Qed.

(** [HasAlpha] on the packed layouts: true exactly when some byte of
    [Pix] at an index [4 k + 3] is below 255, inside the bounds of the
    image or not; never true for a YCbCr or a gray image. *)
Theorem HasAlpha_packed (pix : list Z) (stride : Z) (rect : Rectangle) :
  (HasAlpha (NRGBA pix stride rect) = true
   <-> exists k, 0 <= k /\ 4 * k + 3 < Z.of_nat (length pix)
                 /\ ld 0 pix (4 * k + 3) < 255) /\
  HasAlpha (RGBA pix stride rect) = HasAlpha (NRGBA pix stride rect) /\
  (forall y cb cr ys cs ratio, HasAlpha (YCbCr y cb cr ys cs ratio rect) = false) /\
  HasAlpha (Gray pix stride rect) = false.
Proof.
  split; [|split; [reflexivity|split; reflexivity]].
  cbn [HasAlpha]. rewrite forZ_orb.
  rewrite Z.quot_div_nonneg by lia.
  split.
  - intros [C|(k & Hk & Hp)]; [discriminate|].
    exists k. apply Z.ltb_lt in Hp.
    split; [lia|]. split; [|exact Hp]. Z.div_mod_to_equations. lia.
  - intros (k & Hk & Hin & Hp). right. exists k.
    split; [Z.div_mod_to_equations; lia|]. apply Z.ltb_lt. exact Hp.
Qed.

(** [HasAlpha] on any other image: true exactly when some pixel of the
    bounds has an alpha below 65535. *)
Theorem HasAlpha_generic (b : Rectangle) (at_ : Z -> Z -> Z * Z * Z * Z) :
  HasAlpha (Generic b at_) = true
  <-> exists x y, MinX b <= x < MaxX b /\ MinY b <= y < MaxY b /\
                  snd (at_ x y) < 65535.
Proof.
  cbn [HasAlpha].
  assert (In : forall j b0,
            forZ (MaxX b - MinX b) (fun i found =>
              let '(_, _, _, a) := at_ (MinX b + i) (MinY b + j) in
              found || (a <? 65535)) b0
            = forZ (MaxX b - MinX b) (fun i found =>
                found || (snd (at_ (MinX b + i) (MinY b + j)) <? 65535)) b0).
  { intros j b0. apply forZ_ext. intros i s Hi.
    destruct (at_ (MinX b + i) (MinY b + j)) as [[[r g] bl] a]. reflexivity. }
  assert (Out : forZ (MaxY b - MinY b) (fun j found =>
                  forZ (MaxX b - MinX b) (fun i found =>
                    let '(_, _, _, a) := at_ (MinX b + i) (MinY b + j) in
                    found || (a <? 65535)) found) false
                = forZ (MaxY b - MinY b) (fun j found =>
                    found || forZ (MaxX b - MinX b) (fun i found =>
                      found || (snd (at_ (MinX b + i) (MinY b + j)) <? 65535))
                      false) false).
  { apply forZ_ext. intros j s Hj. rewrite In.
    apply Bool.eq_true_iff_eq. rewrite orb_true_iff, !forZ_orb.
    split; [intros [H|H]; [left; exact H|right; right; exact H]|].
    intros [H|[H|H]]; [left; exact H|discriminate|right; exact H]. }
  rewrite Out, forZ_orb. split.
  - intros [C|(j & Hj & Hp)]; [discriminate|].
    apply forZ_orb in Hp. destruct Hp as [C|(i & Hi & Hp)]; [discriminate|].
    exists (MinX b + i), (MinY b + j). apply Z.ltb_lt in Hp.
    split; [lia|]. split; [lia|exact Hp].
  - intros (x & y & Hx & Hy & Hp). right. exists (y - MinY b).
    split; [lia|]. apply forZ_orb. right. exists (x - MinX b).
    split; [lia|]. apply Z.ltb_lt.
    replace (MinX b + (x - MinX b)) with x by lia.
    replace (MinY b + (y - MinY b)) with y by lia. exact Hp.
Qed.

Section Opaque.
Variables F32 F64 cos64 : Q -> Q.
Hypothesis HF32 : rounding_laws F32.

(** The mean alpha of a proxy without transparency is 1. *)
Lemma avgColor_opaque (count : Z) (rgba : list Q) :
  1 <= count <= 2 ^ 23 ->
  (forall i, 0 <= i < count -> (ld 0 rgba (i * 4 + 3) == 1)%Q) ->
  (snd (avgColor F32 count rgba) == 1)%Q.
Proof.
  intros Hc Ha. unfold avgColor.
  assert (I : (snd (forZ count (fun i '(avgR, avgG, avgB, avgA) =>
                      let a := ld 0 rgba (i * 4 + 3) in
                      (F32 (avgR + F32 (a * ld 0 rgba (i * 4))),
                       F32 (avgG + F32 (a * ld 0 rgba (i * 4 + 1))),
                       F32 (avgB + F32 (a * ld 0 rgba (i * 4 + 2))),
                       F32 (avgA + a))) (0, 0, 0, 0))
               == inject_Z count)%Q).
  { apply (forZ_inv (fun i (st : Q * Q * Q * Q) => (snd st == inject_Z i)%Q));
      [lia|reflexivity|].
    intros i [[[r g] b] a] Hi E. cbn [snd] in *. cbv zeta.
    assert (E1 : (a + ld 0 rgba (i * 4 + 3) == inject_Z (i + 1))%Q).
    { rewrite E, (Ha i Hi), inject_Z_plus. reflexivity. }
    rewrite (rnd_proper HF32 E1). apply (rnd_int F32 HF32). lia. }
  destruct (forZ count _ (0%Q, 0%Q, 0%Q, 0%Q)) as [[[r g] b] a]. cbn [snd] in I.
  destruct (if Qltb 0 a then (F32 (r / a), F32 (g / a), F32 (b / a))
            else (r, g, b)) as [[r' g'] b'].
  cbn [snd]. unfold f32_of_int.
  assert (E2 : (a / F32 (inject_Z count) == 1)%Q).
  { rewrite I, (rnd_int F32 HF32 count) by lia. field.
    intros C. assert (C' : (0 < inject_Z count)%Q).
    { rewrite <- (Zlt_Qlt 0). lia. } lra. }
  rewrite (rnd_proper HF32 E2). apply (rnd_1 F32 HF32).
Qed.

(** The channels of a proxy without transparency. *)
Lemma opaque_channels (w h : Z) (wb : workBuf) :
  1 <= w <= 100 -> 1 <= h <= 100 -> workBuf_sized wb ->
  (forall i, 0 <= i < w * h -> (ld 0 (rgba wb) (i * 4 + 3) == 1)%Q) ->
  let ch := fst (transform F32 F64 cos64 w h wb) in
  hasAlpha ch = false /\ aAC ch = [] /\ ax ch = 0 /\ ay ch = 0 /\
  lx ch = basisDim F32 7 w (imax w h) /\ ly ch = basisDim F32 7 h (imax w h) /\
  hashLen ch = 6 + (lx ch * ly ch - 1 + 2 * (px ch * py ch - 1) + 1) / 2.
Proof.
  intros Hw Hh Hs Ha. cbv zeta. assert (Lr := proj1 Hs).
  assert (A : (snd (avgColor F32 (w * h) (slice 0 (w * h * 4) (rgba wb))) == 1)%Q).
  { apply avgColor_opaque; [change (2 ^ 23) with 8388608; nia|].
    intros i Hi. unfold slice. cbn [Z.to_nat skipn]. rewrite Z.sub_0_r.
    rewrite ld_firstn by nia. apply Ha. exact Hi. }
  assert (G : hasAlpha (fst (transform F32 F64 cos64 w h wb)) = false).
  { unfold transform. cbv zeta.
    destruct (avgColor F32 (w * h) (slice 0 (w * h * 4) (rgba wb)))
      as [[[avgR avgG] avgB] avgA]. cbn [snd] in A.
    assert (HA : Qltb avgA 1 = false) by (apply Qltb_ge; rewrite A; lra).
    rewrite HA.
    repeat match goal with
    | |- context [encodeChan F32 ?a ?b ?c ?d ?e ?f ?g ?x ?y ?z] =>
        destruct (encodeChan F32 a b c d e f g x y z) as [[? ?] ?]
    end.
    reflexivity. }
  assert (B := transform_basis F32 F64 cos64 w h wb).
  assert (Len := transform_lengths F32 F64 cos64 HF32 w h wb Hw Hh Hs).
  cbv zeta in Len.
  set (ch := fst (transform F32 F64 cos64 w h wb)) in *. clearbody ch.
  destruct B as (Elx & Ely & _ & _ & Eax & Eay). cbv zeta in Elx, Ely.
  destruct Len as (Ll & Lp & Lq & La).
  rewrite G in *.
  split; [reflexivity|].
  split; [destruct (aAC ch); [reflexivity|cbn [length] in La; lia]|].
  split; [exact Eax|]. split; [exact Eay|].
  split; [exact Elx|]. split; [exact Ely|].
  unfold hashLen, totalAC. rewrite G.
  rewrite Z.quot_div_nonneg by lia. f_equal. f_equal. lia.
Qed.

(** A proxy without transparency gets no alpha channel: the flag is
    clear, the luma basis has the limit 7, no alpha coefficient is
    produced, and the hash has a 6-byte header. *)
Theorem transform_opaque (w h : Z) (wb : workBuf) :
  1 <= w <= 100 -> 1 <= h <= 100 -> workBuf_sized wb ->
  (forall i, 0 <= i < w * h -> (ld 0 (rgba wb) (i * 4 + 3) == 1)%Q) ->
  hasAlpha (fst (transform F32 F64 cos64 w h wb)) = false /\
  aAC (fst (transform F32 F64 cos64 w h wb)) = [] /\
  lx (fst (transform F32 F64 cos64 w h wb)) = basisDim F32 7 w (imax w h) /\
  ly (fst (transform F32 F64 cos64 w h wb)) = basisDim F32 7 h (imax w h) /\
  Z.of_nat (length (fst (assembleHash F32 F64 cos64 w h wb)))
  = 6 + (lx (fst (transform F32 F64 cos64 w h wb))
         * ly (fst (transform F32 F64 cos64 w h wb)) - 1
         + 2 * (px (fst (transform F32 F64 cos64 w h wb))
                * py (fst (transform F32 F64 cos64 w h wb)) - 1) + 1) / 2.
Proof.
  intros Hw Hh Hs Ha.
  destruct (opaque_channels w h wb Hw Hh Hs Ha) as (G & A0 & _ & _ & Ex & Ey & El).
  cbv zeta in G, A0, Ex, Ey, El.
  split; [exact G|]. split; [exact A0|]. split; [exact Ex|]. split; [exact Ey|].
  rewrite assembleHash_length, <- El.
  apply Z2Nat.id. rewrite El.
  assert (Len := transform_lengths F32 F64 cos64 HF32 w h wb Hw Hh Hs).
  cbv zeta in Len. destruct Len as (Ll & Lp & _).
  apply Z.add_nonneg_nonneg; [lia|]. apply Z.div_pos; lia.
Qed.

End Opaque.

Section SmallImages.
Variables F32 F64 : Q -> Q.

(** [extractPixels] on an NRGBA image: channel [c] of proxy cell [(x, y)]
    is the byte of the source pixel over 255. *)
Lemma extractPixels_NRGBA (pix : list Z) (stride : Z) (rect bounds : Rectangle)
    (w h : Z) (rgba : list Q) (x y c : Z) :
  0 <= w -> 0 <= h -> w * h * 4 <= Z.of_nat (length rgba) ->
  0 <= x < w -> 0 <= y < h -> 0 <= c < 4 ->
  ld 0%Q (extractPixels F32 F64 (NRGBA pix stride rect) bounds w h rgba)
     ((y * w + x) * 4 + c)
  = F32 (f32_of_int F32
           (ld 0 pix ((MinY bounds - MinY rect + y) * stride
                      + (MinX bounds - MinX rect) * 4 + x * 4 + c)) / 255).
Proof.
  intros Hw Hh Hlen Hx Hy Hc. cbn [extractPixels]. cbv zeta.
  rewrite (forPixels_spec w h _ 4 _
             (fun _ _ off c =>
                F32 (f32_of_int F32
                       (ld 0 pix (match c with
                                  | 0 => off
                                  | 1 => off + 1
                                  | 2 => off + 2
                                  | _ => off + 3
                                  end)) / 255)));
    try assumption; [|intros; reflexivity].
  assert (C : c = 0 \/ c = 1 \/ c = 2 \/ c = 3) by lia.
  destruct C as [-> | [-> | [-> | ->]]]; do 4 f_equal; lia.
Qed.

(** The same on a gray image: the three colours are the byte over 255
    and alpha is 1. *)
Lemma extractPixels_Gray (pix : list Z) (stride : Z) (rect bounds : Rectangle)
    (w h : Z) (rgba : list Q) (x y c : Z) :
  0 <= w -> 0 <= h -> w * h * 4 <= Z.of_nat (length rgba) ->
  0 <= x < w -> 0 <= y < h -> 0 <= c < 4 ->
  ld 0%Q (extractPixels F32 F64 (Gray pix stride rect) bounds w h rgba)
     ((y * w + x) * 4 + c)
  = if c =? 3 then 1%Q
    else F32 (f32_of_int F32
                (ld 0 pix ((MinY bounds - MinY rect + y) * stride
                           + (MinX bounds - MinX rect) + x)) / 255).
Proof.
  intros Hw Hh Hlen Hx Hy Hc. cbn [extractPixels]. cbv zeta.
  rewrite (forPixels_spec w h _ 1 _
             (fun _ _ off c =>
                match c with
                | 3 => 1%Q
                | _ => F32 (f32_of_int F32 (ld 0 pix off) / 255)
                end));
    try assumption; [|intros; reflexivity].
  assert (C : c = 0 \/ c = 1 \/ c = 2 \/ c = 3) by lia.
  destruct C as [-> | [-> | [-> | ->]]]; cbn [Z.eqb Pos.eqb];
    try reflexivity; do 4 f_equal; lia.
Qed.

(** The proxy of a packed image that needs no scaling, cell by cell. *)
Theorem extractPixels_cells (pix : list Z) (stride : Z) (rect bounds : Rectangle)
    (w h : Z) (rgba : list Q) (x y c : Z) :
  0 <= w -> 0 <= h -> w * h * 4 <= Z.of_nat (length rgba) ->
  0 <= x < w -> 0 <= y < h -> 0 <= c < 4 ->
  ld 0%Q (extractPixels F32 F64 (NRGBA pix stride rect) bounds w h rgba)
     ((y * w + x) * 4 + c)
  = F32 (f32_of_int F32
           (ld 0 pix ((MinY bounds - MinY rect + y) * stride
                      + (MinX bounds - MinX rect) * 4 + x * 4 + c)) / 255) /\
  ld 0%Q (extractPixels F32 F64 (Gray pix stride rect) bounds w h rgba)
     ((y * w + x) * 4 + c)
  = (if c =? 3 then 1%Q
     else F32 (f32_of_int F32
                 (ld 0 pix ((MinY bounds - MinY rect + y) * stride
                            + (MinX bounds - MinX rect) + x)) / 255)) /\
  length (extractPixels F32 F64 (NRGBA pix stride rect) bounds w h rgba)
  = length rgba /\
  length (extractPixels F32 F64 (Gray pix stride rect) bounds w h rgba)
  = length rgba.
Proof.
  intros Hw Hh Hlen Hx Hy Hc.
  split; [apply extractPixels_NRGBA; assumption|].
  split; [apply extractPixels_Gray; assumption|].
  split; apply extractPixels_length.
Qed.

End SmallImages.

Lemma extractPixels_cells_witness :
  ld 0%Q (extractPixels exact exact (gradientImg 2 1) (Enc.Rect 0 0 2 1) 2 1
            (repeat 0%Q 8)) ((0 * 2 + 1) * 4 + 0)
  = exact (f32_of_int exact
             (ld 0 [0; 0; 128; 255; 255; 0; 128; 255]
                 ((0 - 0 + 0) * 8 + (0 - 0) * 4 + 1 * 4 + 0)) / 255).
Proof.
  assert (W := extractPixels_cells exact exact
                 [0; 0; 128; 255; 255; 0; 128; 255] 8 (Enc.Rect 0 0 2 1)
                 (Enc.Rect 0 0 2 1) 2 1 (repeat 0%Q 8) 1 0 0
                 ltac:(lia) ltac:(lia) ltac:(cbn; lia)
                 ltac:(lia) ltac:(lia) ltac:(lia)).
  exact (proj1 W).
Defined.

Section SmallEncode.
Variables F32 F64 cos64 D64 : Q -> Q.
Hypothesis HF32 : rounding_laws F32.
Hypothesis HF64 : rounding_laws F64.
Hypothesis Hcos : forall x, (-1 <= cos64 x <= 1)%Q.
Hypothesis Hcos0 : forall x, (x == 0)%Q -> (cos64 x == 1)%Q.

(** [Encode] on an image of at most 100 by 100 pixels: the proxy is the
    image itself, read by [extractPixels] into the zeroed buffer. *)
Lemma Encode_small (img : Image) (wb : workBuf) :
  0 < Dx (Bounds img) <= 100 -> 0 < Dy (Bounds img) <= 100 ->
  workBuf_sized wb ->
  exists wb',
    workBuf_sized wb' /\
    (forall j, 0 <= j < Dx (Bounds img) * Dy (Bounds img) * 4 ->
       ld 0%Q (rgba wb') j
       = ld 0%Q (extractPixels F32 F64 img (Bounds img)
                   (Dx (Bounds img)) (Dy (Bounds img))
                   (repeat 0%Q (Z.to_nat (Dx (Bounds img) * Dy (Bounds img) * 4))))
              j) /\
    fst (Encode F32 F64 cos64 img wb)
    = Some (pack F32 F64 (Dx (Bounds img)) (Dy (Bounds img))
              (fst (transform F32 F64 cos64 (Dx (Bounds img)) (Dy (Bounds img))
                      wb'))).
Proof.
  intros HW HH (Lr & Lx & Ly & La). unfold Encode. cbv zeta.
  set (W := Dx (Bounds img)) in *. set (H := Dy (Bounds img)) in *.
  destruct (Z.leb_spec W 0); [lia|]. destruct (Z.leb_spec H 0); [lia|].
  cbn [orb].
  assert (Et : thumbDims W H = (W, H)).
  { unfold thumbDims, maxThumbDim.
    destruct (Z.leb_spec W 100); [|lia]. destruct (Z.leb_spec H 100); [|lia].
    reflexivity. }
  rewrite Et. rewrite !Z.leb_refl. cbn [andb].
  assert (Hn : 0 <= W * H * 4 <= 40000) by nia.
  rewrite zeroF32_spec.
  assert (Ls : length (slice 0 (W * H * 4) (rgba wb)) = Z.to_nat (W * H * 4)).
  { assert (S := slice_length 0 (W * H * 4) (rgba wb) ltac:(lia) ltac:(lia)).
    lia. }
  rewrite Ls.
  set (proxy := extractPixels F32 F64 img (Bounds img) W H
                  (repeat 0%Q (Z.to_nat (W * H * 4)))).
  assert (Lp : length proxy = Z.to_nat (W * H * 4)).
  { subst proxy. rewrite extractPixels_length. apply repeat_length. }
  clearbody proxy.
  match goal with
  | |- context [assembleHash F32 F64 cos64 W H ?b] => set (wb1 := b)
  end.
  exists wb1. split; [|split].
  - subst wb1. unfold workBuf_sized. cbn [rgba cosX cosY ac].
    rewrite length_app, length_skipn.
    split; [lia|]. split; [exact Lx|]. split; [exact Ly|exact La].
  - intros j Hj. subst wb1. cbn [rgba]. apply ld_app_l. lia.
  - rewrite <- assembleHash_fst.
    destruct (assembleHash F32 F64 cos64 W H wb1) as [hash wb2]. reflexivity.
Qed.

End SmallEncode.

Section SmallNRGBA.
Variables F32 F64 cos64 D64 : Q -> Q.
Hypothesis HF32 : rounding_laws F32.
Hypothesis HF64 : rounding_laws F64.
Hypothesis Hcos : forall x, (-1 <= cos64 x <= 1)%Q.
Hypothesis Hcos0 : forall x, (x == 0)%Q -> (cos64 x == 1)%Q.

(** A byte over 255, as a [float32]. *)
Lemma byte_over_255 (b : Z) :
  0 <= b <= 255 ->
  (0 <= F32 (f32_of_int F32 b / 255) <= 1)%Q /\
  (b = 255 -> (F32 (f32_of_int F32 b / 255) == 1)%Q).
Proof.
  intros Hb. unfold f32_of_int.
  assert (E : (F32 (inject_Z b) == inject_Z b)%Q)
    by (apply (rnd_int F32 HF32); change (2 ^ 23) with 8388608; lia).
  assert (E1 : (F32 (inject_Z b) / 255 == inject_Z b / 255)%Q)
    by (rewrite E; reflexivity).
  assert (B0 : (0 <= inject_Z b)%Q) by (rewrite <- (Zle_Qle 0); lia).
  assert (B1 : (inject_Z b <= 255)%Q).
  { change 255%Q with (inject_Z 255). rewrite <- Zle_Qle. lia. }
  assert (R : (0 <= inject_Z b / 255 <= 1)%Q).
  { unfold Qdiv. change (/ 255)%Q with (1 # 255)%Q. lra. }
  split.
  - rewrite (rnd_proper HF32 E1). split.
    + apply (rnd_ge_int F32 HF32 _ 0); [change (2 ^ 23) with 8388608; lia|].
      exact (proj1 R).
    + apply (rnd_le_int F32 HF32 _ 1); [change (2 ^ 23) with 8388608; lia|].
      exact (proj2 R).
  - intros ->. rewrite (rnd_proper HF32 E1).
    assert (E2 : (inject_Z 255 / 255 == 1)%Q) by reflexivity.
    rewrite (rnd_proper HF32 E2). apply (rnd_1 F32 HF32).
Qed.

(** A proxy index as a cell and a channel. *)
Lemma cell_of_index (W H j : Z) :
  0 < W -> 0 <= j < W * H * 4 ->
  exists x y c, 0 <= x < W /\ 0 <= y < H /\ 0 <= c < 4 /\
                j = (y * W + x) * 4 + c.
Proof.
  intros HW Hj. exists ((j / 4) mod W), ((j / 4) / W), (j mod 4).
  assert (Hq : 0 <= j / 4 < W * H) by (Z.div_mod_to_equations; lia).
  assert (Hx := Z.mod_pos_bound (j / 4) W HW).
  assert (E := Z.div_mod (j / 4) W ltac:(lia)).
  assert (Hy : 0 <= j / 4 / W < H).
  { split; [apply Z.div_pos; lia|].
    apply Z.div_lt_upper_bound; [lia|]. lia. }
  split; [lia|]. split; [exact Hy|].
  split; [apply Z.mod_pos_bound; lia|].
  assert (E4 := Z.div_mod j 4 ltac:(lia)). lia.
Qed.

(** [Encode] on an NRGBA image of at most 100 by 100 pixels hashes the
    channels of a proxy that holds the image's bytes over 255. *)
Lemma Encode_small_NRGBA (pix : list Z) (stride : Z) (rect : Rectangle)
    (wb : workBuf) :
  0 < Dx rect <= 100 -> 0 < Dy rect <= 100 -> workBuf_sized wb ->
  exists wb',
    workBuf_sized wb' /\
    (forall x y c, 0 <= x < Dx rect -> 0 <= y < Dy rect -> 0 <= c < 4 ->
       ld 0%Q (rgba wb') ((y * Dx rect + x) * 4 + c)
       = F32 (f32_of_int F32 (ld 0 pix (y * stride + x * 4 + c)) / 255)) /\
    fst (Encode F32 F64 cos64 (NRGBA pix stride rect) wb)
    = Some (pack F32 F64 (Dx rect) (Dy rect)
              (fst (transform F32 F64 cos64 (Dx rect) (Dy rect) wb'))).
Proof.
  intros HW HH Hs.
  destruct (Encode_small F32 F64 cos64 (NRGBA pix stride rect) wb HW HH Hs)
    as (wb' & Hs' & Hp & He).
  cbn [Bounds] in Hp, He.
  exists wb'. split; [exact Hs'|]. split; [|exact He].
  intros x y c Hx Hy Hc. rewrite Hp by nia.
  rewrite extractPixels_NRGBA; try lia; [|rewrite repeat_length; nia].
  do 4 f_equal. lia.
Qed.


End SmallNRGBA.

Section OpaqueNRGBA.
Variables F32 F64 cos64 D64 : Q -> Q.
Hypothesis HF32 : rounding_laws F32.
Hypothesis HF64 : rounding_laws F64.
Hypothesis Hcos : forall x, (-1 <= cos64 x <= 1)%Q.
Hypothesis Hcos0 : forall x, (x == 0)%Q -> (cos64 x == 1)%Q.

(** When [HasAlpha] finds no transparency in an NRGBA image of at most
    100 by 100 pixels (its bytes bytes, its stride a multiple of 4, its
    pixels inside [Pix]), the hash [Encode] returns has the alpha flag
    clear: the decoder takes it as opaque, with 6 header bytes, and the
    hash has between 11 and 38 bytes. *)
Theorem HasAlpha_false_no_alpha_flag (pix : list Z) (stride : Z)
    (rect : Rectangle) (wb : workBuf) :
  0 < Dx rect <= 100 -> 0 < Dy rect <= 100 -> workBuf_sized wb ->
  (forall i, 0 <= ld 0 pix i <= 255) ->
  0 <= stride -> stride mod 4 = 0 ->
  (Dy rect - 1) * stride + Dx rect * 4 <= Z.of_nat (length pix) ->
  HasAlpha (NRGBA pix stride rect) = false ->
  exists hash,
    fst (Encode F32 F64 cos64 (NRGBA pix stride rect) wb) = Some hash /\
    f_hasAlpha (parse D64 hash) = false /\
    f_acOffset (parse D64 hash) = 6 /\
    11 <= Z.of_nat (length hash) <= 38.
Proof.
  intros HW HH Hs Hb Hst Hal Hin HA.
  destruct (Encode_small_NRGBA F32 F64 cos64 pix stride rect wb HW HH Hs)
    as (wb' & Hs' & Hp & He).
  assert (Hu : forall j, 0 <= j < Dx rect * Dy rect * 4 ->
                 (0 <= ld 0%Q (rgba wb') j <= 1)%Q).
  { intros j Hj.
    destruct (cell_of_index (Dx rect) (Dy rect) j ltac:(lia) Hj)
      as (x & y & c & Hx & Hy & Hc & ->).
    rewrite Hp by assumption. apply (byte_over_255 F32 HF32). apply Hb. }
  assert (Hopaque : forall k, 0 <= k -> 4 * k + 3 < Z.of_nat (length pix) ->
                      ld 0 pix (4 * k + 3) = 255).
  { intros k Hk Hlt.
    destruct (Z.ltb_spec (ld 0 pix (4 * k + 3)) 255) as [C|C];
      [|specialize (Hb (4 * k + 3)); lia].
    assert (T : HasAlpha (NRGBA pix stride rect) = true).
    { cbn [HasAlpha]. apply forZ_orb. right. exists k.
      rewrite Z.quot_div_nonneg by lia.
      split; [Z.div_mod_to_equations; lia|]. apply Z.ltb_lt. exact C. }
    congruence. }
  assert (Ho : forall i, 0 <= i < Dx rect * Dy rect ->
                 (ld 0%Q (rgba wb') (i * 4 + 3) == 1)%Q).
  { intros i Hi.
    destruct (cell_of_index (Dx rect) (Dy rect) (i * 4 + 3) ltac:(lia)
                ltac:(lia)) as (x & y & c & Hx & Hy & Hc & E).
    assert (c = 3) by lia. subst c. rewrite E, Hp by (assumption || lia).
    apply (byte_over_255 F32 HF32); [apply Hb|].
    replace (y * stride + x * 4 + 3)
      with (4 * (y * (stride / 4) + x) + 3)
      by (Z.div_mod_to_equations; nia).
    apply Hopaque.
    - assert (0 <= stride / 4) by (apply Z.div_pos; lia). nia.
    - replace (4 * (y * (stride / 4) + x) + 3)
        with (y * stride + x * 4 + 3) by (Z.div_mod_to_equations; nia).
      nia. }
  set (W := Dx rect) in *. set (H := Dy rect) in *.
  assert (B := transform_basis F32 F64 cos64 W H wb').
  assert (Fit := transform_fields_fit F32 F64 cos64 HF32 HF64 Hcos Hcos0
                   W H wb' ltac:(lia) ltac:(lia) Hs' Hu).
  destruct (opaque_channels F32 F64 cos64 HF32 W H wb' ltac:(lia) ltac:(lia)
              Hs' Ho) as (G & _).
  cbv zeta in G.
  set (ch := fst (transform F32 F64 cos64 W H wb')) in *. clearbody ch.
  destruct (hashLen_bounds F32 HF32 W H ch ltac:(lia) ltac:(lia) B)
    as [Hb1 _]. specialize (Hb1 G).
  destruct (parse_pack F32 F64 D64 W H ch Fit ltac:(lia)) as (EA & _ & _).
  exists (pack F32 F64 W H ch).
  split; [exact He|]. rewrite G in EA.
  split; [exact EA|].
  split.
  - assert (Eo : f_acOffset (parse D64 (pack F32 F64 W H ch))
                 = if f_hasAlpha (parse D64 (pack F32 F64 W H ch))
                   then 8 else 6) by reflexivity.
    rewrite Eo, EA. reflexivity.
  - rewrite pack_length. lia.
Qed.

End OpaqueNRGBA.

(** ** Square images *)

Section SquareImages.
Variables F32 F64 cos64 : Q -> Q.
Hypothesis HF32 : rounding_laws F32.


End SquareImages.

(** ** Short hashes *)

Section MissingNibbles.
Variable F64 : Q -> Q.
Hypothesis HF : rounding_laws F64.

Lemma ld_beyond {A : Type} (d : A) (l : list A) (i : Z) :
  Z.of_nat (length l) <= i -> ld d l i = d.
Proof.
  intros Hi. unfold ld. destruct (Z.ltb_spec i 0); [reflexivity|].
  apply nth_overflow. lia.
Qed.

(** The coefficients [readAC] reads past the end of the hash: each
    missing nibble counts as 0, which is the coefficient -1, the most
    negative one, not 0. *)
Theorem missing_nibbles_read_as_minus_one (hash : list Z)
    (acOffset count offset : Z) :
  0 <= count -> 0 <= offset ->
  Z.of_nat (length hash) <= acOffset + offset / 2 ->
  Z.of_nat (length (fst (readAC F64 hash acOffset count offset))) = count /\
  Forall (fun c => (c == -1)%Q) (fst (readAC F64 hash acOffset count offset)).
Proof.
  intros Hc Ho Hend. split; [apply readAC_length; exact Hc|].
  destruct (readAC_nibbles F64 hash acOffset count offset Hc) as [E _].
  rewrite E. apply Forall_forall. intros c Hin.
  apply in_map_iff in Hin. destruct Hin as (k & <- & Hk).
  apply in_map_iff in Hk. destruct Hk as (n & <- & _).
  assert (N : nibbleAt hash acOffset (offset + Z.of_nat n) = 0).
  { unfold nibbleAt, byteAt. cbv zeta.
    rewrite ld_beyond.
    - destruct (Z.rem (offset + Z.of_nat n) 2 =? 0); reflexivity.
    - rewrite Z.shiftr_div_pow2 by lia. change (2 ^ 1) with 2.
      Z.div_mod_to_equations. lia. }
  rewrite N.
  assert (Z0 := rnd_0 F64 HF).
  assert (A1 : (F64 (inject_Z 0 / 15) == 0)%Q).
  { assert (E0 : (inject_Z 0 / 15 == 0)%Q) by reflexivity.
    rewrite (rnd_proper HF E0). exact Z0. }
  assert (A2 : (F64 (F64 (inject_Z 0 / 15) * 2) == 0)%Q).
  { assert (E2 : (F64 (inject_Z 0 / 15) * 2 == 0)%Q) by (rewrite A1; reflexivity).
    rewrite (rnd_proper HF E2). exact Z0. }
  assert (E3 : (F64 (F64 (inject_Z 0 / 15) * 2) - 1 == inject_Z (-1))%Q)
    by (rewrite A2; reflexivity).
  rewrite (rnd_proper HF E3). apply (rnd_int F64 HF). cbn. lia.
Qed.

End MissingNibbles.

(** ** The further properties on the fixtures *)

Lemma gradientPix_bytes (i : Z) : 0 <= ld 0 gradientPix i <= 255.
Proof.
  unfold ld. destruct (i <? 0); [lia|].
  destruct (Z.to_nat i) as [|[|[|[|[|[|[|[|n]]]]]]]]; cbn; try lia.
  destruct n; lia.
Qed.

Lemma placeholder_bitmap_witness :
  5 <= bw (thumbHashToDataURL exact cosine sqrt_run golden_wide None None) <= 32.
Proof.
  assert (W := placeholder_bitmap exact cosine sqrt_run exact_laws
                 golden_wide None None).
  exact (proj1 W).
Defined.

Lemma transform_opaque_witness :
  hasAlpha (fst (transform exact exact cosine_unit 2 1 (proxyBuf opaquePair)))
  = false.
Proof.
  assert (A : forall i, 0 <= i < 2 * 1 ->
                (ld 0%Q (rgba (proxyBuf opaquePair)) (i * 4 + 3) == 1)%Q).
  { intros i Hi. assert (C : i = 0 \/ i = 1) by lia.
    destruct C as [-> | ->]; vm_compute; reflexivity. }
  assert (W := transform_opaque exact exact cosine_unit exact_laws 2 1
                 (proxyBuf opaquePair) ltac:(lia) ltac:(lia)
                 (proxyBuf_sized opaquePair ltac:(cbn; lia)) A).
  exact (proj1 W).
Defined.


Lemma HasAlpha_false_no_alpha_flag_witness :
  exists hash,
    fst (Encode exact exact cosine_unit (NRGBA gradientPix 8 gradientRect)
           newWorkBuf) = Some hash /\
    f_hasAlpha (parse exact hash) = false.
Proof.
  destruct (HasAlpha_false_no_alpha_flag exact exact cosine_unit exact
              exact_laws exact_laws cosine_unit_range cosine_unit_zero
              gradientPix 8 gradientRect newWorkBuf
              ltac:(cbn; lia) ltac:(cbn; lia) newWorkBuf_sized
              gradientPix_bytes ltac:(lia) ltac:(reflexivity)
              ltac:(cbn; lia) ltac:(reflexivity))
    as (hash & He & Ha & _).
  exists hash. split; [exact He|exact Ha].
Defined.


Lemma missing_nibbles_read_as_minus_one_witness :
  Z.of_nat (length (fst (readAC exact [] 6 8 0))) = 8 /\
  Forall (fun c => (c == -1)%Q) (fst (readAC exact [] 6 8 0)).
Proof.
  apply (missing_nibbles_read_as_minus_one exact exact_laws [] 6 8 0).
  - lia.
  - lia.
  - cbn. lia.
Defined.

(** ** The sums of the area downscale *)

Section SpanSums.
Variable pix : list Z.
Hypothesis Hbytes : forall i, 0 <= ld 0 pix i <= 255.

(** The inner loop of [sum4]: four accumulators over one row of a span,
    without wrap-around as long as the sums stay below [2^32]. *)
Lemma sum4_row (n off0 r0 g0 b0 a0 : Z) :
  0 <= n ->
  0 <= r0 -> 0 <= g0 -> 0 <= b0 -> 0 <= a0 ->
  r0 + 255 * n < 2 ^ 32 -> g0 + 255 * n < 2 ^ 32 ->
  b0 + 255 * n < 2 ^ 32 -> a0 + 255 * n < 2 ^ 32 ->
  fst (forZ n (fun _ '((rS, gS, bS, aS), off) =>
         ((uint32 (rS + uint32 (ld 0 pix off)),
           uint32 (gS + uint32 (ld 0 pix (off + 1))),
           uint32 (bS + uint32 (ld 0 pix (off + 2))),
           uint32 (aS + uint32 (ld 0 pix (off + 3)))),
          off + 4)) ((r0, g0, b0, a0), off0))
  = (r0 + sumZ n (fun j => ld 0 pix (off0 + j * 4)),
     g0 + sumZ n (fun j => ld 0 pix (off0 + j * 4 + 1)),
     b0 + sumZ n (fun j => ld 0 pix (off0 + j * 4 + 2)),
     a0 + sumZ n (fun j => ld 0 pix (off0 + j * 4 + 3))).
Proof.
  intros Hn Hr Hg Hb Ha Br Bg Bb Ba.
  assert (G : let st := forZ n (fun _ '((rS, gS, bS, aS), off) =>
                ((uint32 (rS + uint32 (ld 0 pix off)),
                  uint32 (gS + uint32 (ld 0 pix (off + 1))),
                  uint32 (bS + uint32 (ld 0 pix (off + 2))),
                  uint32 (aS + uint32 (ld 0 pix (off + 3)))),
                 off + 4)) ((r0, g0, b0, a0), off0) in
              snd st = off0 + n * 4 /\
              fst st = (r0 + sumZ n (fun j => ld 0 pix (off0 + j * 4)),
                        g0 + sumZ n (fun j => ld 0 pix (off0 + j * 4 + 1)),
                        b0 + sumZ n (fun j => ld 0 pix (off0 + j * 4 + 2)),
                        a0 + sumZ n (fun j => ld 0 pix (off0 + j * 4 + 3)))).
  { cbv zeta.
    apply (forZ_inv (fun k (st : Z * Z * Z * Z * Z) =>
             snd st = off0 + k * 4 /\
             fst st = (r0 + sumZ k (fun j => ld 0 pix (off0 + j * 4)),
                       g0 + sumZ k (fun j => ld 0 pix (off0 + j * 4 + 1)),
                       b0 + sumZ k (fun j => ld 0 pix (off0 + j * 4 + 2)),
                       a0 + sumZ k (fun j => ld 0 pix (off0 + j * 4 + 3)))));
      [exact Hn| |].
    - cbn [fst snd]. split; [lia|].
      unfold sumZ. rewrite !forZ_nonpos by lia. rewrite !Z.add_0_r. reflexivity.
    - intros k [[[[r g] b] a] off] Hk [Eo Es]. cbn [fst snd] in *.
      injection Es as -> -> -> ->. subst off.
      split; [lia|].
      assert (S0 := sumZ_bound k (fun j => ld 0 pix (off0 + j * 4)) 255
                      ltac:(lia) ltac:(intros; apply Hbytes)).
      assert (S1 := sumZ_bound k (fun j => ld 0 pix (off0 + j * 4 + 1)) 255
                      ltac:(lia) ltac:(intros; apply Hbytes)).
      assert (S2 := sumZ_bound k (fun j => ld 0 pix (off0 + j * 4 + 2)) 255
                      ltac:(lia) ltac:(intros; apply Hbytes)).
      assert (S3 := sumZ_bound k (fun j => ld 0 pix (off0 + j * 4 + 3)) 255
                      ltac:(lia) ltac:(intros; apply Hbytes)).
      assert (P0 := Hbytes (off0 + k * 4)).
      assert (P1 := Hbytes (off0 + k * 4 + 1)).
      assert (P2 := Hbytes (off0 + k * 4 + 2)).
      assert (P3 := Hbytes (off0 + k * 4 + 3)).
      rewrite !sumZ_S by lia.
      change (2 ^ 32) with 4294967296 in *.
      rewrite !(uint32_small (ld 0 pix _))
        by (change (2 ^ 32) with 4294967296; lia).
      rewrite !uint32_small by (change (2 ^ 32) with 4294967296; lia).
      apply f_equal2; [apply f_equal2; [apply f_equal2|]|]; lia. }
  cbv zeta in G. exact (proj2 G).
Qed.

(** [sum4] adds the bytes of a span exactly, channel by channel, when
    the span has fewer than [2^32 / 255] pixels: no accumulator wraps. *)
Theorem sum4_exact (stride bY bX4 sx0 sx1 sy0 sy1 : Z) :
  sx0 <= sx1 -> sy0 <= sy1 ->
  (sx1 - sx0) * (sy1 - sy0) * 255 < 2 ^ 32 ->
  let S c :=
    sumZ (sy1 - sy0) (fun k =>
      sumZ (sx1 - sx0) (fun j =>
        ld 0 pix ((bY + (sy0 + k)) * stride + bX4 + sx0 * 4 + j * 4 + c))) in
  sum4 pix stride bY bX4 sx0 sx1 sy0 sy1 = (S 0, S 1, S 2, S 3) /\
  (forall c, 0 <= S c <= 255 * ((sx1 - sx0) * (sy1 - sy0))).
Proof.
  intros Hx Hy Hsz. cbv zeta.
  set (dx := sx1 - sx0) in *. set (dy := sy1 - sy0) in *.
  set (row := fun c k => sumZ dx (fun j =>
                ld 0 pix ((bY + (sy0 + k)) * stride + bX4 + sx0 * 4 + j * 4 + c))).
  assert (Rb : forall c k, 0 <= row c k <= 255 * dx).
  { intros c k. apply sumZ_bound; [lia|]. intros; apply Hbytes. }
  assert (Sb : forall c k, 0 <= k -> 0 <= sumZ k (row c) <= 255 * dx * k).
  { intros c k Hk. apply sumZ_bound; [lia|]. intros; apply Rb. }
  split.
  - unfold sum4. cbv zeta. fold dx dy.
    apply (forZ_inv (fun k (acc : Z * Z * Z * Z) =>
             acc = (sumZ k (row 0), sumZ k (row 1), sumZ k (row 2),
                    sumZ k (row 3)))); [lia| |].
    + unfold sumZ. rewrite !forZ_nonpos by lia. reflexivity.
    + intros k [[[r g] b] a] Hk E. injection E as -> -> -> ->.
      assert (B0 := Sb 0 k ltac:(lia)). assert (B1 := Sb 1 k ltac:(lia)).
      assert (B2 := Sb 2 k ltac:(lia)). assert (B3 := Sb 3 k ltac:(lia)).
      assert (Hk' : 255 * dx * k + 255 * dx <= 255 * dx * dy) by nia.
      rewrite sum4_row by lia.
      rewrite !sumZ_S by lia. unfold row.
      apply f_equal2; [apply f_equal2; [apply f_equal2|]|];
        (apply f_equal2; [reflexivity|]);
        apply sumZ_ext; intros j Hj; f_equal; lia.
  - intros c. fold (row c).
    assert (B := Sb c dy ltac:(lia)). nia.
Qed.

End SpanSums.

Lemma sum4_exact_witness :
  sum4 gradientPix 8 0 0 0 2 0 1
  = (sumZ (1 - 0) (fun k => sumZ (2 - 0) (fun j =>
       ld 0 gradientPix ((0 + (0 + k)) * 8 + 0 + 0 * 4 + j * 4 + 0))),
     sumZ (1 - 0) (fun k => sumZ (2 - 0) (fun j =>
       ld 0 gradientPix ((0 + (0 + k)) * 8 + 0 + 0 * 4 + j * 4 + 1))),
     sumZ (1 - 0) (fun k => sumZ (2 - 0) (fun j =>
       ld 0 gradientPix ((0 + (0 + k)) * 8 + 0 + 0 * 4 + j * 4 + 2))),
     sumZ (1 - 0) (fun k => sumZ (2 - 0) (fun j =>
       ld 0 gradientPix ((0 + (0 + k)) * 8 + 0 + 0 * 4 + j * 4 + 3)))).
Proof.
  assert (W := sum4_exact gradientPix gradientPix_bytes 8 0 0 0 2 0 1
                 ltac:(lia) ltac:(lia) ltac:(reflexivity)).
  exact (proj1 W).
Defined.

(** ** The cells of the area downscale *)

(** The destination-order loop, when every cell stores four values that
    depend on the cell and its two spans only. *)
Lemma forCells_spec (dstW dstH srcW srcH : Z)
    (cell : Z -> Z -> Z * Z -> Z * Z -> list Q -> list Q)
    (val : Z -> Z -> Z * Z -> Z * Z -> Z -> Q) (rgba : list Q) :
  (forall dx dy sx sy s,
     cell dx dy sx sy s
     = upd ((dy * dstW + dx) * 4 + 3) (val dx dy sx sy 3)
         (upd ((dy * dstW + dx) * 4 + 2) (val dx dy sx sy 2)
            (upd ((dy * dstW + dx) * 4 + 1) (val dx dy sx sy 1)
               (upd ((dy * dstW + dx) * 4) (val dx dy sx sy 0) s)))) ->
  0 <= dstW -> 0 <= dstH -> dstW * dstH * 4 <= Z.of_nat (length rgba) ->
  forall dx dy c, 0 <= dx < dstW -> 0 <= dy < dstH -> 0 <= c < 4 ->
    ld 0%Q (forCells dstW dstH srcW srcH cell rgba) ((dy * dstW + dx) * 4 + c)
    = val dx dy (srcSpan dx dstW srcW) (srcSpan dy dstH srcH) c.
Proof.
  intros Hcell Hw Hh Hlen. unfold forCells.
  assert (Cell : forall s dx dy sx sy c,
            0 <= dx < dstW -> 0 <= dy < dstH ->
            length s = length rgba -> 0 <= c < 4 ->
            ld 0%Q (cell dx dy sx sy s) ((dy * dstW + dx) * 4 + c)
            = val dx dy sx sy c).
  { intros s dx dy sx sy c Hx Hy Ls Hc. rewrite Hcell.
    assert (C : c = 0 \/ c = 1 \/ c = 2 \/ c = 3) by lia.
    destruct C as [-> | [-> | [-> | ->]]].
    - rewrite Z.add_0_r, !ld_upd_other by lia. apply ld_upd_same. nia.
    - rewrite !(ld_upd_other 0%Q _ ((dy * dstW + dx) * 4 + 1)) by lia.
      apply ld_upd_same. rewrite upd_length. nia.
    - rewrite (ld_upd_other 0%Q _ ((dy * dstW + dx) * 4 + 2)) by lia.
      apply ld_upd_same. rewrite !upd_length. nia.
    - apply ld_upd_same. rewrite !upd_length. nia. }
  assert (Keep : forall s dx dy sx sy j,
            j < (dy * dstW + dx) * 4 \/ (dy * dstW + dx) * 4 + 4 <= j ->
            ld 0%Q (cell dx dy sx sy s) j = ld 0%Q s j).
  { intros s dx dy sx sy j Hj. rewrite Hcell, !ld_upd_other by lia.
    reflexivity. }
  assert (Len : forall s dx dy sx sy, length (cell dx dy sx sy s) = length s).
  { intros. rewrite Hcell, !upd_length. reflexivity. }
  assert (G : let out :=
                forZ dstH (fun dy rgba0 =>
                  let sy := srcSpan dy dstH srcH in
                  forZ dstW (fun dx rgba1 =>
                    let sx := srcSpan dx dstW srcW in
                    cell dx dy sx sy rgba1) rgba0) rgba in
              length out = length rgba /\
              forall dx dy c, 0 <= dx < dstW -> 0 <= dy < dstH -> 0 <= c < 4 ->
                ld 0%Q out ((dy * dstW + dx) * 4 + c)
                = val dx dy (srcSpan dx dstW srcW) (srcSpan dy dstH srcH) c).
  { cbv zeta.
    apply (forZ_inv (fun k s =>
             length s = length rgba /\
             forall dx dy c, 0 <= dx < dstW -> 0 <= dy < k -> 0 <= c < 4 ->
               ld 0%Q s ((dy * dstW + dx) * 4 + c)
               = val dx dy (srcSpan dx dstW srcW) (srcSpan dy dstH srcH) c));
      [exact Hh| |].
    - split; [reflexivity|]. intros; lia.
    - intros k s Hk (Ls & Hs).
      assert (I : let s' :=
                    forZ dstW (fun dx rgba1 =>
                      cell dx k (srcSpan dx dstW srcW) (srcSpan k dstH srcH)
                           rgba1) s in
                  length s' = length rgba /\
                  (forall dx dy c, 0 <= dx < dstW -> 0 <= dy < k -> 0 <= c < 4 ->
                     ld 0%Q s' ((dy * dstW + dx) * 4 + c)
                     = val dx dy (srcSpan dx dstW srcW) (srcSpan dy dstH srcH) c)
                  /\
                  (forall dx c, 0 <= dx < dstW -> 0 <= c < 4 ->
                     ld 0%Q s' ((k * dstW + dx) * 4 + c)
                     = val dx k (srcSpan dx dstW srcW) (srcSpan k dstH srcH) c)).
      { cbv zeta.
        apply (forZ_inv (fun i s' =>
                 length s' = length rgba /\
                 (forall dx dy c,
                    0 <= dx < dstW -> 0 <= dy < k -> 0 <= c < 4 ->
                    ld 0%Q s' ((dy * dstW + dx) * 4 + c)
                    = val dx dy (srcSpan dx dstW srcW) (srcSpan dy dstH srcH) c)
                 /\
                 (forall dx c, 0 <= dx < i -> 0 <= c < 4 ->
                    ld 0%Q s' ((k * dstW + dx) * 4 + c)
                    = val dx k (srcSpan dx dstW srcW) (srcSpan k dstH srcH) c)));
          [exact Hw| |].
        - split; [exact Ls|]. split; [exact Hs|]. intros; lia.
        - intros i s' Hi (Ls' & Hs' & Hr).
          split; [rewrite Len; exact Ls'|]. split.
          + intros dx dy c Hx Hy Hc. rewrite Keep by nia. apply Hs'; assumption.
          + intros dx c Hx Hc. destruct (Z.eq_dec dx i) as [->|Hne].
            * apply Cell; [lia|lia|exact Ls'|exact Hc].
            * rewrite Keep by nia. apply Hr; lia. }
      cbv zeta in I. destruct I as (Ls' & Hs' & Hr).
      split; [exact Ls'|].
      intros dx dy c Hx Hy Hc. destruct (Z.eq_dec dy k) as [->|Hne].
      + apply Hr; assumption.
      + apply Hs'; [assumption|lia|assumption]. }
  cbv zeta in G. exact (proj2 G).
Qed.

Section DownscaleNRGBA.
Variables F32 F64 : Q -> Q.

(** Channel [c] of a quadruple of sums. *)
Definition sum_of (s : Z * Z * Z * Z) (c : Z) : Z :=
  let '(rS, gS, bS, aS) := s in
  match c with 0 => rS | 1 => gS | 2 => bS | _ => aS end.

(** [dsNRGBA]: channel [c] of proxy cell [(dx, dy)] is the sum of the
    source bytes of its span times the rounded inverse of 255 times the
    number of pixels of the span. *)
Theorem dsNRGBA_cells (pix : list Z) (stride : Z) (rect bounds : Rectangle)
    (srcW srcH dstW dstH : Z) (rgba : list Q) (dx dy c : Z) :
  0 <= dstW -> 0 <= dstH -> dstW * dstH * 4 <= Z.of_nat (length rgba) ->
  0 <= dx < dstW -> 0 <= dy < dstH -> 0 <= c < 4 ->
  let '(sx0, sx1) := srcSpan dx dstW srcW in
  let '(sy0, sy1) := srcSpan dy dstH srcH in
  ld 0%Q (dsNRGBA F32 pix stride rect bounds srcW srcH dstW dstH rgba)
     ((dy * dstW + dx) * 4 + c)
  = F32 (f32_of_int F32
           (sum_of (sum4 pix stride (MinY bounds - MinY rect)
                      ((MinX bounds - MinX rect) * 4) sx0 sx1 sy0 sy1) c)
         * F32 (1 / F32 (f32_of_int F32 ((sy1 - sy0) * (sx1 - sx0)) * 255))).
Proof.
  intros Hw Hh Hlen Hx Hy Hc. unfold dsNRGBA. cbv zeta.
  rewrite (forCells_spec dstW dstH srcW srcH _
             (fun _ _ sx sy c =>
                F32 (f32_of_int F32
                       (sum_of (sum4 pix stride (MinY bounds - MinY rect)
                                  ((MinX bounds - MinX rect) * 4)
                                  (fst sx) (snd sx) (fst sy) (snd sy)) c)
                     * F32 (1 / F32 (f32_of_int F32
                                       ((snd sy - fst sy) * (snd sx - fst sx))
                                     * 255)))));
    try assumption.
  - destruct (srcSpan dx dstW srcW) as [sx0 sx1].
    destruct (srcSpan dy dstH srcH) as [sy0 sy1]. reflexivity.
  - intros x y [sx0 sx1] [sy0 sy1] s. cbn [fst snd].
    destruct (sum4 pix stride (MinY bounds - MinY rect)
                ((MinX bounds - MinX rect) * 4) sx0 sx1 sy0 sy1)
      as [[[rS gS] bS] aS].
    reflexivity.
Qed.

End DownscaleNRGBA.

Lemma dsNRGBA_cells_witness :
  let '(sx0, sx1) := srcSpan 0 1 2 in
  let '(sy0, sy1) := srcSpan 0 1 1 in
  ld 0%Q (dsNRGBA exact gradientPix 8 gradientRect gradientRect 2 1 1 1
            (repeat 0%Q 4)) ((0 * 1 + 0) * 4 + 0)
  = exact (f32_of_int exact
             (sum_of (sum4 gradientPix 8 (MinY gradientRect - MinY gradientRect)
                        ((MinX gradientRect - MinX gradientRect) * 4)
                        sx0 sx1 sy0 sy1) 0)
           * exact (1 / exact (f32_of_int exact ((sy1 - sy0) * (sx1 - sx0)) * 255))).
Proof.
  apply (dsNRGBA_cells exact gradientPix 8 gradientRect gradientRect 2 1 1 1
           (repeat 0%Q 4) 0 0 0); cbn; lia.
Defined.

(** ** Images without an alpha channel *)




Section ProxyOfYCbCr.
Variables F32 F64 : Q -> Q.
Hypothesis HF32 : rounding_laws F32.





End ProxyOfYCbCr.


Section EncodeProxy.
Variables F32 F64 cos64 D64 : Q -> Q.
Hypothesis HF32 : rounding_laws F32.
Hypothesis HF64 : rounding_laws F64.
Hypothesis Hcos : forall x, (-1 <= cos64 x <= 1)%Q.
Hypothesis Hcos0 : forall x, (x == 0)%Q -> (cos64 x == 1)%Q.




End EncodeProxy.



(** ** The alpha of a decoded bitmap *)

(** A row-major loop that stores four entries per cell, the fourth
    always the same: afterwards every fourth entry holds it. *)
Lemma grid_alpha (w h : Z) (body : Z -> Z -> list Z -> list Z) (v3 : Z)
    (rgba : list Z) :
  (forall x y s,
     exists v0 v1 v2,
       body x y s
       = upd ((y * w + x) * 4 + 3) v3
           (upd ((y * w + x) * 4 + 2) v2
              (upd ((y * w + x) * 4 + 1) v1
                 (upd ((y * w + x) * 4) v0 s)))) ->
  0 <= w -> 0 <= h -> w * h * 4 <= Z.of_nat (length rgba) ->
  forall k, 0 <= k < w * h ->
    ld 0 (forZ h (fun y s => forZ w (fun x s' => body x y s') s) rgba)
       (4 * k + 3) = v3.
Proof.
  intros Hbody Hw Hh Hlen.
  assert (Step : forall x y s,
            0 <= x < w -> 0 <= y < h -> length s = length rgba ->
            (forall k, 0 <= k < y * w + x -> ld 0 s (4 * k + 3) = v3) ->
            length (body x y s) = length rgba /\
            forall k, 0 <= k < y * w + x + 1 ->
              ld 0 (body x y s) (4 * k + 3) = v3).
  { intros x y s Hx Hy Ls Hs.
    destruct (Hbody x y s) as (v0 & v1 & v2 & ->).
    split; [rewrite !upd_length; exact Ls|].
    intros k Hk. destruct (Z.eq_dec k (y * w + x)) as [->|Hne].
    - replace (4 * (y * w + x) + 3) with ((y * w + x) * 4 + 3) by lia.
      apply ld_upd_same. rewrite !upd_length. nia.
    - rewrite !ld_upd_other by lia. apply Hs. lia. }
  assert (G : let out := forZ h (fun y s => forZ w (fun x s' => body x y s') s)
                           rgba in
              length out = length rgba /\
              forall k, 0 <= k < w * h -> ld 0 out (4 * k + 3) = v3).
  { cbv zeta.
    assert (G0 : length (forZ h (fun y s => forZ w (fun x s' => body x y s') s)
                           rgba) = length rgba /\
                 forall k, 0 <= k < h * w ->
                   ld 0 (forZ h (fun y s => forZ w (fun x s' => body x y s') s)
                           rgba) (4 * k + 3) = v3).
    { apply (forZ_inv (fun y s =>
               length s = length rgba /\
               forall k, 0 <= k < y * w -> ld 0 s (4 * k + 3) = v3));
        [exact Hh| |].
      - split; [reflexivity|]. intros; lia.
      - intros y s Hy (Ls & Hs).
        assert (I : length (forZ w (fun x s' => body x y s') s) = length rgba /\
                    forall k, 0 <= k < y * w + w ->
                      ld 0 (forZ w (fun x s' => body x y s') s) (4 * k + 3) = v3).
        { apply (forZ_inv (fun x s' =>
                   length s' = length rgba /\
                   forall k, 0 <= k < y * w + x -> ld 0 s' (4 * k + 3) = v3));
            [exact Hw| |].
          - split; [exact Ls|]. intros k Hk. apply Hs. lia.
          - intros x s' Hx (Ls' & Hs').
            destruct (Step x y s' Hx Hy Ls' Hs') as [L1 H1].
            split; [exact L1|]. intros k Hk. apply H1. lia. }
        destruct I as [L1 H1]. split; [exact L1|].
        intros k Hk. apply H1. lia. }
    destruct G0 as [L0 H0]. split; [exact L0|].
    intros k Hk. apply H0. lia. }
  cbv zeta in G. exact (proj2 G).
Qed.

Section DecodedAlpha.
Variables F64 cos64 sqrt64 : Q -> Q.
Hypothesis HF : rounding_laws F64.

Lemma opaque_byte_255 :
  toUint8 (clamp255 (Math_round (F64 (1 * 255)))) = 255.
Proof.
  assert (E : (F64 (1 * 255) == inject_Z 255)%Q).
  { assert (E1 : (1 * 255 == inject_Z 255)%Q) by reflexivity.
    rewrite (rnd_proper HF E1). apply (rnd_int F64 HF). cbn. lia. }
  rewrite (Math_round_proper _ _ E), Math_round_Z. reflexivity.
Qed.

(** The loops after the reconstruction store no alpha. *)
Lemma alpha_kept (n m : Z) (step : Z -> list Z -> list Z) (rgba : list Z) :
  (forall k s, exists v0 v1 v2,
     step k s = upd (4 * k + 2) v2 (upd (4 * k + 1) v1 (upd (4 * k) v0 s))) ->
  (forall k, 0 <= k < m -> ld 0 rgba (4 * k + 3) = 255) ->
  forall k, 0 <= k < m -> ld 0 (forZ n step rgba) (4 * k + 3) = 255.
Proof.
  intros Hstep H0.
  apply (forZ_keeps (fun s => forall k, 0 <= k < m -> ld 0 s (4 * k + 3) = 255));
    [exact H0|].
  intros i s Hi Hs k Hk.
  destruct (Hstep i s) as (v0 & v1 & v2 & ->).
  rewrite !ld_upd_other by lia. apply Hs. exact Hk.
Qed.

Lemma attenuateChroma_alpha (rgba : list Z) (c : Q) (m : Z) :
  (forall k, 0 <= k < m -> ld 0 rgba (4 * k + 3) = 255) ->
  forall k, 0 <= k < m -> ld 0 (attenuateChroma F64 rgba c) (4 * k + 3) = 255.
Proof.
  intros H0. unfold attenuateChroma. cbv zeta.
  apply alpha_kept; [|exact H0].
  intros k s. do 3 eexists. reflexivity.
Qed.

Lemma applyBiasCorrection_alpha (rgba : list Z) (n : Z) (t : list Q) (gain : Q)
    (m : Z) :
  (forall k, 0 <= k < m -> ld 0 rgba (4 * k + 3) = 255) ->
  forall k, 0 <= k < m ->
    ld 0 (applyBiasCorrection F64 rgba n t gain) (4 * k + 3) = 255.
Proof.
  intros H0. unfold applyBiasCorrection.
  destruct (computeAvgRGB F64 rgba n) as [[avgR avgG] avgB]. cbv zeta.
  apply alpha_kept; [|exact H0].
  intros k s. do 3 eexists. reflexivity.
Qed.

(** The raw bitmap of a hash without the alpha flag is opaque. *)
Lemma reconstruct_opaque (hash : list Z) (w h : Z) :
  f_hasAlpha (parse F64 hash) = false -> 0 <= w -> 0 <= h ->
  forall k, 0 <= k < w * h ->
    ld 0 (reconstruct F64 cos64 (parse F64 hash)
            (readAll F64 hash (parse F64 hash)) w h
            (repeat 0 (Z.to_nat (w * h * 4)))) (4 * k + 3) = 255.
Proof.
  intros HA Hw Hh k Hk. unfold reconstruct.
  destruct (readAll F64 hash (parse F64 hash)) as [[[lAC pAC] qAC] aAC].
  assert (Ea : f_aDC (parse F64 hash)
               = if f_hasAlpha (parse F64 hash)
                 then F64 (inject_Z (Z.land (alphaWord hash) 15) / 15)
                 else 1%Q) by reflexivity.
  rewrite HA in Ea.
  set (f := parse F64 hash) in *. clearbody f.
  transitivity (toUint8 (clamp255 (Math_round (F64 (1 * 255)))));
    [|apply opaque_byte_255].
  apply (grid_alpha w h); [|exact Hw|exact Hh|rewrite repeat_length; nia|exact Hk].
  intros x y s. cbv zeta. rewrite HA. cbv iota. rewrite Ea.
  do 3 eexists. reflexivity.
Qed.

(** A hash without the alpha flag decodes to an opaque bitmap: on every
    path of [thumbHashToDataURL], every pixel has the alpha byte 255. *)
Theorem decoded_without_alpha_is_opaque (hash : list Z) (chroma : option Q)
    (avgColor : option (list Q)) :
  f_hasAlpha (parse F64 hash) = false ->
  forall k,
    0 <= k < bw (thumbHashToDataURL F64 cos64 sqrt64 hash chroma avgColor)
             * bh (thumbHashToDataURL F64 cos64 sqrt64 hash chroma avgColor) ->
    ld 0 (pixels (thumbHashToDataURL F64 cos64 sqrt64 hash chroma avgColor))
       (4 * k + 3) = 255.
Proof.
  intros HA.
  assert (Raw : forall c k,
            0 <= k < bw (thumbHashToRGBA F64 cos64 hash c)
                     * bh (thumbHashToRGBA F64 cos64 hash c) ->
            ld 0 (pixels (thumbHashToRGBA F64 cos64 hash c)) (4 * k + 3) = 255).
  { intros c. assert (R := outSize_range F64 HF hash).
    unfold thumbHashToRGBA. destruct (outSize F64 (parse F64 hash)) as [w h].
    cbn [bw bh pixels]. destruct R as (Rw & Rh & _).
    assert (B := reconstruct_opaque hash w h HA ltac:(lia) ltac:(lia)).
    destruct c as [c|]; [destruct (Qltb c 1)|]; try exact B.
    apply attenuateChroma_alpha. exact B. }
  unfold thumbHashToDataURL.
  destruct avgColor as [t|]; [|apply Raw].
  destruct (3 <=? Z.of_nat (length t)); [|apply Raw].
  assert (R0 := Raw None).
  set (bm := thumbHashToRGBA F64 cos64 hash None) in *. clearbody bm.
  cbv zeta. cbn [bw bh pixels].
  apply applyBiasCorrection_alpha.
  destruct (Qltb _ 1); [apply attenuateChroma_alpha|]; exact R0.
Qed.

End DecodedAlpha.

Lemma decoded_without_alpha_is_opaque_witness :
  ld 0 (pixels (thumbHashToDataURL exact cosine sqrt_run golden_wide None None))
     (4 * 0 + 3) = 255.
Proof.
  apply (decoded_without_alpha_is_opaque exact cosine sqrt_run exact_laws
           golden_wide None None).
  - reflexivity.
  - change (thumbHashToDataURL exact cosine sqrt_run golden_wide None None)
      with (thumbHashToRGBA exact cosine golden_wide None).
    destruct (decoded_bitmap exact cosine exact_laws golden_wide None)
      as (Bw & Bh & _).
    nia.
Defined.

(** ** Loads inside the planes *)











Section LoadsInRange.
Variable F32 : Q -> Q.




End LoadsInRange.

(** The check fails where the Go function panics: a 2 by 2 image with a
    single pixel in [Pix]. *)
Lemma short_Pix_fails :
  planeLoads_ok exact (NRGBA [1; 2; 3; 255] 4 (Enc.Rect 0 0 2 2)) = false.
Proof. reflexivity. Qed.

